(* ===== verification/_CoqProject ===== *)
-Q . S2P
Prelude.v
Heap.v
IteratorOps.v
Policy.v
CacheManager.v
FreeSpace.v
LimitedMap.v
IndexIterators.v
RangeInsert.v
RangeErase.v
FacadeOps.v
Machine.v
Refinement.v
Scenarios.v
