(* ===== verification/Prelude.v ===== *)
(** * A verification development for Extended Associative Containers

    The repository (sodmitriev/Extened-Associative-Containers) is a C++17
    header-only library of size-limited associative containers.  Its parts:

    - [src/cache_manager/base.h]: the intrusive node of the replacement list,
      [cache_node] (prev, next and, in debug builds, the cached weight), the
      stored node [stored_node<T> = pair<const T, cache_node<T>>] and the
      pointer primitives [__prev], [__next], [__link].
    - [src/cache_manager/replacement_iterator.h]: the bidirectional iterator
      over the circular list and [iterator_operations], the O(1) list surgery
      used by policies: [move], [iter_swap], [swap_ranges], [reverse],
      [rotate].
    - [src/cache_manager/policy.h]: the optional-hook policy interface
      ([policy_extractor]: [insert_position], [erase_position], [access]
      with their defaults) and the built-in policies [fifo], [lifo], [lru],
      [mru], [swapping], [locked_policy] and [priority_policy].
    - [src/cache_manager/cache_manager.h]: the replacement manager, owner of
      the sentinel node, of the capacity and of the running total weight.
    - [src/limited/unordered_map.h] and [src/limited/base.h]: the bounded
      map facade, a [std::unordered_map] whose nodes are threaded into the
      manager's list, with the eviction loop [freeSpace] and its rollback.

    ** Files of the development and what they model

    - [Prelude] (this file): machine-width [size_t] arithmetic (a 64-bit
      unsigned integer kept as a [Z] with its wrap-around written out),
      the [cache_scope] notations, the [cache] hint database, list lemmas
      and the tactics the other files share.
    - [Heap]: the memory the C++ code manipulates through raw pointers: a
      finite map from addresses ([ptr], [N] with [0] as [nullptr]) to
      [stored_node]s, [__prev]/[__next]/[__link] as in [base.h], and the
      representation predicate [dlist h s xs]: the circular list whose
      sentinel is at [s] holds, in replacement order, the nodes [xs]
      ([ring h (s :: xs)]: every node's [__next] is its successor in the
      circle and [__prev] its predecessor).  The regrouping lemmas
      ([ring_regroup] and its tactics) cut a ring into groups of
      consecutive nodes and relink them, and carry every proof about
      pointer surgery; [same_payload] ([≈ₚ]) is the setoid of heaps with
      the same values and weights, under which the readers are [Proper].
    - [IteratorOps]: [iterator_operations] of [replacement_iterator.h];
      each operation is a sequence of [__link]s on the heap, and each is
      proved to refine an operation on the abstract list ([move] moves a
      segment, [iter_swap] exchanges two nodes, [swap_ranges] exchanges two
      segments, [reverse] reverses one; [reverse]'s loop runs on fuel, and
      the fuel [S (size h)] is proved enough).  [move(first, first, dest)]
      with an empty range is proved, on every list, to cut [[first,
      dest)] out into a ring of its own; [reverse(first, first)], a
      one-element range by the comment of [reverse], is run on a concrete
      list, where it breaks the list.
    - [Policy]: the policy interface as a record of optional hooks (the
      source detects hooks by SFINAE) with the defaults of
      [policy_extractor], the built-in policies, the laws a policy must
      satisfy for the manager to stay well formed (the type class
      [PolicyLaws], the interface between the policies and the manager:
      positions inside the list, permutation and payload preservation by
      [access], and locality, i.e. the victim depends only on the nodes of
      the list, so writing a value elsewhere in the heap does not change it)
      and its instances for every built-in policy and for the two
      wrappers; the loops of [locked_policy] and [priority_policy] run on
      fuel and are proved to return.  The priority policy's result on
      [[end, end)] is characterised exactly, and on two neighbours of
      priorities [P + 1] and [P] it is proved to differ from the rule
      its documentation comment states.
    - [CacheManager]: [cache_manager]: its state as a record, each member
      function as a function on (manager, heap), the invariant
      [manager_inv] (list well formed, the total weight is the sum of the
      node weights and at most the capacity, cached weights right) and its
      preservation by [insert], [erase], [erase(first, last)],
      [update_weight], [access] and [clear] under any lawful policy, the
      erase/reinsert round trip, the results of [next] and [next_except],
      the move constructor, [insert] at the node the policy's
      [insert_position] returns, [access] under each built-in policy, and
      the [size_t] overflow of [can_fit]: on any well-formed manager, a
      weight whose sum with [_weight] wraps to at most the capacity passes
      [can_fit], after which [insert] breaks the invariant.
    - [FreeSpace]: the manager part of [unordered_map::freeSpace] (both
      overloads): the eviction loop on fuel [S (size h)], enough because
      every round that does not return unlinks a node of the list, and the
      rollback by [reinsert] in reverse order.  Theorems: the loop always
      returns; failure gives back the manager and heap exactly; success
      leaves a well-formed list without the victims and frees at least the
      requested weight; [except] is never a victim.
    - [LimitedMap]: the facade [limited::unordered_map]: its state is the
      index ([gmap] from keys to node addresses, modelling
      [std::unordered_map] from its contract) and the manager, over the
      shared heap, and every operation is a computation in a state and
      exception monad [M] ([no_space_error], [std::out_of_range]).  The
      invariant [umap_inv] says the index and the list hold the same nodes
      and the manager's invariant holds; [facade_inv] generalises it to
      nodes indexed but not linked yet, the state inside [insert] and
      [insert(node)].  Theorems: [insert] (present key: no change; absent
      key: atomic [no_space_error] or the entry linked), [erase(key)],
      [at], [clear], the public [free_space], and the round trip
      [extract(key)] then [insert(node)], which never evicts, and the
      atomicity of [assign(it, obj)]: between [_map.extract] and
      [_map.insert] the state is the container with [it]'s key hidden from
      the index and the new value written into [it] ([hide]); the eviction
      loop that spares [it] commutes with [hide], so on [no_space_error]
      the old value and the index entry come back exactly.  The
      invariant is decidable, and the witnesses run on a concrete
      three-entry container.
    - [IndexIterators]: the index's iterators ([wrapped_iterator] of
      [limited/base.h]: [*], both [++], [==]; [begin()] and [end()]) as
      the remaining part of the index's iteration sequence, and the
      extracted node handle ([key_value_node_wrapper]: [empty()],
      [key()], [mapped()]).  Theorems: the reading loop of
      [insert(first, last)] over [begin()] .. [end()] stops after
      [size()] rounds and reads exactly [index_values], the list the
      range insert and the copies consume; the handle [extract(key)]
      returns holds the key and its mapped value, or is empty when the
      key is absent.
    - [RangeInsert]: the range [insert(first, last)] and what is built on
      it.  The reference [range_new] states what
      [std::unordered_map::insert(first, last)] adds (the first entry of
      each absent key); the index phase is proved to keep a state from
      which erasing the pending keys gives back the container exactly
      ([range_state], [undo_keys], [undo_nodes]).  Theorems: the range
      insert is atomic and adds exactly [range_new] when no [size_t]
      addition of the weights can wrap; a new container is well formed;
      the copy constructor never throws and has the same entries.
    - [RangeErase]: both [erase(first, last)] overloads.  Over
      replacement iterators, the keys of a segment of the list are
      extracted from the index ([map_extract_key], the [std] contract),
      the manager unlinks the segment, and the extracted node handles
      free the nodes; over index iterators, the nodes are unlinked one by
      one (they become pending, [facade_inv]) and then erased from the
      index.  Theorems: both remove exactly the range, keep the other
      entries and the invariant.
    - [FacadeOps]: the other public operations of the facade, specified
      from the run lemmas above: the lookups ([find], [count],
      [contains], [at], [replacement_find]) equal their [quiet_] forms
      followed by [access(key)]; [operator[]], [emplace], [try_emplace]
      and [insert_or_assign] leave the key mapped to the entry or throw
      with nothing changed; [erase] of an index iterator and of a
      replacement iterator remove exactly the entry; [provide_space];
      [operator=(initializer_list)], which, when the exact sum of the
      weights (duplicates included) is a [size_t], throws before clearing
      or holds exactly [range_new] of the list, and which, when that sum
      wraps to at most the capacity, clears the container anyway, losing
      the old entries even when it then throws; and the copy assignment
      [copy_assign]
      ([operator=(const unordered_map&)]: a fresh manager moved into
      [_manager], [_map.clear()], then the range insert of the other
      container's entries), which from a distinct well-formed container
      never throws and copies every entry, and which, having no
      self-assignment check, empties any container assigned to itself.
    - [Machine]: the container as a state machine.  The public
      operations (the insertions, lookups, erasures, assignments, range
      operations, [free_space], [provide_space] and [clear]) are the
      commands of [op], run by [run_op] with the caller's obligations
      [pre] (range weights whose [size_t] sums cannot wrap, a range of
      the list, dereferenceable and distinct iterators); [step] runs one
      command and [reachable] closes the constructors (the empty
      container and the copy of a reachable one) under [step].  Theorems,
      by rule induction on [reachable]: every reachable state satisfies
      [umap_inv], and no command issued from one runs out of fuel
      ([loop_exhausted] is never the result).
    - [Refinement]: the container refines a finite map that may evict.
      [abs] reads the map a state represents (each key of the index with
      the mapped value of its node); [intended o st] is the map an
      unbounded [std::unordered_map] holds after the command [o], and
      [written o st] the entries [o] must leave in place.  Theorem: every
      command issued from a reachable state throws with the state
      unchanged, or leaves a map between [written] and [intended]; for the
      commands that make no room the two coincide, so the map is exactly
      the one [std::unordered_map] would hold, and for the others the
      missing entries are the evicted ones.
    - [Scenarios]: concrete runs, by [vm_compute], that illustrate the
      theorems: the six end-to-end scenarios of the specification (the
      replacement order, the index and the weight they end with are those
      the specification states); the [size_t] sum of the range insert
      wrapping on a weight of at least [2^64 - capacity], which
      [insert_range_spec] excludes by its bound; the list assignment's
      wrap and duplicate counting; a copy that does not keep the
      replacement order of the original; and [m = m] leaving [map3]
      empty.  The witness of the list assignment's wrap theorem is here.

    ** Fuel

    Every loop of the source is a [Fixpoint] on fuel that returns [None]
    (or [loop_exhausted]) when the fuel runs out.  The fuel is always
    [S (size h)]: the loops walk the circular list, which has fewer nodes
    than the heap, or unlink a node per round.  The theorems prove that
    this fuel suffices, so the fuel never weakens a result; [Machine]
    gathers these proofs into one theorem over every reachable state.

    ** What is not modelled

    - allocators, hashing and the bucket interface ([bucket],
      [bucket_count], [rehash], [reserve], [load_factor]): the index is a
      finite map from keys to node addresses, which is what
      [std::unordered_map] provides to the facade;
    - [equal_range], the bucket ([local_iterator]) iterators, the const
      conversions and [swap] of the iterator wrappers, [key_node_wrapper]
      and the [insert_return_type] wrappers of [limited/base.h], which
      only move values between types, and the [catch (...)] paths of the
      range [erase] overloads, reached only by exceptions of user code;
      the index's iteration order is [map_to_list], which stands for the
      hash table's unspecified order;
    - the initializer-list and allocator-extended constructors (the
      capacity, range and copy constructors and the copy assignment are
      modelled), and the move constructor and move assignment of the
      facade, which are the manager's;
    - exceptions thrown by user code (hash, equality, weigher, copy
      constructors) and allocation failure: the only exceptions modelled
      are [no_space_error] and [std::out_of_range];
    - the tests under [Tests/] and [tests/].
    - debug-only assertions are preconditions of the theorems, not checks
      of the model: the model follows the release ([NDEBUG]) build, and the
      theorems show when the assertions hold. *)

From stdpp Require Export base gmap list.
From Stdlib Require Export ZArith Lia.

Open Scope Z_scope.
#[export] Set Warnings "-clear-no-such-hyp".

(** ** [size_t]: 64-bit unsigned arithmetic with wrap-around *)

Definition size_width : Z := 64.
Definition size_modulus : Z := 2 ^ size_width.

(** [std::numeric_limits<size_t>::max()] *)
Definition size_max : Z := size_modulus - 1.

(** The conversion of a mathematical integer to [size_t]. *)
Definition to_size (z : Z) : Z := z mod size_modulus.

Definition size_add (a b : Z) : Z := to_size (a + b).
Definition size_sub (a b : Z) : Z := to_size (a - b).

(** A value of type [size_t]. *)
Definition is_size (z : Z) : Prop := 0 <= z < size_modulus.

Declare Scope cache_scope.
Delimit Scope cache_scope with cache.
Notation "a +ₛ b" := (size_add a b) (at level 50, left associativity) : cache_scope.
Notation "a -ₛ b" := (size_sub a b) (at level 50, left associativity) : cache_scope.
Open Scope cache_scope.

Create HintDb cache.
Create Rewrite HintDb cache_rw.

Lemma size_modulus_pos : 0 < size_modulus.
Proof. unfold size_modulus, size_width. lia. Qed.

Lemma size_modulus_val : size_modulus = 18446744073709551616.
Proof. reflexivity. Qed.

Lemma to_size_range (z : Z) : is_size (to_size z).
Proof. unfold is_size, to_size. pose proof size_modulus_pos. apply Z.mod_pos_bound. lia. Qed.

Lemma to_size_id (z : Z) : is_size z -> to_size z = z.
Proof. unfold is_size, to_size. intros. apply Z.mod_small. lia. Qed.

Lemma size_add_exact (a b : Z) :
  0 <= a -> 0 <= b -> a + b < size_modulus -> a +ₛ b = a + b.
Proof. intros. apply to_size_id. unfold is_size. lia. Qed.

Lemma size_sub_exact (a b : Z) :
  0 <= b <= a -> a < size_modulus -> a -ₛ b = a - b.
Proof. intros. apply to_size_id. unfold is_size. lia. Qed.

(** A sum of two [size_t]s that reaches [SIZE_MAX + 1] wraps once. *)
Lemma size_add_wrap (a b : Z) :
  is_size a -> is_size b -> size_modulus <= a + b -> a +ₛ b = a + b - size_modulus.
Proof. unfold is_size, size_add, to_size. intros. symmetry. apply (Z.mod_unique _ _ 1); lia. Qed.

Lemma size_add_range (a b : Z) : is_size (a +ₛ b).
Proof. apply to_size_range. Qed.

Lemma size_sub_range (a b : Z) : is_size (a -ₛ b).
Proof. apply to_size_range. Qed.

#[export] Hint Resolve to_size_range size_add_range size_sub_range : cache.

(** Unfold [is_size] and the modulus so that [lia] sees the bounds. *)
Ltac size_lia :=
  unfold is_size, size_max in *; rewrite ?size_modulus_val in *; lia.

(** ** Lists *)

(** The element a C++ iterator range starts at: the head of the list, or
    the end position [e] when the list is empty. *)
Definition hd_or {A} (e : A) (l : list A) : A := default e (head l).

Lemma hd_or_app_cons {A} (e x : A) (l1 l2 : list A) :
  hd_or e (l1 ++ x :: l2) = hd_or x l1.
Proof. destruct l1; reflexivity. Qed.

Lemma hd_or_cons {A} (e x : A) (l : list A) : hd_or e (x :: l) = x.
Proof. reflexivity. Qed.

Lemma hd_or_nil {A} (e : A) : hd_or e [] = e.
Proof. reflexivity. Qed.

(** The element before the end of a range: the last element of the list,
    or [e] when the list is empty. *)
Definition lst_or {A} (e : A) (l : list A) : A := default e (last l).

Lemma lst_or_cons {A} (e x : A) (l : list A) : lst_or e (x :: l) = lst_or x l.
Proof.
  unfold lst_or. revert x. induction l as [|y l IH]; intros x; [done|].
  rewrite last_cons_cons. destruct l; [done|]. rewrite last_cons_cons. apply IH.
Qed.

Lemma lst_or_nil {A} (e : A) : lst_or e [] = e.
Proof. reflexivity. Qed.

Lemma lst_or_snoc {A} (e x : A) (l : list A) : lst_or e (l ++ [x]) = x.
Proof. unfold lst_or. by rewrite last_snoc. Qed.

Lemma lst_or_app_cons {A} (e x : A) (l1 l2 : list A) : lst_or e (l1 ++ x :: l2) = lst_or x l2.
Proof.
  revert e. induction l1 as [|y l1 IH]; intros e; simpl; [apply lst_or_cons|].
  rewrite lst_or_cons. apply IH.
Qed.

Lemma hd_or_app_ne {A} (e : A) (l1 l2 : list A) : l1 <> [] -> hd_or e (l1 ++ l2) = hd_or e l1.
Proof. by destruct l1. Qed.

Lemma hd_or_cons_app {A} (e x : A) (l1 l2 : list A) : hd_or e ((x :: l1) ++ l2) = x.
Proof. reflexivity. Qed.

Lemma hd_or_rev {A} (e : A) (l : list A) : hd_or e (rev l) = lst_or e l.
Proof.
  destruct l as [|x l] using rev_ind; [done|].
  by rewrite rev_unit, hd_or_cons, lst_or_snoc.
Qed.

Lemma lst_or_rev {A} (e : A) (l : list A) : lst_or e (rev l) = hd_or e l.
Proof. destruct l as [|x l]; [done|]. simpl. by rewrite lst_or_snoc. Qed.

Arguments hd_or : simpl never.
Arguments lst_or : simpl never.

#[export] Hint Rewrite @hd_or_cons @hd_or_nil @lst_or_nil @lst_or_snoc : cache_rw.

(** The middle element of a duplicate-free list is not in the rest. *)
Lemma nodup_mid {U} (A B : list U) r : NoDup (A ++ r :: B) -> r ∉ A ++ B.
Proof.
  intros Hnd. apply NoDup_app in Hnd as (_ & Hdis & Hnd). apply NoDup_cons in Hnd as [HrB _].
  intros [Hr|Hr]%elem_of_app; [by apply (Hdis r Hr); left|done].
Qed.

(** Filters that agree on the elements of a list agree on the list. *)
Lemma filter_in_ext {A} (P Q : A -> Prop) `{!forall x, Decision (P x), !forall x, Decision (Q x)}
    (l : list A) :
  (forall x, x ∈ l -> P x <-> Q x) -> filter P l = filter Q l.
Proof.
  induction l as [|a l IH]; intros HPQ; [done|].
  rewrite !filter_cons, IH by (intros; apply HPQ; set_solver).
  assert (P a <-> Q a) by (apply HPQ; set_solver).
  destruct (decide (P a)), (decide (Q a)); naive_solver.
Qed.

(** Split every [NoDup] hypothesis on a concatenation into its membership
    facts, so that [set_solver] proves the disequalities between nodes. *)
Ltac nodup_split :=
  repeat match goal with
  | H : NoDup (_ :: _) |- _ => apply NoDup_cons in H as [? ?]
  | H : NoDup (_ ++ _) |- _ => apply NoDup_app in H as (? & ? & ?)
  | H : NoDup [] |- _ => clear H
  end.

(** Folds whose steps agree on the elements of a list agree on the list. *)
Lemma foldl_ext_in {A B} (f g : A -> B -> A) (l : list B) (a : A) :
  (forall x b, x ∈ l -> f b x = g b x) -> foldl f a l = foldl g a l.
Proof.
  revert a. induction l as [|x l IH]; intros a Hfg; [done|].
  cbn [foldl]. rewrite Hfg by (by left). apply IH. intros; apply Hfg; by right.
Qed.

(** Deleting, one after another, the keys [f x] of the elements of a list
    from a finite map: the undo of a sequence of insertions. *)
Section FoldDelete.
Context `{FinMap K M} {A B : Type} (f : B -> K).

Lemma foldl_delete_lookup_notin (m : M A) k l :
  k ∉ map f l -> foldl (fun m x => delete (f x) m) m l !! k = m !! k.
Proof.
  revert m. induction l as [|x l IH]; intros m Hk; [done|]. cbn [foldl].
  rewrite IH by (intros ?; apply Hk; by right). apply lookup_delete_ne. intros <-. apply Hk. by left.
Qed.

Lemma foldl_delete_lookup_None (m : M A) k l :
  m !! k = None -> foldl (fun m x => delete (f x) m) m l !! k = None.
Proof.
  revert m. induction l as [|x l IH]; intros m Hk; [done|]. cbn [foldl]. apply IH.
  by rewrite lookup_delete_None; right.
Qed.

Lemma foldl_delete_lookup_in (m : M A) k l :
  k ∈ map f l -> foldl (fun m x => delete (f x) m) m l !! k = None.
Proof.
  revert m. induction l as [|x l IH]; intros m Hk; [set_solver|]. cbn [foldl].
  destruct (decide (k ∈ map f l)) as [Hin|Hin]; [by apply IH|].
  rewrite foldl_delete_lookup_notin by done. apply lookup_delete_None. left.
  cbn [map] in Hk. apply elem_of_cons in Hk as [->|]; [done|contradiction].
Qed.

Lemma foldl_delete_insert (m : M A) k v l :
  k ∉ map f l -> foldl (fun m x => delete (f x) m) (<[k := v]> m) l = <[k := v]> (foldl (fun m x => delete (f x) m) m l).
Proof.
  revert m. induction l as [|x l IH]; intros m Hk; [done|]. cbn [foldl].
  rewrite delete_insert_ne by (intros <-; apply Hk; by left). apply IH. intros ?; apply Hk; by right.
Qed.
End FoldDelete.
