(* ===== verification/Heap.v ===== *)
(** * Heap: the nodes of the replacement list and the pointer primitives

    Models [src/cache_manager/base.h].  Memory is a finite map from
    addresses to [stored_node]s; an address is an [N], and [nullptr] is [0].
    [__prev], [__next] read a node's links, [__link a b] writes
    [next(a) := b; prev(b) := a] in this order, as in the source.

    The representation predicate [dlist h s xs] says that the circular
    doubly-linked list whose sentinel is at [s] contains exactly the nodes
    [xs], in order: following [next] from [s] visits [xs] and comes back to
    [s], [prev] is the inverse of [next] on these nodes, and the nodes are
    distinct and allocated.  It is [ring h (s :: xs)], built from [chain]
    (consecutive nodes linked both ways); the regrouping lemma
    [ring_regroup] cuts a ring into groups of consecutive nodes and
    relinks them, and carries the proofs about pointer surgery. *)

From S2P Require Import Prelude.

Abbreviation ptr := N.

Definition nullptr : ptr := 0%N.

(** [class cache_node]: the links of a node and its cached weight (the
    weight is a member in debug builds, [!defined(NDEBUG)]). *)
Record cache_node := mk_cache_node {
  prev : ptr;
  next : ptr;
  weight : Z
}.

(** [cache_node() = default]: null links, weight 0. *)
Definition default_cache_node : cache_node := mk_cache_node nullptr nullptr 0.

(** [using stored_node = std::pair<const T, cache_node<T>>] *)
Abbreviation stored_node T := (T * cache_node)%type.

Abbreviation heap T := (gmap N (stored_node T)).

Section Heap.
Context {T : Type}.
Implicit Types (h : heap T) (a b p q u v x y z s : ptr) (xs ys : list ptr).

(** [__prev(node)] and [__next(node)]: a read through a dangling pointer
    is undefined in C++; the model returns [nullptr]. *)
Definition __prev h p : ptr := from_option (fun n => prev n.2) nullptr (h !! p).
Definition __next h p : ptr := from_option (fun n => next n.2) nullptr (h !! p).

Definition set_prev h p q : heap T :=
  alter (fun n => (n.1, mk_cache_node q (next n.2) (weight n.2))) p h.
Definition set_next h p q : heap T :=
  alter (fun n => (n.1, mk_cache_node (prev n.2) q (weight n.2))) p h.

(** [__link(first, second)]: [__next(first) = second; __prev(second) = first;] *)
Definition __link h a b : heap T := set_prev (set_next h a b) b a.

(** The value and the cached weight of a node. *)
Definition node_val h p : option T := fst <$> h !! p.
Definition node_weight h p : Z := from_option (fun n => weight n.2) 0 (h !! p).

(** [node->second.weight = w], the cached weight of a node (debug builds
    and [CACHE_STORE_WEIGHT]). *)
Definition set_node_weight h p (w : Z) : heap T :=
  alter (fun n => (n.1, mk_cache_node (prev n.2) (next n.2) w)) p h.

(** Overwrite the value stored at a node. *)
Definition set_val h p (v : T) : heap T := alter (fun n => (v, n.2)) p h.

(** What a node holds besides its links: its value and its cached weight. *)
Definition payload (n : stored_node T) : T * Z := (n.1, weight n.2).

(** Two heaps with the same nodes, holding the same values and weights:
    they differ at most in the links.  List surgery keeps the payload. *)
Definition same_payload h h' : Prop := forall p, payload <$> h !! p = payload <$> h' !! p.

(** [edge h u v]: [u] and [v] are neighbours, [next(u) = v] and [prev(v) = u]. *)
Definition edge h u v : Prop := __next h u = v /\ __prev h v = u.

(** [chain h l]: consecutive elements of [l] are neighbours. *)
Fixpoint chain h (l : list ptr) : Prop :=
  match l with
  | x :: l' => match l' with y :: _ => edge h x y /\ chain h l' | [] => True end
  | [] => True
  end.

(** [ring h l]: the nodes [l], distinct and allocated, form a circular
    list in this order (the last one is followed by the first one). *)
Definition ring h (l : list ptr) : Prop :=
  NoDup l /\ Forall (fun p => p ∈ dom h) l /\ chain h (l ++ take 1 l).

(** The replacement list whose sentinel is at [s] holds [xs], in order. *)
Definition dlist h s xs : Prop := ring h (s :: xs).

#[global] Instance edge_dec h u v : Decision (edge h u v).
Proof. unfold edge. apply _. Defined.

#[global] Instance chain_dec h l : Decision (chain h l).
Proof. induction l as [|x [|y l] IH]; simpl; apply _. Defined.

#[global] Instance ring_dec h l : Decision (ring h l).
Proof. unfold ring. apply _. Defined.

#[global] Instance dlist_dec h s xs : Decision (dlist h s xs).
Proof. unfold dlist. apply _. Defined.

(** [*it] for a replacement iterator: the value stored at the node.  The
    sentinel stores [T{}] ([stored_node<T> _first = {T{}, ...}]); a
    dangling read, undefined in C++, also gives [T{}]. *)
Definition __val `{Inhabited T} h p : T := from_option fst inhabitant (h !! p).

(** Iteration from [cur] to [s] by [replacement_iterator::operator++]
    ([node = __next(node)]), on fuel, and the contents of the list from
    [begin()] to [end()]. *)
Fixpoint walk (fuel : nat) h (cur s : ptr) : option (list ptr) :=
  match fuel with
  | O => None
  | S fuel => if decide (cur = s) then Some [] else cons cur <$> walk fuel h (__next h cur) s
  end.

Definition contents h s : option (list ptr) := walk (S (size h)) h (__next h s) s.

(** A list built directly in memory: the nodes [l] (sentinel first), the
    node [p] holding [v p], linked in a circle.  Used to run the
    operations on concrete lists. *)
Definition ring_heap (v : ptr -> T) (l : list ptr) : heap T :=
  list_to_map
    ((fun '(p, (a, b)) => (p, (v p, mk_cache_node a b 0))) <$>
       zip l (zip (lst_or nullptr l :: take (pred (length l)) l) (drop 1 l ++ take 1 l))).

(** The boundaries of a circular arrangement of groups: the last node of
    each group is followed by the first node of the next group, and the
    last group is followed by [f]. *)
Fixpoint bounds_from (f : ptr) (Gs : list (list ptr)) : list (ptr * ptr) :=
  match Gs with
  | [] => []
  | G :: Gs' => (lst_or nullptr G, hd_or f (concat Gs')) :: bounds_from f Gs'
  end.

Definition bounds (Gs : list (list ptr)) : list (ptr * ptr) :=
  bounds_from (hd_or nullptr (concat Gs)) Gs.

(** ** Reading after writing *)

Lemma lookup_set_prev h p q r :
  set_prev h p q !! r =
  (if decide (p = r) then (fun n => (n.1, mk_cache_node q (next n.2) (weight n.2))) <$> h !! r
   else h !! r).
Proof. unfold set_prev. rewrite lookup_alter. case_decide; by subst. Qed.

Lemma lookup_set_next h p q r :
  set_next h p q !! r =
  (if decide (p = r) then (fun n => (n.1, mk_cache_node (prev n.2) q (weight n.2))) <$> h !! r
   else h !! r).
Proof. unfold set_next. rewrite lookup_alter. case_decide; by subst. Qed.

Lemma dom_link h a b : dom (__link h a b) = dom h.
Proof. unfold __link, set_prev, set_next. by rewrite !dom_alter_L. Qed.

Lemma next_link_eq h a b : a ∈ dom h -> __next (__link h a b) a = b.
Proof.
  intros [n Hn]%elem_of_dom. unfold __next, __link.
  rewrite lookup_set_prev, lookup_set_next.
  repeat case_decide; try congruence; by rewrite Hn.
Qed.

Lemma next_link_ne h a b p : p <> a -> __next (__link h a b) p = __next h p.
Proof.
  intros Hne. unfold __next, __link.
  rewrite lookup_set_prev, lookup_set_next.
  repeat case_decide; subst; try congruence; by destruct (h !! _).
Qed.

Lemma prev_link_eq h a b : b ∈ dom h -> __prev (__link h a b) b = a.
Proof.
  intros [n Hn]%elem_of_dom. unfold __prev, __link.
  rewrite lookup_set_prev, lookup_set_next.
  repeat case_decide; try congruence; by rewrite Hn.
Qed.

Lemma prev_link_ne h a b p : p <> b -> __prev (__link h a b) p = __prev h p.
Proof.
  intros Hne. unfold __prev, __link.
  rewrite lookup_set_prev, lookup_set_next.
  repeat case_decide; subst; try congruence; by destruct (h !! _).
Qed.

Lemma node_val_link h a b p : node_val (__link h a b) p = node_val h p.
Proof.
  unfold node_val, __link. rewrite lookup_set_prev, lookup_set_next.
  repeat case_decide; by destruct (h !! p).
Qed.

Lemma node_weight_link h a b p : node_weight (__link h a b) p = node_weight h p.
Proof.
  unfold node_weight, __link. rewrite lookup_set_prev, lookup_set_next.
  repeat case_decide; by destruct (h !! p).
Qed.


#[global] Instance same_payload_equivalence : Equivalence same_payload.
Proof.
  split; [by intros h p | by intros h1 h2 H p | intros h1 h2 h3 H12 H23 p; by rewrite H12].
Qed.

Lemma same_payload_link h a b : same_payload (__link h a b) h.
Proof.
  intros p. unfold __link. rewrite lookup_set_prev, lookup_set_next.
  repeat case_decide; subst; by destruct (h !! _).
Qed.

#[global] Instance link_proper : Proper (same_payload ==> eq ==> eq ==> same_payload) __link.
Proof.
  intros h1 h2 H a ? <- b ? <-. by rewrite !same_payload_link.
Qed.

#[global] Instance node_val_proper : Proper (same_payload ==> eq ==> eq) node_val.
Proof.
  intros h1 h2 H p ? <-. unfold node_val. specialize (H p).
  destruct (h1 !! p), (h2 !! p); simplify_eq/=; by f_equal.
Qed.

#[global] Instance node_weight_proper : Proper (same_payload ==> eq ==> eq) node_weight.
Proof.
  intros h1 h2 H p ? <-. unfold node_weight. specialize (H p).
  destruct (h1 !! p), (h2 !! p); simplify_eq/=; done.
Qed.

#[global] Instance dom_proper : Proper (same_payload ==> eq) (dom (D := gset ptr)).
Proof.
  intros h1 h2 H. apply set_eq. intros p. rewrite !elem_of_dom. specialize (H p).
  destruct (h1 !! p), (h2 !! p); simplify_eq/=; split; by intros [].
Qed.

(** Two heaps with the same payload and the same links are equal. *)
Lemma heap_ext h h' :
  same_payload h h' -> (forall p, __next h p = __next h' p) -> (forall p, __prev h p = __prev h' p) ->
  h = h'.
Proof.
  intros Hp Hn Hr. apply map_eq. intros p. specialize (Hp p). specialize (Hn p).
  specialize (Hr p). unfold __next, __prev in *.
  destruct (h !! p) as [[v [a b w]]|], (h' !! p) as [[v' [a' b' w']]|];
    simpl in *; try discriminate; [|done].
  unfold payload in Hp. simpl in Hp. injection Hp as -> ->. by subst.
Qed.

Lemma next_set_node_weight h p q w : __next (set_node_weight h p w) q = __next h q.
Proof.
  unfold __next, set_node_weight.
  destruct (decide (p = q)) as [->|]; [rewrite lookup_alter_eq; destruct (h !! q); reflexivity|by rewrite lookup_alter_ne].
Qed.

Lemma prev_set_node_weight h p q w : __prev (set_node_weight h p w) q = __prev h q.
Proof.
  unfold __prev, set_node_weight.
  destruct (decide (p = q)) as [->|]; [rewrite lookup_alter_eq; destruct (h !! q); reflexivity|by rewrite lookup_alter_ne].
Qed.

Lemma dom_set_node_weight h p w : dom (set_node_weight h p w) = dom h.
Proof. apply dom_alter_L. Qed.

Lemma val_set_node_weight `{Inhabited T} h p q w : __val (set_node_weight h p w) q = __val h q.
Proof.
  unfold __val, set_node_weight.
  destruct (decide (p = q)) as [->|]; [rewrite lookup_alter_eq; destruct (h !! q); reflexivity|by rewrite lookup_alter_ne].
Qed.

Lemma node_weight_set_eq h p w : p ∈ dom h -> node_weight (set_node_weight h p w) p = w.
Proof.
  intros [n Hn]%elem_of_dom. unfold node_weight, set_node_weight. by rewrite lookup_alter_eq, Hn.
Qed.

Lemma node_weight_set_ne h p q w : p <> q -> node_weight (set_node_weight h p w) q = node_weight h q.
Proof. intros. unfold node_weight, set_node_weight. by rewrite lookup_alter_ne. Qed.

Lemma val_link `{Inhabited T} h a b p : __val (__link h a b) p = __val h p.
Proof.
  unfold __val, __link. rewrite lookup_set_prev, lookup_set_next.
  repeat case_decide; by destruct (h !! p).
Qed.

Lemma next_set_val h p q (v : T) : __next (set_val h p v) q = __next h q.
Proof.
  unfold __next, set_val.
  destruct (decide (p = q)) as [->|]; [rewrite lookup_alter_eq; destruct (h !! q); reflexivity|by rewrite lookup_alter_ne].
Qed.

Lemma prev_set_val h p q (v : T) : __prev (set_val h p v) q = __prev h q.
Proof.
  unfold __prev, set_val.
  destruct (decide (p = q)) as [->|]; [rewrite lookup_alter_eq; destruct (h !! q); reflexivity|by rewrite lookup_alter_ne].
Qed.

Lemma dom_set_val h p (v : T) : dom (set_val h p v) = dom h.
Proof. apply dom_alter_L. Qed.

Lemma val_set_val_eq `{Inhabited T} h p (v : T) : p ∈ dom h -> __val (set_val h p v) p = v.
Proof. intros [n Hn]%elem_of_dom. unfold __val, set_val. by rewrite lookup_alter_eq, Hn. Qed.

Lemma val_set_val_ne `{Inhabited T} h p q (v : T) : p <> q -> __val (set_val h p v) q = __val h q.
Proof. intros. unfold __val, set_val. by rewrite lookup_alter_ne. Qed.

Lemma node_weight_set_val h p q (v : T) : node_weight (set_val h p v) q = node_weight h q.
Proof.
  unfold node_weight, set_val.
  destruct (decide (p = q)) as [->|]; [rewrite lookup_alter_eq; destruct (h !! q); reflexivity|by rewrite lookup_alter_ne].
Qed.

(** Writing a value commutes with the link updates, which write only
    the links. *)
Lemma link_set_val h p a b (v : T) : __link (set_val h p v) a b = set_val (__link h a b) p v.
Proof.
  apply map_eq. intros q. unfold __link, set_prev, set_next, set_val. rewrite !lookup_alter.
  repeat case_decide; subst; try done;
    match goal with |- context [h !! ?x] => destruct (h !! x) end; done.
Qed.

Lemma lookup_set_val_ne h p q (v : T) : p <> q -> set_val h p v !! q = h !! q.
Proof. apply lookup_alter_ne. Qed.

Lemma size_set_val h p (v : T) : size (set_val h p v) = size h.
Proof. by rewrite <- !size_dom, dom_set_val. Qed.

Lemma set_val_twice h p (v w : T) : set_val (set_val h p v) p w = set_val h p w.
Proof.
  apply map_eq. intros q. unfold set_val. rewrite !lookup_alter.
  repeat case_decide; subst; try done; by destruct (h !! q).
Qed.

Lemma set_val_id `{Inhabited T} h p : set_val h p (__val h p) = h.
Proof. apply alter_id. intros [v n] Hp. unfold __val. by rewrite Hp. Qed.

Lemma delete_set_val_ne h p q (v : T) : q <> p -> delete q (set_val h p v) = set_val (delete q h) p v.
Proof. apply delete_alter_ne. Qed.

Lemma next_insert_ne h p q n : p <> q -> __next (<[p := n]> h) q = __next h q.
Proof. intros. unfold __next. by rewrite lookup_insert_ne. Qed.

Lemma prev_insert_ne h p q n : p <> q -> __prev (<[p := n]> h) q = __prev h q.
Proof. intros. unfold __prev. by rewrite lookup_insert_ne. Qed.

Lemma val_insert_ne `{Inhabited T} h p q n : p <> q -> __val (<[p := n]> h) q = __val h q.
Proof. intros. unfold __val. by rewrite lookup_insert_ne. Qed.

Lemma node_weight_insert_ne h p q n : p <> q -> node_weight (<[p := n]> h) q = node_weight h q.
Proof. intros. unfold node_weight. by rewrite lookup_insert_ne. Qed.

(** Linking two neighbours changes nothing. *)
Lemma link_id h a b : a ∈ dom h -> b ∈ dom h -> edge h a b -> __link h a b = h.
Proof.
  intros Ha Hb [Hn Hp]. apply heap_ext; [apply same_payload_link| |]; intros p.
  - destruct (decide (p = a)) as [->|]; [by rewrite next_link_eq|by rewrite next_link_ne].
  - destruct (decide (p = b)) as [->|]; [by rewrite prev_link_eq|by rewrite prev_link_ne].
Qed.

#[global] Instance val_proper `{Inhabited T} : Proper (same_payload ==> eq ==> eq) __val.
Proof.
  intros h1 h2 Hh p ? <-. unfold __val. specialize (Hh p).
  destruct (h1 !! p), (h2 !! p); simplify_eq/=; done.
Qed.

End Heap.

#[export] Hint Rewrite @dom_link @node_val_link @node_weight_link : cache_rw.

Infix "≈ₚ" := same_payload (at level 70) : cache_scope.

(** Rewrite every read of a link through a [__link]; the side conditions
    are membership in the heap and disequalities between nodes, which
    [set_solver] proves from the membership facts. *)
(** Keep only the membership facts about the nodes [x] and [y]: the other
    ones only make [set_solver]'s case analysis explode. *)
Ltac keep_mem x y :=
  repeat match goal with
  | H : ?z ∈ _ |- _ =>
      tryif (first [constr_eq z x | constr_eq z y]) then fail else clear H
  | H : forall _, _ ∈ _ -> _ ∈ dom _ |- _ => clear H
  end.

(** Disjointness facts of the groups of a surgery, one per pair. *)
Ltac clear_disj :=
  repeat match goal with
  | H : forall _ _, _ ∈ _ -> _ ∈ _ -> _ <> _ |- _ => clear H
  end.

Lemma elem_of_app_snoc_cons (x e : ptr) l l' : x ∈ l ++ [e] -> x ∈ l ++ e :: l'.
Proof. rewrite !elem_of_app, !elem_of_cons. set_solver. Qed.

(** Membership of a node in a group, from the fact [gen_ends] recorded;
    fails fast when the node is not known to be in the group. *)
Ltac mem_solve :=
  lazymatch goal with
  | |- ?x ∈ _ =>
      first [ assumption | apply list_elem_of_here
            | match goal with
              | H : x ∈ ?l ++ [?e] |- x ∈ ?l ++ ?e :: _ => exact (elem_of_app_snoc_cons _ _ _ _ H)
              end
            | apply elem_of_app; right; first [ assumption | apply list_elem_of_here ] ]
  end.

Ltac neq_disj :=
  match goal with
  | D : forall _ _, _ ∈ _ -> _ ∈ _ -> _ <> _ |- _ =>
      first [ apply D; mem_solve | apply not_eq_sym; apply D; mem_solve ]
  end.

Ltac neq_solve :=
  lazymatch goal with
  | |- ?x <> ?y => first [ neq_disj | clear_disj; keep_mem x y; set_solver ]
  end.

Ltac dom_solve :=
  lazymatch goal with
  | |- ?x ∈ dom _ =>
      repeat match goal with
      | H : ?z ∈ _ |- _ => tryif constr_eq z x then fail else clear H
      end; set_solver
  end.

Ltac link_side := first [ done | rewrite ?dom_link; dom_solve | neq_solve ].

Ltac link_simpl :=
  repeat first
    [ rewrite dom_link
    | rewrite dom_set_node_weight
    | rewrite next_set_node_weight
    | rewrite prev_set_node_weight
    | rewrite next_link_eq by link_side
    | rewrite prev_link_eq by link_side
    | rewrite next_link_ne by link_side
    | rewrite prev_link_ne by link_side ].


Section Rings.
Context {T : Type}.
Implicit Types (h : heap T) (a b p q u v x y z s : ptr) (l G : list ptr) (Gs : list (list ptr)).


Lemma chain_app_cons h l r rs :
  l <> [] -> chain h (l ++ r :: rs) <-> chain h l /\ edge h (lst_or nullptr l) r /\ chain h (r :: rs).
Proof.
  induction l as [|x [|y l] IH]; intros Hl; [done| |].
  - simpl. tauto.
  - change ((x :: y :: l) ++ r :: rs) with (x :: ((y :: l) ++ r :: rs)).
    simpl (chain h (x :: _)). rewrite IH by done. rewrite !lst_or_cons. simpl. tauto.
Qed.

Lemma app_snoc_hd (l : list ptr) f : l ++ [f] = hd_or f l :: tail (l ++ [f]).
Proof. by destruct l. Qed.

Lemma chain_groups h f Gs :
  Forall (fun G => G <> []) Gs ->
  chain h (concat Gs ++ [f]) <->
  Forall (chain h) Gs /\ Forall (fun e => edge h e.1 e.2) (bounds_from f Gs).
Proof.
  induction Gs as [|G Gs IH]; intros Hne; simpl.
  - split; [intros _; split; constructor | done].
  - apply Forall_cons in Hne as [HG Hne].
    rewrite <- app_assoc, (app_snoc_hd (concat Gs) f), chain_app_cons by done.
    rewrite <- app_snoc_hd, IH by done. rewrite !Forall_cons. simpl. tauto.
Qed.

Lemma concat_groups_ne Gs :
  Forall (fun G => G <> []) Gs -> Gs <> [] -> concat Gs <> [].
Proof.
  destruct Gs as [|G Gs]; [done|]. intros [HG _]%Forall_cons _. simpl.
  destruct G; done.
Qed.

Lemma ring_groups h Gs :
  Forall (fun G => G <> []) Gs -> Gs <> [] ->
  ring h (concat Gs) <->
  NoDup (concat Gs) /\ Forall (fun p => p ∈ dom h) (concat Gs) /\
  Forall (chain h) Gs /\ Forall (fun e => edge h e.1 e.2) (bounds Gs).
Proof.
  intros Hne HGs. unfold ring, bounds.
  pose proof (concat_groups_ne Gs Hne HGs) as Hc.
  replace (take 1 (concat Gs)) with [hd_or nullptr (concat Gs)]
    by (by destruct (concat Gs)).
  rewrite chain_groups by done. tauto.
Qed.

Lemma lst_or_in {A} (x : A) (l : list A) : lst_or x l ∈ x :: l.
Proof.
  revert x. induction l as [|y l IH]; intros x; [set_solver|].
  rewrite lst_or_cons. specialize (IH y). set_solver.
Qed.

Lemma hd_or_in {A} (e : A) (l : list A) : hd_or e l ∈ l ++ [e].
Proof. destruct l; simpl; set_solver. Qed.

Lemma lst_or_ne_in {A} (e : A) (l : list A) : l <> [] -> lst_or e l ∈ l.
Proof. destruct l as [|x l]; [done|]. rewrite lst_or_cons. intros _. apply lst_or_in. Qed.

Lemma hd_or_ne_in {A} (e : A) (l : list A) : l <> [] -> hd_or e l ∈ l.
Proof. destruct l; simpl; [done|set_solver]. Qed.

(** The nodes of a chain keep their mutual links when the heap changes
    everywhere but at the chain's ends. *)
Lemma chain_frame h h' G :
  NoDup G -> chain h G ->
  (forall x, x ∈ G -> x <> lst_or nullptr G -> __next h' x = __next h x) ->
  (forall y, y ∈ G -> y <> hd_or nullptr G -> __prev h' y = __prev h y) ->
  chain h' G.
Proof.
  induction G as [|x [|y G] IH]; intros Hnd Hc Hn Hp; [done|done|].
  apply NoDup_cons in Hnd as [Hx Hnd]. destruct Hc as [[He1 He2] Hc].
  pose proof (lst_or_in y G) as Hl.
  assert (lst_or nullptr (x :: y :: G) = lst_or y G) as Hlx
    by (by rewrite !lst_or_cons).
  split; [split|].
  - rewrite Hn; [done|set_solver|]. rewrite Hlx. intros E. apply Hx. by rewrite E.
  - rewrite Hp; [done|set_solver|]. rewrite hd_or_cons. intros E. apply Hx. rewrite <- E. set_solver.
  - apply IH; [done|done| |].
    + intros x' Hx' Hne. apply Hn; [set_solver|]. rewrite Hlx. by rewrite lst_or_cons in Hne.
    + intros y' Hy' _. apply Hp; simpl; set_solver.
Qed.

Lemma elem_of_concat {A} (e : A) (xss : list (list A)) :
  e ∈ concat xss <-> exists xs : list A, e ∈ xs /\ xs ∈ xss.
Proof.
  rewrite list_elem_of_In, in_concat.
  split; intros (xs & ? & ?); exists xs; rewrite !list_elem_of_In in *; tauto.
Qed.

Lemma nodup_concat_same Gs G1 G2 x :
  NoDup (concat Gs) -> G1 ∈ Gs -> G2 ∈ Gs -> x ∈ G1 -> x ∈ G2 -> G1 = G2.
Proof.
  induction Gs as [|G Gs IH]; intros Hnd H1 H2 Hx1 Hx2; [set_solver|].
  simpl in Hnd. apply NoDup_app in Hnd as (_ & Hdis & Hnd).
  apply elem_of_cons in H1 as [->|H1], H2 as [->|H2]; auto.
  - exfalso. apply (Hdis x Hx1). apply elem_of_concat. eauto.
  - exfalso. apply (Hdis x Hx2). apply elem_of_concat. eauto.
Qed.

Lemma nodup_concat_not_lst Gs G x :
  NoDup (concat Gs) -> Forall (fun G => G <> []) Gs -> G ∈ Gs -> x ∈ G ->
  x <> lst_or nullptr G -> x ∉ lst_or nullptr <$> Gs.
Proof.
  intros Hnd Hne HG Hx Hl (G' & -> & HG')%list_elem_of_fmap.
  rewrite Forall_forall in Hne.
  assert (G = G') as <-; [|done].
  eapply nodup_concat_same; eauto. by apply lst_or_ne_in, Hne.
Qed.

Lemma nodup_concat_not_hd Gs G x :
  NoDup (concat Gs) -> Forall (fun G => G <> []) Gs -> G ∈ Gs -> x ∈ G ->
  x <> hd_or nullptr G -> x ∉ hd_or nullptr <$> Gs.
Proof.
  intros Hnd Hne HG Hx Hl (G' & -> & HG')%list_elem_of_fmap.
  rewrite Forall_forall in Hne.
  assert (G = G') as <-; [|done].
  eapply nodup_concat_same; eauto. by apply hd_or_ne_in, Hne.
Qed.

Lemma nodup_concat_group Gs G : NoDup (concat Gs) -> G ∈ Gs -> NoDup G.
Proof.
  induction Gs as [|G' Gs IH]; intros Hnd HG; [set_solver|].
  simpl in Hnd. apply NoDup_app in Hnd as (? & _ & ?).
  apply elem_of_cons in HG as [->|HG]; auto.
Qed.

(** Distinct groups of a duplicate-free concatenation are disjoint. *)
Lemma nodup_concat_disj Gs (i j : nat) Gi Gj :
  NoDup (concat Gs) -> i <> j -> Gs !! i = Some Gi -> Gs !! j = Some Gj ->
  forall x y, x ∈ Gi -> y ∈ Gj -> x <> y.
Proof.
  revert i j. induction Gs as [|G Gs IH]; intros [|i] [|j] Hnd Hij Hi Hj x y Hx Hy;
    simplify_eq/=; try done.
  - apply NoDup_app in Hnd as (_ & Hdis & _). intros ->. apply (Hdis y Hx).
    apply elem_of_concat. exists Gj. split; [done|]. by eapply list_elem_of_lookup_2.
  - apply NoDup_app in Hnd as (_ & Hdis & _). intros ->. apply (Hdis y Hy).
    apply elem_of_concat. exists Gi. split; [done|]. by eapply list_elem_of_lookup_2.
  - apply NoDup_app in Hnd as (_ & _ & Hnd). eapply (IH i j); eauto.
Qed.

(** Regrouping: a heap in which the groups [Gs] are internally linked as
    before and whose boundaries are linked in the order of [Gs] holds the
    ring [concat Gs].  Every pointer surgery of the library is an instance:
    the groups are the pieces the surgery moves, and the [__link]s it
    performs are the boundaries of the new arrangement. *)
Theorem ring_regroup h h' Gs :
  Forall (fun G => G <> []) Gs -> Gs <> [] ->
  NoDup (concat Gs) ->
  Forall (fun p => p ∈ dom h') (concat Gs) ->
  Forall (chain h) Gs ->
  (forall p, p ∈ concat Gs -> p ∉ lst_or nullptr <$> Gs -> __next h' p = __next h p) ->
  (forall p, p ∈ concat Gs -> p ∉ hd_or nullptr <$> Gs -> __prev h' p = __prev h p) ->
  Forall (fun e => edge h' e.1 e.2) (bounds Gs) ->
  ring h' (concat Gs).
Proof.
  intros Hne HGs Hnd Hdom Hch Hn Hp Hb.
  apply ring_groups; [done|done|]. split_and!; [done|done| |done].
  rewrite Forall_forall in Hch |- *. intros G HG.
  apply (chain_frame h); [by eapply nodup_concat_group|by apply Hch| |].
  - intros x Hx Hl. apply Hn; [apply elem_of_concat; eauto|].
    by eapply nodup_concat_not_lst.
  - intros y Hy Hl. apply Hp; [apply elem_of_concat; eauto|].
    by eapply nodup_concat_not_hd.
Qed.

End Rings.

(** Destruct every [Forall] on a concrete list into its components. *)
Ltac forall_destr :=
  repeat match goal with
  | H : Forall _ (_ :: _) |- _ => apply Forall_cons in H as [? H]
  | H : Forall _ [] |- _ => clear H
  end.

Section Rotation.
Context {T : Type}.
Implicit Types (h : heap T) (s : ptr) (l A X : list ptr) (Gs : list (list ptr)).

Lemma ring_rotate h l1 l2 : ring h (l1 ++ l2) <-> ring h (l2 ++ l1).
Proof.
  destruct l1 as [|x1 l1]; [by rewrite app_nil_r|].
  destruct l2 as [|x2 l2]; [by rewrite app_nil_r|].
  pose proof (ring_groups h [x1 :: l1; x2 :: l2]) as H12.
  pose proof (ring_groups h [x2 :: l2; x1 :: l1]) as H21.
  unfold bounds in H12, H21. cbn [concat bounds_from fst snd] in H12, H21.
  rewrite !app_nil_r, <- !app_comm_cons, !hd_or_cons, !hd_or_nil in H12, H21.
  rewrite <- !app_comm_cons, H12, H21 by (repeat constructor; done).
  assert (Hp : x1 :: l1 ++ x2 :: l2 ≡ₚ x2 :: l2 ++ x1 :: l1) by solve_Permutation.
  split; intros (Hnd & Hd & Hc & Hb); split_and!;
    try (first [by rewrite Hp | by rewrite <- Hp]);
    [ clear Hb; rename Hc into Hb | | clear Hb; rename Hc into Hb | ];
    forall_destr; repeat (apply Forall_cons; split; [assumption|]); constructor.
  all: done.
Qed.

(** The replacement list seen as a ring of groups, [Gs] starting anywhere
    on the circle. *)
Lemma dlist_as_ring h s A X Gs :
  concat Gs = X ++ s :: A -> dlist h s (A ++ X) <-> ring h (concat Gs).
Proof.
  intros ->. unfold dlist. change (s :: A ++ X) with ((s :: A) ++ X). apply ring_rotate.
Qed.

Lemma concat_perm (Gs Gs' : list (list ptr)) : Gs' ≡ₚ Gs -> concat Gs' ≡ₚ concat Gs.
Proof.
  induction 1; simpl; [done| by f_equiv | | by etrans].
  rewrite !app_assoc. f_equiv. apply Permutation_app_comm.
Qed.

(** Regrouping when the new arrangement is a permutation of the old
    groups: only the boundary links have to be checked. *)
Corollary ring_regroup_perm h h' Gs Gs' :
  Forall (fun G => G <> []) Gs -> Gs <> [] ->
  ring h (concat Gs) -> Gs' ≡ₚ Gs -> dom h' = dom h ->
  (forall p, p ∉ lst_or nullptr <$> Gs' -> __next h' p = __next h p) ->
  (forall p, p ∉ hd_or nullptr <$> Gs' -> __prev h' p = __prev h p) ->
  Forall (fun e => edge h' e.1 e.2) (bounds Gs') ->
  ring h' (concat Gs').
Proof.
  intros Hne HGs Hr Hp Hdom Hn Hpr Hb.
  apply ring_groups in Hr as (Hnd & Hd & Hch & _); [|done|done].
  apply (ring_regroup h); auto.
  - by rewrite Hp.
  - intros ->. symmetry in Hp. apply Permutation_nil_r in Hp. done.
  - by rewrite (concat_perm _ _ Hp).
  - rewrite Hdom. by rewrite (concat_perm _ _ Hp).
  - by rewrite Hp.
Qed.

(** Regrouping when part of the groups [Gr] leaves the ring: the groups
    [Gs'] that remain, in any order, form a ring of their own. *)
Corollary ring_regroup_sub h h' Gs Gs' Gr :
  Forall (fun G => G <> []) Gs -> Gs' <> [] ->
  ring h (concat Gs) -> Gs' ++ Gr ≡ₚ Gs -> dom h' = dom h ->
  (forall p, p ∈ concat Gs' -> p ∉ lst_or nullptr <$> Gs' -> __next h' p = __next h p) ->
  (forall p, p ∈ concat Gs' -> p ∉ hd_or nullptr <$> Gs' -> __prev h' p = __prev h p) ->
  Forall (fun e => edge h' e.1 e.2) (bounds Gs') ->
  ring h' (concat Gs').
Proof.
  intros Hne HGs Hr Hp Hdom Hn Hpr Hb.
  assert (Gs <> []) as HGs0.
  { intros ->. apply Permutation_nil_r in Hp. by apply app_eq_nil in Hp as [-> _]. }
  apply ring_groups in Hr as (Hnd & Hd & Hch & _); [|done|done].
  pose proof (concat_perm _ _ Hp) as Hc. rewrite concat_app in Hc.
  rewrite <- Hp, Forall_app in Hne, Hch. rewrite <- Hc in Hnd, Hd.
  apply NoDup_app in Hnd as (Hnd & _). rewrite Forall_app in Hd.
  apply (ring_regroup h); try tauto. rewrite Hdom. tauto.
Qed.

(** Regrouping when a node [x] outside the ring joins it as a group of
    its own. *)
Corollary ring_regroup_ins h h' Gs Gs' x :
  Forall (fun G => G <> []) Gs -> Gs <> [] ->
  ring h (concat Gs) -> Gs' ≡ₚ [x] :: Gs -> x ∉ concat Gs -> x ∈ dom h -> dom h' = dom h ->
  (forall p, p ∈ concat Gs' -> p ∉ lst_or nullptr <$> Gs' -> __next h' p = __next h p) ->
  (forall p, p ∈ concat Gs' -> p ∉ hd_or nullptr <$> Gs' -> __prev h' p = __prev h p) ->
  Forall (fun e => edge h' e.1 e.2) (bounds Gs') ->
  ring h' (concat Gs').
Proof.
  intros Hne HGs Hr Hp Hx Hxd Hdom Hn Hpr Hb.
  apply ring_groups in Hr as (Hnd & Hd & Hch & _); [|done|done].
  pose proof (concat_perm _ _ Hp) as Hc. simpl in Hc.
  apply (ring_regroup h); auto.
  - rewrite Hp. by constructor.
  - intros ->. symmetry in Hp. by apply Permutation_nil_r in Hp.
  - rewrite Hc. by constructor.
  - rewrite Hdom, Hc. by constructor.
  - rewrite Hp. by constructor.
Qed.

End Rotation.

(** The facts a ring of concrete groups provides: distinctness, allocation
    and the links at the group boundaries, as hypotheses. *)
Ltac groups_simpl_in H :=
  cbn [concat bounds bounds_from fst snd] in H;
  rewrite ?app_nil_r, ?hd_or_cons_app, ?hd_or_cons, ?lst_or_cons, ?hd_or_app_cons, ?lst_or_app_cons,
    ?hd_or_nil, ?lst_or_nil in H.

Ltac groups_simpl :=
  cbn [concat bounds bounds_from fst snd];
  rewrite ?app_nil_r, ?hd_or_cons_app, ?hd_or_cons, ?lst_or_cons, ?hd_or_app_cons, ?lst_or_app_cons,
    ?hd_or_nil, ?lst_or_nil.

Ltac edges_destr H :=
  lazymatch type of H with
  | Forall _ (_ :: _) =>
      let E := fresh "He" in let H' := fresh "Hb" in
      apply Forall_cons in H as [E H']; cbn [fst snd] in E;
      let E1 := fresh "He" in let E2 := fresh "He" in destruct E as [E1 E2];
      edges_destr H'
  | Forall _ [] => clear H
  end.

Ltac ring_facts H := unfold bounds in H; groups_simpl_in H; edges_destr H.

Lemma app_cons_ne {A} (l1 l2 : list A) (x : A) : l1 ++ x :: l2 <> [].
Proof. by destruct l1. Qed.

(** ** Tactics for pointer surgery *)

Ltac nonempty_tac :=
  repeat (apply Forall_cons; split; [first [done | apply app_cons_ne] |]); constructor.

Ltac groups_eq := cbn [concat]; rewrite ?app_nil_r, <- ?app_assoc; reflexivity.

(** Record that [lst_or x l] and [hd_or e l] are nodes of their groups. *)
Ltac mem_fact t :=
  lazymatch goal with
  | _ : t |- _ => fail
  | _ => let H := fresh "Hm" in assert t as H by first [apply lst_or_in | apply hd_or_in]
  end.

Ltac mem_facts :=
  repeat match goal with
  | |- context [lst_or ?x ?l] => mem_fact (lst_or x l ∈ x :: l)
  | _ : context [lst_or ?x ?l] |- _ => mem_fact (lst_or x l ∈ x :: l)
  | |- context [hd_or ?e ?l] => mem_fact (hd_or e l ∈ l ++ [e])
  | _ : context [hd_or ?e ?l] |- _ => mem_fact (hd_or e l ∈ l ++ [e])
  end.

(** Replace the ends of the groups ([lst_or x l], [hd_or e l]) by fresh
    nodes, remembering only that each belongs to its group: [set_solver]
    then reasons about variables. *)
Ltac gen_end t mem :=
  let u := fresh "u" in let E := fresh "E" in
  pose proof mem; remember t as u eqn:E; clear E.

Ltac gen_ends :=
  repeat match goal with
  | |- context [lst_or ?x ?l] => gen_end (lst_or x l) (lst_or_in x l)
  | _ : context [lst_or ?x ?l] |- _ => gen_end (lst_or x l) (lst_or_in x l)
  | |- context [hd_or ?e ?l] => gen_end (hd_or e l) (hd_or_in e l)
  | _ : context [hd_or ?e ?l] |- _ => gen_end (hd_or e l) (hd_or_in e l)
  end.

(** Rewrite the reads of links the boundary facts determine. *)
Ltac reads_simpl :=
  repeat match goal with
  | H : __prev ?h ?p = _ |- context [__prev ?h ?p] => rewrite H
  | H : __next ?h ?p = _ |- context [__next ?h ?p] => rewrite H
  end.

(** Forget the reads of links once they have been rewritten. *)
Ltac clear_reads :=
  repeat match goal with
  | H : __next _ _ = _ |- _ => clear H
  | H : __prev _ _ = _ |- _ => clear H
  end.

(** Resolve the source's pointer comparisons. *)
Ltac dec_side := first [ done | neq_solve | left; neq_solve | right; neq_solve ].

Ltac decide_simpl :=
  repeat first [ rewrite decide_True by dec_side | rewrite decide_False by dec_side ].

Ltac surgery_links unf :=
  unf; cbv zeta; gen_ends; reads_simpl; clear_reads; decide_simpl; link_simpl.

Ltac disj_with Hnd G i rest j :=
  lazymatch rest with
  | ?G' :: ?rest' =>
      pose proof (nodup_concat_disj _ i j G G' Hnd ltac:(done) eq_refl eq_refl);
      disj_with Hnd G i rest' (S j)
  | [] => idtac
  end.

Ltac disj_pairs Hnd Gs i :=
  lazymatch Gs with
  | ?G :: ?rest => disj_with Hnd G i rest (S i); disj_pairs Hnd rest (S i)
  | [] => idtac
  end.

(** [surgery_facts Hd old]: [Hd] is the old list, seen as the ring of the
    groups [old]; record its boundary links, the domain and the pairwise
    disjointness of the groups. *)
Ltac surgery_facts Hd old :=
  (rewrite (dlist_as_ring _ _ _ _ old) in Hd by groups_eq);
  let Hne := fresh "Hne" in
  (assert (Forall (fun G => G <> []) old) as Hne by nonempty_tac);
  let Hnd := fresh "Hnd" in let Hdom := fresh "Hdom" in let Hb := fresh "Hb" in
  destruct (proj1 (ring_groups _ old Hne ltac:(done)) Hd) as (Hnd & Hdom & _ & Hb);
  clear Hne; ring_facts Hb; disj_pairs Hnd old O; clear Hnd; groups_simpl_in Hdom;
  rewrite Forall_forall in Hdom.

(** [surgery_close Hd old new rest unf]: the goal is the ring of the
    groups [new] in the heap an operation builds ([unf] unfolds it), the
    groups [rest] having left the ring.  The regroup theorem reduces it to
    the boundary links of [new] and to the absence of other writes; the
    operation's reads are rewritten with the old boundary links, the group
    ends generalized, and [link_simpl] evaluates the links. *)
Ltac frame_intro rest :=
  let p := fresh "p" in let Hin := fresh "Hin" in let Hp := fresh "Hp" in
  intros p Hin Hp; cbn [fmap list_fmap] in Hp; groups_simpl_in Hp;
  lazymatch rest with
  | [] => clear Hin
  | _ => cbn [concat] in Hin; rewrite ?app_nil_r in Hin
  end.

(** The goals the regroup theorems leave: the domain, the two frames and
    the boundary links of the new arrangement. *)
Ltac surgery_goal rest unf :=
  lazymatch goal with
  | |- dom _ = dom _ =>
      unf; cbv zeta; gen_ends; reads_simpl; clear_reads; decide_simpl;
      by repeat rewrite ?dom_link, ?dom_set_node_weight
  | |- forall p, p ∈ _ -> p ∉ _ -> _ => frame_intro rest; surgery_links unf; reflexivity
  | |- Forall _ (bounds _) =>
      unfold bounds; groups_simpl;
      repeat (apply Forall_cons; split; [unfold edge; cbn [fst snd]|]); [..| constructor];
      surgery_links unf; split; reflexivity
  | |- _ => assumption
  end.

Ltac surgery_close Hd old new rest unf :=
  lazymatch type of Hd with ring ?h _ => apply (ring_regroup_sub h _ old new rest) end;
  [ nonempty_tac | done | exact Hd | rewrite ?app_nil_r; solve_Permutation
  | surgery_goal rest unf .. ].

(** [surgery_facts_ins Hd old x]: as [surgery_facts], for an operation
    that brings the node [x], outside the list, into it; [x ∉ concat old]
    and [x ∈ dom h] are proved from the context. *)
Ltac surgery_facts_ins Hd old x :=
  (rewrite (dlist_as_ring _ _ _ _ old) in Hd by groups_eq);
  let Hne := fresh "Hne" in
  (assert (Forall (fun G => G <> []) old) as Hne by nonempty_tac);
  let Hnd := fresh "Hnd" in let Hdom := fresh "Hdom" in let Hb := fresh "Hb" in
  destruct (proj1 (ring_groups _ old Hne ltac:(done)) Hd) as (Hnd & Hdom & _ & Hb);
  clear Hne; ring_facts Hb;
  let Hx := fresh "Hx" in
  (assert (x ∉ concat old) as Hx by (cbn [concat]; rewrite ?app_nil_r; set_solver));
  let Hnd' := fresh "Hnd" in
  (assert (NoDup (concat ([x] :: old))) as Hnd' by (apply NoDup_cons; split; [exact Hx|exact Hnd]));
  disj_pairs Hnd' ([x] :: old) O; clear Hnd Hnd'; groups_simpl_in Hdom;
  rewrite Forall_forall in Hdom.

Ltac surgery_close_ins Hd old new x unf :=
  lazymatch type of Hd with ring ?h _ => apply (ring_regroup_ins h _ old new x) end;
  [ nonempty_tac | done | exact Hd | solve_Permutation | surgery_goal (@nil (list ptr)) unf .. ].

(** [surgery Hd old new unf]: the operation rearranges the groups [old]
    of the list [Hd] into the order [new]. *)
Ltac surgery Hd old new unf :=
  surgery_facts Hd old;
  (rewrite (dlist_as_ring _ _ _ _ new) by groups_eq);
  surgery_close Hd old new (@nil (list ptr)) unf.

(** ** Iteration in replacement order

    [replacement_iterator::operator++] is [node = __next(node)]; iterating
    from [begin()] ([__next] of the sentinel) to [end()] (the sentinel)
    lists the nodes.  The walk runs on fuel; [size h + 1] steps suffice on
    a well-formed list, so [contents] computes the list a [dlist] holds. *)

Section Walk.
Context {T : Type}.
Implicit Types (h : heap T) (s p : ptr) (xs ys : list ptr).


Lemma walk_chain h s ys : forall p (n : nat),
  chain h (p :: ys ++ [s]) -> s ∉ ys -> (length ys < n)%nat ->
  walk n h (__next h p) s = Some ys.
Proof.
  induction ys as [|y ys IH]; intros p [|n] Hch Hs Hn; simpl in *; try lia.
  - destruct Hch as [[-> _] _]. by rewrite decide_True.
  - destruct Hch as [[-> _] Hch]. apply not_elem_of_cons in Hs as [Hys Hs].
    rewrite decide_False by done. rewrite (IH y n); [done..|lia].
Qed.

Lemma dlist_length h s xs : dlist h s xs -> (length xs < size h)%nat.
Proof.
  intros (Hnd & Hdom & _).
  assert (list_to_set (s :: xs) ⊆@{gset ptr} dom h) as Hsub.
  { intros p Hp. rewrite elem_of_list_to_set in Hp. rewrite Forall_forall in Hdom. auto. }
  apply subseteq_size in Hsub. rewrite size_list_to_set, size_dom in Hsub by done.
  simpl in Hsub. lia.
Qed.

(** A well-formed list is what iteration from [begin()] to [end()] visits. *)
Lemma dlist_contents h s xs : dlist h s xs -> contents h s = Some xs.
Proof.
  intros Hd. pose proof (dlist_length h s xs Hd) as Hlen.
  destruct Hd as (Hnd & _ & Hch). apply NoDup_cons in Hnd as [Hs _].
  apply walk_chain; [done..|lia].
Qed.

Lemma dlist_unique h s xs ys : dlist h s xs -> dlist h s ys -> xs = ys.
Proof. intros Hx Hy. apply dlist_contents in Hx, Hy. congruence. Qed.

(** Whether the list at [s] is well formed is decided by iterating it. *)
Lemma dlist_exists_contents h s :
  (exists xs, dlist h s xs) <-> from_option (dlist h s) False (contents h s).
Proof.
  split.
  - intros [xs Hd]. by rewrite (dlist_contents h s xs Hd).
  - destruct (contents h s) as [xs|]; simpl; [eauto|done].
Qed.


End Walk.

(** ** Reading a well-formed list

    The neighbours of the nodes of a list, and the segment [[first, last)]
    a C++ range denotes. *)

Section Reading.
Context {T : Type}.
Implicit Types (h : heap T) (s a p : ptr) (l A B X C xs : list ptr).


Lemma chain_app h l1 l2 : chain h (l1 ++ l2) -> chain h l1 /\ chain h l2.
Proof.
  induction l1 as [|x [|y l1] IH]; simpl; [done| |].
  - destruct l2; simpl; tauto.
  - intros [He Hc]. apply IH in Hc as [Hc1 Hc2]. done.
Qed.

Lemma dlist_chain h s xs : dlist h s xs -> chain h (s :: xs ++ [s]).
Proof. by intros (_ & _ & Hc). Qed.

Lemma snoc_hd_or s C : C ++ [s] = (hd_or s C :: drop 1 (C ++ [s])).
Proof. by destruct C. Qed.

(** The range [[hd_or e X, e)] of a list [A ++ X ++ C], [e] the node after
    [X], is a chain ending in [e], and [e] is not in it. *)
Lemma dlist_segment h s A X C :
  dlist h s (A ++ X ++ C) -> chain h (X ++ [hd_or s C]) /\ (hd_or s C ∉ X) /\ NoDup X.
Proof.
  intros Hd. pose proof (dlist_chain _ _ _ Hd) as Hc.
  destruct Hd as (Hnd & _).
  rewrite <- !app_assoc, snoc_hd_or in Hc.
  apply (chain_app h (s :: A)) in Hc as [_ Hc].
  change (X ++ hd_or s C :: drop 1 (C ++ [s])) with (X ++ [hd_or s C] ++ drop 1 (C ++ [s])) in Hc.
  rewrite app_assoc in Hc. apply chain_app in Hc as [Hc _]. split; [done|].
  apply NoDup_cons in Hnd as [Hs Hnd]. apply NoDup_app in Hnd as (_ & _ & Hnd).
  apply NoDup_app in Hnd as (HX & Hdis & _). split; [|done].
  destruct C as [|c C]; simpl.
  - intros Hin. apply Hs. set_solver.
  - intros Hin. apply (Hdis c Hin). set_solver.
Qed.

Lemma dlist_next h s A a B : dlist h s (A ++ a :: B) -> __next h a = hd_or s B.
Proof.
  intros Hd. change (A ++ a :: B) with (A ++ [a] ++ B) in Hd.
  apply dlist_segment in Hd as (Hc & _). by destruct Hc as [[? _] _].
Qed.

Lemma dlist_begin h s xs : dlist h s xs -> __next h s = hd_or s xs.
Proof. intros Hd%dlist_chain. by destruct xs; destruct Hd as [[? _] _]. Qed.

Lemma dlist_prev h s A a B : dlist h s (A ++ a :: B) -> __prev h a = lst_or s A.
Proof.
  intros Hd%dlist_chain. rewrite <- app_assoc in Hd.
  change (s :: A ++ (a :: B) ++ [s]) with ((s :: A) ++ a :: B ++ [s]) in Hd.
  apply chain_app_cons in Hd as (_ & [_ Hp] & _); [|done]. by rewrite Hp, lst_or_cons.
Qed.

(** A list depends only on the links and on the domain. *)
Lemma chain_same_links h h' l :
  (forall p, __next h' p = __next h p) -> (forall p, __prev h' p = __prev h p) ->
  chain h l -> chain h' l.
Proof.
  intros Hn Hp. induction l as [|x [|y l] IH]; simpl; [done|done|].
  intros [[He1 He2] Hc]. split; [|by apply IH]. split; [by rewrite Hn|by rewrite Hp].
Qed.

Lemma dlist_same_links h h' s xs :
  dom h' = dom h -> (forall p, __next h' p = __next h p) -> (forall p, __prev h' p = __prev h p) ->
  dlist h s xs -> dlist h' s xs.
Proof.
  intros Hd Hn Hp (Hnd & Hdom & Hc). split; [done|]. split.
  - by rewrite Hd.
  - by eapply chain_same_links.
Qed.

(** The sentinel's successor points back to it. *)
Lemma dlist_next_prev h s xs : dlist h s xs -> __prev h (__next h s) = s.
Proof. intros Hd%dlist_chain. by destruct xs; destruct Hd as [[-> ?] _]. Qed.

(** A non-empty list handed over to a new sentinel [s]: the nodes keep
    their inner links, [s] is linked to both ends. *)
Lemma dlist_move h h' o s a X :
  dlist h o (a :: X) -> s ∉ a :: X -> s ∈ dom h' -> (forall p, p ∈ a :: X -> p ∈ dom h') ->
  (forall p, p ∈ a :: X -> p <> lst_or a X -> __next h' p = __next h p) ->
  (forall p, p ∈ a :: X -> p <> a -> __prev h' p = __prev h p) ->
  edge h' s a -> edge h' (lst_or a X) s -> dlist h' s (a :: X).
Proof.
  intros Hd Hs Hsd Hdom Hn Hp He1 He2.
  pose proof Hd as (Hnd & _ & Hc). apply NoDup_cons in Hnd as [_ Hnd].
  change (o :: (a :: X) ++ [o]) with ([o] ++ (a :: X) ++ [o]) in Hc.
  apply (chain_app h [o]) in Hc as [_ Hc]. apply (chain_app h (a :: X)) in Hc as [Hc _].
  unfold dlist. replace (s :: a :: X) with (concat [[s]; a :: X]) by (simpl; by rewrite app_nil_r).
  apply (ring_regroup h); [by repeat constructor|done| | | | | |].
  - simpl. rewrite app_nil_r. by constructor.
  - simpl. rewrite app_nil_r. apply Forall_forall. intros p [->|Hp']%elem_of_cons; auto.
  - by repeat constructor.
  - intros p Hin Hl. simpl in Hin, Hl. rewrite app_nil_r, lst_or_cons in *.
    apply elem_of_cons in Hin as [->|Hin]; [by destruct Hl; left|].
    apply Hn; [done|]. intros ->. apply Hl. right. rewrite lst_or_cons. left.
  - intros p Hin Hl. simpl in Hin, Hl. rewrite app_nil_r in *.
    apply elem_of_cons in Hin as [->|Hin]; [by destruct Hl; left|].
    apply Hp; [done|]. intros ->. apply Hl. right. left.
  - unfold bounds. simpl. rewrite ?app_nil_r, !lst_or_cons, lst_or_nil, !hd_or_cons, hd_or_nil. apply Forall_cons; split; [exact He1|]. apply Forall_cons; split; [exact He2|]. by apply Forall_nil.
Qed.

(** A list depends only on the nodes it goes through. *)
Lemma chain_agree h h' l :
  (forall p, p ∈ l -> h' !! p = h !! p) -> chain h l -> chain h' l.
Proof.
  intros Hag. induction l as [|x [|y l] IH]; simpl; [done|done|].
  intros [[He1 He2] Hc]. split; [|apply IH; [intros; apply Hag; set_solver|done]].
  unfold edge, __next, __prev in *. rewrite !Hag by set_solver. done.
Qed.

Lemma dlist_agree h h' s xs :
  (forall p, p ∈ s :: xs -> h' !! p = h !! p) -> dlist h s xs -> dlist h' s xs.
Proof.
  intros Hag (Hnd & Hdom & Hc). split; [done|]. split.
  - rewrite Forall_forall in Hdom |- *. intros p Hp.
    pose proof (Hdom p Hp) as Hd. rewrite elem_of_dom in Hd |- *. by rewrite Hag.
  - apply (chain_agree h); [|done]. intros p Hp. apply Hag. set_solver.
Qed.

End Reading.

(** Decide a proposition about concrete lists by evaluation. *)
Ltac decide_concrete :=
  lazymatch goal with |- ?P => apply (bool_decide_eq_true_1 P); vm_compute; reflexivity end.
