(* ===== verification/IteratorOps.v ===== *)
(** * IteratorOps: [struct iterator_operations] of replacement_iterator.h

    The list surgery the policies use: each operation reads the neighbours
    of its arguments first and then performs its [__link]s, in the order of
    the source.  Each is proved to implement an operation on the abstract
    list: [move] moves a segment, [iter_swap] exchanges two nodes,
    [swap_ranges] exchanges two segments, [reverse] reverses a segment, and
    [rotate] is [move].  The arguments the source does not handle (a
    destination at the end of the moved range, empty ranges) are exhibited
    by concrete counterexamples. *)

From S2P Require Import Prelude Heap.

Module iterator_operations.
Section Ops.
Context {T : Type}.
Implicit Types (h : heap T) (first last dest a b : ptr).

(** [move(first, last, dest)]: splice [[first, last)] before [dest]. *)
Definition move h first last dest : heap T :=
  let before_ptr := __prev h first in
  let first_ptr := first in
  let last_ptr := __prev h last in
  let after_ptr := last in
  let d_before_ptr := __prev h dest in
  let d_after_ptr := dest in
  let h := __link h before_ptr after_ptr in
  let h := __link h d_before_ptr first_ptr in
  __link h last_ptr d_after_ptr.

(** [iter_swap(a, b)]: exchange the positions of two nodes. *)
Definition iter_swap h a b : heap T :=
  let before_a_ptr := __prev h a in
  let a_ptr := a in
  let after_a_ptr := __next h a in
  let before_b_ptr := __prev h b in
  let b_ptr := b in
  let after_b_ptr := __next h b in
  if decide (a_ptr = before_b_ptr) then
    let h := __link h before_a_ptr b_ptr in
    let h := __link h b_ptr a_ptr in
    __link h a_ptr after_b_ptr
  else if decide (a_ptr = after_b_ptr) then
    let h := __link h before_b_ptr a_ptr in
    let h := __link h a_ptr b_ptr in
    __link h b_ptr after_a_ptr
  else if decide (a_ptr <> b_ptr) then
    let h := __link h before_b_ptr a_ptr in
    let h := __link h a_ptr after_b_ptr in
    let h := __link h before_a_ptr b_ptr in
    __link h b_ptr after_a_ptr
  else h.

(** [swap_ranges(first1, last1, first2, last2)]: exchange two segments. *)
Definition swap_ranges h (first1 last1 first2 last2 : ptr) : heap T :=
  let before1_ptr := __prev h first1 in
  let first1_ptr := first1 in
  let last1_ptr := __prev h last1 in
  let after1_ptr := last1 in
  let before2_ptr := __prev h first2 in
  let first2_ptr := first2 in
  let last2_ptr := __prev h last2 in
  let after2_ptr := last2 in
  if decide (first2_ptr = after1_ptr) then
    let h := __link h before1_ptr first2_ptr in
    let h := __link h last2_ptr first1_ptr in
    __link h last1_ptr after2_ptr
  else if decide (first1_ptr = after2_ptr) then
    let h := __link h before2_ptr first1_ptr in
    let h := __link h last1_ptr first2_ptr in
    __link h last2_ptr after1_ptr
  else if decide (first1_ptr <> first2_ptr \/ last1_ptr <> last2_ptr) then
    let h := __link h before1_ptr first2_ptr in
    let h := __link h last2_ptr after1_ptr in
    let h := __link h before2_ptr first1_ptr in
    __link h last1_ptr after2_ptr
  else h.

(** The loop of [reverse]: [while (cur_ptr != after_ptr)], each iteration
    reading [next] before linking [cur] back to its predecessor.  The
    source loop does not terminate when [after] is not reachable; the
    model runs on fuel and returns [None] when the fuel is exhausted. *)
Fixpoint reverse_loop (fuel : nat) h (cur_ptr after_ptr : ptr) : option (heap T) :=
  match fuel with
  | O => None
  | S fuel =>
      if decide (cur_ptr = after_ptr) then Some h
      else
        let next_ptr := __next h cur_ptr in
        let h := __link h cur_ptr (__prev h cur_ptr) in
        reverse_loop fuel h next_ptr after_ptr
  end.

(** [reverse(first, last)] with the loop's fuel. *)
Definition reverse (fuel : nat) h first last : option (heap T) :=
  let before_ptr := __prev h first in
  let first_ptr := first in
  let last_ptr := __prev h last in
  let after_ptr := last in
  let cur_ptr := __next h first_ptr in
  h ← reverse_loop fuel h cur_ptr after_ptr;
  let h := __link h before_ptr last_ptr in
  Some (__link h first_ptr after_ptr).

(** [rotate(first, n_first, last)] is [move<T>(first, n_first, last)]. *)
Definition rotate h first n_first last : heap T := move h first n_first last.

(** The state of the list after the loop of [reverse] has handled the
    nodes [L] (in their original order): the nodes of [L] are linked in
    reverse order, and no other link has changed but the [next] of the
    first node and the [prev] of the last one are still the old ones. *)
Definition rev_inv (h h' : heap T) (L : list ptr) : Prop :=
  dom h' = dom h /\ chain h' (rev L) /\
  (forall p, p ∉ L -> __next h' p = __next h p /\ __prev h' p = __prev h p) /\
  __next h' (hd_or nullptr L) = __next h (hd_or nullptr L) /\
  __prev h' (lst_or nullptr L) = __prev h (lst_or nullptr L).

End Ops.

(** The list [[2; 3; 4; 5; 6]] with its sentinel at [1], built directly in
    memory. *)
Definition list6 : heap unit := ring_heap (fun _ => tt) [1; 2; 3; 4; 5; 6]%N.


(** ** Specifications

    Lists are written as the concatenation of the pieces an operation
    moves; [A] is the part before them (after the sentinel [s]) and [C]
    the part after them (before the sentinel). *)

Section Specs.
Context {T : Type}.
Implicit Types (h : heap T) (s r b d a m first last dest : ptr) (A R B C D M : list ptr).

Lemma move_after h s A r R b B C :
  dlist h s (A ++ (r :: R) ++ (b :: B) ++ C) ->
  dlist (move h r b (hd_or s C)) s (A ++ (b :: B) ++ (r :: R) ++ C).
Proof.
  intros Hd.
  surgery Hd ([r :: R; b :: B; C ++ s :: A]) ([b :: B; r :: R; C ++ s :: A]) ltac:(unfold move).
Qed.

Lemma move_before h s A d D r R C :
  dlist h s (A ++ (d :: D) ++ (r :: R) ++ C) ->
  dlist (move h r (hd_or s C) d) s (A ++ (r :: R) ++ (d :: D) ++ C).
Proof.
  intros Hd.
  surgery Hd ([d :: D; r :: R; C ++ s :: A]) ([r :: R; d :: D; C ++ s :: A]) ltac:(unfold move).
Qed.

Lemma iter_swap_next h s A a b C :
  dlist h s (A ++ a :: b :: C) -> dlist (iter_swap h a b) s (A ++ b :: a :: C).
Proof.
  intros Hd. change (a :: b :: C) with ([a] ++ [b] ++ C) in Hd.
  change (b :: a :: C) with ([b] ++ [a] ++ C).
  surgery Hd ([[a]; [b]; C ++ s :: A]) ([[b]; [a]; C ++ s :: A]) ltac:(unfold iter_swap).
Qed.

Lemma iter_swap_prev h s A a b C :
  dlist h s (A ++ b :: a :: C) -> dlist (iter_swap h a b) s (A ++ a :: b :: C).
Proof.
  intros Hd. change (b :: a :: C) with ([b] ++ [a] ++ C) in Hd.
  change (a :: b :: C) with ([a] ++ [b] ++ C).
  surgery Hd ([[b]; [a]; C ++ s :: A]) ([[a]; [b]; C ++ s :: A]) ltac:(unfold iter_swap).
Qed.

Lemma iter_swap_apart h s A a m M b C :
  dlist h s (A ++ a :: (m :: M) ++ b :: C) ->
  dlist (iter_swap h a b) s (A ++ b :: (m :: M) ++ a :: C).
Proof.
  intros Hd. change (a :: (m :: M) ++ b :: C) with ([a] ++ (m :: M) ++ [b] ++ C) in Hd.
  change (b :: (m :: M) ++ a :: C) with ([b] ++ (m :: M) ++ [a] ++ C).
  surgery Hd ([[a]; m :: M; [b]; C ++ s :: A]) ([[b]; m :: M; [a]; C ++ s :: A])
    ltac:(unfold iter_swap).
Qed.

Lemma iter_swap_apart_rev h s A a m M b C :
  dlist h s (A ++ b :: (m :: M) ++ a :: C) ->
  dlist (iter_swap h a b) s (A ++ a :: (m :: M) ++ b :: C).
Proof.
  intros Hd. change (b :: (m :: M) ++ a :: C) with ([b] ++ (m :: M) ++ [a] ++ C) in Hd.
  change (a :: (m :: M) ++ b :: C) with ([a] ++ (m :: M) ++ [b] ++ C).
  surgery Hd ([[b]; m :: M; [a]; C ++ s :: A]) ([[a]; m :: M; [b]; C ++ s :: A])
    ltac:(unfold iter_swap).
Qed.

Lemma swap_ranges_next h s A f1 R1 f2 R2 C :
  dlist h s (A ++ (f1 :: R1) ++ (f2 :: R2) ++ C) ->
  dlist (swap_ranges h f1 f2 f2 (hd_or s C)) s (A ++ (f2 :: R2) ++ (f1 :: R1) ++ C).
Proof.
  intros Hd.
  surgery Hd ([f1 :: R1; f2 :: R2; C ++ s :: A]) ([f2 :: R2; f1 :: R1; C ++ s :: A])
    ltac:(unfold swap_ranges).
Qed.

Lemma swap_ranges_prev h s A f1 R1 f2 R2 C :
  dlist h s (A ++ (f2 :: R2) ++ (f1 :: R1) ++ C) ->
  dlist (swap_ranges h f1 (hd_or s C) f2 f1) s (A ++ (f1 :: R1) ++ (f2 :: R2) ++ C).
Proof.
  intros Hd.
  surgery Hd ([f2 :: R2; f1 :: R1; C ++ s :: A]) ([f1 :: R1; f2 :: R2; C ++ s :: A])
    ltac:(unfold swap_ranges).
Qed.

Lemma swap_ranges_apart h s A f1 R1 m M f2 R2 C :
  dlist h s (A ++ (f1 :: R1) ++ (m :: M) ++ (f2 :: R2) ++ C) ->
  dlist (swap_ranges h f1 m f2 (hd_or s C)) s (A ++ (f2 :: R2) ++ (m :: M) ++ (f1 :: R1) ++ C).
Proof.
  intros Hd.
  surgery Hd ([f1 :: R1; m :: M; f2 :: R2; C ++ s :: A])
    ([f2 :: R2; m :: M; f1 :: R1; C ++ s :: A]) ltac:(unfold swap_ranges).
Qed.

Lemma swap_ranges_apart_rev h s A f1 R1 m M f2 R2 C :
  dlist h s (A ++ (f2 :: R2) ++ (m :: M) ++ (f1 :: R1) ++ C) ->
  dlist (swap_ranges h f1 (hd_or s C) f2 m) s (A ++ (f1 :: R1) ++ (m :: M) ++ (f2 :: R2) ++ C).
Proof.
  intros Hd.
  surgery Hd ([f2 :: R2; m :: M; f1 :: R1; C ++ s :: A])
    ([f1 :: R1; m :: M; f2 :: R2; C ++ s :: A]) ltac:(unfold swap_ranges).
Qed.

(** ** The operations on the abstract list *)

(** C27: [move] exchanges two adjacent non-empty segments [R] and [B] of the
    list, whether it moves [R] to after [B] ([dest] is the end of [B]) or
    [B] to before [R] ([dest] is the start of [R]). *)
Theorem move_spec h s A R B C :
  R <> [] -> B <> [] -> dlist h s (A ++ R ++ B ++ C) ->
  dlist (move h (hd_or s R) (hd_or s B) (hd_or s C)) s (A ++ B ++ R ++ C) /\
  dlist (move h (hd_or s B) (hd_or s C) (hd_or s R)) s (A ++ B ++ R ++ C).
Proof.
  destruct R as [|r R], B as [|b B]; intros HR HB Hd; try done.
  rewrite !hd_or_cons. split; [by apply move_after|].
  rewrite !app_assoc in Hd |- *. rewrite <- !app_assoc in Hd |- *. by apply move_before.
Qed.

(** [iter_swap(a, b)] exchanges the positions of two distinct nodes,
    whichever comes first and whether or not they are adjacent. *)
Theorem iter_swap_spec h s A a M b C :
  dlist h s (A ++ a :: M ++ b :: C) ->
  dlist (iter_swap h a b) s (A ++ b :: M ++ a :: C) /\
  dlist (iter_swap h b a) s (A ++ b :: M ++ a :: C).
Proof.
  intros Hd. destruct M as [|m M]; simpl in *.
  - split; [by apply iter_swap_next | by apply iter_swap_prev].
  - split; [by apply iter_swap_apart | by apply iter_swap_apart_rev].
Qed.

(** [swap_ranges(first1, last1, first2, last2)] exchanges two disjoint
    non-empty segments, adjacent or not, given in either order. *)
Theorem swap_ranges_spec h s A R1 M R2 C :
  R1 <> [] -> R2 <> [] -> dlist h s (A ++ R1 ++ M ++ R2 ++ C) ->
  dlist (swap_ranges h (hd_or s R1) (hd_or (hd_or s R2) M) (hd_or s R2) (hd_or s C)) s
    (A ++ R2 ++ M ++ R1 ++ C) /\
  dlist (swap_ranges h (hd_or s R2) (hd_or s C) (hd_or s R1) (hd_or (hd_or s R2) M)) s
    (A ++ R2 ++ M ++ R1 ++ C).
Proof.
  destruct R1 as [|f1 R1], R2 as [|f2 R2]; intros H1 H2 Hd; try done.
  rewrite !hd_or_cons. destruct M as [|m M]; rewrite ?hd_or_nil, ?hd_or_cons; simpl in Hd |- *.
  - split; [by apply swap_ranges_next | by apply swap_ranges_prev].
  - split; [by apply swap_ranges_apart | by apply swap_ranges_apart_rev].
Qed.

(** C37: [move(first, first, dest)], an empty range, is not a no-op: it cuts
    [[first, dest)] out of the list, which keeps the other nodes, and
    leaves the cut nodes linked in a separate ring.  [rotate(first, first,
    last)], a no-op for [std::rotate], is such a call and drops
    [[first, last)] from the list. *)
Theorem move_empty_range h s A X C :
  X <> [] -> dlist h s (A ++ X ++ C) ->
  dlist (move h (hd_or s X) (hd_or s X) (hd_or s C)) s (A ++ C) /\
  ring (move h (hd_or s X) (hd_or s X) (hd_or s C)) X.
Proof.
  destruct X as [|x X]; intros HX Hd; [done|]. rewrite hd_or_cons.
  surgery_facts Hd ([x :: X; C ++ s :: A]). split.
  - rewrite (dlist_as_ring _ _ _ _ ([C ++ s :: A])) by groups_eq.
    surgery_close Hd ([x :: X; C ++ s :: A]) ([C ++ s :: A]) ([x :: X]) ltac:(unfold move).
  - rewrite <- (app_nil_r (x :: X)). change ((x :: X) ++ []) with (concat [x :: X]).
    surgery_close Hd ([x :: X; C ++ s :: A]) ([x :: X]) ([C ++ s :: A]) ltac:(unfold move).
Qed.

(** The operations only relink nodes: values and weights stay. *)
Lemma move_payload h first last dest : move h first last dest ≈ₚ h.
Proof. unfold move. by rewrite !same_payload_link. Qed.

Lemma iter_swap_payload h a b : iter_swap h a b ≈ₚ h.
Proof. unfold iter_swap. repeat case_decide; by rewrite ?same_payload_link. Qed.

Lemma swap_ranges_payload h first1 last1 first2 last2 :
  swap_ranges h first1 last1 first2 last2 ≈ₚ h.
Proof. unfold swap_ranges. repeat case_decide; by rewrite ?same_payload_link. Qed.

Lemma reverse_loop_payload (n : nat) : forall h cur after h',
  reverse_loop n h cur after = Some h' -> h' ≈ₚ h.
Proof.
  induction n as [|n IH]; intros h cur after h' Hr; simpl in Hr; [done|].
  case_decide; [by simplify_eq|]. apply IH in Hr. by rewrite Hr, same_payload_link.
Qed.

Lemma reverse_payload (n : nat) h first last h' : reverse n h first last = Some h' -> h' ≈ₚ h.
Proof.
  unfold reverse. destruct (reverse_loop _ _ _ _) as [h1|] eqn:Hl; intros Hr; simplify_eq/=.
  apply reverse_loop_payload in Hl. by rewrite !same_payload_link.
Qed.

End Specs.
Section Reverse.
Context {T : Type}.
Implicit Types (h : heap T) (s e x y q : ptr) (L R A C X : list ptr).


Lemma rev_inv_step h h1 L y :
  L <> [] -> NoDup (L ++ [y]) -> y ∈ dom h -> lst_or nullptr L ∈ dom h ->
  edge h (lst_or nullptr L) y -> rev_inv h h1 L ->
  rev_inv h (__link h1 y (lst_or nullptr L)) (L ++ [y]).
Proof.
  intros HL Hnd Hy Hq [Hn Hp] (Hdom & Hch & Hfr & Hx1 & Hql).
  destruct (exists_last HL) as (L0 & q & ->). rewrite lst_or_snoc in *.
  rewrite <- app_assoc in Hnd. simpl in Hnd. apply NoDup_app in Hnd as (HndL0 & Hdis & Hndq).
  apply NoDup_cons in Hndq as [Hqy _].
  assert (y ∉ L0) as HyL0 by (intros Hin; apply (Hdis y Hin); set_solver).
  assert (q ∉ L0) as HqL0 by (intros Hin; apply (Hdis q Hin); set_solver).
  assert (q <> y) as Hqy' by set_solver.
  assert (y ∉ L0 ++ [q]) as HyL by (rewrite not_elem_of_app, not_elem_of_cons; split; [done|split; [congruence|apply not_elem_of_nil]]).
  rewrite rev_unit in Hch.
  split; [by rewrite dom_link|]. split; [|split; [|split]].
  - rewrite !rev_unit. split.
    + split; [apply next_link_eq | apply prev_link_eq]; rewrite Hdom; done.
    + apply (chain_frame h1); [|done| |].
      * apply NoDup_cons. by rewrite <- Permutation_rev.
      * intros z Hz _. apply next_link_ne. intros ->.
        apply elem_of_cons in Hz as [->|Hz]; [done|]. by rewrite <- Permutation_rev in Hz.
      * intros z Hz Hzq. apply prev_link_ne. by rewrite hd_or_cons in Hzq.
  - intros p Hp'. apply not_elem_of_app in Hp' as [Hp1 Hp2].
    apply not_elem_of_cons in Hp2 as [Hpy _].
    assert (p <> q) by (intros ->; apply Hp1, elem_of_app; right; apply list_elem_of_here).
    rewrite next_link_ne, prev_link_ne by done. by apply Hfr.
  - rewrite hd_or_app_ne by (by destruct L0). rewrite next_link_ne; [done|].
    intros Heq. apply HyL. rewrite <- Heq. apply hd_or_ne_in. by destruct L0.
  - rewrite lst_or_snoc, prev_link_ne by done. by apply Hfr.
Qed.
(** The loop terminates with enough fuel and establishes [rev_inv] for the
    whole range. *)
Lemma reverse_loop_spec h e R : forall L h1 (n : nat),
  L <> [] -> NoDup (L ++ R ++ [e]) -> Forall (fun p => p ∈ dom h) (L ++ R) ->
  chain h (L ++ R ++ [e]) -> rev_inv h h1 L -> (length R < n)%nat ->
  exists h2, reverse_loop n h1 (__next h (lst_or nullptr L)) e = Some h2 /\ rev_inv h h2 (L ++ R).
Proof.
  induction R as [|y R IH]; intros L h1 [|n] HL Hnd Hdom Hch Hinv Hn; simpl in Hn; try lia.
  - apply chain_app_cons in Hch as (_ & [-> _] & _); [|done].
    exists h1. simpl. rewrite decide_True, app_nil_r by done. done.
  - pose proof Hch as Hch0.
    apply chain_app_cons in Hch as (_ & [Hq Hy] & Hch); [|done]. rewrite Hq. simpl.
    assert (y <> e /\ y ∉ L) as [Hye HyL].
    { apply NoDup_app in Hnd as (_ & Hdis & Hnd). apply NoDup_cons in Hnd as [Hy' _].
      split; [intros ->; apply Hy'; set_solver|intros Hin; apply (Hdis y Hin); set_solver]. }
    rewrite decide_False by done.
    pose proof Hinv as (Hd1 & Hc1 & Hfr & Hx1 & Hql).
    destruct (Hfr y HyL) as [Hny Hpy]. rewrite Hny, Hpy, Hy.
    rewrite Forall_app in Hdom. destruct Hdom as [HdL HdR]. apply Forall_cons in HdR as [Hdy HdR].
    destruct (IH (L ++ [y]) (__link h1 y (lst_or nullptr L)) n) as (h2 & Hl & Hi).
    + by destruct L.
    + by rewrite <- app_assoc.
    + rewrite <- app_assoc, !Forall_app, Forall_singleton. tauto.
    + by rewrite <- app_assoc.
    + apply rev_inv_step; try done.
      * apply NoDup_app in Hnd as (? & Hdis & Hnd). apply NoDup_app. split; [done|].
        split; [|apply NoDup_singleton]. intros z Hz. specialize (Hdis z Hz). set_solver.
      * rewrite Forall_forall in HdL. apply HdL. by apply lst_or_ne_in.
    + lia.
    + exists h2. rewrite lst_or_snoc in Hl. split; [done|]. by rewrite <- app_assoc in Hi.
Qed.

(** [reverse(first, last)] reverses a non-empty range in place; the
    loop terminates and the fuel it needs is the length of the range. *)
(** The facts about a list [A ++ (x :: X) ++ C] that [reverse] of the
    range [x :: X] relies on: the range and the rest are disjoint,
    allocated and chained, and the bounds of the range are linked to the
    rest. *)
Ltac reverse_setup Hd x X C s A :=
  rewrite (dlist_as_ring _ _ _ _ ([x :: X; C ++ s :: A])) in Hd by groups_eq;
  let Hne := fresh "Hne" in
  assert (Forall (fun G => G <> []) [x :: X; C ++ s :: A]) as Hne by nonempty_tac;
  destruct (proj1 (ring_groups _ _ Hne ltac:(done)) Hd) as (Hnd & Hdom & Hch & Hb);
  ring_facts Hb; forall_destr;
  pose proof (nodup_concat_disj _ 0 1 _ _ Hnd ltac:(done) eq_refl eq_refl) as Hdis;
  cbn [concat] in Hnd, Hdom; rewrite app_nil_r in Hnd, Hdom;
  pose proof Hnd as Hnd0; apply NoDup_app in Hnd as (HndX & _ & HndY);
  rewrite Forall_app in Hdom; destruct Hdom as [HdX HdY];
  assert (hd_or s C ∈ C ++ s :: A) as He_in by apply elem_of_app_snoc_cons, hd_or_in;
  assert (lst_or s A ∈ C ++ s :: A) as Hb_in by (apply elem_of_app; right; apply lst_or_in);
  assert (lst_or x X ∈ x :: X) as Hq_in by apply lst_or_in;
  assert (x ∈ x :: X) as Hx_in by apply list_elem_of_here.

Lemma rev_snoc_perm {U} (x : U) (X : list U) : rev X ++ [x] ≡ₚ x :: X.
Proof. change (rev X ++ [x]) with (rev (x :: X)). by rewrite <- Permutation_rev. Qed.

(** The two links after the loop of [reverse] close the ring: the
    reversed range sits between [A] and [C]. *)
Lemma reverse_close h h1 s x X A C :
  dlist h s (A ++ (x :: X) ++ C) -> rev_inv h h1 (x :: X) ->
  dlist (__link (__link h1 (lst_or s A) (lst_or x X)) x (hd_or s C)) s (A ++ rev (x :: X) ++ C).
Proof.
  intros Hd (Hd1 & Hc1 & Hfr & _). reverse_setup Hd x X C s A.
  set (e := hd_or s C) in *. set (q := lst_or x X) in *. set (b := lst_or s A) in *.
  assert (forall z, z ∈ rev X ++ [x] <-> z ∈ x :: X) as Hrev by (intros z; by rewrite rev_snoc_perm).
  assert ((rev X ++ [x]) ++ C ++ s :: A ≡ₚ (x :: X) ++ C ++ s :: A) as Hperm by (by rewrite rev_snoc_perm).
  simpl rev. simpl rev in Hc1.
  rewrite (dlist_as_ring _ _ _ _ ([rev X ++ [x]; C ++ s :: A])) by groups_eq.
  apply ring_groups; [nonempty_tac|done|]. cbn [concat]. rewrite app_nil_r, Hperm.
  split; [exact Hnd0|]. split; [|split].
  - rewrite Forall_app, !Forall_forall. rewrite !Forall_forall in HdX, HdY.
    rewrite !dom_link, Hd1. split; auto.
  - apply Forall_cons. split; [|apply Forall_singleton].
    + apply (chain_frame h1); [by rewrite rev_snoc_perm|exact Hc1| |].
      * intros z Hz Hzl. rewrite lst_or_snoc in Hzl. apply Hrev in Hz.
        rewrite next_link_ne by done. rewrite next_link_ne; [done|]. by apply Hdis.
      * intros z Hz Hzh. rewrite hd_or_app_cons, hd_or_rev in Hzh. fold q in Hzh.
        apply Hrev in Hz. rewrite prev_link_ne by (by apply Hdis). by rewrite prev_link_ne.
    + assert (forall z, z ∈ C ++ s :: A -> z ∉ [x] ++ X) as Hout.
      { intros z Hz Hin. by apply (Hdis z z). }
      apply (chain_frame h); [done|done| |].
      * intros z Hz Hzl. rewrite lst_or_app_cons in Hzl. fold b in Hzl.
        rewrite next_link_ne by (apply not_eq_sym, Hdis; done).
        rewrite next_link_ne by done. by apply Hfr, Hout.
      * intros z Hz Hzh. rewrite hd_or_app_cons in Hzh. fold e in Hzh.
        rewrite prev_link_ne by done.
        rewrite prev_link_ne by (apply not_eq_sym, Hdis; done). by apply Hfr, Hout.
  - unfold bounds. groups_simpl.
    rewrite hd_or_app_ne by apply app_cons_ne. rewrite hd_or_app_cons, hd_or_rev. fold q e b.
    assert (x <> b /\ q <> e) as [Hxb Hqe] by (split; by apply Hdis).
    rewrite Forall_forall in HdX, HdY.
    assert (x ∈ dom h1 /\ q ∈ dom h1 /\ e ∈ dom h1 /\ b ∈ dom h1) as (Hxd & Hqd & Hed & Hbd)
      by (rewrite Hd1; auto).
    repeat (apply Forall_cons; split); [..|constructor]; split; cbn [fst snd].
    + by rewrite next_link_eq by (by rewrite dom_link).
    + by rewrite prev_link_eq by (by rewrite dom_link).
    + rewrite next_link_ne by (by apply not_eq_sym). by rewrite next_link_eq.
    + rewrite prev_link_ne by done. by rewrite prev_link_eq.
Qed.

(** C28: reverse(first, last) on a non-empty range terminates with enough fuel and reverses the range in place. *)
Theorem reverse_spec h s A X C (fuel : nat) :
  X <> [] -> (length X <= fuel)%nat -> dlist h s (A ++ X ++ C) ->
  exists h', reverse fuel h (hd_or s X) (hd_or s C) = Some h' /\ dlist h' s (A ++ rev X ++ C).
Proof.
  destruct X as [|x X]; intros HX Hf Hd; [done|]. rewrite hd_or_cons.
  pose proof Hd as Hd0. reverse_setup Hd x X C s A.
  set (e := hd_or s C) in *.
  destruct (reverse_loop_spec h e X [x] h fuel) as (h1 & Hloop & Hinv).
  - done.
  - change ([x] ++ X ++ [e]) with ((x :: X) ++ [e]).
    apply NoDup_app. split; [done|]. split; [|apply NoDup_singleton].
    intros z Hz ->%list_elem_of_singleton. by apply (Hdis e e).
  - exact HdX.
  - change ([x] ++ X ++ [e]) with ((x :: X) ++ [e]).
    apply chain_app_cons; [done|]. rewrite lst_or_cons. done.
  - repeat split; done.
  - simpl in Hf. lia.
  - unfold reverse. cbv zeta. fold e. rewrite He3, He1.
    change (lst_or nullptr [x]) with x in Hloop. rewrite Hloop. simpl.
    eexists. split; [reflexivity|]. exact (reverse_close h h1 s x X A C Hd0 Hinv).
Qed.


End Reverse.

(** ** Runs on a concrete list

    The theorems applied to [list6], and [reverse(first, first)] run on
    it. *)


Lemma move_spec_witness :
  dlist (move list6 3 5 6) 1%N [2; 5; 3; 4; 6]%N /\ dlist (move list6 5 6 3) 1%N [2; 5; 3; 4; 6]%N.
Proof. apply (move_spec list6 1 [2] [3; 4] [5] [6])%N; [done|done|decide_concrete]. Defined.

Lemma iter_swap_spec_witness :
  dlist (iter_swap list6 3 5) 1%N [2; 5; 4; 3; 6]%N /\ dlist (iter_swap list6 5 3) 1%N [2; 5; 4; 3; 6]%N.
Proof. apply (iter_swap_spec list6 1 [2] 3 [4] 5 [6])%N. decide_concrete. Defined.

Lemma swap_ranges_spec_witness :
  dlist (swap_ranges list6 2 4 5 6) 1%N [5; 4; 2; 3; 6]%N /\
  dlist (swap_ranges list6 5 6 2 4) 1%N [5; 4; 2; 3; 6]%N.
Proof. apply (swap_ranges_spec list6 1 [] [2; 3] [4] [5] [6])%N; [done|done|decide_concrete]. Defined.

Lemma move_empty_range_witness :
  dlist (move list6 3 3 6) 1%N [2; 6]%N /\ ring (move list6 3 3 6) [3; 4; 5]%N.
Proof. apply (move_empty_range list6 1 [2] [3; 4; 5] [6])%N; [done|decide_concrete]. Defined.

Lemma reverse_spec_witness :
  exists h', reverse 3 list6 3 6 = Some h' /\ dlist h' 1%N [2; 5; 4; 3; 6]%N.
Proof. apply (reverse_spec list6 1 [2] [3; 4; 5] [6] 3)%N; [done|simpl; lia|decide_concrete]. Defined.

(** [reverse(first, first)]: the comment of [reverse] calls [last] the
    last element of the range, so this is the one-element range
    [[first]], which should be left unchanged; the code takes [last] as
    one past the end, walks around the whole ring from [first] and breaks
    the list. *)
Theorem reverse_empty_range_breaks :
  exists h', reverse 10 list6 3 3 = Some h' /\ ~ exists xs, dlist h' 1%N xs.
Proof.
  eexists. split; [vm_compute; reflexivity|].
  rewrite dlist_exists_contents. vm_compute. tauto.
Qed.

End iterator_operations.
