(* ===== verification/Policy.v ===== *)
(** * Policy: the replacement policies of [src/cache_manager/policy.h]

    A policy is a value with up to three hooks, detected by the source
    with SFINAE ([provides_insert_v], [provides_erase_v],
    [provides_access_v]); here it is a record of three optional functions.
    [policy_extractor] supplies the defaults of a missing hook: insert
    before [last], erase [first], and no change on access.  The hooks see
    the list through iterators: they read the heap and [access] rewrites
    its links with [iterator_operations].

    The loops of [locked_policy] and [priority_policy] walk the list; they
    run on fuel ([size h + 1] steps, enough on a well-formed list, whose
    ranges have fewer nodes than the heap) and return [None] when the fuel
    runs out, which stands for a walk that does not come back.  The
    [static_assert] of the two wrappers is modelled by returning no policy
    when the parent policy has an [erase_position].

    The theorems are in [PolicySpec]. *)

From S2P Require Import Prelude Heap IteratorOps.

Module policy.
Import iterator_operations.

Section Policy.
Context {T : Type} `{Inhabited T}.
Implicit Types (h : heap T) (first last accessed it : ptr).

(** A policy: its hooks, each present or absent. *)
Record policy := mk_policy {
  insert_position : option (heap T -> ptr -> ptr -> ptr);
  erase_position : option (heap T -> ptr -> ptr -> option ptr);
  access : option (heap T -> ptr -> ptr -> ptr -> heap T)
}.

(** [struct fifo {}]: no hook, the defaults of [policy_extractor]. *)
Definition fifo : policy := mk_policy None None None.

(** [lifo::insert_position] returns [first]. *)
Definition lifo : policy := mk_policy (Some (fun h first last => first)) None None.

(** [lru::access]: move the accessed node to the end of the list. *)
Definition lru_access h first last accessed : heap T :=
  let next := __next h accessed in
  if decide (next <> last) then move h accessed next last else h.

Definition lru : policy := mk_policy None None (Some lru_access).

(** [mru::access]: move the accessed node to the front of the list. *)
Definition mru_access h first last accessed : heap T :=
  if decide (accessed <> first) then
    let next := __next h accessed in
    move h accessed next first
  else h.

Definition mru : policy := mk_policy (Some (fun h first last => first)) None (Some mru_access).

(** [swapping::access]: exchange the accessed node with its successor. *)
Definition swapping_access h first last accessed : heap T :=
  let next := __next h accessed in
  if decide (next <> last) then iter_swap h next accessed else h.

Definition swapping : policy :=
  mk_policy (Some (fun h first last => first)) None (Some swapping_access).

(** [locked_policy::erase_position]: the first node of [[first, last)]
    the locker does not lock, or [last]. *)
Fixpoint locked_scan (locker : T -> bool) (fuel : nat) h it last : option ptr :=
  match fuel with
  | O => None
  | S fuel =>
      if decide (it = last) then Some last
      else if negb (locker (__val h it)) then Some it
      else locked_scan locker fuel h (__next h it) last
  end.

Definition locked_erase_position (locker : T -> bool) h first last : option ptr :=
  locked_scan locker (S (size h)) h first last.

(** [locked_policy<T, ParentPolicy, Locker>]: the parent's hooks with the
    erase position replaced; rejected ([static_assert]) when the parent
    has an erase position. *)
Definition locked_policy (parent : policy) (locker : T -> bool) : option policy :=
  match erase_position parent with
  | Some _ => None
  | None => Some (mk_policy (insert_position parent)
                    (Some (locked_erase_position locker)) (access parent))
  end.

(** [struct locker]: nothing is locked. *)
Definition locker (v : T) : bool := false.

(** The priorities are [size_t]: [numeric_limits::min()] is [0] and
    [numeric_limits::max()] is [size_max].  A priority function returning
    [size_t] is a function to [Z] read modulo [2^64]. *)
Definition prio (locker : T -> Z) h it : Z := to_size (locker (__val h it)).

(** The first loop of [priority_policy::erase_position]: skip the nodes of
    maximal priority; [inl last] when the range is exhausted ([return
    last]), [inr lowest] otherwise. *)
Fixpoint priority_skip (locker : T -> Z) (fuel : nat) h lowest last : option (ptr + ptr) :=
  match fuel with
  | O => None
  | S fuel =>
      if decide (prio locker h lowest = size_max) then
        let lowest := __next h lowest in
        if decide (lowest = last) then Some (inl last)
        else priority_skip locker fuel h lowest last
      else Some (inr lowest)
  end.

(** The second loop: [while (currentPriority > min && it != last)].  The
    decrement does not wrap: [currentPriority > 0] when it runs. *)
Fixpoint priority_search (locker : T -> Z) (fuel : nat) h it lowest (current : Z) last
    : option ptr :=
  match fuel with
  | O => None
  | S fuel =>
      if decide (0 < current /\ it <> last) then
        let priority := prio locker h it in
        if decide (priority < current) then
          priority_search locker fuel h (__next h it) it priority last
        else priority_search locker fuel h (__next h it) lowest (current - 1) last
      else Some lowest
  end.

(** [priority_policy::erase_position]; its [assert(first != last)] is a
    precondition of the theorems. *)
Definition priority_erase_position (locker : T -> Z) h first last : option ptr :=
  r ← priority_skip locker (S (size h)) h first last;
  match r with
  | inl l => Some l
  | inr lowest =>
      priority_search locker (S (size h)) h lowest lowest (prio locker h lowest) last
  end.

Definition priority_policy (parent : policy) (locker : T -> Z) : option policy :=
  match erase_position parent with
  | Some _ => None
  | None => Some (mk_policy (insert_position parent)
                    (Some (priority_erase_position locker)) (access parent))
  end.

(** The selection the comment above [priority_policy] describes, on the
    priorities of the range in replacement order: start at the first
    priority below the maximum; from a current position [N] of priority
    [P], move to the first position [N + M] with [M <= P] and priority
    [A <= P - M], and repeat; erase the current position when there is
    none.  [None] when every priority is maximal.  [doc_find rest P M]
    looks for the position in [rest], the priorities after [N]. *)
Fixpoint doc_find (rest : list Z) (P M : Z) : option nat :=
  match rest with
  | [] => None
  | A :: rest' => if decide (M <= P /\ A <= P - M) then Some O else S <$> doc_find rest' P (M + 1)
  end.

Fixpoint doc_from (fuel : nat) (ps : list Z) (N : nat) : nat :=
  match fuel with
  | O => N
  | S fuel =>
      match doc_find (drop (S N) ps) (ps !!! N) 1 with
      | Some k => doc_from fuel ps (N + S k)
      | None => N
      end
  end.

Definition priority_doc_select (ps : list Z) : option nat :=
  match list_find (fun p => p <> size_max) ps with
  | None => None
  | Some (N, _) => Some (doc_from (length ps) ps N)
  end.

(** [struct priority]: every node has priority [0]. *)
Definition priority (v : T) : Z := 0.

End Policy.

(** Two nodes [2; 3] after the sentinel [1], of priorities [2] and [1]
    (the stored value is the priority). *)
Definition prio_list : heap Z := ring_heap (fun p => Z.of_N (4 - p)) [1; 2; 3]%N.

(** [policy_extractor<T, Policy>]: a hook, or its default. *)
Module policy_extractor.
Section Extractor.
Context {T : Type}.
Implicit Types (p : @policy T) (h : heap T) (first last accessed : ptr).

Definition insert_position p h first last : ptr :=
  match policy.insert_position p with Some f => f h first last | None => last end.

Definition erase_position p h first last : option ptr :=
  match policy.erase_position p with Some f => f h first last | None => Some first end.

Definition access p h first last accessed : heap T :=
  match policy.access p with Some f => f h first last accessed | None => h end.

End Extractor.
End policy_extractor.

(** ** What the manager requires of a policy

    On a well-formed list: the insert position the manager asks for
    ([begin()], [end()]) is a node of the list or its end; the erase
    position of a suffix [[first, end)] is computed and is a node of the
    list or its end; [access] rearranges the nodes of the list and only
    relinks them.  Every built-in policy satisfies these laws. *)
Class PolicyLaws {T : Type} (p : @policy T) : Prop := {
  insert_position_in (h : heap T) s xs :
    dlist h s xs -> policy_extractor.insert_position p h (__next h s) s ∈ xs ++ [s];
  erase_position_in (h : heap T) s A X :
    dlist h s (A ++ X) ->
    exists r, policy_extractor.erase_position p h (hd_or s X) s = Some r /\ r ∈ A ++ X ++ [s];
  erase_position_local (h h' : heap T) s A X :
    dlist h s (A ++ X) -> (forall q, q ∈ s :: A ++ X -> h' !! q = h !! q) ->
    policy_extractor.erase_position p h' (hd_or s X) s = policy_extractor.erase_position p h (hd_or s X) s;
  access_perm (h : heap T) s xs a :
    dlist h s xs -> a ∈ xs ->
    exists ys, ys ≡ₚ xs /\ dlist (policy_extractor.access p h (__next h s) s a) s ys;
  access_payload (h : heap T) first last a :
    policy_extractor.access p h first last a ≈ₚ h
}.

(** ** Specifications of the hooks *)

Section PolicySpec.
Context {T : Type} `{Inhabited T}.
Implicit Types (h : heap T) (s a b e : ptr) (A B C X W : list ptr).

Lemma lru_access_spec h s A a B :
  dlist h s (A ++ a :: B) -> dlist (lru_access h (__next h s) s a) s (A ++ B ++ [a]).
Proof.
  intros Hd. unfold lru_access. rewrite (dlist_next _ _ _ _ _ Hd).
  destruct B as [|b B]; rewrite ?hd_or_nil, ?hd_or_cons.
  - rewrite decide_False by tauto. done.
  - rewrite decide_True.
    + assert (dlist h s (A ++ [a] ++ (b :: B) ++ [])) as Hd' by by rewrite app_nil_r.
      apply (move_after h s A a [] b B []) in Hd'. by rewrite app_nil_r in Hd'.
    + intros ->. destruct Hd as (Hnd & _). apply NoDup_cons in Hnd as [Hs _]. set_solver.
Qed.

Lemma mru_access_spec h s A a B :
  dlist h s (A ++ a :: B) -> dlist (mru_access h (__next h s) s a) s (a :: A ++ B).
Proof.
  intros Hd. unfold mru_access. rewrite (dlist_begin _ _ _ Hd).
  destruct A as [|a0 A]; simpl.
  - rewrite hd_or_cons, decide_False by tauto. done.
  - rewrite hd_or_cons, decide_True.
    + rewrite (dlist_next _ _ _ _ _ Hd).
      change (a0 :: A ++ a :: B) with ([] ++ (a0 :: A) ++ (a :: []) ++ B) in Hd.
      by apply (move_before h s [] a0 A a [] B) in Hd.
    + intros ->. destruct Hd as (Hnd & _). apply NoDup_cons in Hnd as [_ Hnd].
      apply NoDup_cons in Hnd as [Ha _]. set_solver.
Qed.

Lemma swapping_access_spec h s A a B :
  dlist h s (A ++ a :: B) ->
  dlist (swapping_access h (__next h s) s a) s
    (A ++ match B with [] => [a] | b :: B' => b :: a :: B' end).
Proof.
  intros Hd. unfold swapping_access. rewrite (dlist_next _ _ _ _ _ Hd).
  destruct B as [|b B]; rewrite ?hd_or_nil, ?hd_or_cons.
  - rewrite decide_False by tauto. done.
  - rewrite decide_True.
    + by apply (iter_swap_prev h s A b a B).
    + intros ->. destruct Hd as (Hnd & _). apply NoDup_cons in Hnd as [Hs _]. set_solver.
Qed.
Lemma chain_next h x X e : chain h (x :: X ++ [e]) -> __next h x = hd_or e X.
Proof. rewrite app_snoc_hd. by intros [[? _] _]. Qed.

Lemma chain_tail h x X e : chain h (x :: X ++ [e]) -> chain h (X ++ [e]).
Proof. intros Hc. by apply (chain_app h [x]) in Hc as [_ Hc]. Qed.

Lemma locked_scan_chain (lk : T -> bool) h e X : forall (n : nat),
  chain h (X ++ [e]) -> e ∉ X -> (length X < n)%nat ->
  locked_scan lk n h (hd_or e X) e = Some (hd_or e (filter (fun p => lk (__val h p) = false) X)).
Proof.
  induction X as [|x X IH]; intros [|n] Hc He Hn; simpl in Hn; try lia.
  - simpl. by rewrite decide_True.
  - rewrite hd_or_cons. simpl. rewrite decide_False by set_solver. rewrite filter_cons.
    destruct (lk (__val h x)) eqn:Hl; simpl.
    + rewrite (chain_next _ _ _ _ Hc).
      apply IH; [by eapply chain_tail|set_solver|lia].
    + done.
Qed.

Lemma priority_skip_chain (lk : T -> Z) h e X : forall (n : nat),
  X <> [] -> chain h (X ++ [e]) -> e ∉ X -> (length X < n)%nat ->
  (Forall (fun p => prio lk h p = size_max) X /\
     priority_skip lk n h (hd_or e X) e = Some (inl e)) \/
  (exists Y x Z, X = Y ++ x :: Z /\ Forall (fun p => prio lk h p = size_max) Y /\
     prio lk h x <> size_max /\ priority_skip lk n h (hd_or e X) e = Some (inr x)).
Proof.
  induction X as [|x X IH]; intros [|n] HX Hc He Hn; simpl in Hn; try lia; [done|].
  rewrite hd_or_cons. simpl. rewrite (chain_next _ _ _ _ Hc).
  case_decide as Hmax.
  - destruct X as [|x' X].
    + left. rewrite hd_or_nil, decide_True by done. split; [by constructor|done].
    + rewrite decide_False by (rewrite hd_or_cons; set_solver).
      destruct (IH n) as [[Hall Hs]|(Y & y & Z & -> & HY & Hy & Hs)];
        [done|by eapply chain_tail|set_solver|lia| |].
      * left. split; [by constructor|done].
      * right. exists (x :: Y), y, Z. split; [done|]. split; [by constructor|]. split; done.
  - right. exists [], x, X. split; [done|]. split; [constructor|]. split; done.
Qed.

Lemma prio_le lk h p : prio lk h p <= size_max.
Proof. pose proof (to_size_range (lk (__val h p))). unfold prio. size_lia. Qed.

Lemma priority_search_chain (lk : T -> Z) h e W : forall lowest cur (n : nat),
  chain h (W ++ [e]) -> e ∉ W -> (length W < n)%nat ->
  exists r, priority_search lk n h (hd_or e W) lowest cur e = Some r /\
    (r = lowest \/ (r ∈ W /\ prio lk h r < cur)).
Proof.
  induction W as [|w W IH]; intros lowest cur [|n] Hc He Hn; simpl in Hn; try lia.
  - simpl. rewrite decide_False by tauto. eauto.
  - rewrite hd_or_cons. simpl. rewrite (chain_next _ _ _ _ Hc).
    assert (w <> e) by set_solver.
    case_decide as Hrun; [|eauto]. case_decide as Hlt.
    + destruct (IH w (prio lk h w) n) as (r & Hr & Hc'); [by eapply chain_tail|set_solver|lia|].
      exists r. split; [done|]. right. destruct Hc' as [->|[? ?]]; split; [set_solver|lia|set_solver|lia].
    + destruct (IH lowest (cur - 1) n) as (r & Hr & Hc'); [by eapply chain_tail|set_solver|lia|].
      exists r. split; [done|]. destruct Hc' as [->|[? ?]]; [by left|right; split; [set_solver|lia]].
Qed.

(** C29: The locked policy's erase position over a range is its first node the locker does not lock, or last when all are locked. *)
Theorem locked_erase_position_spec (lk : T -> bool) h s A X C :
  dlist h s (A ++ X ++ C) ->
  locked_erase_position lk h (hd_or (hd_or s C) X) (hd_or s C) =
    Some (hd_or (hd_or s C) (filter (fun p => lk (__val h p) = false) X)).
Proof.
  intros Hd. pose proof (dlist_length _ _ _ Hd) as Hlen. rewrite !length_app in Hlen.
  apply dlist_segment in Hd as (Hc & He & _). apply locked_scan_chain; [done|done|lia].
Qed.

Lemma priority_erase_position_chain (lk : T -> Z) h e X :
  X <> [] -> chain h (X ++ [e]) -> e ∉ X -> (length X < size h)%nat ->
  exists r, priority_erase_position lk h (hd_or e X) e = Some r /\
    (r = e <-> Forall (fun p => prio lk h p = size_max) X) /\
    (r <> e -> r ∈ X /\ prio lk h r <> size_max).
Proof.
  intros HX Hc He Hlen. unfold priority_erase_position.
  destruct (priority_skip_chain lk h e X (S (size h))) as
    [[Hall ->]|(Y & x & Z & -> & HY & Hx & ->)]; [done|done|done|lia| |].
  - exists e. simpl. tauto.
  - simpl. rewrite <- app_assoc in Hc. apply chain_app in Hc as [_ Hc].
    destruct (priority_search_chain lk h e (x :: Z) x (prio lk h x) (S (size h)))
      as (r & Hr & Hrx); [done|set_solver|rewrite length_app in Hlen; simpl in *; lia|].
    rewrite hd_or_cons in Hr. exists r. split; [done|].
    pose proof (prio_le lk h x). pose proof (prio_le lk h r).
    assert (r ∈ Y ++ x :: Z /\ prio lk h r <> size_max) as [Hin Hne].
    { destruct Hrx as [->|[? ?]]; split; [set_solver|done|set_solver|lia]. }
    assert (r <> e) by (intros ->; set_solver).
    split; [|done]. split; [done|]. rewrite Forall_forall. intros Hall. by destruct Hne; apply Hall.
Qed.

(** C30: The priority policy's erase position over a non-empty range is last exactly when every node has maximal priority, and otherwise a node of the range of non-maximal priority. *)
Theorem priority_erase_position_spec (lk : T -> Z) h s A X C :
  X <> [] -> dlist h s (A ++ X ++ C) ->
  exists r, priority_erase_position lk h (hd_or (hd_or s C) X) (hd_or s C) = Some r /\
    (r = hd_or s C <-> Forall (fun p => prio lk h p = size_max) X) /\
    (r <> hd_or s C -> r ∈ X /\ prio lk h r <> size_max).
Proof.
  intros HX Hd. pose proof (dlist_length _ _ _ Hd) as Hlen. rewrite !length_app in Hlen.
  apply dlist_segment in Hd as (Hc & He & _). apply priority_erase_position_chain; [done|done|done|lia].
Qed.
(** The erase position on the empty range [[end, end)]: the loop starts
    at the sentinel and reads the value it holds. *)
Lemma priority_end_run (lk : T -> Z) h s A :
  dlist h s A ->
  exists r, priority_erase_position lk h s s = Some r /\
    (prio lk h s <> size_max -> r = s) /\
    (prio lk h s = size_max ->
       (r = s <-> Forall (fun p => prio lk h p = size_max) A) /\ (r <> s -> r ∈ A /\ prio lk h r <> size_max)).
Proof.
  intros Hd. pose proof (dlist_length _ _ _ Hd) as Hlen.
  pose proof (dlist_begin _ _ _ Hd) as Hb.
  assert (dlist h s ([] ++ A ++ [])) as Hd' by by rewrite app_nil_r.
  apply dlist_segment in Hd' as (Hc & He & _). rewrite hd_or_nil in Hc, He.
  unfold priority_erase_position. simpl. case_decide as Hmax.
  - rewrite Hb. destruct A as [|a A].
    { rewrite hd_or_nil, decide_True by done. exists s. split_and!; [done|done|]. intros _.
      split; [split; [constructor|done]|done]. }
    rewrite decide_False by (rewrite hd_or_cons; set_solver).
    destruct (priority_skip_chain lk h s (a :: A) (size h)) as
      [[Hall Hs]|(Y & x & Z & HA & _ & Hx & Hs)]; [done|done|done|simpl in *; lia| |]; rewrite Hs; simpl.
    { exists s. split_and!; [done|done|]. intros _. split; [tauto|done]. }
    pose proof He as He0. pose proof (to_size_range (lk (__val h x))) as Hrx.
    rewrite HA in Hc, He, Hlen. rewrite <- app_assoc in Hc. apply chain_app in Hc as [_ Hc].
    destruct (priority_search_chain lk h s (x :: Z) x (prio lk h x) (S (size h)))
      as (r & Hr & Hrr); [done|set_solver|rewrite length_app in Hlen; simpl in *; lia|].
    rewrite hd_or_cons in Hr. exists r.
    assert (r ∈ a :: A /\ prio lk h r <> size_max) as [Hin Hp].
    { rewrite HA. unfold prio, is_size, size_max in *.
      destruct Hrr as [->|[? ?]]; split; [set_solver|done|set_solver|lia]. }
    assert (r <> s) as Hrs by (intros ->; set_solver).
    split_and!; [done|done|]. intros _. split; [|done]. split; [done|].
    rewrite Forall_forall. intros Hall. exfalso. by apply Hp, Hall.
  - simpl. rewrite decide_False by tauto. exists s. split_and!; [done|done|done].
Qed.

(** C38: on the empty range [[end, end)], which [next_except] produces
    when the hint is the last node, the assertion [first != last] of
    [priority_policy::erase_position] fails and, in a release build, the
    loop reads the value the sentinel holds ([T{}]): when its priority is
    not maximal the result is [end()]; when it is maximal the loop walks
    on into the list and returns [end()] exactly when every node has the
    maximal priority, and otherwise a node of the list of non-maximal
    priority. *)
Theorem priority_erase_position_end (lk : T -> Z) h s A :
  dlist h s A ->
  exists r, priority_erase_position lk h s s = Some r /\
    (prio lk h s <> size_max -> r = s) /\
    (prio lk h s = size_max ->
       (r = s <-> Forall (fun p => prio lk h p = size_max) A) /\ (r <> s -> r ∈ A /\ prio lk h r <> size_max)).
Proof. apply priority_end_run. Qed.

(** Every erase position the priority policy computes on a well-formed
    list is a node of the list or its end. *)
Lemma priority_erase_position_in (lk : T -> Z) h s A X :
  dlist h s (A ++ X) ->
  exists r, priority_erase_position lk h (hd_or s X) s = Some r /\ r ∈ A ++ X ++ [s].
Proof.
  intros Hd. destruct X as [|x X].
  - rewrite app_nil_r in Hd. apply (priority_end_run lk) in Hd as (r & Hr & Hns & Hs).
    exists r. split; [done|]. destruct (decide (r = s)) as [->|Hrs]; [set_solver|].
    destruct (decide (prio lk h s = size_max)) as [Hm|Hm]; [|by apply Hns in Hm].
    apply Hs in Hm as [_ Hm]. apply Hm in Hrs as [? _]. set_solver.
  - pose proof (dlist_length _ _ _ Hd) as Hlen. rewrite length_app in Hlen.
    rewrite <- (app_nil_r (x :: X)) in Hd. apply dlist_segment in Hd as (Hc & He & _).
    rewrite hd_or_nil in Hc, He.
    destruct (priority_erase_position_chain lk h s (x :: X)) as (r & Hr & Hiff & Hin);
      [done|done|done|lia|]. exists r. split; [done|].
    destruct (decide (r = s)) as [->|Hrs]; [set_solver|]. apply Hin in Hrs as [? _]. set_solver.
Qed.

(** The code's choice on a range of two neighbours of priorities
    [P + 1] and [P]: the second loop decrements [currentPriority] to [P]
    after the first node and compares the second with [<], so it keeps
    the first node. *)
Lemma priority_pair_code (lk : T -> Z) h s A x y C P :
  dlist h s (A ++ [x; y] ++ C) -> 0 <= P -> P + 1 < size_max ->
  prio lk h x = P + 1 -> prio lk h y = P ->
  priority_erase_position lk h x (hd_or s C) = Some x.
Proof.
  intros Hd HP Hm Hx Hy. pose proof (dlist_length _ _ _ Hd) as Hlen.
  rewrite !length_app in Hlen. cbn [length] in Hlen.
  apply dlist_segment in Hd as (Hc & He & _). set (e := hd_or s C) in *.
  pose proof (chain_next h x [y] e Hc) as Nx. apply (chain_tail h x [y] e) in Hc.
  pose proof (chain_next h y [] e Hc) as Ny. rewrite hd_or_cons in Nx. rewrite hd_or_nil in Ny.
  unfold priority_erase_position. destruct (size h) as [|[|n]]; [lia|lia|].
  cbn [priority_skip]. rewrite decide_False by (rewrite Hx; lia). cbn [mbind option_bind].
  cbn [priority_search]. rewrite decide_True by (rewrite Hx; split; [lia|set_solver]).
  rewrite Hx, decide_False by lia. rewrite Nx.
  assert (y <> e) by set_solver.
  destruct n as [|n]; cbn [priority_search]; rewrite ?Hy, ?Ny;
    repeat case_decide; first [done | lia | naive_solver].
Qed.

(** The documented rule on the same priorities moves to the second node:
    [M = 1 <= P + 1] and [A = P <= (P + 1) - 1]. *)
Lemma priority_pair_doc P : 0 <= P -> P + 1 < size_max -> priority_doc_select [P + 1; P] = Some 1%nat.
Proof.
  intros HP Hm. unfold priority_doc_select. cbn. case_decide; [|lia]. cbn.
  rewrite decide_True by lia. done.
Qed.

(** C39: the priority policy differs from the rule its documentation
    comment describes: on any range of two neighbouring nodes of
    priorities [P + 1] and [P] (below the maximum), in any well-formed
    list, the code erases the first node, while the documented rule
    ([A <= P - M] for [M <= P]) moves to the second. *)
Theorem priority_doc_divergence (lk : T -> Z) h s A x y C P :
  dlist h s (A ++ [x; y] ++ C) -> 0 <= P -> P + 1 < size_max ->
  prio lk h x = P + 1 -> prio lk h y = P ->
  priority_erase_position lk h x (hd_or s C) = Some x /\
  priority_doc_select (map (prio lk h) [x; y]) = Some 1%nat.
Proof.
  intros Hd HP Hm Hx Hy. split; [by eapply priority_pair_code|].
  cbn. rewrite Hx, Hy. by apply priority_pair_doc.
Qed.

(** ** Locality: the erase positions read only the list *)

Lemma agree_val h h' q : h' !! q = h !! q -> __val h' q = __val h q.
Proof. intros E. unfold __val. by rewrite E. Qed.

Lemma agree_next h h' q : h' !! q = h !! q -> __next h' q = __next h q.
Proof. intros E. unfold __next. by rewrite E. Qed.

Lemma agree_prio lk h h' q : h' !! q = h !! q -> prio lk h' q = prio lk h q.
Proof. intros E. unfold prio. by rewrite (agree_val h h' q E). Qed.

(** A list and the same list in a heap that agrees with it on its nodes:
    the chain of the range and the bounds on the fuel hold in both. *)
Lemma dlist_agree_range h h' s A X :
  dlist h s (A ++ X) -> (forall q, q ∈ s :: A ++ X -> h' !! q = h !! q) ->
  chain h (X ++ [s]) /\ chain h' (X ++ [s]) /\ (s ∉ X) /\
  (length A + length X < size h)%nat /\ (length A + length X < size h')%nat.
Proof.
  intros Hd Hag. pose proof (dlist_agree h h' s _ Hag Hd) as Hd'.
  pose proof (dlist_length _ _ _ Hd). pose proof (dlist_length _ _ _ Hd'). rewrite length_app in *.
  rewrite <- (app_nil_r X) in Hd, Hd'. rewrite app_assoc in Hd, Hd'. rewrite <- app_assoc in Hd, Hd'.
  apply dlist_segment in Hd as (Hc & He & _). apply dlist_segment in Hd' as (Hc' & _).
  rewrite hd_or_nil in *. split_and!; [done..|lia|lia].
Qed.

Lemma locked_erase_position_local (lk : T -> bool) h h' s A X :
  dlist h s (A ++ X) -> (forall q, q ∈ s :: A ++ X -> h' !! q = h !! q) ->
  locked_erase_position lk h' (hd_or s X) s = locked_erase_position lk h (hd_or s X) s.
Proof.
  intros Hd Hag. destruct (dlist_agree_range h h' s A X Hd Hag) as (Hc & Hc' & He & Hl & Hl').
  unfold locked_erase_position. rewrite !locked_scan_chain by (done || lia).
  do 2 f_equal. apply filter_in_ext. intros q Hq. rewrite (agree_val h h' q); [done|].
  apply Hag. set_solver.
Qed.

Lemma priority_skip_agree (lk : T -> Z) h h' e X : forall (n n' : nat),
  X <> [] -> chain h (X ++ [e]) -> e ∉ X -> (forall q, q ∈ X -> h' !! q = h !! q) ->
  (length X < n)%nat -> (length X < n')%nat ->
  priority_skip lk n h' (hd_or e X) e = priority_skip lk n' h (hd_or e X) e.
Proof.
  induction X as [|x X IH]; intros [|n] [|n'] HX Hc He Hag Hn Hn'; simpl in Hn, Hn'; try lia; [done|].
  rewrite hd_or_cons. simpl. rewrite (agree_prio lk h h' x), (agree_next h h' x) by set_solver.
  rewrite (chain_next _ _ _ _ Hc). case_decide; [|done]. case_decide; [done|].
  destruct X as [|x' X]; [done|].
  apply IH; [done|by eapply chain_tail|set_solver|set_solver|lia|lia].
Qed.

Lemma priority_search_agree (lk : T -> Z) h h' e W : forall lowest cur (n n' : nat),
  chain h (W ++ [e]) -> e ∉ W -> (forall q, q ∈ W -> h' !! q = h !! q) ->
  (length W < n)%nat -> (length W < n')%nat ->
  priority_search lk n h' (hd_or e W) lowest cur e = priority_search lk n' h (hd_or e W) lowest cur e.
Proof.
  induction W as [|w W IH]; intros lowest cur [|n] [|n'] Hc He Hag Hn Hn'; simpl in Hn, Hn'; try lia.
  - rewrite hd_or_nil. simpl. case_decide; [tauto|done].
  - rewrite hd_or_cons. simpl. rewrite (agree_prio lk h h' w), (agree_next h h' w) by set_solver.
    rewrite (chain_next _ _ _ _ Hc). case_decide; [|done].
    case_decide; (apply IH; [by eapply chain_tail|set_solver|set_solver|lia|lia]).
Qed.

(** Both loops of [priority_policy::erase_position] over a non-empty range
    read only the range, whatever fuel they get beyond its length. *)
Lemma priority_range_agree (lk : T -> Z) h h' e X (n1 n1' n2 n2' : nat) :
  X <> [] -> chain h (X ++ [e]) -> e ∉ X -> (forall q, q ∈ X -> h' !! q = h !! q) ->
  (length X < n1)%nat -> (length X < n1')%nat -> (length X < n2)%nat -> (length X < n2')%nat ->
  (r ← priority_skip lk n1 h' (hd_or e X) e;
   match r with inl l => Some l | inr lowest => priority_search lk n2 h' lowest lowest (prio lk h' lowest) e end) =
  (r ← priority_skip lk n1' h (hd_or e X) e;
   match r with inl l => Some l | inr lowest => priority_search lk n2' h lowest lowest (prio lk h lowest) e end).
Proof.
  intros HX Hc He Hag ? ? ? ?. rewrite (priority_skip_agree lk h h' e X n1 n1') by done.
  destruct (priority_skip_chain lk h e X n1') as [[_ ->]|(Y & x & Z & -> & _ & _ & ->)]; [done..| |];
    [done|]. simpl. rewrite (agree_prio lk h h' x) by set_solver.
  rewrite <- app_assoc in Hc. apply chain_app in Hc as [_ Hc]. rewrite length_app in *. simpl in *.
  rewrite <- (hd_or_cons e x Z). apply priority_search_agree; [done|set_solver|set_solver|simpl; lia|simpl; lia].
Qed.

Lemma priority_erase_position_local (lk : T -> Z) h h' s A X :
  dlist h s (A ++ X) -> (forall q, q ∈ s :: A ++ X -> h' !! q = h !! q) ->
  priority_erase_position lk h' (hd_or s X) s = priority_erase_position lk h (hd_or s X) s.
Proof.
  intros Hd Hag. destruct (dlist_agree_range h h' s A X Hd Hag) as (Hc & Hc' & He & Hl & Hl').
  unfold priority_erase_position. destruct X as [|x X].
  - (* The range [[end, end)]: the loop starts at the sentinel. *)
    rewrite app_nil_r in Hd. rewrite app_nil_r in Hag. simpl in Hl, Hl'.
    destruct (dlist_agree_range h h' s [] A Hd Hag) as (HcA & _ & HeA & _).
    rewrite hd_or_nil. cbn [priority_skip]. rewrite (agree_prio lk h h' s), (agree_next h h' s) by set_solver.
    rewrite (dlist_begin _ _ _ Hd). case_decide.
    + destruct A as [|a A]; [cbv zeta; rewrite hd_or_nil; repeat case_decide; done|].
      assert (hd_or s (a :: A) <> s) by (rewrite hd_or_cons; set_solver).
      cbv zeta. rewrite !decide_False by done.
      apply priority_range_agree; [done|done|done|intros; apply Hag; set_solver|simpl in *; lia..].
    + simpl. rewrite (agree_prio lk h h' s) by set_solver. case_decide; [tauto|done].
  - apply priority_range_agree; [done|done|done|intros; apply Hag; set_solver|simpl in *; lia..].
Qed.

End PolicySpec.

(** ** The built-in policies satisfy [PolicyLaws] *)

Section Instances.
Context {T : Type} `{Inhabited T}.
Implicit Types (h : heap T) (s a : ptr) (A X xs : list ptr).

Lemma begin_in h s xs : dlist h s xs -> __next h s ∈ xs ++ [s].
Proof. intros Hd. rewrite (dlist_begin _ _ _ Hd). apply hd_or_in. Qed.

Lemma end_in s xs : s ∈ xs ++ [s].
Proof. set_solver. Qed.

Lemma first_in s A X : hd_or s X ∈ A ++ X ++ [s].
Proof. pose proof (hd_or_in s X). set_solver. Qed.

Ltac laws_tac :=
  split; intros *; unfold policy_extractor.insert_position, policy_extractor.erase_position,
    policy_extractor.access; simpl;
  [ first [ apply begin_in | intros; apply end_in ]
  | intros; eexists; split; [reflexivity | apply first_in]
  | intros; reflexivity
  | | ].

#[global] Instance fifo_laws : PolicyLaws (@fifo T).
Proof. laws_tac; [intros; by exists xs | done]. Qed.

#[global] Instance lifo_laws : PolicyLaws (@lifo T).
Proof. laws_tac; [intros; by exists xs | done]. Qed.

#[global] Instance lru_laws : PolicyLaws (@lru T).
Proof.
  laws_tac.
  - intros Hd (A & B & ->)%list_elem_of_split. exists (A ++ B ++ [a]).
    split; [solve_Permutation|]. by apply lru_access_spec.
  - unfold lru_access. case_decide; [apply move_payload|done].
Qed.
#[global] Instance mru_laws : PolicyLaws (@mru T).
Proof.
  laws_tac.
  - intros Hd (A & B & ->)%list_elem_of_split. exists (a :: A ++ B).
    split; [solve_Permutation|]. by apply mru_access_spec.
  - unfold mru_access. case_decide; [apply move_payload|done].
Qed.

#[global] Instance swapping_laws : PolicyLaws (@swapping T).
Proof.
  laws_tac.
  - intros Hd (A & B & ->)%list_elem_of_split.
    exists (A ++ match B with [] => [a] | b :: B' => b :: a :: B' end).
    split; [destruct B; solve_Permutation|]. by apply swapping_access_spec.
  - unfold swapping_access. case_decide; [apply iter_swap_payload|done].
Qed.

(** [locked_policy] keeps the laws of the policy it wraps. *)
Lemma locked_policy_laws (parent : @policy T) lk p :
  locked_policy parent lk = Some p -> PolicyLaws parent -> PolicyLaws p.
Proof.
  unfold locked_policy. destruct (policy.erase_position parent); [done|].
  intros [= <-] [Hi He Hl Ha Hp]. split; [exact Hi| | |exact Ha|exact Hp].
  2:{ intros h h' s A X Hd Hag. unfold policy_extractor.erase_position. simpl.
      by apply (locked_erase_position_local lk h h' s A X). }
  intros h s A X Hd. unfold policy_extractor.erase_position. simpl.
  assert (dlist h s (A ++ X ++ [])) as Hd' by by rewrite app_nil_r.
  pose proof (dlist_length _ _ _ Hd') as Hlen. rewrite !length_app in Hlen.
  apply dlist_segment in Hd' as (Hc & Hs & _). rewrite hd_or_nil in Hc, Hs.
  unfold locked_erase_position. rewrite (locked_scan_chain lk h s X); [|done|done|lia].
  eexists. split; [done|].
  pose proof (hd_or_in s (filter (fun p => lk (__val h p) = false) X)) as Hin.
  apply elem_of_app in Hin as [Hin%list_elem_of_filter|Hin]; set_solver.
Qed.

(** [priority_policy] keeps the laws of the policy it wraps. *)
Lemma priority_policy_laws (parent : @policy T) lk p :
  priority_policy parent lk = Some p -> PolicyLaws parent -> PolicyLaws p.
Proof.
  unfold priority_policy. destruct (policy.erase_position parent); [done|].
  intros [= <-] [Hi He Hl Ha Hp]. split; [exact Hi| | |exact Ha|exact Hp].
  - intros h s A X Hd. by apply priority_erase_position_in.
  - intros h h' s A X Hd Hag. unfold policy_extractor.erase_position. simpl.
    by apply (priority_erase_position_local lk h h' s A X).
Qed.

(** C36: Both wrappers keep the laws of a lawful policy they wrap: the
    manager's theorems hold for [locked_policy<P>] and
    [priority_policy<P>] whenever they hold for [P]. *)
Theorem wrapper_policies_lawful (parent : @policy T) lk pr p q :
  PolicyLaws parent ->
  (locked_policy parent lk = Some p -> PolicyLaws p) /\ (priority_policy parent pr = Some q -> PolicyLaws q).
Proof. intros Hp. split; intros E; [by apply (locked_policy_laws parent lk)|by apply (priority_policy_laws parent pr)]. Qed.

End Instances.

(** ** Runs on concrete lists *)

Lemma lru_access_spec_witness :
  dlist (lru_access list6 (__next list6 1%N) 1%N 3%N) 1%N ([2] ++ [4; 5; 6] ++ [3])%N.
Proof. apply (lru_access_spec list6 1 [2] 3 [4; 5; 6])%N. decide_concrete. Defined.

Lemma mru_access_spec_witness :
  dlist (mru_access list6 (__next list6 1%N) 1%N 4%N) 1%N (4 :: [2; 3] ++ [5; 6])%N.
Proof. apply (mru_access_spec list6 1 [2; 3] 4 [5; 6])%N. decide_concrete. Defined.

Lemma swapping_access_spec_witness :
  dlist (swapping_access list6 (__next list6 1%N) 1%N 3%N) 1%N ([2] ++ [4; 3; 5; 6])%N.
Proof. apply (swapping_access_spec list6 1 [2] 3 [4; 5; 6])%N. decide_concrete. Defined.

(** The locker of node [2] (value [2]). *)
Lemma locked_erase_position_spec_witness :
  locked_erase_position (fun v : Z => bool_decide (v = 2)) prio_list
    (hd_or (hd_or 1%N []) [2; 3]%N) (hd_or 1%N []) =
  Some (hd_or (hd_or 1%N [])
    (filter (fun p => bool_decide (__val prio_list p = 2) = false) [2; 3]%N)) /\
  locked_erase_position (fun v : Z => bool_decide (v = 2)) prio_list 2%N 1%N = Some 3%N.
Proof.
  split; [|vm_compute; reflexivity].
  apply (locked_erase_position_spec (fun v : Z => bool_decide (v = 2)) prio_list 1%N [] [2; 3]%N []).
  decide_concrete.
Defined.

Lemma priority_erase_position_spec_witness :
  exists r, priority_erase_position (fun v : Z => v) prio_list
      (hd_or (hd_or 1%N []) [2; 3]%N) (hd_or 1%N []) = Some r /\
    (r = hd_or 1%N [] <-> Forall (fun p => prio (fun v : Z => v) prio_list p = size_max) [2; 3]%N) /\
    (r <> hd_or 1%N [] -> r ∈ [2; 3]%N /\ prio (fun v : Z => v) prio_list r <> size_max).
Proof.
  apply (priority_erase_position_spec (fun v : Z => v) prio_list 1%N [] [2; 3]%N []);
    [done|decide_concrete].
Defined.

Lemma priority_doc_divergence_witness :
  priority_erase_position (fun v : Z => v) prio_list 2%N (hd_or 1%N []) = Some 2%N /\
  priority_doc_select (map (prio (fun v : Z => v) prio_list) [2; 3]%N) = Some 1%nat.
Proof.
  apply (priority_doc_divergence (fun v : Z => v) prio_list 1%N [] 2%N 3%N [] 1);
    [decide_concrete|lia|vm_compute; reflexivity..].
Defined.

(** Nodes [2; 3] of priorities [2] and [1] after a sentinel holding
    [SIZE_MAX]. *)
Definition prio_list_max : heap Z :=
  ring_heap (fun p => if decide (p = 1%N) then size_max else Z.of_N (4 - p)) [1; 2; 3]%N.

Lemma priority_erase_position_end_witness :
  (exists r, priority_erase_position (fun v : Z => v) prio_list_max 1%N 1%N = Some r /\
    (prio (fun v : Z => v) prio_list_max 1%N <> size_max -> r = 1%N) /\
    (prio (fun v : Z => v) prio_list_max 1%N = size_max ->
       (r = 1%N <-> Forall (fun p => prio (fun v : Z => v) prio_list_max p = size_max) [2; 3]%N) /\
       (r <> 1%N -> r ∈ [2; 3]%N /\ prio (fun v : Z => v) prio_list_max r <> size_max))) /\
  priority_erase_position (fun v : Z => v) prio_list_max 1%N 1%N = Some 2%N.
Proof. split; [apply priority_erase_position_end; decide_concrete|vm_compute; reflexivity]. Defined.

Lemma wrapper_policies_lawful_witness :
  exists p q, locked_policy lru (@locker Z) = Some p /\ priority_policy lru (@priority Z) = Some q /\
    PolicyLaws p /\ PolicyLaws q.
Proof.
  destruct (wrapper_policies_lawful lru (@locker Z) (@priority Z)
    (mk_policy None (Some (locked_erase_position (@locker Z))) (Some lru_access))
    (mk_policy None (Some (priority_erase_position (@priority Z))) (Some lru_access)) _) as [Hl Hp].
  eexists _, _. split_and!; [reflexivity|reflexivity|apply Hl; reflexivity|apply Hp; reflexivity].
Defined.

End policy.
