(* ===== verification/CacheManager.v ===== *)
(** * CacheManager: [class cache_manager] of [src/cache_manager/cache_manager.h]

    The manager owns the sentinel node [_first] of the circular list, the
    capacity and the running total weight, the weigher and the policy.
    The nodes it links belong to the container; the model keeps them, and
    the sentinel, in the one heap of [Heap], and the manager record holds
    the sentinel's address.  Each member function is a function of the
    manager and the heap returning the new manager, the new heap and its
    result; [size_t] arithmetic wraps as in the source.

    The invariant [manager_inv m h xs]: the list at the sentinel holds
    [xs], the total weight is the sum of the weights of [xs] and at most
    the capacity, and every node caches its weight.  The theorems show
    that [insert], [erase], [reinsert], [update_weight], [access] and
    [clear] keep it, that [erase] then [reinsert] restores the heap
    exactly, that [next_except] leaves the heap as it was and never
    returns the excluded node, and how the move and swap operations
    transfer the list to another sentinel. *)

From S2P Require Import Prelude Heap IteratorOps Policy.

Module cache_manager.
Import policy.

Section Manager.
Context {T : Type} `{Inhabited T}.
Implicit Types (h : heap T) (node it first last hint except : ptr).

(** [struct weight]: every value weighs one. *)
Definition weight_default (v : T) : Z := 1.

Record cache_manager := mk_cache_manager {
  _capacity : Z;
  _first : ptr;
  _weight : Z;
  _weigher : T -> Z;
  _policy : @policy T
}.

Implicit Types (m other : cache_manager).

Definition set_weight m (w : Z) : cache_manager :=
  mk_cache_manager (_capacity m) (_first m) w (_weigher m) (_policy m).

Definition set_capacity_field m (c : Z) : cache_manager :=
  mk_cache_manager c (_first m) (_weight m) (_weigher m) (_policy m).

(** [cache_manager(capacity, weigher, policy)]: the member sentinel
    [_first = {T{}, {&_first, &_first}}], at the address [s] of the new
    object, is linked to itself; the weight starts at [0]. *)
Definition construct (s : ptr) (capacity : Z) (weigher : T -> Z) (p : @policy T) h : cache_manager * heap T :=
  (mk_cache_manager capacity s 0 weigher p, <[s := (inhabitant, mk_cache_node s s 0)]> h).

(** [begin()] is the node after the sentinel, [end()] the sentinel. *)
Definition begin m h : ptr := __next h (_first m).
Definition end_ m : ptr := _first m.

(** [calculate_weight(val)]: the weigher's result, a [size_t]. *)
Definition calculate_weight m (v : T) : Z := to_size (_weigher m v).

(** [calculate_weight(it)] without [CACHE_STORE_WEIGHT]: weigh the value. *)
Definition calculate_weight_it m h it : Z := calculate_weight m (__val h it).

(** [can_fit(weight)]: [(_weight + weight) <= _capacity] in [size_t]. *)
Definition can_fit m (w : Z) : bool := bool_decide (_weight m +ₛ w <= _capacity m).

Definition can_fit_val m (v : T) : bool := can_fit m (calculate_weight m v).

(** [set_capacity]; its [assert(capacity >= _weight)] is a precondition. *)
Definition set_capacity m (c : Z) : cache_manager := set_capacity_field m c.

(** [clear()]: self-link the sentinel, total weight [0]. *)
Definition clear m h : cache_manager * heap T :=
  (set_weight m 0, __link h (_first m) (_first m)).

(** [insert(node)]: link [node] before the policy's insert position, add
    its weight, cache the weight in the node. *)
Definition insert m h node : cache_manager * heap T * ptr :=
  let weight := calculate_weight m (__val h node) in
  let place := policy_extractor.insert_position (_policy m) h (begin m h) (end_ m) in
  let prev := __prev h place in
  let next := place in
  let h := __link h prev node in
  let h := __link h node next in
  let m := set_weight m (_weight m +ₛ weight) in
  let h := set_node_weight h node weight in
  (m, h, node).

(** [reinsert(it)]: relink a node erased last, from its own links. *)
Definition reinsert m h it : cache_manager * heap T :=
  let weight := calculate_weight_it m h it in
  let m := set_weight m (_weight m +ₛ weight) in
  let prev := __prev h it in
  let next := __next h it in
  let h := __link h prev it in
  let h := __link h it next in
  (m, h).

(** [update_weight(it, oldWeight, newWeight)]. *)
Definition update_weight m h it (oldWeight newWeight : Z) : cache_manager * heap T :=
  let m := set_weight m (_weight m -ₛ oldWeight) in
  let m := set_weight m (_weight m +ₛ newWeight) in
  (m, set_node_weight h it newWeight).

(** [update_weight(it, oldWeight)]: the new weight is the weigher's. *)
Definition update_weight_val m h it (oldWeight : Z) : cache_manager * heap T :=
  update_weight m h it oldWeight (calculate_weight m (__val h it)).

(** [erase(node)]: unlink the node, keeping its own links, and subtract
    its weight. *)
Definition erase_node m h node : cache_manager * heap T :=
  let prev := __prev h node in
  let next := __next h node in
  let h := __link h prev next in
  let weight := calculate_weight m (__val h node) in
  (set_weight m (_weight m -ₛ weight), h).

(** [erase(replacementIt)]: returns the successor. *)
Definition erase m h it : cache_manager * heap T * ptr :=
  let next := __next h it in
  let '(m, h) := erase_node m h it in
  (m, h, next).

(** The loop of [erase(first, last)]: the sum of the weights of
    [[first, last)], in [size_t]. *)
Fixpoint erase_range_sum m (fuel : nat) h first last (sumWeight : Z) : option Z :=
  match fuel with
  | O => None
  | S fuel =>
      if decide (first <> last) then
        let weight := calculate_weight m (__val h first) in
        erase_range_sum m fuel h (__next h first) last (sumWeight +ₛ weight)
      else Some sumWeight
  end.

(** [erase(first, last)]: unlink the range after summing its weights. *)
Definition erase_range m h first last : option (cache_manager * heap T * ptr) :=
  let prev := __prev h first in
  let next := last in
  sumWeight ← erase_range_sum m (S (size h)) h first last 0;
  let m := set_weight m (_weight m -ₛ sumWeight) in
  Some (m, __link h prev next, next).

(** [access(replacementIt)]. *)
Definition access m h it : heap T :=
  policy_extractor.access (_policy m) h (begin m h) (end_ m) it.

(** [next()]: [end()] on an empty list, otherwise the policy's erase
    position of [[begin(), end())]. *)
Definition next m h : option ptr :=
  if decide (begin m h = end_ m) then Some (end_ m)
  else policy_extractor.erase_position (_policy m) h (begin m h) (end_ m).

(** [next(hint)]. *)
Definition next_hint m h hint : option ptr :=
  if decide (hint = end_ m) then Some (end_ m)
  else policy_extractor.erase_position (_policy m) h hint (end_ m).

(** [next_except(except)]: unlink [except], ask the policy, relink it.
    The function is [const] but writes the links; the heap it leaves is
    returned with the result. *)
Definition next_except m h except : heap T * option ptr :=
  if decide (begin m h = end_ m) then (h, Some (end_ m))
  else
    let prev := __prev h except in
    let next := __next h except in
    let h := __link h prev next in
    let ret := policy_extractor.erase_position (_policy m) h (begin m h) (end_ m) in
    let h := __link h prev except in
    let h := __link h except next in
    (h, ret).

(** [next_except(hint, except)]. *)
Definition next_except_hint m h hint except : heap T * option ptr :=
  if decide (begin m h = end_ m) then (h, Some (end_ m))
  else
    let hint := if decide (hint = except) then __next h hint else hint in
    let prev := __prev h except in
    let next := __next h except in
    let h := __link h prev next in
    let ret := policy_extractor.erase_position (_policy m) h hint (end_ m) in
    let h := __link h prev except in
    let h := __link h except next in
    (h, ret).

(** [_fix_first(otherFirst)]: after the sentinel's links were copied from
    the sentinel at [otherFirst], make its neighbours point back to it. *)
Definition _fix_first m h (otherFirst : ptr) : heap T :=
  let s := _first m in
  if decide (__next h s = otherFirst) then __link h s s
  else
    let h := __link h s (__next h s) in
    __link h (__prev h s) s.

(** Copy the node at [src] into the address [dst] ([_first(other._first)]). *)
Definition copy_node h (src dst : ptr) : heap T :=
  match h !! src with Some n => <[dst := n]> h | None => h end.

(** [_first.second = other._first.second]: copy the links and the cached
    weight of a node, keeping the value. *)
Definition copy_links h (src dst : ptr) : heap T :=
  match h !! src, h !! dst with
  | Some n, Some d => <[dst := (d.1, n.2)]> h
  | _, _ => h
  end.

(** The move constructor, building the manager whose sentinel is at the
    fresh address [s]; [other] is left as it is: its capacity, sentinel
    links and weight are not reset. *)
Definition move_construct other h (s : ptr) : cache_manager * cache_manager * heap T :=
  let m := mk_cache_manager (_capacity other) s (_weight other) (_weigher other) (_policy other) in
  let h := copy_node h (_first other) s in
  (m, other, _fix_first m h (_first other)).

(** The move assignment [*this = std::move(other)]. *)
Definition move_assign m other h : cache_manager * cache_manager * heap T :=
  let m := set_capacity_field m (_capacity other) in
  let other := set_capacity_field other 0 in
  let h := copy_links h (_first other) (_first m) in
  let h := __link h (_first other) (_first other) in
  let m := set_weight m (_weight other) in
  let other := set_weight other 0 in
  let m := mk_cache_manager (_capacity m) (_first m) (_weight m) (_weigher other) (_policy other) in
  (m, other, _fix_first m h (_first other)).

(** [swap(other)]. *)
Definition swap_links h (a b : ptr) : heap T :=
  match h !! a, h !! b with
  | Some na, Some nb => <[b := (nb.1, na.2)]> (<[a := (na.1, nb.2)]> h)
  | _, _ => h
  end.

Definition swap m other h : cache_manager * cache_manager * heap T :=
  let h := swap_links h (_first m) (_first other) in
  let h := _fix_first m h (_first other) in
  let h := _fix_first other h (_first m) in
  (mk_cache_manager (_capacity other) (_first m) (_weight other) (_weigher other) (_policy other),
   mk_cache_manager (_capacity m) (_first other) (_weight m) (_weigher m) (_policy m), h).

(** ** The invariant *)

(** The sum of the weights of the nodes [xs], as a mathematical integer. *)
Definition total_weight m h (xs : list ptr) : Z :=
  foldr (fun x acc => calculate_weight m (__val h x) + acc) 0 xs.

Definition manager_inv m h (xs : list ptr) : Prop :=
  dlist h (_first m) xs /\
  _weight m = total_weight m h xs /\
  _weight m <= _capacity m < size_modulus /\
  Forall (fun x => node_weight h x = calculate_weight m (__val h x)) xs.

#[global] Instance manager_inv_dec m h xs : Decision (manager_inv m h xs).
Proof. unfold manager_inv. apply _. Defined.

End Manager.

(** ** Specification of the member functions *)

Section Spec.
Context {T : Type} `{Inhabited T}.
Implicit Types (h : heap T) (m other : @cache_manager T) (s x p n : ptr) (A B C X xs : list ptr).

(** Unlinking a node of a list leaves the list without it. *)
Lemma unlink_dlist h s A x B :
  dlist h s (A ++ x :: B) -> dlist (__link h (__prev h x) (__next h x)) s (A ++ B).
Proof.
  intros Hd. rewrite (dlist_prev _ _ _ _ _ Hd), (dlist_next _ _ _ _ _ Hd).
  change (A ++ x :: B) with (A ++ [x] ++ B) in Hd.
  surgery_facts Hd ([[x]; B ++ s :: A]).
  rewrite (dlist_as_ring _ _ _ _ ([B ++ s :: A])) by groups_eq.
  surgery_close Hd ([[x]; B ++ s :: A]) ([B ++ s :: A]) ([[x]]) idtac.
Qed.

(** Relinking an unlinked node between its old neighbours restores the
    heap exactly. *)
Lemma unlink_relink h p x n :
  p ∈ dom h -> x ∈ dom h -> n ∈ dom h -> x <> p -> x <> n -> edge h p x -> edge h x n ->
  __link (__link (__link h p n) p x) x n = h.
Proof.
  intros Hp Hx Hn Hxp Hxn [Hpx Hxp'] [Hxn' Hnx].
  apply heap_ext; [by rewrite !same_payload_link| |]; intros q.
  - destruct (decide (q = x)) as [->|]; [rewrite next_link_eq; [done|by rewrite !dom_link]|].
    rewrite next_link_ne by done.
    destruct (decide (q = p)) as [->|]; [rewrite next_link_eq; [done|by rewrite !dom_link]|].
    by rewrite next_link_ne, next_link_ne.
  - destruct (decide (q = n)) as [->|]; [rewrite prev_link_eq; [done|by rewrite !dom_link]|].
    rewrite prev_link_ne by done.
    destruct (decide (q = x)) as [->|]; [rewrite prev_link_eq; [done|by rewrite !dom_link]|].
    by rewrite prev_link_ne, prev_link_ne.
Qed.
Lemma dlist_around h s A x B :
  dlist h s (A ++ x :: B) ->
  edge h (lst_or s A) x /\ edge h x (hd_or s B) /\ lst_or s A <> x /\ hd_or s B <> x /\
  lst_or s A ∈ dom h /\ x ∈ dom h /\ hd_or s B ∈ dom h.
Proof.
  intros Hd. pose proof Hd as (Hnd & Hdom & _). apply dlist_chain in Hd.
  rewrite <- app_assoc in Hd. change (s :: A ++ (x :: B) ++ [s]) with ((s :: A) ++ x :: B ++ [s]) in Hd.
  apply chain_app_cons in Hd as (_ & He1 & Hc); [|done]. rewrite lst_or_cons in He1.
  rewrite app_snoc_hd in Hc. destruct Hc as [He2 _].
  change (s :: A ++ x :: B) with ((s :: A) ++ x :: B) in Hnd, Hdom.
  apply NoDup_app in Hnd as (_ & Hdis & Hnd). apply NoDup_cons in Hnd as [HxB _].
  pose proof (lst_or_in s A) as H1. pose proof (hd_or_in s B) as H2.
  rewrite Forall_forall in Hdom.
  repeat split; try apply He1; try apply He2.
  - intros Heq. apply (Hdis x); [by rewrite <- Heq|left].
  - intros Heq. rewrite Heq in H2. apply elem_of_app in H2 as [H2|H2%list_elem_of_singleton].
    + apply HxB. set_solver.
    + subst. apply (Hdis s); [left|set_solver].
  - apply Hdom. set_solver.
  - apply Hdom. set_solver.
  - apply elem_of_app in H2 as [H2|H2%list_elem_of_singleton]; apply Hdom; set_solver.
Qed.

Lemma calculate_weight_range m v : 0 <= calculate_weight m v < size_modulus.
Proof. apply to_size_range. Qed.

Lemma total_weight_app m h xs ys :
  total_weight m h (xs ++ ys) = total_weight m h xs + total_weight m h ys.
Proof. unfold total_weight. rewrite foldr_app. induction xs; simpl in *; lia. Qed.

Lemma total_weight_cons m h x xs :
  total_weight m h (x :: xs) = calculate_weight m (__val h x) + total_weight m h xs.
Proof. done. Qed.

Lemma total_weight_nonneg m h xs : 0 <= total_weight m h xs.
Proof.
  induction xs as [|x xs IH]; [done|]. rewrite total_weight_cons.
  pose proof (calculate_weight_range m (__val h x)). lia.
Qed.

Lemma total_weight_perm m h xs ys : xs ≡ₚ ys -> total_weight m h xs = total_weight m h ys.
Proof. induction 1; rewrite ?total_weight_cons in *; lia. Qed.

#[global] Instance total_weight_proper m : Proper (same_payload ==> eq ==> eq) (total_weight m).
Proof.
  intros h h' Hh xs ? <-. induction xs as [|x xs IH]; [done|].
  rewrite !total_weight_cons, IH. by rewrite Hh.
Qed.

Lemma set_weight_same m : set_weight m (_weight m) = m.
Proof. by destruct m. Qed.

Lemma set_weight_set m a b : set_weight (set_weight m a) b = set_weight m b.
Proof. done. Qed.

Lemma set_weight_fields m w :
  _weight (set_weight m w) = w /\ _capacity (set_weight m w) = _capacity m /\
  _first (set_weight m w) = _first m.
Proof. done. Qed.

Lemma calculate_weight_set m w v : calculate_weight (set_weight m w) v = calculate_weight m v.
Proof. done. Qed.

Lemma total_weight_set m w h xs : total_weight (set_weight m w) h xs = total_weight m h xs.
Proof. done. Qed.

Lemma erase_node_unlinks m h A x B :
  manager_inv m h (A ++ x :: B) ->
  manager_inv (erase_node m h x).1 (erase_node m h x).2 (A ++ B) /\
  __prev (erase_node m h x).2 x = __prev h x /\ __next (erase_node m h x).2 x = __next h x.
Proof.
  intros (Hd & Hw & [Hwc Hc] & Hcache).
  pose proof (dlist_around _ _ _ _ _ Hd) as ([Hn1 Hp1] & [Hn2 Hp2] & Hne1 & Hne2 & _).
  unfold erase_node; cbn [fst snd]. rewrite val_link, Hp1, Hn2.
  pose proof (unlink_dlist _ _ _ _ _ Hd) as Hd'. rewrite Hp1, Hn2 in Hd'.
  rewrite total_weight_app, total_weight_cons in Hw.
  pose proof (total_weight_nonneg m h A). pose proof (total_weight_nonneg m h B).
  pose proof (calculate_weight_range m (__val h x)).
  split; [|split; [by rewrite prev_link_ne|by rewrite next_link_ne]].
  split; [done|]. cbn [_weight _capacity]. rewrite total_weight_set, same_payload_link.
  rewrite size_sub_exact by lia. rewrite total_weight_app. cbn [set_weight _weight _capacity]. split; [lia|]. split; [lia|].
  rewrite Forall_app, Forall_cons in Hcache. rewrite Forall_app.
  split; eapply Forall_impl; try apply Hcache; intros y Hy; simpl;
    by rewrite node_weight_link, val_link.
Qed.

(** C7: [erase(node)] keeps the invariant for the list without the node, and
    keeps the node's own links for [reinsert]. *)
Theorem erase_node_spec m h A x B :
  manager_inv m h (A ++ x :: B) ->
  manager_inv (erase_node m h x).1 (erase_node m h x).2 (A ++ B) /\
  __prev (erase_node m h x).2 x = __prev h x /\ __next (erase_node m h x).2 x = __next h x.
Proof. apply erase_node_unlinks. Qed.

Lemma erase_then_reinsert m h A x B :
  manager_inv m h (A ++ x :: B) ->
  reinsert (erase_node m h x).1 (erase_node m h x).2 x = (m, h).
Proof.
  intros Hinv. pose proof Hinv as (Hd & Hw & [Hwc Hc] & _).
  pose proof (dlist_around _ _ _ _ _ Hd) as (He1 & He2 & Hne1 & Hne2 & Hd1 & Hdx & Hd2).
  destruct He1 as [Hn1 Hp1], He2 as [Hn2 Hp2].
  unfold reinsert, erase_node, calculate_weight_it; cbn [fst snd set_weight _weight].
  rewrite !val_link, Hp1, Hn2, calculate_weight_set.
  rewrite prev_link_ne, next_link_ne by done.
  rewrite Hp1, Hn2.
  rewrite total_weight_app, total_weight_cons in Hw.
  pose proof (total_weight_nonneg m h A). pose proof (total_weight_nonneg m h B).
  pose proof (calculate_weight_range m (__val h x)).
  rewrite size_sub_exact, size_add_exact by lia.
  f_equal.
  - replace (_weight m - _ + _) with (_weight m) by lia. destruct m; reflexivity.
  - apply unlink_relink; try done; split; done.
Qed.

(** C8: [erase(node)] then [reinsert(node)] gives back the manager and the heap
    exactly. *)
Theorem erase_reinsert m h A x B :
  manager_inv m h (A ++ x :: B) ->
  reinsert (erase_node m h x).1 (erase_node m h x).2 x = (m, h).
Proof. apply erase_then_reinsert. Qed.

Lemma total_weight_ext m h h' xs :
  (forall x, x ∈ xs -> __val h' x = __val h x) -> total_weight m h' xs = total_weight m h xs.
Proof.
  induction xs as [|x xs IH]; intros Hv; [done|]. rewrite !total_weight_cons, Hv, IH; set_solver.
Qed.

(** A position of the list [xs ++ [s]] splits it. *)
Lemma split_at_position s xs p :
  p ∈ xs ++ [s] -> exists A B, xs = A ++ B /\ hd_or s B = p.
Proof.
  intros Hp. apply elem_of_app in Hp as [Hp|Hp].
  - apply list_elem_of_split in Hp as (A & B & ->). by exists A, (p :: B).
  - apply list_elem_of_singleton in Hp as ->. exists xs, []. by rewrite app_nil_r.
Qed.

(** [insert(node)] at the position [hd_or s B] links the node between
    [A] and [B], whatever its weight. *)
Lemma insert_dlist m h A B node :
  dlist h (_first m) (A ++ B) -> node ∈ dom h -> node ∉ _first m :: A ++ B ->
  policy_extractor.insert_position (_policy m) h (begin m h) (end_ m) = hd_or (_first m) B ->
  dlist (insert m h node).1.2 (_first m) (A ++ node :: B).
Proof.
  intros Hd Hnd Hnx Hpos. unfold insert. rewrite Hpos. cbn [fst snd].
  set (s := _first m) in *. set (w := calculate_weight m (__val h node)).
  clearbody s w. clear Hpos.
  surgery_facts_ins Hd ([B ++ s :: A]) node.
  rewrite (dlist_as_ring _ _ _ _ ([[node]; B ++ s :: A])) by groups_eq.
  surgery_close_ins Hd ([B ++ s :: A]) ([[node]; B ++ s :: A]) node idtac.
Qed.

(** [insert(node)] at the position [hd_or s B] of the list [A ++ B]. *)
Lemma insert_at m h A B node :
  manager_inv m h (A ++ B) -> node ∈ dom h -> node ∉ _first m :: A ++ B ->
  _weight m + calculate_weight m (__val h node) <= _capacity m ->
  policy_extractor.insert_position (_policy m) h (begin m h) (end_ m) = hd_or (_first m) B ->
  manager_inv (insert m h node).1.1 (insert m h node).1.2 (A ++ node :: B).
Proof.
  intros (Hd & Hw & [Hwc Hc] & Hcache) Hnd Hnx Hfit Hpos.
  pose proof (insert_dlist m h A B node Hd Hnd Hnx Hpos) as Hd'.
  split; [exact Hd'|]. clear Hd'.
  unfold insert. rewrite Hpos. unfold begin, end_ in *.
  cbn [fst snd set_weight _first _weight _capacity].
  set (s := _first m) in *. set (w := calculate_weight m (__val h node)).
  pose proof (calculate_weight_range m (__val h node)).
  pose proof (total_weight_nonneg m h (A ++ B)).
  assert (forall x, __val (set_node_weight (__link (__link h (__prev h (hd_or s B)) node)
            node (hd_or s B)) node w) x = __val h x) as Hval
    by (intros x; by rewrite val_set_node_weight, !val_link).
  split; [|split].
  - rewrite size_add_exact by lia.
    rewrite total_weight_set, (total_weight_ext m h) by auto.
    rewrite !total_weight_app, total_weight_cons. rewrite total_weight_app in Hw. subst w. lia.
  - rewrite size_add_exact by lia. lia.
  - rewrite Forall_app, Forall_cons. rewrite Forall_app in Hcache.
    assert (forall y, y <> node -> node_weight h y = calculate_weight m (__val h y) ->
      node_weight (set_node_weight (__link (__link h (__prev h (hd_or s B)) node)
        node (hd_or s B)) node w) y = calculate_weight (set_weight m (_weight m +ₛ w))
        (__val (set_node_weight (__link (__link h (__prev h (hd_or s B)) node)
        node (hd_or s B)) node w) y)) as Hkeep.
    { intros y Hy Hc'. by rewrite node_weight_set_ne, !node_weight_link, Hval by done. }
    destruct Hcache as [HcA HcB]. rewrite !Forall_forall in HcA, HcB |- *.
    split; [|split].
    + try rewrite Forall_forall. intros y Hy. apply Hkeep; [intros ->; apply Hnx; set_solver|auto].
    + rewrite node_weight_set_eq, Hval; [done|]. by rewrite !dom_link.
    + try rewrite Forall_forall. intros y Hy. apply Hkeep; [intros ->; apply Hnx; set_solver|auto].
Qed.

(** [insert] changes only links, the inserted node's cached weight and
    the total weight. *)
Lemma insert_vals m h node q : __val (insert m h node).1.2 q = __val h q.
Proof. unfold insert. simpl. by rewrite val_set_node_weight, !val_link. Qed.

Lemma insert_dom m h node : dom (insert m h node).1.2 = dom h.
Proof. unfold insert. simpl. by rewrite dom_set_node_weight, !dom_link. Qed.

Lemma insert_manager m h node :
  (insert m h node).1.1 = set_weight m (_weight (insert m h node).1.1).
Proof. done. Qed.

(** The policy's insert position splits the list. *)
Lemma insert_split m h xs :
  PolicyLaws (_policy m) -> dlist h (_first m) xs ->
  exists A B, xs = A ++ B /\
    policy_extractor.insert_position (_policy m) h (begin m h) (end_ m) = hd_or (_first m) B.
Proof.
  intros Hpol Hd. pose proof (insert_position_in h (_first m) xs Hd) as Hpl.
  by destruct (split_at_position _ _ _ Hpl) as (A & B & -> & Hpos); exists A, B.
Qed.

Lemma insert_inv m h xs node :
  PolicyLaws (_policy m) ->
  manager_inv m h xs -> node ∈ dom h -> node ∉ _first m :: xs ->
  _weight m + calculate_weight m (__val h node) <= _capacity m ->
  exists A B, xs = A ++ B /\ (insert m h node).2 = node /\
    manager_inv (insert m h node).1.1 (insert m h node).1.2 (A ++ node :: B).
Proof.
  intros Hpol Hinv Hnd Hnx Hfit. pose proof Hinv as (Hd & _).
  destruct (insert_split m h xs Hpol Hd) as (A & B & -> & Hpos).
  exists A, B. split; [done|]. split; [done|]. by apply insert_at.
Qed.


(** C1: [insert(node)] links the node just before the node the policy's
    [insert_position(begin(), end())] returns (at the end of the list when
    it returns [end()]), and keeps the invariant, when the node fits. *)
Theorem insert_spec m h xs node :
  PolicyLaws (_policy m) ->
  manager_inv m h xs -> node ∈ dom h -> node ∉ _first m :: xs ->
  _weight m + calculate_weight m (__val h node) <= _capacity m ->
  exists A B, xs = A ++ B /\
    policy_extractor.insert_position (_policy m) h (begin m h) (end_ m) = hd_or (_first m) B /\
    (insert m h node).2 = node /\
    manager_inv (insert m h node).1.1 (insert m h node).1.2 (A ++ node :: B).
Proof.
  intros Hpol Hinv Hnd Hnx Hfit. pose proof Hinv as (Hd & _).
  destruct (insert_split m h xs Hpol Hd) as (A & B & -> & Hpos).
  exists A, B. split_and!; [done|done|done|by apply insert_at].
Qed.

(** Under FIFO (no [insert_position]), [insert] appends the node. *)
Theorem insert_fifo m h xs node :
  _policy m = fifo ->
  manager_inv m h xs -> node ∈ dom h -> node ∉ _first m :: xs ->
  _weight m + calculate_weight m (__val h node) <= _capacity m ->
  manager_inv (insert m h node).1.1 (insert m h node).1.2 (xs ++ [node]).
Proof.
  intros Hp Hinv Hnd Hnx Hfit. rewrite <- (app_nil_r xs) in Hinv, Hnx.
  apply insert_at; [done..|]. unfold policy_extractor.insert_position. by rewrite Hp.
Qed.

(** Under LIFO, [insert] puts the node first. *)
Theorem insert_lifo m h xs node :
  _policy m = lifo ->
  manager_inv m h xs -> node ∈ dom h -> node ∉ _first m :: xs ->
  _weight m + calculate_weight m (__val h node) <= _capacity m ->
  manager_inv (insert m h node).1.1 (insert m h node).1.2 (node :: xs).
Proof.
  intros Hp Hinv Hnd Hnx Hfit. apply (insert_at m h [] xs); [done..|].
  unfold policy_extractor.insert_position, begin. rewrite Hp. simpl.
  pose proof Hinv as (Hd & _). by rewrite (dlist_begin _ _ _ Hd).
Qed.

Lemma manager_inv_perm_payload m h h' xs ys :
  manager_inv m h xs -> h' ≈ₚ h -> ys ≡ₚ xs -> dlist h' (_first m) ys -> manager_inv m h' ys.
Proof.
  intros (_ & Hw & Hc & Hcache) Hh Hp Hd. split; [done|]. split.
  - rewrite Hh, Hw. by apply total_weight_perm.
  - split; [done|]. rewrite Hp. eapply Forall_impl; [exact Hcache|]. intros y Hy. by rewrite !Hh.
Qed.

(** Under any lawful policy, [access(it)] rearranges the list and keeps
    the invariant. *)
Lemma access_inv m h xs x :
  PolicyLaws (_policy m) -> manager_inv m h xs -> x ∈ xs ->
  exists ys, ys ≡ₚ xs /\ manager_inv m (access m h x) ys.
Proof.
  intros Hpol Hinv Hx. pose proof Hinv as (Hd & _).
  destruct (access_perm h (_first m) xs x Hd Hx) as (ys & Hp & Hd').
  exists ys. split; [done|]. eapply manager_inv_perm_payload; [exact Hinv| |done|exact Hd'].
  apply access_payload.
Qed.

(** A policy's [access] that leaves the list as [ys], a rearrangement,
    keeps the invariant. *)
Lemma access_to m h xs ys x :
  PolicyLaws (_policy m) -> manager_inv m h xs -> ys ≡ₚ xs ->
  dlist (policy_extractor.access (_policy m) h (__next h (_first m)) (_first m) x) (_first m) ys ->
  manager_inv m (access m h x) ys.
Proof.
  intros Hpol Hinv Hp Hd. eapply manager_inv_perm_payload; [exact Hinv|apply access_payload|done|done].
Qed.

(** Under LRU, [access] moves the node to the end of the list, the place
    erased last. *)
Theorem access_lru m h A x B :
  _policy m = lru -> manager_inv m h (A ++ x :: B) -> manager_inv m (access m h x) (A ++ B ++ [x]).
Proof.
  intros Hp Hinv. pose proof Hinv as (Hd & _). apply access_to with (A ++ x :: B);
    [rewrite Hp; apply _|done|solve_Permutation|].
  unfold policy_extractor.access. rewrite Hp. by apply lru_access_spec.
Qed.

(** Under MRU, [access] moves the node to the front. *)
Theorem access_mru m h A x B :
  _policy m = mru -> manager_inv m h (A ++ x :: B) -> manager_inv m (access m h x) (x :: A ++ B).
Proof.
  intros Hp Hinv. pose proof Hinv as (Hd & _). apply access_to with (A ++ x :: B);
    [rewrite Hp; apply _|done|solve_Permutation|].
  unfold policy_extractor.access. rewrite Hp. by apply mru_access_spec.
Qed.

(** Under the swapping policy, [access] exchanges the node with its
    successor, unless it is the last node. *)
Theorem access_swapping m h A x B :
  _policy m = swapping -> manager_inv m h (A ++ x :: B) ->
  manager_inv m (access m h x) (A ++ match B with [] => [x] | b :: B' => b :: x :: B' end).
Proof.
  intros Hp Hinv. pose proof Hinv as (Hd & _). apply access_to with (A ++ x :: B);
    [rewrite Hp; apply _|done|destruct B; solve_Permutation|].
  unfold policy_extractor.access. rewrite Hp. by apply swapping_access_spec.
Qed.

(** C12: [access(it)] under each built-in policy of [policy.h]: FIFO and
    LIFO have no [access] hook and leave the heap as it is; LRU moves the
    node to the end of the list, the place erased last; MRU moves it to
    the front; the swapping policy exchanges it with its successor unless
    it is the last node; the invariant holds of the new list. *)
Theorem access_spec m h A x B :
  manager_inv m h (A ++ x :: B) ->
  ((_policy m = fifo \/ _policy m = lifo) -> access m h x = h) /\
  (_policy m = lru -> manager_inv m (access m h x) (A ++ B ++ [x])) /\
  (_policy m = mru -> manager_inv m (access m h x) (x :: A ++ B)) /\
  (_policy m = swapping ->
     manager_inv m (access m h x) (A ++ match B with [] => [x] | b :: B' => b :: x :: B' end)).
Proof.
  intros Hinv. split_and!.
  - intros [Hp|Hp]; unfold access, policy_extractor.access; by rewrite Hp.
  - intros Hp. by apply access_lru.
  - intros Hp. by apply access_mru.
  - intros Hp. by apply access_swapping.
Qed.

(** [clear()] leaves an empty list of weight [0]. *)
(** A new manager is well formed and empty. *)
Lemma construct_inv s capacity (weigher : T -> Z) (pol : @policy T) h :
  0 <= capacity < size_modulus ->
  manager_inv (construct s capacity weigher pol h).1 (construct s capacity weigher pol h).2 [].
Proof.
  intros Hc. unfold construct; cbn [fst snd]. repeat split; cbn [_weight _capacity _first]; try lia.
  - apply NoDup_singleton.
  - apply Forall_singleton. rewrite dom_insert_L. set_solver.
  - unfold __next. by rewrite lookup_insert_eq.
  - unfold __prev. by rewrite lookup_insert_eq.
  - constructor.
Qed.

Theorem clear_spec m h xs :
  manager_inv m h xs -> manager_inv (clear m h).1 (clear m h).2 [].
Proof.
  intros (Hd & Hw & Hc & _). pose proof (total_weight_nonneg m h xs).
  assert (_first m ∈ dom h) as Hs by (destruct Hd as (_ & Hdom & _); by inversion Hdom).
  unfold clear; cbn [fst snd]. repeat split; cbn [set_weight _weight _capacity _first]; try lia.
  - apply NoDup_singleton.
  - apply Forall_singleton. by rewrite dom_link.
  - by rewrite next_link_eq.
  - by rewrite prev_link_eq.
  - constructor.
Qed.

Lemma next_in m h xs :
  PolicyLaws (_policy m) -> manager_inv m h xs ->
  exists r, next m h = Some r /\ r ∈ xs ++ [_first m].
Proof.
  intros Hpol (Hd & _). unfold next, begin, end_.
  case_decide; [eexists; split; [done|set_solver]|].
  rewrite (dlist_begin _ _ _ Hd). apply (erase_position_in h _ [] xs Hd).
Qed.

(** [next()] is computed and is a node of the list or the end. *)
Theorem next_spec m h xs :
  PolicyLaws (_policy m) -> manager_inv m h xs ->
  exists r, next m h = Some r /\ r ∈ xs ++ [_first m].
Proof. apply next_in. Qed.

Lemma next_hint_in m h xs hint :
  PolicyLaws (_policy m) -> manager_inv m h xs -> hint ∈ xs ++ [_first m] ->
  exists r, next_hint m h hint = Some r /\ r ∈ xs ++ [_first m].
Proof.
  intros Hpol (Hd & _) Hh. unfold next_hint, end_.
  case_decide; [eexists; split; [done|set_solver]|].
  destruct (split_at_position _ _ _ Hh) as (A & X & -> & <-).
  rewrite <- app_assoc. apply (erase_position_in h _ A X Hd).
Qed.

(** next(hint) for a hint in the list returns a node of the list or end. *)
Theorem next_hint_spec m h xs hint :
  PolicyLaws (_policy m) -> manager_inv m h xs -> hint ∈ xs ++ [_first m] ->
  exists r, next_hint m h hint = Some r /\ r ∈ xs ++ [_first m].
Proof. apply next_hint_in. Qed.

Lemma next_except_in m h A x B :
  PolicyLaws (_policy m) -> manager_inv m h (A ++ x :: B) ->
  (next_except m h x).1 = h /\
  exists r, (next_except m h x).2 = Some r /\ r ∈ A ++ B ++ [_first m].
Proof.
  intros Hpol (Hd & _). pose proof (dlist_around _ _ _ _ _ Hd) as
    ([Hn1 Hp1] & [Hn2 Hp2] & Hne1 & Hne2 & Hd1 & Hdx & Hd2).
  pose proof (unlink_dlist _ _ _ _ _ Hd) as Hd'.
  unfold next_except, begin, end_.
  rewrite decide_False.
  2: { rewrite (dlist_begin _ _ _ Hd). destruct Hd as (Hnd & _).
       destruct A; simpl; rewrite hd_or_cons; intros ->; apply NoDup_cons in Hnd as [Hs _]; set_solver. }
  cbn [fst snd]. split.
  - rewrite Hp1, Hn2. apply unlink_relink; try done; by split.
  - rewrite (dlist_begin _ _ _ Hd'), app_assoc. apply (erase_position_in _ _ [] (A ++ B) Hd').
Qed.

(** C9: [next_except(except)] leaves the heap as it found it and never
    returns the excluded node. *)
Theorem next_except_spec m h A x B :
  PolicyLaws (_policy m) -> manager_inv m h (A ++ x :: B) ->
  (next_except m h x).1 = h /\
  exists r, (next_except m h x).2 = Some r /\ r ∈ A ++ B ++ [_first m].
Proof. apply next_except_in. Qed.

Lemma next_except_hint_in m h A x B hint :
  PolicyLaws (_policy m) -> manager_inv m h (A ++ x :: B) ->
  hint ∈ A ++ x :: B ++ [_first m] ->
  (next_except_hint m h hint x).1 = h /\
  exists r, (next_except_hint m h hint x).2 = Some r /\ r ∈ A ++ B ++ [_first m].
Proof.
  intros Hpol (Hd & _) Hh. pose proof (dlist_around _ _ _ _ _ Hd) as
    ([Hn1 Hp1] & [Hn2 Hp2] & Hne1 & Hne2 & Hd1 & Hdx & Hd2).
  pose proof (unlink_dlist _ _ _ _ _ Hd) as Hd'.
  unfold next_except_hint, begin, end_.
  rewrite decide_False.
  2: { rewrite (dlist_begin _ _ _ Hd). destruct Hd as (Hnd & _).
       destruct A; simpl; rewrite hd_or_cons; intros ->; apply NoDup_cons in Hnd as [Hs _]; set_solver. }
  cbn [fst snd]. split.
  - rewrite Hp1, Hn2. apply unlink_relink; try done; by split.
  - assert ((if decide (hint = x) then __next h hint else hint) ∈ (A ++ B) ++ [_first m]) as Hh'.
    { case_decide as Hhx; [subst; rewrite Hn2; pose proof (hd_or_in (_first m) B); set_solver|].
      rewrite <- app_assoc. set_solver. }
    destruct (split_at_position _ _ _ Hh') as (A' & X & HAB & Hhd). rewrite <- Hhd.
    rewrite HAB in Hd'. rewrite app_assoc, HAB, <- app_assoc.
    apply (erase_position_in _ _ A' X Hd').
Qed.

(** next_except(hint, except) leaves the heap as it was and returns a node other than except, or end. *)
Theorem next_except_hint_spec m h A x B hint :
  PolicyLaws (_policy m) -> manager_inv m h (A ++ x :: B) ->
  hint ∈ A ++ x :: B ++ [_first m] ->
  (next_except_hint m h hint x).1 = h /\
  exists r, (next_except_hint m h hint x).2 = Some r /\ r ∈ A ++ B ++ [_first m].
Proof. apply next_except_hint_in. Qed.

(** ** Writing the value of a node the operations do not read

    [next_except] hides the node [except] from the policy, and [erase]
    reads only the node it erases: a write to the value of [except]
    commutes with both.  This is what lets [assign] change the value of
    its node before making room. *)

Lemma unlinked_set_val_agree h s A x B (v : T) :
  dlist h s (A ++ x :: B) ->
  forall q, q ∈ s :: A ++ B -> set_val (__link h (__prev h x) (__next h x)) x v !! q =
                            __link h (__prev h x) (__next h x) !! q.
Proof.
  intros (Hnd & _) q Hq. apply lookup_set_val_ne. intros <-.
  rewrite app_comm_cons in Hnd. by apply nodup_mid in Hnd.
Qed.

Lemma next_except_set_val m h A x B (v : T) :
  PolicyLaws (_policy m) -> dlist h (_first m) (A ++ x :: B) ->
  next_except m (set_val h x v) x = (set_val (next_except m h x).1 x v, (next_except m h x).2).
Proof.
  intros Hpol Hd. pose proof (unlink_dlist _ _ _ _ _ Hd) as Hd'.
  unfold next_except, begin, end_. cbv zeta.
  rewrite !next_set_val, !prev_set_val, !link_set_val, ?next_set_val.
  case_decide; [done|]. cbn [fst snd]. f_equal.
  rewrite (dlist_begin _ _ _ Hd'). apply (erase_position_local _ _ _ [] (A ++ B) Hd').
  intros q Hq. by apply (unlinked_set_val_agree h _ A x B v Hd).
Qed.

Lemma next_except_hint_set_val m h A x B hint (v : T) :
  PolicyLaws (_policy m) -> dlist h (_first m) (A ++ x :: B) -> hint ∈ A ++ x :: B ++ [_first m] ->
  next_except_hint m (set_val h x v) hint x =
    (set_val (next_except_hint m h hint x).1 x v, (next_except_hint m h hint x).2).
Proof.
  intros Hpol Hd Hh. pose proof (unlink_dlist _ _ _ _ _ Hd) as Hd'.
  pose proof (dlist_around _ _ _ _ _ Hd) as (_ & [Hn2 _] & _).
  unfold next_except_hint, begin, end_. cbv zeta.
  rewrite !next_set_val, !prev_set_val, !link_set_val, ?next_set_val.
  case_decide; [done|]. cbn [fst snd]. f_equal.
  assert ((if decide (hint = x) then __next h hint else hint) ∈ (A ++ B) ++ [_first m]) as Hh'.
  { case_decide as Hhx; [subst; rewrite Hn2; pose proof (hd_or_in (_first m) B); set_solver|].
    rewrite <- app_assoc. set_solver. }
  destruct (split_at_position _ _ _ Hh') as (A' & X & HAB & Hhd). rewrite <- Hhd.
  rewrite HAB in Hd'. apply (erase_position_local _ _ _ A' X Hd').
  intros q Hq. rewrite <- HAB in Hq. by apply (unlinked_set_val_agree h _ A x B v Hd).
Qed.

Lemma erase_set_val m h p q (v : T) :
  p <> q -> erase m (set_val h p v) q = ((erase m h q).1.1, set_val (erase m h q).1.2 p v, (erase m h q).2).
Proof.
  intros Hpq. unfold erase, erase_node. cbv zeta.
  rewrite !next_set_val, !prev_set_val, link_set_val, val_set_val_ne by done. done.
Qed.

Lemma reinsert_set_val m h p q (v : T) :
  p <> q -> reinsert m (set_val h p v) q = ((reinsert m h q).1, set_val (reinsert m h q).2 p v).
Proof.
  intros Hpq. unfold reinsert, calculate_weight_it. cbv zeta.
  rewrite !next_set_val, !prev_set_val, !link_set_val, val_set_val_ne by done. done.
Qed.

Lemma to_size_add_l a b : to_size (to_size a + b) = to_size (a + b).
Proof. unfold to_size. by rewrite Zplus_mod_idemp_l. Qed.

Lemma dlist_cut_edge h s A C :
  dlist h s (A ++ C) ->
  edge h (lst_or s A) (hd_or s C) /\ lst_or s A ∈ dom h /\ hd_or s C ∈ dom h.
Proof.
  intros Hd. pose proof Hd as (_ & Hdom & _). apply dlist_chain in Hd.
  rewrite <- app_assoc, snoc_hd_or in Hd.
  change (s :: A ++ hd_or s C :: drop 1 (C ++ [s])) with ((s :: A) ++ hd_or s C :: drop 1 (C ++ [s])) in Hd.
  apply chain_app_cons in Hd as (_ & He & _); [|done]. rewrite lst_or_cons in He.
  rewrite Forall_forall in Hdom. pose proof (lst_or_in s A). pose proof (hd_or_in s C).
  split; [done|]. split; apply Hdom; set_solver.
Qed.

(** The loop of [erase(first, last)] sums the weights of the range. *)
Lemma erase_range_sum_chain m h e X : forall acc (n : nat),
  chain h (X ++ [e]) -> e ∉ X -> (length X < n)%nat -> is_size acc ->
  erase_range_sum m n h (hd_or e X) e acc = Some (to_size (acc + total_weight m h X)).
Proof.
  induction X as [|x X IH]; intros acc [|n] Hc He Hn Ha; simpl in Hn; try lia.
  - simpl. rewrite decide_False by tauto. by rewrite Z.add_0_r, to_size_id.
  - rewrite hd_or_cons. simpl. rewrite decide_True by set_solver.
    rewrite (chain_next _ _ _ _ Hc), IH; [|by eapply chain_tail|set_solver|lia|apply size_add_range].
    unfold size_add. rewrite to_size_add_l. f_equal. f_equal. unfold total_weight. simpl. lia.
Qed.

(** [erase(first, last)] on the segment [X] of the list: the sum of its
    weights is subtracted, its neighbours are linked, and the rest is a
    well-formed list. *)
Lemma erase_range_unlinks m h A X C :
  manager_inv m h (A ++ X ++ C) ->
  let first := hd_or (hd_or (_first m) C) X in
  let last := hd_or (_first m) C in
  let m' := set_weight m (_weight m - total_weight m h X) in
  let h' := __link h (__prev h first) last in
  erase_range m h first last = Some (m', h', last) /\ manager_inv m' h' (A ++ C).
Proof.
  intros (Hd & Hw & [Hwc Hc] & Hcache) first last m' h'.
  pose proof (dlist_length _ _ _ Hd) as Hlen. rewrite !length_app in Hlen.
  pose proof (dlist_segment _ _ _ _ _ Hd) as (Hch & He & _).
  rewrite !total_weight_app in Hw. pose proof (total_weight_nonneg m h A).
  pose proof (total_weight_nonneg m h X). pose proof (total_weight_nonneg m h C).
  split.
  { unfold erase_range, first, last. rewrite (erase_range_sum_chain _ _ _ _ _ _ Hch He) by (lia || done).
    rewrite Z.add_0_l, to_size_id by (unfold is_size; lia). simpl. by rewrite size_sub_exact by lia. }
  subst first last m' h'. set (s := _first m) in *.
  assert (dlist (__link h (__prev h (hd_or (hd_or s C) X)) (hd_or s C)) s (A ++ C)) as Hd'.
  { destruct X as [|x X].
    - rewrite hd_or_nil. change (A ++ [] ++ C) with (A ++ C) in Hd.
      destruct (dlist_cut_edge _ _ _ _ Hd) as (He' & Hd1 & Hd2).
      rewrite (proj2 He'), link_id; done.
    - rewrite hd_or_cons.
      surgery_facts Hd ([x :: X; C ++ s :: A]).
      rewrite (dlist_as_ring _ _ _ _ ([C ++ s :: A])) by groups_eq.
      surgery_close Hd ([x :: X; C ++ s :: A]) ([C ++ s :: A]) ([x :: X]) idtac. }
  split; [done|]. cbn [set_weight _weight _capacity].
  rewrite same_payload_link, !total_weight_app.
  rewrite !total_weight_set. split; [lia|]. split; [lia|].
  rewrite Forall_app. rewrite !Forall_app in Hcache. destruct Hcache as (HA & _ & HC).
  split; eapply Forall_impl; try eassumption; intros y Hy; simpl; by rewrite node_weight_link, val_link.
Qed.

(** C10: [erase(first, last)] unlinks the range, subtracts its weight, keeps
    the invariant and returns [last]. *)
Theorem erase_range_spec m h A X C :
  manager_inv m h (A ++ X ++ C) ->
  exists m' h', erase_range m h (hd_or (hd_or (_first m) C) X) (hd_or (_first m) C) = Some (m', h', hd_or (_first m) C) /\
    manager_inv m' h' (A ++ C).
Proof. intros Hinv. destruct (erase_range_unlinks m h A X C Hinv) as [E Hinv']. eauto. Qed.



(** [update_weight(it, old, new)] after the value at [it] changed: the
    invariant holds again when the new total fits. *)
Lemma Forall_and_l_ne {U} (P : U -> Prop) (l : list U) (x : U) :
  Forall P l -> x ∉ l -> Forall (fun y => P y /\ x <> y) l.
Proof.
  intros HP Hx. apply Forall_forall. intros y Hy.
  split; [by eapply Forall_forall|]. by intros ->.
Qed.

Lemma update_weight_inv m h A x B (v : T) :
  manager_inv m h (A ++ x :: B) ->
  _weight m - calculate_weight m (__val h x) + calculate_weight m v <= _capacity m ->
  manager_inv (update_weight m (set_val h x v) x (calculate_weight m (__val h x)) (calculate_weight m v)).1
              (update_weight m (set_val h x v) x (calculate_weight m (__val h x)) (calculate_weight m v)).2
              (A ++ x :: B).
Proof.
  intros (Hd & Hw & [Hwc Hc] & Hcache) Hfit.
  pose proof (dlist_around _ _ _ _ _ Hd) as (_ & _ & _ & _ & _ & Hdx & _).
  pose proof Hd as (Hnd & _). apply NoDup_cons in Hnd as [_ Hnd].
  apply NoDup_app in Hnd as (_ & HdisA & Hnd). apply NoDup_cons in Hnd as [HxB _].
  assert (x ∉ A) as HxA by (intros Hin; apply (HdisA x Hin); left).
  rewrite total_weight_app, total_weight_cons in Hw.
  pose proof (total_weight_nonneg m h A). pose proof (total_weight_nonneg m h B).
  pose proof (calculate_weight_range m (__val h x)). pose proof (calculate_weight_range m v).
  assert (forall l, x ∉ l -> total_weight m (set_node_weight (set_val h x v) x (calculate_weight m v)) l
            = total_weight m h l) as Htot.
  { intros l Hl. apply total_weight_ext. intros y Hy.
    rewrite val_set_node_weight, val_set_val_ne; [done|]. intros ->. done. }
  unfold update_weight; cbn [fst snd set_weight _weight _capacity _first].
  rewrite size_sub_exact, size_add_exact by lia.
  split; [|split; [|split]].
  - eapply dlist_same_links; [| | |exact Hd]; intros;
      rewrite ?dom_set_node_weight, ?dom_set_val, ?next_set_node_weight, ?next_set_val,
        ?prev_set_node_weight, ?prev_set_val; done.
  - rewrite !total_weight_set, total_weight_app, total_weight_cons.
    rewrite (Htot A HxA), (Htot B HxB).
    rewrite val_set_node_weight, val_set_val_eq by exact Hdx. cbn [_weight set_weight]. lia.
  - cbn [_weight _capacity set_weight]. lia.
  - rewrite Forall_app, Forall_cons in Hcache |- *. destruct Hcache as (HA & _ & HB).
    rewrite !calculate_weight_set.
    assert (forall y, x <> y -> node_weight h y = calculate_weight m (__val h y) ->
      node_weight (set_node_weight (set_val h x v) x (calculate_weight m v)) y =
      calculate_weight m (__val (set_node_weight (set_val h x v) x (calculate_weight m v)) y)) as Hy.
    { intros y ? Hyw.
      by rewrite node_weight_set_ne, node_weight_set_val, val_set_node_weight, val_set_val_ne. }
    split; [|split].
    + eapply Forall_impl; [exact (Forall_and_l_ne _ _ _ HA HxA)|]. intros y [Hyw ?]. by apply Hy.
    + rewrite node_weight_set_eq by (by rewrite dom_set_val).
      by rewrite val_set_node_weight, val_set_val_eq by exact Hdx.
    + eapply Forall_impl; [exact (Forall_and_l_ne _ _ _ HB HxB)|]. intros y [Hyw ?]. by apply Hy.
Qed.

(** C11: After the value of a node changes, update_weight(it, old, new) restores the invariant when the new total fits the capacity. *)
Theorem update_weight_spec m h A x B (v : T) :
  manager_inv m h (A ++ x :: B) ->
  _weight m - calculate_weight m (__val h x) + calculate_weight m v <= _capacity m ->
  manager_inv (update_weight m (set_val h x v) x (calculate_weight m (__val h x)) (calculate_weight m v)).1
              (update_weight m (set_val h x v) x (calculate_weight m (__val h x)) (calculate_weight m v)).2
              (A ++ x :: B).
Proof. apply update_weight_inv. Qed.

(** [can_fit(weight)] answers [_weight + weight <= _capacity] when the sum
    does not overflow. *)
Theorem can_fit_spec m w :
  0 <= _weight m -> 0 <= w -> _weight m + w < size_modulus ->
  can_fit m w = bool_decide (_weight m + w <= _capacity m).
Proof. intros. unfold can_fit. by rewrite size_add_exact. Qed.

(** C32: [can_fit(weight)] computes [_weight + weight] in [size_t]: on any
    well-formed manager, a node whose weight brings the sum to
    [SIZE_MAX + 1] or more, wrapping to at most the capacity, passes the
    check, and [insert(node)], whose only guard is
    [assert(can_fit(weight))], leaves a manager whose recorded weight (the
    wrapped sum) is the total weight of no list: the invariant is lost. *)
Theorem can_fit_overflow m h xs node :
  PolicyLaws (_policy m) ->
  manager_inv m h xs -> node ∈ dom h -> node ∉ _first m :: xs ->
  size_modulus <= _weight m + calculate_weight m (__val h node) <= size_modulus + _capacity m ->
  can_fit_val m (__val h node) = true /\
  ~ exists ys, manager_inv (insert m h node).1.1 (insert m h node).1.2 ys.
Proof.
  intros Hpol Hinv Hnd Hnx Hov. pose proof Hinv as (Hd & Hw & [Hwc Hc] & _).
  pose proof (calculate_weight_range m (__val h node)). pose proof (total_weight_nonneg m h xs).
  assert (Hwrap : _weight m +ₛ calculate_weight m (__val h node) =
    _weight m + calculate_weight m (__val h node) - size_modulus)
    by (apply size_add_wrap; unfold is_size; lia).
  split.
  - unfold can_fit_val, can_fit. rewrite Hwrap. apply bool_decide_true. lia.
  - intros (ys & Hd' & Hw' & _).
    destruct (insert_split m h xs Hpol Hd) as (A & B & -> & Hpos).
    rewrite (dlist_unique _ _ _ _ Hd' (insert_dlist m h A B node Hd Hnd Hnx Hpos)) in Hw'.
    assert (total_weight (insert m h node).1.1 (insert m h node).1.2 (A ++ node :: B) =
      total_weight m h (A ++ B) + calculate_weight m (__val h node)) as Ht.
    { rewrite (total_weight_ext _ h) by (intros; apply insert_vals).
      rewrite insert_manager, total_weight_set, !total_weight_app, total_weight_cons. lia. }
    assert (_weight (insert m h node).1.1 = _weight m +ₛ calculate_weight m (__val h node)) as Hw2 by done.
    pose proof size_modulus_pos. lia.
Qed.

Lemma dlist_end h s xs : dlist h s xs -> __prev h s = lst_or s xs.
Proof.
  intros Hd%dlist_chain. change (s :: xs ++ [s]) with ((s :: xs) ++ [s]) in Hd.
  apply chain_app_cons in Hd as (_ & [_ Hp] & _); [|done]. by rewrite Hp, lst_or_cons.
Qed.

Lemma dlist_dom h s xs p : dlist h s xs -> p ∈ s :: xs -> p ∈ dom h.
Proof. intros (_ & Hdom & _) Hp. by eapply Forall_forall in Hdom. Qed.

Lemma dlist_sentinel_notin h s xs : dlist h s xs -> s ∉ xs.
Proof. intros (Hnd & _). by apply NoDup_cons in Hnd as [? _]. Qed.

(** The invariant carries over to another manager with the same weight,
    capacity and weigher whose sentinel holds the same nodes. *)
Lemma manager_inv_transfer m m' h h' xs :
  manager_inv m h xs -> dlist h' (_first m') xs ->
  _weight m' = _weight m -> _capacity m' = _capacity m -> _weigher m' = _weigher m ->
  (forall p, p ∈ xs -> __val h' p = __val h p /\ node_weight h' p = node_weight h p) ->
  manager_inv m' h' xs.
Proof.
  intros (_ & Hw & Hwc & Hcache) Hd' Ew Ec Eg Hv.
  assert (forall v, calculate_weight m' v = calculate_weight m v) as Ecw
    by (intros; unfold calculate_weight; by rewrite Eg).
  split; [done|]. split; [|split; [by rewrite Ew, Ec|]].
  - assert (total_weight m' h' xs = total_weight m h' xs) as ->
      by (unfold total_weight, calculate_weight; by rewrite Eg).
    rewrite Ew, Hw. apply total_weight_ext.
    intros x Hx. symmetry. by apply Hv.
  - apply Forall_forall. intros x Hx. rewrite Ecw. destruct (Hv x Hx) as [-> ->].
    by eapply Forall_forall in Hcache.
Qed.

(** The invariant depends only on the sentinel and the nodes of the list. *)
Lemma manager_inv_agree m h h' xs :
  (forall p, p ∈ _first m :: xs -> h' !! p = h !! p) -> manager_inv m h xs -> manager_inv m h' xs.
Proof.
  intros Hag (Hd & Hw & Hc & Hcache).
  assert (forall p, p ∈ xs -> __val h' p = __val h p /\ node_weight h' p = node_weight h p) as Hv
    by (intros p Hp; unfold __val, node_weight; rewrite Hag by set_solver; done).
  split; [by eapply dlist_agree|]. split; [|split; [done|]].
  - rewrite Hw. symmetry. apply total_weight_ext. intros x Hx. by apply Hv.
  - apply Forall_forall. intros x Hx. destruct (Hv x Hx) as [-> ->].
    by eapply Forall_forall in Hcache.
Qed.

(** [_fix_first] after the sentinel [o] of a non-empty list was copied to
    [s]: the list now hangs from [s]. *)
Lemma fix_first_moves h h1 o s a X :
  dlist h o (a :: X) -> s ∈ dom h1 -> (forall p, p ∈ o :: a :: X -> p <> s) ->
  (forall p, p ∈ o :: a :: X -> p ∈ dom h1) ->
  __next h1 s = a -> __prev h1 s = lst_or a X ->
  (forall p, p <> s -> __next h1 p = __next h p /\ __prev h1 p = __prev h p /\
            __val h1 p = __val h p /\ node_weight h1 p = node_weight h p) ->
  dlist (__link (__link h1 s a) (lst_or a X) s) s (a :: X).
Proof.
  intros Hd Hs1 Hps Hd1 Hn1 Hp1 Hframe.
  assert (a <> s /\ lst_or a X <> s /\ o <> a /\ o <> lst_or a X) as (Has & Hzs & Hoa & Hoz).
  { pose proof (dlist_sentinel_notin _ _ _ Hd). pose proof (lst_or_in a X).
    split_and!; [apply Hps; set_solver..| |]; intros ->; set_solver. }
  eapply (dlist_move h _ o s a X); [exact Hd| | | | | | |].
  - intros Hin. by apply (Hps s); [right|].
  - by rewrite !dom_link.
  - intros p Hp. rewrite !dom_link. apply Hd1. by right.
  - intros p Hp Hz. assert (p <> s) by (apply Hps; by right).
    rewrite !next_link_ne by done. by apply Hframe.
  - intros p Hp Hz. assert (p <> s) by (apply Hps; by right).
    rewrite !prev_link_ne by done. by apply Hframe.
  - split; [by rewrite next_link_ne, next_link_eq|].
    rewrite prev_link_ne, prev_link_eq by (done || by apply Hd1; right; left). done.
  - split; [rewrite next_link_eq; [done|]|by rewrite prev_link_eq; rewrite ?dom_link].
    rewrite dom_link. apply Hd1. right. apply lst_or_in.
Qed.

(** C31: The move constructor: the new manager, whose sentinel is at the fresh
    address [s], holds the list of [other] with its weight. *)
Theorem move_construct_spec other h xs s :
  manager_inv other h xs -> s ∉ dom h ->
  manager_inv (move_construct other h s).1.1 (move_construct other h s).2 xs.
Proof.
  intros (Hd & Hw & Hwc & Hcache) Hs.
  set (o := _first other) in *.
  assert (o ∈ dom h) as [n Hn]%elem_of_dom by (eapply dlist_dom; [exact Hd|left]).
  assert (forall p, p ∈ o :: xs -> p <> s) as Hps by (intros p Hp ->; apply Hs; by eapply dlist_dom).
  unfold move_construct, copy_node, _fix_first. cbn [fst snd _first]. fold o. rewrite Hn.
  set (h1 := <[s := n]> h).
  assert (forall p, p ∈ o :: xs -> p ∈ dom h1) as Hd1
    by (intros p Hp; unfold h1; rewrite dom_insert_L; apply elem_of_union_r; by eapply dlist_dom).
  assert (s ∈ dom h1) as Hs1 by (unfold h1; rewrite dom_insert_L; set_solver).
  assert (__next h1 s = __next h o /\ __prev h1 s = __prev h o) as [Hn1 Hp1]
    by (unfold h1, __next, __prev; by rewrite lookup_insert_eq, Hn).
  assert (forall p, p <> s -> __next h1 p = __next h p /\ __prev h1 p = __prev h p /\
            __val h1 p = __val h p /\ node_weight h1 p = node_weight h p) as Hframe.
  { intros p Hp. unfold h1. rewrite next_insert_ne, prev_insert_ne, val_insert_ne, node_weight_insert_ne; auto. }
  eapply (manager_inv_transfer other); [split; [exact Hd|done]| |done|done|done|]; cbn [_first].
  - destruct xs as [|a X].
    + rewrite (dlist_begin _ _ _ Hd) in Hn1. rewrite decide_True by done.
      split; [apply NoDup_singleton|]. split; [apply Forall_singleton; by rewrite dom_link|].
      cbn. split; [|done]. unfold edge. by rewrite next_link_eq, prev_link_eq.
    + pose proof (dlist_begin _ _ _ Hd) as Hb. pose proof (dlist_end _ _ _ Hd) as He.
      rewrite hd_or_cons in Hb. rewrite lst_or_cons in He.
      assert (a <> s /\ o <> a) as [Has Hoa].
      { pose proof (dlist_sentinel_notin _ _ _ Hd). split; [apply Hps; set_solver|set_solver]. }
      rewrite Hn1, Hb, decide_False by done.
      rewrite prev_link_ne, Hp1, He by done.
      apply (fix_first_moves h h1 o s a X); try done; [by rewrite Hn1, Hb|by rewrite Hp1, He].
  - intros p Hp. assert (p <> s) by (apply Hps; by right).
    case_decide; rewrite ?val_link, ?node_weight_link; split; by apply Hframe.
Qed.

(** The heap the move constructor leaves when the list is not empty. *)
Lemma move_construct_heap other h a X s (n : stored_node T) :
  dlist h (_first other) (a :: X) -> h !! _first other = Some n -> s ∉ dom h ->
  (move_construct other h s).2 = __link (__link (<[s := n]> h) s a) (lst_or a X) s.
Proof.
  intros Hd Hn Hs. set (o := _first other) in *.
  pose proof (dlist_begin _ _ _ Hd) as Hb. rewrite hd_or_cons in Hb.
  pose proof (dlist_end _ _ _ Hd) as He. rewrite lst_or_cons in He.
  assert (a ∈ dom h) by (eapply dlist_dom; [exact Hd|right; left]).
  assert (a <> s) by (intros ->; done).
  assert (a <> o) by (intros E; apply (dlist_sentinel_notin _ _ _ Hd); rewrite <- E; left).
  assert (__next (<[s:=n]> h) s = a /\ __prev (<[s:=n]> h) s = lst_or a X) as [Hn1 Hp1].
  { unfold __next, __prev in *. rewrite lookup_insert_eq. rewrite Hn in Hb, He. done. }
  unfold move_construct, copy_node, _fix_first. cbn [fst snd _first]. fold o. rewrite Hn.
  rewrite Hn1, decide_False by done. by rewrite prev_link_ne, Hp1 by done.
Qed.

(** C34: The move constructor does not reset [other]: when the list was not
    empty, the moved-from manager's sentinel no longer heads any list (its
    successor points back to the new sentinel), so [other] satisfies the
    invariant for no list at all. *)
Theorem move_construct_other_broken other h a X s :
  manager_inv other h (a :: X) -> s ∉ dom h ->
  ~ exists ys, manager_inv (move_construct other h s).1.2 (move_construct other h s).2 ys.
Proof.
  intros [Hd _] Hs [ys [Hys _]].
  change (_first (move_construct other h s).1.2) with (_first other) in Hys.
  set (o := _first other) in *.
  assert (o ∈ dom h) as Ho by (eapply dlist_dom; [exact Hd|left]).
  pose proof Ho as [n Hn]%elem_of_dom.
  rewrite (move_construct_heap _ _ _ _ _ n Hd Hn Hs) in Hys. apply dlist_next_prev in Hys.
  pose proof (dlist_begin _ _ _ Hd) as Hb. rewrite hd_or_cons in Hb.
  assert (forall p, p ∈ o :: a :: X -> p ∈ dom h) as Hdom by (intros; by eapply dlist_dom).
  assert (o <> s) by (intros ->; done).
  assert (a <> s) by (intros ->; apply Hs, Hdom; right; left).
  assert (o <> lst_or a X) by
    (intros E; apply (dlist_sentinel_notin _ _ _ Hd); rewrite E; apply lst_or_in).
  rewrite next_link_ne, next_link_ne, next_insert_ne, Hb in Hys by done.
  rewrite prev_link_ne, prev_link_eq in Hys; [done| |done].
  rewrite dom_insert_L. apply elem_of_union_r, Hdom. right. left.
Qed.

(** [_manager = cache_manager(capacity, weigher, policy)]: the move
    assignment of a new, empty manager (sentinel at the fresh address
    [t]) takes its configuration and leaves the sentinel linked to
    itself; once the temporary's storage ends, the heap is the old one
    with only the sentinel's links changed. *)
Lemma move_assign_fresh (M : cache_manager) h t cap w pol d :
  h !! _first M = Some d -> t ∉ dom h ->
  (move_assign M (construct t cap w pol h).1 (construct t cap w pol h).2).1.1 = mk_cache_manager cap (_first M) 0 w pol /\
  delete t (move_assign M (construct t cap w pol h).1 (construct t cap w pol h).2).2 =
    <[_first M := (d.1, mk_cache_node (_first M) (_first M) 0)]> h.
Proof.
  intros Hs Ht. assert (_first M <> t) as Hst by (intros E; apply Ht; apply elem_of_dom; exists d; by rewrite <- E).
  unfold move_assign, construct. cbn [fst snd _first _capacity _weight _weigher _policy set_capacity_field set_weight].
  split; [done|]. set (s := _first M) in *.
  assert (copy_links (<[t:=(inhabitant, mk_cache_node t t 0)]> h) t s =
          <[s := (d.1, mk_cache_node t t 0)]> (<[t:=(inhabitant, mk_cache_node t t 0)]> h)) as ->.
  { unfold copy_links. rewrite lookup_insert_eq, lookup_insert_ne by done. by rewrite Hs. }
  unfold _fix_first. cbn [_first]. rewrite decide_True.
  2:{ rewrite next_link_ne by done. unfold __next. by rewrite lookup_insert_eq. }
  apply map_eq. intros q. unfold __link, set_prev, set_next.
  destruct (decide (q = s)) as [->|Hqs]; [|destruct (decide (q = t)) as [->|Hqt]];
    simplify_map_eq; try done.
  symmetry. by apply not_elem_of_dom.
Qed.

End Spec.
(** ** A concrete cache

    A manager of capacity [100] over integers weighing their value, with
    the FIFO policy; its sentinel is at address [1] and the container has
    allocated the nodes [2], [3], [4] holding [20], [30], [40].  [cache3]
    is the manager after inserting the three nodes in that order. *)

Definition weigh_value (v : Z) : Z := v.

Definition mem0 : heap Z :=
  list_to_map [(1%N, (0, mk_cache_node 1 1 0)); (2%N, (20, default_cache_node));
               (3%N, (30, default_cache_node)); (4%N, (40, default_cache_node))].

Definition cache0 : cache_manager := mk_cache_manager 100 1 0 weigh_value fifo.

Definition cache3 : cache_manager * heap Z :=
  let '(m, h, _) := insert cache0 mem0 2 in
  let '(m, h, _) := insert m h 3 in
  let '(m, h, _) := insert m h 4 in (m, h).

Lemma cache3_inv : manager_inv cache3.1 cache3.2 [2; 3; 4]%N.
Proof. decide_concrete. Qed.

(** The theorems of the manager applied to the concrete cache. *)

Lemma insert_spec_witness :
  exists A B, [] = A ++ B /\
    policy_extractor.insert_position (_policy cache0) mem0 (begin cache0 mem0) (end_ cache0) = hd_or (_first cache0) B /\
    (insert cache0 mem0 2).2 = 2%N /\
    manager_inv (insert cache0 mem0 2).1.1 (insert cache0 mem0 2).1.2 (A ++ 2%N :: B).
Proof.
  apply insert_spec; [apply _|decide_concrete|vm_compute; reflexivity|decide_concrete|vm_compute; congruence].
Defined.

Lemma erase_node_spec_witness :
  manager_inv (erase_node cache3.1 cache3.2 3).1 (erase_node cache3.1 cache3.2 3).2 ([2] ++ [4])%N /\
  __prev (erase_node cache3.1 cache3.2 3).2 3 = __prev cache3.2 3 /\
  __next (erase_node cache3.1 cache3.2 3).2 3 = __next cache3.2 3.
Proof. apply (erase_node_spec _ _ [2%N] 3%N [4%N]). decide_concrete. Defined.

Lemma erase_reinsert_witness :
  reinsert (erase_node cache3.1 cache3.2 3).1 (erase_node cache3.1 cache3.2 3).2 3 = cache3.
Proof.
  rewrite (surjective_pairing cache3) at 3.
  apply (erase_reinsert _ _ [2%N] 3%N [4%N]). decide_concrete.
Defined.

Lemma clear_spec_witness : manager_inv (clear cache3.1 cache3.2).1 (clear cache3.1 cache3.2).2 [].
Proof. apply (clear_spec _ _ [2; 3; 4]%N). decide_concrete. Defined.

Lemma next_spec_witness : exists r, next cache3.1 cache3.2 = Some r /\ r ∈ [2; 3; 4]%N ++ [_first cache3.1].
Proof. apply (next_spec _ _ [2; 3; 4]%N); [apply _|decide_concrete]. Defined.

Lemma next_hint_spec_witness :
  exists r, next_hint cache3.1 cache3.2 3 = Some r /\ r ∈ [2; 3; 4]%N ++ [_first cache3.1].
Proof. apply (next_hint_spec _ _ [2; 3; 4]%N); [apply _|decide_concrete|set_solver]. Defined.

Lemma next_except_spec_witness :
  (next_except cache3.1 cache3.2 2).1 = cache3.2 /\
  exists r, (next_except cache3.1 cache3.2 2).2 = Some r /\ r ∈ [] ++ [3; 4]%N ++ [_first cache3.1].
Proof. apply (next_except_spec _ _ [] 2%N [3; 4]%N); [apply _|decide_concrete]. Defined.

Lemma next_except_hint_spec_witness :
  (next_except_hint cache3.1 cache3.2 2 2).1 = cache3.2 /\
  exists r, (next_except_hint cache3.1 cache3.2 2 2).2 = Some r /\ r ∈ [] ++ [3; 4]%N ++ [_first cache3.1].
Proof. apply (next_except_hint_spec _ _ [] 2%N [3; 4]%N); [apply _|decide_concrete|set_solver]. Defined.

Lemma erase_range_spec_witness :
  exists m' h', erase_range cache3.1 cache3.2 (hd_or (hd_or (_first cache3.1) [4%N]) [2; 3]%N)
                  (hd_or (_first cache3.1) [4%N]) = Some (m', h', hd_or (_first cache3.1) [4%N]) /\
    manager_inv m' h' ([] ++ [4%N]).
Proof. apply (erase_range_spec _ _ [] [2; 3]%N [4]%N). decide_concrete. Defined.

Lemma update_weight_spec_witness :
  manager_inv (update_weight cache3.1 (set_val cache3.2 3 35) 3
                 (calculate_weight cache3.1 (__val cache3.2 3)) (calculate_weight cache3.1 35)).1
              (update_weight cache3.1 (set_val cache3.2 3 35) 3
                 (calculate_weight cache3.1 (__val cache3.2 3)) (calculate_weight cache3.1 35)).2
              ([2] ++ 3 :: [4])%N.
Proof. apply (update_weight_spec _ _ [2%N] 3%N [4%N] 35); [decide_concrete|vm_compute; congruence]. Defined.

Lemma can_fit_spec_witness : can_fit cache3.1 10 = bool_decide (90 + 10 <= 100).
Proof. apply (can_fit_spec cache3.1 10); vm_compute; congruence. Defined.

Lemma move_construct_spec_witness :
  manager_inv (move_construct cache3.1 cache3.2 7).1.1 (move_construct cache3.1 cache3.2 7).2 [2; 3; 4]%N.
Proof. apply move_construct_spec; [decide_concrete|vm_compute; set_solver]. Defined.

Lemma move_construct_other_broken_witness :
  ~ exists ys, manager_inv (move_construct cache3.1 cache3.2 7).1.2 (move_construct cache3.1 cache3.2 7).2 ys.
Proof. apply (move_construct_other_broken _ _ 2%N [3; 4]%N); [decide_concrete|vm_compute; set_solver]. Defined.

(** A value weighing [SIZE_MAX] added to a cache holding [90] of [100]:
    the sum wraps to [89]. *)
Definition mem5 : heap Z := <[5%N := (size_max, default_cache_node)]> cache3.2.

Lemma can_fit_overflow_witness :
  can_fit_val cache3.1 (__val mem5 5) = true /\
  ~ exists ys, manager_inv (insert cache3.1 mem5 5).1.1 (insert cache3.1 mem5 5).1.2 ys.
Proof.
  apply (can_fit_overflow _ _ [2; 3; 4]%N);
    [apply _|decide_concrete|vm_compute; reflexivity|decide_concrete|split; vm_compute; congruence].
Defined.

(** The list of [cache3] under another policy. *)
Definition cache_with (p : @policy Z) : cache_manager * heap Z :=
  (mk_cache_manager 100 1 90 weigh_value p, cache3.2).

Lemma insert_fifo_witness :
  manager_inv (insert cache0 mem0 2).1.1 (insert cache0 mem0 2).1.2 ([] ++ [2%N]).
Proof.
  apply insert_fifo; [reflexivity|decide_concrete|vm_compute; reflexivity|decide_concrete|vm_compute; congruence].
Defined.

Lemma insert_lifo_witness :
  manager_inv (insert (mk_cache_manager 100 1 0 weigh_value lifo) mem0 2).1.1
              (insert (mk_cache_manager 100 1 0 weigh_value lifo) mem0 2).1.2 [2%N].
Proof.
  apply insert_lifo; [reflexivity|decide_concrete|vm_compute; reflexivity|decide_concrete|vm_compute; congruence].
Defined.

Lemma access_spec_witness :
  let '(m, h) := cache_with lru in
  ((_policy m = fifo \/ _policy m = lifo) -> access m h 3 = h) /\
  (_policy m = lru -> manager_inv m (access m h 3) ([2] ++ [4] ++ [3])%N) /\
  (_policy m = mru -> manager_inv m (access m h 3) (3 :: [2] ++ [4])%N) /\
  (_policy m = swapping -> manager_inv m (access m h 3) ([2] ++ [4; 3])%N).
Proof. apply (access_spec _ _ [2%N] 3%N [4%N]). decide_concrete. Defined.

Lemma access_lru_witness :
  manager_inv (cache_with lru).1 (access (cache_with lru).1 (cache_with lru).2 3) ([2] ++ [4] ++ [3])%N.
Proof. apply (access_lru _ _ [2%N] 3%N [4%N]); [reflexivity|decide_concrete]. Defined.

Lemma access_mru_witness :
  manager_inv (cache_with mru).1 (access (cache_with mru).1 (cache_with mru).2 3) (3 :: [2] ++ [4])%N.
Proof. apply (access_mru _ _ [2%N] 3%N [4%N]); [reflexivity|decide_concrete]. Defined.

Lemma access_swapping_witness :
  manager_inv (cache_with swapping).1 (access (cache_with swapping).1 (cache_with swapping).2 2)
    ([] ++ [3; 2; 4])%N.
Proof. apply (access_swapping _ _ [] 2%N [3; 4]%N); [reflexivity|decide_concrete]. Defined.

End cache_manager.
