(* ===== verification/FreeSpace.v ===== *)
(** * FreeSpace: the eviction loops of [src/limited/unordered_map.h]

    [unordered_map::freeSpace(weight)] and [freeSpace(weight, except)]
    evict victims chosen by the manager's policy until [weight] has been
    freed.  Each victim is unlinked with [cache_manager::erase] and pushed
    on a deque; when the policy reports no victim ([next()] returns [end()])
    before enough weight is freed, the victims are relinked with
    [reinsert] in reverse order and the loop reports failure.  The index
    entries of the victims are erased only after success; that last step
    is in [LimitedMap].

    Here the loops act on the manager and the heap.  They run on fuel
    [S (size h)]: each iteration that does not return unlinks a node of the
    list, whose length is less than the size of the heap.  The theorems:
    with a lawful policy on a well-formed list the loops return; on
    failure they give back the manager and the heap exactly (the rollback
    undoes the erasures); on success the victims have left the list, the
    invariant holds for the rest, and at least [weight] was freed. *)

From S2P Require Import Prelude Heap IteratorOps Policy CacheManager.

Module free_space.
Import policy cache_manager.

Section Loops.
Context {T : Type} `{Inhabited T}.
Implicit Types (m : @cache_manager T) (h : heap T) (removed : list ptr) (next except : ptr).

(** [for (it = removed.rbegin(); it != removed.rend(); ++it)
    _manager.reinsert( *it)], given the deque already reversed. *)
Fixpoint reinsert_all m h (rs : list ptr) : cache_manager * heap T :=
  match rs with
  | [] => (m, h)
  | r :: rs => let '(m, h) := reinsert m h r in reinsert_all m h rs
  end.

(** The [while (freedWeight < weight)] loop of [freeSpace(weight)]:
    returns the manager, the heap, the victims in eviction order and
    whether the loop succeeded. *)
Fixpoint free_loop (fuel : nat) m h (weight freedWeight : Z) removed next
    : option (cache_manager * heap T * list ptr * bool) :=
  match fuel with
  | O => None
  | S fuel =>
      if decide (freedWeight < weight) then
        next ← (if decide (next = end_ m) then cache_manager.next m h else Some next);
        if decide (next = end_ m) then
          let '(m, h) := reinsert_all m h (rev removed) in Some (m, h, removed, false)
        else
          let freedWeight := freedWeight +ₛ calculate_weight m (__val h next) in
          let removed := removed ++ [next] in
          let '(m, h, next) := erase m h next in
          next ← next_hint m h next;
          free_loop fuel m h weight freedWeight removed next
      else Some (m, h, removed, true)
  end.

(** [freeSpace(weight)] up to the erasure of the victims from the index. *)
Definition free_space m h (weight : Z) : option (cache_manager * heap T * list ptr * bool) :=
  if decide (_weight m < weight) then Some (m, h, [], false)
  else
    next ← cache_manager.next m h;
    free_loop (S (size h)) m h weight 0 [] next.

(** [next_except(except)], the heap it leaves and its result. *)
Definition next_except_opt m h except : option (heap T * ptr) :=
  let '(h, r) := next_except m h except in r ≫= fun r => Some (h, r).

Definition next_except_hint_opt m h hint except : option (heap T * ptr) :=
  let '(h, r) := next_except_hint m h hint except in r ≫= fun r => Some (h, r).

(** The loop of [freeSpace(weight, except)]: victims other than [except]. *)
Fixpoint free_loop_except (fuel : nat) m h (weight freedWeight : Z) removed next except
    : option (cache_manager * heap T * list ptr * bool) :=
  match fuel with
  | O => None
  | S fuel =>
      if decide (freedWeight < weight) then
        '(h, next) ← (if decide (next = end_ m) then next_except_opt m h except else Some (h, next));
        if decide (next = end_ m) then
          let '(m, h) := reinsert_all m h (rev removed) in Some (m, h, removed, false)
        else
          let freedWeight := freedWeight +ₛ calculate_weight m (__val h next) in
          let removed := removed ++ [next] in
          let '(m, h, next) := erase m h next in
          '(h, next) ← next_except_hint_opt m h next except;
          free_loop_except fuel m h weight freedWeight removed next except
      else Some (m, h, removed, true)
  end.

Definition free_space_except m h (weight : Z) except
    : option (cache_manager * heap T * list ptr * bool) :=
  if decide (_weight m < weight) then Some (m, h, [], false)
  else
    '(h, next) ← next_except_opt m h except;
    free_loop_except (S (size h)) m h weight 0 [] next except.

(** [reinsert] of victims other than [x] commutes with writing the
    value of [x]. *)
Lemma reinsert_all_set_val x (v : T) : forall rs m h,
  x ∉ rs -> reinsert_all m (set_val h x v) rs = ((reinsert_all m h rs).1, set_val (reinsert_all m h rs).2 x v).
Proof.
  induction rs as [|r rs IH]; intros m h Hx; [done|]. cbn [reinsert_all].
  rewrite reinsert_set_val by set_solver. destruct (reinsert m h r) as [m1 h1]. apply IH. set_solver.
Qed.

End Loops.

(** ** The loops' specification *)

Section LoopSpec.
Context {T : Type} `{Inhabited T}.
Implicit Types (m : @cache_manager T) (h : heap T) (ys removed : list ptr) (next except : ptr).

(** The manager and heap the loop starts from, and the list they hold. *)
Context (m0 : @cache_manager T) (h0 : heap T) (xs0 : list ptr).
Hypothesis Hpol : PolicyLaws (_policy m0).
Hypothesis Hinv0 : manager_inv m0 h0 xs0.

(** The state of the loop after the victims [removed]: the list holds
    the rest [ys]; only the weight of the manager and the links have
    changed; relinking the victims in reverse order gives back the start. *)
Definition loop_inv m h ys removed : Prop :=
  manager_inv m h ys /\ ys ++ removed ≡ₚ xs0 /\ reinsert_all m h (rev removed) = (m0, h0) /\
  h ≈ₚ h0 /\ m = set_weight m0 (_weight m).

Lemma loop_inv_start : loop_inv m0 h0 xs0 [].
Proof. split_and!; [done|by rewrite app_nil_r|done|done|by rewrite set_weight_same]. Qed.

Lemma loop_inv_first m h ys removed : loop_inv m h ys removed -> _first m = _first m0.
Proof. intros (_ & _ & _ & _ & ->). done. Qed.

Lemma loop_inv_policy m h ys removed : loop_inv m h ys removed -> _policy m = _policy m0.
Proof. intros (_ & _ & _ & _ & ->). done. Qed.

Lemma erase_eq m h x :
  erase m h x = ((erase_node m h x).1, (erase_node m h x).2, __next h x).
Proof. unfold erase. by destruct (erase_node m h x). Qed.

(** One eviction: [erase] of a node [x] of the list. *)
Lemma loop_inv_step m h A x B removed :
  loop_inv m h (A ++ x :: B) removed ->
  loop_inv (erase m h x).1.1 (erase m h x).1.2 (A ++ B) (removed ++ [x]) /\
  (erase m h x).2 = hd_or (_first m0) B.
Proof.
  intros (Hinv & Hp & Hre & Hh & Hm).
  destruct (erase_node_unlinks m h A x B Hinv) as [Hinv' _].
  rewrite erase_eq. cbn [fst snd].
  split; [split_and!|].
  - done.
  - rewrite <- Hp. solve_Permutation.
  - rewrite rev_app_distr. cbn [rev app reinsert_all]. by rewrite (erase_then_reinsert m h A x B Hinv).
  - unfold erase_node. simpl. rewrite same_payload_link. done.
  - unfold erase_node. simpl. rewrite Hm at 1. done.
  - pose proof Hinv as (Hd & _). rewrite (dlist_next _ _ _ _ _ Hd).
    assert (_first m = _first m0) as -> by (rewrite Hm; done). done.
Qed.

Lemma loop_inv_weigher m h ys removed v :
  loop_inv m h ys removed -> calculate_weight m v = calculate_weight m0 v.
Proof. intros (_ & _ & _ & _ & ->). done. Qed.

(** The weight freed so far is the sum of the victims' weights; it stays
    below [2^64] since the victims are nodes of the list. *)
Lemma loop_inv_freed m h ys removed x :
  loop_inv m h ys removed -> x ∈ ys ->
  total_weight m0 h0 removed +ₛ calculate_weight m (__val h x) = total_weight m0 h0 (removed ++ [x]).
Proof.
  intros Hl Hx. pose proof Hl as (_ & Hp & _ & Hh & _).
  rewrite (loop_inv_weigher m h ys removed) by done. rewrite Hh.
  apply list_elem_of_split in Hx as (A & B & ->).
  pose proof Hinv0 as (_ & Hw & [Hwc Hc] & _).
  rewrite <- (total_weight_perm m0 h0 _ _ Hp), !total_weight_app, total_weight_cons in Hw.
  rewrite total_weight_app, total_weight_cons. simpl.
  pose proof (total_weight_nonneg m0 h0 A). pose proof (total_weight_nonneg m0 h0 B).
  pose proof (total_weight_nonneg m0 h0 removed). pose proof (calculate_weight_range m0 (__val h0 x)).
  rewrite size_add_exact by lia. lia.
Qed.

(** The first step of an iteration: a victim candidate, asking the policy
    again when the hint is [end()]. *)
Lemma loop_next m h ys removed next :
  loop_inv m h ys removed -> next ∈ ys ++ [_first m0] ->
  exists r, (if decide (next = end_ m) then cache_manager.next m h else Some next) = Some r /\
    r ∈ ys ++ [_first m0].
Proof.
  intros Hl Hn. case_decide; [|by eexists].
  pose proof Hl as (Hinv & _). rewrite <- (loop_inv_first m h ys removed Hl).
  apply next_in; [|done]. by rewrite (loop_inv_policy m h ys removed Hl).
Qed.

(** The loop returns within its fuel; on failure it has restored the
    start exactly; on success the victims freed at least [weight]. *)
Lemma free_loop_spec (fuel : nat) : forall m h ys removed next (weight : Z),
  loop_inv m h ys removed -> next ∈ ys ++ [_first m0] -> (length ys < fuel)%nat ->
  exists m' h' removed' ok,
    free_loop fuel m h weight (total_weight m0 h0 removed) removed next = Some (m', h', removed', ok) /\
    (ok = false -> (m', h') = (m0, h0)) /\
    (ok = true -> exists ys', loop_inv m' h' ys' removed' /\ weight <= total_weight m0 h0 removed').
Proof.
  induction fuel as [|fuel IH]; intros m h ys removed next weight Hl Hn Hlen; [lia|].
  cbn [free_loop]. case_decide as Hlt; [|eexists _, _, _, true; split; [done|split; [done|eauto with lia]]].
  destruct (loop_next m h ys removed next Hl Hn) as (r & -> & Hr). cbn [mbind option_bind].
  unfold end_. rewrite (loop_inv_first m h ys removed Hl).
  case_decide as Hre.
  - pose proof Hl as (_ & _ & -> & _). eexists _, _, _, false. split; [done|]. by split.
  - assert (r ∈ ys) as Hry by set_solver.
    rewrite (loop_inv_freed m h ys removed r Hl Hry).
    apply list_elem_of_split in Hry as (A & B & ->).
    destruct (loop_inv_step m h A r B removed Hl) as [Hl' Hnx].
    rewrite erase_eq in Hl', Hnx |- *. cbn [fst snd] in Hl', Hnx |- *. rewrite Hnx.
    pose proof Hl' as (Hinv' & _).
    destruct (next_hint_in (erase_node m h r).1 (erase_node m h r).2 (A ++ B) (hd_or (_first m0) B))
      as (r' & -> & Hr');
      [by rewrite (loop_inv_policy _ _ _ _ Hl')|done| |].
    + rewrite (loop_inv_first _ _ _ _ Hl'). rewrite <- app_assoc. apply first_in.
    + simpl. apply IH with (A ++ B); [done| |rewrite length_app in *; simpl in *; lia].
      by rewrite <- (loop_inv_first _ _ _ _ Hl').
Qed.

(** What a successful loop leaves: the rest of the list, with the
    invariant, and a total weight lowered by at least [weight]. *)
Lemma loop_inv_weight m h ys removed :
  loop_inv m h ys removed -> _weight m + total_weight m0 h0 removed = _weight m0.
Proof.
  intros (Hinv & Hp & _ & Hh & Hm). pose proof Hinv as (_ & Hw & _).
  pose proof Hinv0 as (_ & Hw0 & _).
  rewrite Hw, Hw0, <- (total_weight_perm m0 h0 _ _ Hp), total_weight_app, Hh, Hm.
  rewrite total_weight_set. done.
Qed.

(** [freeSpace(weight)] on the manager: it returns; when it fails the
    manager and the heap are those it started from; when it succeeds the
    victims have left the list, the rest is well formed, only links and
    the total weight changed, and the weight dropped by at least
    [weight]. *)
Lemma free_space_correct (weight : Z) :
  exists m' h' removed ok, free_space m0 h0 weight = Some (m', h', removed, ok) /\
    (ok = false -> (m', h') = (m0, h0)) /\
    (ok = true -> exists ys, ys ++ removed ≡ₚ xs0 /\ manager_inv m' h' ys /\ h' ≈ₚ h0 /\
       m' = set_weight m0 (_weight m') /\ _weight m' + weight <= _weight m0).
Proof.
  unfold free_space. case_decide; [by eexists _, _, _, false|].
  pose proof Hinv0 as (Hd & _).
  destruct (next_in m0 h0 xs0 Hpol Hinv0) as (r & -> & Hr). cbn [mbind option_bind].
  destruct (free_loop_spec (S (size h0)) m0 h0 xs0 [] r weight loop_inv_start Hr)
    as (m' & h' & removed & ok & Hloop & Hfail & Hok); [pose proof (dlist_length _ _ _ Hd); lia|].
  exists m', h', removed, ok. split; [done|]. split; [done|].
  intros ->. destruct (Hok eq_refl) as (ys & Hl & Hfreed). exists ys.
  pose proof (loop_inv_weight _ _ _ _ Hl) as Hw. destruct Hl as (? & ? & _ & ? & ?).
  split_and!; try done. lia.
Qed.

(** A position returned while [except] is unlinked is not [except]. *)
Lemma not_except h s A x B r :
  dlist h s (A ++ x :: B) -> r ∈ A ++ B ++ [s] -> r <> x.
Proof.
  intros (Hnd & _) Hr ->. apply NoDup_cons in Hnd as [Hs Hnd].
  apply NoDup_app in Hnd as (_ & Hdis & Hnd). apply NoDup_cons in Hnd as [HxB _].
  rewrite app_assoc in Hr. apply elem_of_app in Hr as [Hr|Hr%list_elem_of_singleton].
  - apply elem_of_app in Hr as [Hr|Hr]; [by apply (Hdis x Hr); left|done].
  - subst. apply Hs. set_solver.
Qed.

Lemma next_except_opt_in m h ys removed except :
  loop_inv m h ys removed -> except ∈ ys ->
  exists r, next_except_opt m h except = Some (h, r) /\ r ∈ ys ++ [_first m0] /\ r <> except.
Proof.
  intros Hl Hx. pose proof Hl as (Hinv & _).
  apply list_elem_of_split in Hx as (A & B & ->).
  destruct (next_except_in m h A except B) as (Hh & r & Hr & Hin);
    [by rewrite (loop_inv_policy _ _ _ _ Hl)|done|].
  unfold next_except_opt. destruct (next_except m h except) as [h' r'] eqn:E.
  simpl in Hh, Hr. subst. exists r. rewrite (loop_inv_first _ _ _ _ Hl) in Hin.
  split; [done|]. pose proof Hinv as (Hd & _). split; [set_solver|].
  eapply not_except; [exact Hd|]. by rewrite (loop_inv_first _ _ _ _ Hl).
Qed.

Lemma next_except_hint_opt_in m h ys removed hint except :
  loop_inv m h ys removed -> except ∈ ys -> hint ∈ ys ++ [_first m0] ->
  exists r, next_except_hint_opt m h hint except = Some (h, r) /\ r ∈ ys ++ [_first m0] /\ r <> except.
Proof.
  intros Hl Hx Hh. pose proof Hl as (Hinv & _).
  apply list_elem_of_split in Hx as (A & B & ->).
  destruct (next_except_hint_in m h A except B hint) as (Hh' & r & Hr & Hin);
    [by rewrite (loop_inv_policy _ _ _ _ Hl)|done|by rewrite (loop_inv_first _ _ _ _ Hl), <- app_assoc in *|].
  unfold next_except_hint_opt. destruct (next_except_hint m h hint except) as [h' r'] eqn:E.
  simpl in Hh', Hr. subst. exists r. rewrite (loop_inv_first _ _ _ _ Hl) in Hin.
  split; [done|]. pose proof Hinv as (Hd & _). split; [set_solver|].
  eapply not_except; [exact Hd|]. by rewrite (loop_inv_first _ _ _ _ Hl).
Qed.

Lemma free_loop_except_spec (fuel : nat) except : forall m h ys removed next (weight : Z),
  loop_inv m h ys removed -> except ∈ ys -> next ∈ ys ++ [_first m0] -> next <> except ->
  (length ys < fuel)%nat ->
  exists m' h' removed' ok,
    free_loop_except fuel m h weight (total_weight m0 h0 removed) removed next except =
      Some (m', h', removed', ok) /\
    (ok = false -> (m', h') = (m0, h0)) /\
    (ok = true -> exists ys', loop_inv m' h' ys' removed' /\ except ∈ ys' /\
       weight <= total_weight m0 h0 removed').
Proof.
  induction fuel as [|fuel IH]; intros m h ys removed next weight Hl Hx Hn Hne Hlen; [lia|].
  cbn [free_loop_except].
  case_decide as Hlt; [|eexists _, _, _, true; split; [done|split; [done|eauto with lia]]].
  assert (exists r, (if decide (next = end_ m) then next_except_opt m h except else Some (h, next))
            = Some (h, r) /\ r ∈ ys ++ [_first m0] /\ r <> except) as (r & -> & Hr & Hrx).
  { case_decide; [by apply (next_except_opt_in m h ys removed)|by eexists]. }
  cbn [mbind option_bind]. unfold end_. rewrite (loop_inv_first m h ys removed Hl).
  case_decide as Hre.
  - pose proof Hl as (_ & _ & -> & _). eexists _, _, _, false. split; [done|]. by split.
  - assert (r ∈ ys) as Hry by set_solver.
    rewrite (loop_inv_freed m h ys removed r Hl Hry).
    apply list_elem_of_split in Hry as (A & B & ->).
    destruct (loop_inv_step m h A r B removed Hl) as [Hl' Hnx].
    rewrite erase_eq in Hl', Hnx |- *. cbn [fst snd] in Hl', Hnx |- *. rewrite Hnx.
    assert (except ∈ A ++ B) as Hx' by set_solver.
    destruct (next_except_hint_opt_in _ _ (A ++ B) (removed ++ [r]) (hd_or (_first m0) B) except Hl' Hx')
      as (r' & -> & Hr' & Hr'x); [rewrite <- app_assoc; apply first_in|].
    cbn [mbind option_bind].
    destruct (IH _ _ (A ++ B) (removed ++ [r]) r' weight Hl' Hx') as (m' & h' & rm & ok & Hrun & Hf & Ht);
      [done|done|rewrite length_app in *; simpl in *; lia|].
    eauto 10.
Qed.

(** [freeSpace(weight, except)] on the manager: as [free_space_spec],
    and [except] is never evicted. *)
Lemma free_space_except_correct (weight : Z) except :
  except ∈ xs0 ->
  exists m' h' removed ok, free_space_except m0 h0 weight except = Some (m', h', removed, ok) /\
    (ok = false -> (m', h') = (m0, h0)) /\
    (ok = true -> exists ys, ys ++ removed ≡ₚ xs0 /\ except ∈ ys /\ manager_inv m' h' ys /\
       h' ≈ₚ h0 /\ m' = set_weight m0 (_weight m') /\ _weight m' + weight <= _weight m0).
Proof.
  intros Hx. unfold free_space_except. case_decide; [by eexists _, _, _, false|].
  pose proof Hinv0 as (Hd & _).
  destruct (next_except_opt_in m0 h0 xs0 [] except loop_inv_start Hx) as (r & -> & Hr & Hrx).
  cbn [mbind option_bind].
  destruct (free_loop_except_spec (S (size h0)) except m0 h0 xs0 [] r weight loop_inv_start Hx Hr Hrx)
    as (m' & h' & removed & ok & Hloop & Hfail & Hok); [pose proof (dlist_length _ _ _ Hd); lia|].
  exists m', h', removed, ok. split; [done|]. split; [done|].
  intros ->. destruct (Hok eq_refl) as (ys & Hl & Hxs & Hfreed). exists ys.
  pose proof (loop_inv_weight _ _ _ _ Hl) as Hw. destruct Hl as (? & ? & _ & ? & ?).
  split_and!; try done. lia.
Qed.


(** ** Writing the value of [except] during the loop

    [assign] writes the new value into its node before it calls
    [freeSpace(weight, except)] on that node.  The loop reads neither the
    value of [except] (the policy sees the list with [except] unlinked)
    nor writes it, so the write commutes with the whole loop. *)

Lemma except_not_removed m h ys removed except :
  loop_inv m h ys removed -> except ∈ ys -> except ∉ removed.
Proof.
  intros (_ & Hp & _) Hx Hr. pose proof Hinv0 as ((Hnd & _) & _).
  apply NoDup_cons in Hnd as [_ Hnd]. rewrite <- Hp in Hnd.
  apply NoDup_app in Hnd as (_ & Hdis & _). by apply (Hdis except).
Qed.

Lemma next_except_opt_set_val m h ys removed except (v : T) :
  loop_inv m h ys removed -> except ∈ ys ->
  next_except_opt m (set_val h except v) except =
    (fun '(h', r) => (set_val h' except v, r)) <$> next_except_opt m h except.
Proof.
  intros Hl Hx. pose proof Hl as ((Hd & _) & _). apply list_elem_of_split in Hx as (A & B & ->).
  unfold next_except_opt.
  rewrite (next_except_set_val m h A except B v); [|by rewrite (loop_inv_policy _ _ _ _ Hl)|done].
  destruct (next_except m h except) as [h' [r|]]; done.
Qed.

Lemma next_except_hint_opt_set_val m h ys removed hint except (v : T) :
  loop_inv m h ys removed -> except ∈ ys -> hint ∈ ys ++ [_first m0] ->
  next_except_hint_opt m (set_val h except v) hint except =
    (fun '(h', r) => (set_val h' except v, r)) <$> next_except_hint_opt m h hint except.
Proof.
  intros Hl Hx Hh. pose proof Hl as ((Hd & _) & _). apply list_elem_of_split in Hx as (A & B & ->).
  unfold next_except_hint_opt. rewrite (loop_inv_first _ _ _ _ Hl) in Hd.
  rewrite (next_except_hint_set_val m h A except B hint v);
    [|by rewrite (loop_inv_policy _ _ _ _ Hl)|by rewrite (loop_inv_first _ _ _ _ Hl)|
      by rewrite (loop_inv_first _ _ _ _ Hl), <- app_assoc in *].
  destruct (next_except_hint m h hint except) as [h' [r|]]; done.
Qed.

Lemma free_loop_except_set_val (fuel : nat) except (v : T) : forall m h ys removed next (weight : Z),
  loop_inv m h ys removed -> except ∈ ys -> next ∈ ys ++ [_first m0] -> next <> except ->
  free_loop_except fuel m (set_val h except v) weight (total_weight m0 h0 removed) removed next except =
    (fun '(m', h', rm, ok) => (m', set_val h' except v, rm, ok)) <$>
      free_loop_except fuel m h weight (total_weight m0 h0 removed) removed next except.
Proof.
  induction fuel as [|fuel IH]; intros m h ys removed next weight Hl Hx Hn Hne; [done|].
  cbn [free_loop_except]. case_decide as Hlt; [|done].
  assert (exists r, (if decide (next = end_ m) then next_except_opt m h except else Some (h, next))
            = Some (h, r) /\ r ∈ ys ++ [_first m0] /\ r <> except) as (r & Hr0 & Hr & Hrx).
  { case_decide; [by apply (next_except_opt_in m h ys removed)|by eexists]. }
  assert ((if decide (next = end_ m) then next_except_opt m (set_val h except v) except
           else Some (set_val h except v, next)) = Some (set_val h except v, r)) as ->.
  { case_decide; [|by simplify_eq/=]. rewrite (next_except_opt_set_val m h ys removed) by done.
    by rewrite Hr0. }
  rewrite Hr0. cbn [mbind option_bind]. unfold end_. rewrite (loop_inv_first m h ys removed Hl).
  pose proof (except_not_removed _ _ _ _ _ Hl Hx) as Hxr.
  destruct (decide (r = _first m0)) as [Hre|Hre].
  - assert (except ∉ rev removed) as Hxr'.
    { intros Hin. apply Hxr. apply list_elem_of_In, in_rev, list_elem_of_In. done. }
    rewrite (reinsert_all_set_val except v (rev removed) m h Hxr').
    destruct (reinsert_all m h (rev removed)). done.
  - assert (r ∈ ys) as Hry by set_solver.
    rewrite val_set_val_ne by done. rewrite (loop_inv_freed m h ys removed r Hl Hry).
    rewrite erase_set_val by done. apply list_elem_of_split in Hry as (A & B & ->).
    destruct (loop_inv_step m h A r B removed Hl) as [Hl' Hnx].
    rewrite erase_eq in Hl', Hnx |- *. cbn [fst snd] in Hl', Hnx |- *. rewrite Hnx.
    assert (except ∈ A ++ B) as Hx' by set_solver.
    assert (hd_or (_first m0) B ∈ (A ++ B) ++ [_first m0]) as Hh by (rewrite <- app_assoc; apply first_in).
    rewrite (next_except_hint_opt_set_val _ _ (A ++ B) (removed ++ [r])) by done.
    destruct (next_except_hint_opt_in _ _ (A ++ B) (removed ++ [r]) (hd_or (_first m0) B) except Hl' Hx' Hh)
      as (r' & -> & Hr' & Hr'x).
    cbn [fmap option_fmap option_map mbind option_bind]. by apply (IH _ _ (A ++ B)).
Qed.

(** [freeSpace(weight, except)] with the value of [except] overwritten
    first does what it does on the original heap, with the value
    overwritten. *)
Lemma free_space_except_set_val (weight : Z) except (v : T) :
  except ∈ xs0 ->
  free_space_except m0 (set_val h0 except v) weight except =
    (fun '(m', h', rm, ok) => (m', set_val h' except v, rm, ok)) <$> free_space_except m0 h0 weight except.
Proof.
  intros Hx. unfold free_space_except. case_decide; [done|].
  rewrite (next_except_opt_set_val m0 h0 xs0 [] except v loop_inv_start Hx).
  destruct (next_except_opt_in m0 h0 xs0 [] except loop_inv_start Hx) as (r & -> & Hr & Hrx).
  cbn [fmap option_fmap option_map mbind option_bind]. rewrite size_set_val.
  apply (free_loop_except_set_val _ _ _ _ _ xs0 []); [apply loop_inv_start|done..].
Qed.
End LoopSpec.

Section Claims.
Context {T : Type} `{Inhabited T}.

(** C6: [freeSpace(weight)] on a well-formed manager under a lawful policy
    always returns (the loop has enough fuel), and it is atomic: when it
    fails the manager and the heap are those it started from; when it
    succeeds the victims have left the list, the rest is well formed,
    only links and the weight changed, and the weight dropped by at least
    [weight]. *)
Theorem free_space_spec (m0 : @cache_manager T) h0 xs0 (weight : Z) :
  PolicyLaws (_policy m0) -> manager_inv m0 h0 xs0 ->
  exists m' h' removed ok, free_space m0 h0 weight = Some (m', h', removed, ok) /\
    (ok = false -> (m', h') = (m0, h0)) /\
    (ok = true -> exists ys, ys ++ removed ≡ₚ xs0 /\ manager_inv m' h' ys /\ h' ≈ₚ h0 /\
       m' = set_weight m0 (_weight m') /\ _weight m' + weight <= _weight m0).
Proof. intros Hpol Hinv. by apply free_space_correct. Qed.

(** C14: [freeSpace(weight, except)] on a well-formed manager: as
    [free_space_spec], and the node [except] is never evicted. *)
Theorem free_space_except_spec (m0 : @cache_manager T) h0 xs0 (weight : Z) except :
  PolicyLaws (_policy m0) -> manager_inv m0 h0 xs0 -> except ∈ xs0 ->
  exists m' h' removed ok, free_space_except m0 h0 weight except = Some (m', h', removed, ok) /\
    (ok = false -> (m', h') = (m0, h0)) /\
    (ok = true -> exists ys, ys ++ removed ≡ₚ xs0 /\ except ∈ ys /\ manager_inv m' h' ys /\
       h' ≈ₚ h0 /\ m' = set_weight m0 (_weight m') /\ _weight m' + weight <= _weight m0).
Proof. intros Hpol Hinv. by apply free_space_except_correct. Qed.

End Claims.

(** Witnesses on the three-entry FIFO cache of [CacheManager]: making
    room for 50 evicts the nodes 2 and 3. *)
Lemma free_space_spec_witness :
  exists m' h' removed ok, free_space cache3.1 cache3.2 50 = Some (m', h', removed, ok) /\
    (ok = false -> (m', h') = (cache3.1, cache3.2)) /\
    (ok = true -> exists ys, ys ++ removed ≡ₚ [2; 3; 4]%N /\ manager_inv m' h' ys /\ h' ≈ₚ cache3.2 /\
       m' = set_weight cache3.1 (_weight m') /\ _weight m' + 50 <= _weight cache3.1).
Proof. apply free_space_spec; [apply _|exact cache3_inv]. Defined.

Lemma free_space_except_spec_witness :
  exists m' h' removed ok, free_space_except cache3.1 cache3.2 50 2 = Some (m', h', removed, ok) /\
    (ok = false -> (m', h') = (cache3.1, cache3.2)) /\
    (ok = true -> exists ys, ys ++ removed ≡ₚ [2; 3; 4]%N /\ 2%N ∈ ys /\ manager_inv m' h' ys /\
       h' ≈ₚ cache3.2 /\ m' = set_weight cache3.1 (_weight m') /\ _weight m' + 50 <= _weight cache3.1).
Proof. apply free_space_except_spec; [apply _|exact cache3_inv|set_solver]. Defined.

End free_space.
