(* ===== verification/LimitedMap.v ===== *)
(** * LimitedMap: [class unordered_map] of [src/limited/unordered_map.h]

    The facade owns a [std::unordered_map] whose nodes are the
    [stored_node]s of the manager's list, and the [cache_manager].  The
    model keeps the index as a finite map from keys to node addresses
    ([_map]); the nodes are in the shared heap, where [_map.insert]
    allocates a fresh address and [_map.erase] frees it, while
    [_map.extract] only removes the key (the node handle keeps the node).

    Operations run in a state and exception monad [M]: a computation takes
    the facade and the heap and returns them with a result or an
    exception.  An exception leaves the state the code had reached when it
    threw; atomicity is a theorem, not a property of [M].  The exceptions
    are [no_space_error], [std::out_of_range], and [loop_exhausted], which
    the source does not have: it stands for a loop of the model that ran
    out of fuel, and the theorems show that it does not happen.

    Exceptions of user code (hash, weigher, constructors) and allocation
    failure are not modelled; the [catch (...)] blocks that handle them
    are therefore not reached in the model. *)

From S2P Require Import Prelude Heap IteratorOps Policy CacheManager FreeSpace.

Module limited.
Import policy cache_manager free_space.

(** The exceptions thrown by the facade. *)
Inductive exn := no_space_error | out_of_range | loop_exhausted.

#[global] Instance exn_eq_dec : EqDecision exn.
Proof. solve_decision. Defined.

Section Facade.
Context {K V : Type} `{Countable K} `{Inhabited K} `{Inhabited V}.

(** [value_type] is [std::pair<Key, T>]. *)
Abbreviation value_type := (K * V)%type.

(** [_map] and [_manager]. *)
Record unordered_map := mk_unordered_map {
  _map : gmap K ptr;
  _manager : @cache_manager value_type
}.

Definition fstate : Type := unordered_map * heap value_type.

(** The state and exception monad. *)
Definition M (A : Type) : Type := fstate -> fstate * (exn + A).

#[global] Instance M_ret : MRet M := fun A a st => (st, inr a).
#[global] Instance M_bind : MBind M := fun A B f c st =>
  match c st with
  | (st', inl e) => (st', inl e)
  | (st', inr a) => f a st'
  end.

Definition throw {A} (e : exn) : M A := fun st => (st, inl e).
Definition get : M fstate := fun st => (st, inr st).
Definition put (st : fstate) : M unit := fun _ => (st, inr ()).

(** A loop of the model that returns [None] has run out of fuel. *)
Definition lift {A} (o : option A) : M A :=
  match o with Some a => mret a | None => throw loop_exhausted end.

(** [for (auto i : l) f(i)]. *)
Fixpoint for_each {A} (f : A -> M unit) (l : list A) : M unit :=
  match l with [] => mret () | x :: l => f x ;; for_each f l end.

Implicit Types (um : unordered_map) (h : heap value_type) (p : ptr) (k : K) (v : V).

Definition set_manager um (m : @cache_manager value_type) : unordered_map :=
  mk_unordered_map (_map um) m.
Definition set_index um (i : gmap K ptr) : unordered_map :=
  mk_unordered_map i (_manager um).

(** A member function of the manager applied to the facade's manager. *)
Definition with_manager (f : @cache_manager value_type -> heap value_type ->
                             @cache_manager value_type * heap value_type) : M unit :=
  '(um, h) ← get; let '(m, h) := f (_manager um) h in put (set_manager um m, h).

(** ** The index: [std::unordered_map] of nodes, hashed on the key *)

(** [_map.find({key, {}})]. *)
Definition map_find k : M (option ptr) := '(um, h) ← get; mret (_map um !! k).

(** [_map.insert({value, {}})]: a new node, unlinked, at a fresh address,
    unless the key is present. *)
Definition map_insert (value : value_type) : M (ptr * bool) :=
  '(um, h) ← get;
  match _map um !! value.1 with
  | Some p => mret (p, false)
  | None =>
      let p := fresh (dom h) in
      put (set_index um (<[value.1 := p]> (_map um)), <[p := (value, default_cache_node)]> h);;
      mret (p, true)
  end.

(** [_map.erase(it)]: the node at [p] is destroyed. *)
Definition map_erase_it p : M unit :=
  '(um, h) ← get; put (set_index um (delete (__val h p).1 (_map um)), delete p h).

(** [_map.erase(value)]: erase by key, the number of nodes erased. *)
Definition map_erase_key k : M nat :=
  '(um, h) ← get;
  match _map um !! k with
  | Some p => put (set_index um (delete k (_map um)), delete p h);; mret 1%nat
  | None => mret 0%nat
  end.

(** [_map.extract(it)]: the node leaves the index and stays allocated. *)
Definition map_extract_it p : M ptr :=
  '(um, h) ← get; put (set_index um (delete (__val h p).1 (_map um)), h);; mret p.

(** [_map.insert(std::move(node))]: put an extracted node back. *)
Definition map_insert_node p : M (ptr * bool) :=
  '(um, h) ← get;
  let k := (__val h p).1 in
  match _map um !! k with
  | Some q => mret (q, false)
  | None => put (set_index um (<[k := p]> (_map um)), h);; mret (p, true)
  end.

(** [_map.extract(key)]: the node of [key], if any, leaves the index and
    stays allocated. *)
Definition map_extract_key k : M (option ptr) :=
  '(um, h) ← get;
  match _map um !! k with
  | Some p => put (set_index um (delete k (_map um)), h);; mret (Some p)
  | None => mret None
  end.

(** [_map.clear()]: every node of the index is destroyed. *)
Definition map_clear : M unit :=
  '(um, h) ← get;
  put (set_index um ∅, foldr delete h (map_to_list (_map um)).*2).

(** ** Making room: the private helpers *)

(** [freeSpace(weight)]: the eviction loop on the manager, then, on
    success, [_map.erase( *it)] for every victim. *)
Definition freeSpace (weight : Z) : M bool :=
  '(um, h) ← get;
  '(m, h, removed, ok) ← lift (free_space (_manager um) h weight);
  put (set_manager um m, h);;
  if (ok : bool) then (for_each (fun it => _ ← map_erase_key (__val h it).1; mret ()) removed;; mret true)
  else mret false.

(** [freeSpace(weight, except)]. *)
Definition freeSpace_except (weight : Z) except : M bool :=
  '(um, h) ← get;
  '(m, h, removed, ok) ← lift (free_space_except (_manager um) h weight except);
  put (set_manager um m, h);;
  if (ok : bool) then (for_each (fun it => _ ← map_erase_key (__val h it).1; mret ()) removed;; mret true)
  else mret false.

(** [provideSpace(weight)]: nothing to do when [capacity - weight] leaves
    room, otherwise free the shortfall. *)
Definition provideSpace (weight : Z) : M bool :=
  '(um, h) ← get;
  let m := _manager um in
  if decide (weight > _capacity m) then mret false
  else if decide (_capacity m -ₛ _weight m >= weight) then mret true
  else freeSpace (weight -ₛ (_capacity m -ₛ _weight m)).

Definition provideSpace_except (weight : Z) except : M bool :=
  '(um, h) ← get;
  let m := _manager um in
  if decide (weight > _capacity m) then mret false
  else if decide (_capacity m -ₛ _weight m >= weight) then mret true
  else freeSpace_except (weight -ₛ (_capacity m -ₛ _weight m)) except.

(** [safeManagerInsert(it)]: [_manager.insert(&*it)]; the manager does not
    throw in the model. *)
Definition safeManagerInsert p : M unit :=
  with_manager (fun m h => (insert m h p).1).

(** [indexInserted(it)]: a node just added to the index gets room in the
    list, or leaves the index again and [no_space_error] is thrown. *)
Definition indexInserted p : M unit :=
  '(um, h) ← get;
  ok ← provideSpace (calculate_weight (_manager um) (__val h p));
  if negb ok then (map_erase_it p;; throw no_space_error)
  else safeManagerInsert p.

(** ** Modifiers *)

(** [emplace(args...)], for the pair the arguments construct. *)
Definition emplace (value : value_type) : M (ptr * bool) :=
  '(p, inserted) ← map_insert value;
  (if (inserted : bool) then indexInserted p else mret ());;
  mret (p, inserted).

(** [insert(const value_type&)]. *)
Definition insert_value (value : value_type) : M (ptr * bool) :=
  '(p, inserted) ← map_insert value;
  (if (inserted : bool) then indexInserted p else mret ());;
  mret (p, inserted).

(** [try_emplace(k, args...)]: [emplace(piecewise_construct, {k}, {args...})]. *)
Definition try_emplace k v : M (ptr * bool) := emplace (k, v).

(** [extract(key)]: unlink the node and take it out of the index. *)
Definition extract_key k : M (option ptr) :=
  o ← map_find k;
  match o with
  | Some p => with_manager (fun m h => erase_node m h p);; p ← map_extract_it p; mret (Some p)
  | None => mret None
  end.

(** [extract(pos)]. *)
Definition extract_it p : M ptr :=
  with_manager (fun m h => erase_node m h p);; map_extract_it p.

(** [insert(node_type&&)]: back into the index, then into the list. *)
Definition insert_node p : M (ptr * bool) :=
  '(q, inserted) ← map_insert_node p;
  (if (inserted : bool) then indexInserted q else mret ());;
  mret (q, inserted).

(** [erase(key)]. *)
Definition erase_key k : M nat :=
  o ← map_find k;
  match o with
  | None => mret 0%nat
  | Some p => with_manager (fun m h => erase_node m h p);; map_erase_it p;; mret 1%nat
  end.

(** [erase(const_iterator)]; the index iterator it returns is not
    modelled. *)
Definition erase_it p : M unit :=
  with_manager (fun m h => erase_node m h p);; map_erase_it p.

(** [erase(const_replacement_iterator)]: returns the successor. *)
Definition erase_repl p : M ptr :=
  '(um, h) ← get;
  let key := __val h p in
  let '(m, h, next) := erase (_manager um) h p in
  put (set_manager um m, h);;
  _ ← map_erase_key key.1;
  mret next.

(** [erase(const_iterator first, const_iterator last)]: [its] are the
    nodes from [first] to [last] in the index's iteration order; each is
    unlinked from the list, then [_map.erase(first, last)] destroys them.
    The index iterator it returns is not modelled. *)
Definition erase_index_range (its : list ptr) : M unit :=
  for_each (fun it => with_manager (fun m h => erase_node m h it)) its;;
  for_each map_erase_it its.

(** The loop of [erase(const_replacement_iterator first, last)]:
    [nodes.push_back(_map.extract({it->first, {}}))] for every node of
    the range. *)
Fixpoint extract_all (its : list ptr) : M (list (option ptr)) :=
  match its with
  | [] => mret []
  | it :: its =>
      '(um, h) ← get;
      o ← map_extract_key (__val h it).1;
      os ← extract_all its;
      mret (o :: os)
  end.

(** The destruction of the deque [nodes]: every node handle frees its
    node. *)
Definition free_handles (nodes : list (option ptr)) : M unit :=
  for_each (fun o => match o with
                     | Some p => '(um, h) ← get; put (um, delete p h)
                     | None => mret ()
                     end) nodes.

(** [erase(const_replacement_iterator first, last)]: extract the nodes of
    the range from the index, [_manager.erase(first, last)], then free the
    extracted nodes.  Its [catch (...)] is only reached by an exception of
    user code. *)
Definition erase_repl_range first last : M ptr :=
  '(um, h) ← get;
  its ← lift (walk (S (size h)) h first last);
  nodes ← extract_all its;
  '(um, h) ← get;
  '(m, h, next) ← lift (erase_range (_manager um) h first last);
  put (set_manager um m, h);;
  free_handles nodes;;
  mret next.

(** [clear()]. *)
Definition clear : M unit := with_manager cache_manager.clear;; map_clear.

(** ** Lookup *)

(** [_manager.access(&*it)]. *)
Definition manager_access p : M unit := with_manager (fun m h => (m, access m h p)).

(** [access(key)]. *)
Definition access_key k : M unit :=
  o ← map_find k;
  match o with Some p => manager_access p | None => mret () end.

(** [find(key)]: the node, after the policy's [access]. *)
Definition find k : M (option ptr) :=
  o ← map_find k;
  (match o with Some p => manager_access p | None => mret () end);;
  mret o.

(** [quiet_find(key)]. *)
Definition quiet_find k : M (option ptr) := map_find k.

(** [replacement_find(key)]: the node, or [_manager.end()]. *)
Definition replacement_find k : M ptr :=
  o ← map_find k;
  match o with
  | Some p => manager_access p;; mret p
  | None => '(um, h) ← get; mret (end_ (_manager um))
  end.

(** [count(key)]. *)
Definition count k : M nat :=
  o ← map_find k;
  match o with Some p => manager_access p;; mret 1%nat | None => mret 0%nat end.

(** [quiet_count(key)]. *)
Definition quiet_count k : M nat :=
  o ← map_find k; mret (if o is Some _ then 1%nat else 0%nat).

(** [contains(key)]. *)
Definition contains k : M bool :=
  o ← map_find k;
  match o with Some p => manager_access p;; mret true | None => mret false end.

(** [quiet_contains(key)]. *)
Definition quiet_contains k : M bool :=
  o ← map_find k; mret (if o is Some _ then true else false).

(** The mapped value of the node at [p]. *)
Definition mapped_at p : M V := '(um, h) ← get; mret (__val h p).2.

(** [operator[](const value_type&)]: insert [value] when its key is
    missing, otherwise only [access]; the mapped value of the entry. *)
Definition subscript_value (value : value_type) : M V :=
  o ← map_find value.1;
  p ← (match o with
       | None => '(p, _) ← insert_value value; mret p
       | Some p => manager_access p;; mret p
       end);
  mapped_at p.

(** [operator[](const key_type&)]: [operator[]({key, {}})]. *)
Definition subscript k : M V := subscript_value (k, inhabitant).

(** [at(key)]. *)
Definition at_ k : M V :=
  o ← map_find k;
  match o with
  | None => throw out_of_range
  | Some p => manager_access p;; mapped_at p
  end.

(** [quiet_at(key)]. *)
Definition quiet_at k : M V :=
  o ← map_find k;
  match o with None => throw out_of_range | Some p => mapped_at p end.

(** ** Capacity *)

(** [size()], [empty()], [weight()], [capacity()]. *)
Definition size_ : M nat := '(um, h) ← get; mret (size (_map um)).
Definition empty : M bool := '(um, h) ← get; mret (bool_decide (_map um = ∅)).
Definition weight : M Z := '(um, h) ← get; mret (_weight (_manager um)).
Definition capacity : M Z := '(um, h) ← get; mret (_capacity (_manager um)).

(** [can_fit(weight)] and [can_fit(obj)]. *)
Definition can_fit_weight (w : Z) : M bool := '(um, h) ← get; mret (can_fit (_manager um) w).
Definition can_fit_obj (obj : value_type) : M bool :=
  '(um, h) ← get; mret (can_fit_val (_manager um) obj).

(** [provide_space(space)] and [free_space(space)]: throw when the
    private helper fails. *)
Definition provide_space (space : Z) : M unit :=
  ok ← provideSpace space; if (ok : bool) then mret () else throw no_space_error.

Definition provide_space_obj (obj : value_type) : M unit :=
  '(um, h) ← get; provide_space (calculate_weight (_manager um) obj).

Definition free_space (space : Z) : M unit :=
  ok ← freeSpace space; if (ok : bool) then mret () else throw no_space_error.

(** ** Assignment *)

(** [assign(position, obj)]: the node leaves the index while its value is
    swapped with the new one; when the weight grows, room is made without
    evicting the node itself, and on failure the old value is swapped
    back and the node returns to the index before [no_space_error]
    propagates.  The source declares [key_type newVal{obj}] where the new
    mapped value is meant; the model takes the mapped value [obj]. *)
Definition assign p (obj : V) : M ptr :=
  '(um, h) ← get;
  let newVal := obj in
  let repl_it := p in
  let oldWeight := calculate_weight_it (_manager um) h repl_it in
  node ← map_extract_it p;
  '(um, h) ← get;
  let oldVal := (__val h node).2 in
  put (um, set_val h node ((__val h node).1, newVal));;
  '(um, h) ← get;
  let newWeight := calculate_weight (_manager um) (__val h node) in
  (if decide (newWeight > oldWeight) then
     ok ← provideSpace_except (newWeight -ₛ oldWeight) repl_it;
     if (ok : bool) then mret ()
     else ('(um, h) ← get;
           put (um, set_val h node ((__val h node).1, oldVal));;
           _ ← map_insert_node node;
           throw no_space_error)
   else mret ());;
  '(ins, _) ← map_insert_node node;
  with_manager (fun m h => update_weight m h repl_it oldWeight newWeight);;
  manager_access repl_it;;
  mret ins.

(** [insert_or_assign(k, obj)]. *)
Definition insert_or_assign k (obj : V) : M (ptr * bool) :=
  o ← map_find k;
  match o with
  | None => emplace (k, obj)
  | Some p => q ← assign p obj; mret (q, false)
  end.

(** ** The range insert *)

(** Its first phase: every new key goes into the index, unlinked, and its
    weight is added, in [size_t], to [weight]; the loop stops early once
    [weight] exceeds the capacity. *)
Fixpoint insert_range_index (l : list value_type) (inserted : list ptr) (weight : Z)
    : M (list ptr * Z) :=
  match l with
  | [] => mret (inserted, weight)
  | value :: l =>
      '(p, ins) ← map_insert value;
      if (ins : bool) then
        '(um, h) ← get;
        let inserted := inserted ++ [p] in
        let weight := weight +ₛ calculate_weight (_manager um) (__val h p) in
        if decide (weight > _capacity (_manager um)) then mret (inserted, weight)
        else insert_range_index l inserted weight
      else insert_range_index l inserted weight
  end.

(** [_map.erase(i->first)] for every node added. *)
Definition erase_inserted (inserted : list ptr) : M unit :=
  for_each (fun i => '(um, h) ← get; _ ← map_erase_key (__val h i).1; mret ()) inserted.

(** [insert(first, last)]: index the new keys, make room for all of them
    at once, then link them; on failure the new keys leave the index. *)
Definition insert_range (l : list value_type) : M unit :=
  '(inserted, weight) ← insert_range_index l [] 0;
  ok ← provideSpace weight;
  if negb ok then (erase_inserted inserted;; throw no_space_error)
  else for_each (fun i => with_manager (fun m h => (insert m h i).1)) inserted.

(** [operator=(initializer_list)]: the weights of the list are summed in
    [size_t] and compared with the capacity before the container is
    cleared and refilled. *)
Definition assign_list (l : list value_type) : M unit :=
  '(um, h) ← get;
  let weight := foldl (fun w i => w +ₛ calculate_weight (_manager um) i) 0 l in
  if decide (weight > _capacity (_manager um)) then throw no_space_error
  else with_manager cache_manager.clear;; map_clear;; insert_range l.

(** [swap(other)]: the indexes and the managers are exchanged. *)
Definition swap_maps um (other : unordered_map) h : unordered_map * unordered_map * heap value_type :=
  let '(m, mo, h) := cache_manager.swap (_manager um) (_manager other) h in
  (mk_unordered_map (_map other) m, mk_unordered_map (_map um) mo, h).

(** ** Construction *)

(** [unordered_map(capacity, bucket_count, hash, equal, weigher, policy,
    alloc)]: an empty index and a new manager, whose sentinel is at [s]. *)
Definition construct_map (s : ptr) (capacity : Z) (weigher : value_type -> Z) (pol : @policy value_type)
    (h : heap value_type) : fstate :=
  let '(m, h) := cache_manager.construct s capacity weigher pol h in (mk_unordered_map ∅ m, h).

(** The range constructor [unordered_map(first, last, capacity, ...)]:
    construct, then [insert(first, last)]. *)
Definition construct_range (l : list value_type) s capacity weigher pol h : fstate * (exn + unit) :=
  insert_range l (construct_map s capacity weigher pol h).

(** [begin()] .. [end()]: the entries in the index's iteration order. *)
Definition index_values (st : fstate) : list value_type :=
  (fun kp => __val st.2 kp.2) <$> map_to_list (_map st.1).

(** The copy constructor: the range constructor over [other.begin()] ..
    [other.end()] with [other]'s capacity, weigher and policy; the copy's
    sentinel is at [s], its nodes are allocated in the same heap. *)
Definition copy_construct (other : fstate) (s : ptr) : fstate * (exn + unit) :=
  let m := _manager other.1 in
  construct_range (index_values other) s (_capacity m) (_weigher m) (_policy m) other.2.

End Facade.

(** ** The invariant of the facade *)

Section FacadeSpec.
Context {K V : Type} `{Countable K} `{Inhabited K} `{Inhabited V}.
Implicit Types (um : @unordered_map K V _ _) (h : heap (K * V)) (p q : ptr) (k : K) (v : V)
  (xs ys ns P : list ptr).

(** The index holds exactly the nodes [ns], each under its key. *)
Definition index_agrees (i : gmap K ptr) h ns : Prop :=
  forall k q, i !! k = Some q <-> q ∈ ns /\ (__val h q).1 = k.

(** The facade's state: the list at the sentinel holds [xs] and satisfies
    the manager's invariant; the index holds the nodes of the list and
    the nodes [P] that are not linked yet. *)
Definition facade_inv um h xs P : Prop :=
  manager_inv (_manager um) h xs /\ index_agrees (_map um) h (xs ++ P) /\
  NoDup (_first (_manager um) :: xs ++ P) /\ Forall (fun p => p ∈ dom h) P.

(** Between public operations nothing is pending (invariant I1 of the
    specification: the index and the list hold the same entries). *)
Definition umap_inv um h xs : Prop := facade_inv um h xs [].

(** The monad's steps. *)
Lemma bind_ok {A B} (c : @M K V _ _ A) (f : A -> @M K V _ _ B) st st' a :
  c st = (st', inr a) -> (c ≫= f) st = f a st'.
Proof. intros E. unfold mbind, M_bind. by rewrite E. Qed.

Lemma bind_err {A B} (c : @M K V _ _ A) (f : A -> @M K V _ _ B) st st' e :
  c st = (st', inl e) -> (c ≫= f) st = (st', inl e).
Proof. intros E. unfold mbind, M_bind. by rewrite E. Qed.

Lemma get_bind {A} (f : @fstate K V _ _ -> @M K V _ _ A) st : (get ≫= f) st = f st st.
Proof. done. Qed.

Lemma put_bind {A} (f : unit -> @M K V _ _ A) st st0 : (put st ≫= f) st0 = f () st.
Proof. done. Qed.

Lemma lift_some_bind {A B} (a : A) (f : A -> @M K V _ _ B) st : (lift (Some a) ≫= f) st = f a st.
Proof. done. Qed.

Lemma set_index_twice um i i' : set_index (set_index um i) i' = set_index um i'.
Proof. done. Qed.

Lemma set_index_same um : set_index um (_map um) = um.
Proof. by destruct um. Qed.

Lemma set_manager_same um : set_manager um (_manager um) = um.
Proof. by destruct um. Qed.

Lemma manager_set_index um i : _manager (set_index um i) = _manager um.
Proof. done. Qed.

Lemma map_set_manager um m : _map (set_manager um m) = _map um.
Proof. done. Qed.

Lemma val_delete_ne h p q : p <> q -> __val (delete p h) q = __val h q.
Proof. intros. unfold __val. by rewrite lookup_delete_ne. Qed.

(** Reading the index. *)
Lemma index_agrees_lookup i h ns q : index_agrees i h ns -> q ∈ ns -> i !! (__val h q).1 = Some q.
Proof. intros Hi Hq. by apply Hi. Qed.

Lemma index_agrees_key i h ns q q' :
  index_agrees i h ns -> q ∈ ns -> q' ∈ ns -> (__val h q).1 = (__val h q').1 -> q = q'.
Proof.
  intros Hi Hq Hq' E. pose proof (index_agrees_lookup _ _ _ _ Hi Hq) as E1.
  rewrite E in E1. rewrite (index_agrees_lookup _ _ _ _ Hi Hq') in E1. by injection E1.
Qed.

Lemma index_agrees_perm i h ns ns' : ns ≡ₚ ns' -> index_agrees i h ns -> index_agrees i h ns'.
Proof. intros Hp Hi k q. rewrite (Hi k q). by rewrite Hp. Qed.

#[global] Instance index_agrees_proper i h : Proper ((≡ₚ) ==> iff) (index_agrees i h).
Proof. intros ns ns' Hp. split; apply index_agrees_perm; [done|by symmetry]. Qed.

Lemma index_agrees_vals i h h' ns :
  (forall q, q ∈ ns -> __val h' q = __val h q) -> index_agrees i h ns -> index_agrees i h' ns.
Proof.
  intros Hv Hi k q. rewrite (Hi k q). split; intros [Hq Hk]; split; try done.
  - by rewrite Hv. - by rewrite <- Hv.
Qed.


(** Erasing by key the node [r] of the index. *)
(** Removing the key of the node [r] from the index. *)
Lemma index_agrees_remove i h A r B :
  NoDup (A ++ r :: B) -> index_agrees i h (A ++ r :: B) ->
  index_agrees (delete (__val h r).1 i) h (A ++ B).
Proof.
  intros Hnd Hi k q. rewrite lookup_delete_Some, (Hi k q). split.
  - intros (Hk & Hq & Hqk). assert (q <> r) as Hqr by (intros ->; done). split; [set_solver|done].
  - intros [Hq Hqk]. assert (r <> q) as Hqr by (intros ->; by apply (nodup_mid A B q)).
    split_and!; [|set_solver|done].
    intros E. subst k. apply Hqr. eapply (index_agrees_key _ _ _ _ _ Hi); [set_solver..|done].
Qed.

Lemma index_agrees_delete i h A r B :
  NoDup (A ++ r :: B) -> index_agrees i h (A ++ r :: B) ->
  index_agrees (delete (__val h r).1 i) (delete r h) (A ++ B).
Proof.
  intros Hnd Hi. apply (index_agrees_vals _ h); [|by apply index_agrees_remove].
  intros q Hq. apply val_delete_ne. intros ->. by apply (nodup_mid A B q).
Qed.

(** ** Runs of the index primitives *)

Lemma map_find_run um h k : map_find k (um, h) = ((um, h), inr (_map um !! k)).
Proof. done. Qed.

Lemma map_erase_key_run um h k p :
  _map um !! k = Some p ->
  map_erase_key k (um, h) = ((set_index um (delete k (_map um)), delete p h), inr 1%nat).
Proof. intros E. unfold map_erase_key, mbind, M_bind, get. cbn. by rewrite E. Qed.

(** The erasure of the victims from the index after a successful
    eviction: the index keeps the other nodes, the victims are freed. *)
Lemma erase_keys_run (hv : heap (K * V)) : forall rs um hs ns,
  NoDup (ns ++ rs) -> index_agrees (_map um) hs (ns ++ rs) ->
  (forall q, q ∈ rs -> __val hv q = __val hs q) ->
  exists i' hs',
    for_each (fun it => _ ← map_erase_key (__val hv it).1; mret ()) rs (um, hs) =
      ((set_index um i', hs'), inr ()) /\
    index_agrees i' hs' ns /\ (forall q, q ∉ rs -> hs' !! q = hs !! q).
Proof.
  induction rs as [|r rs IH]; intros um hs ns Hnd Hi Hv.
  - exists (_map um), hs. rewrite set_index_same, app_nil_r in *. split_and!; done.
  - cbn [for_each]. rewrite Hv by left.
    erewrite bind_ok; [|erewrite bind_ok; [done|apply map_erase_key_run, (index_agrees_lookup _ _ _ _ Hi); set_solver]].
    destruct (IH (set_index um (delete (__val hs r).1 (_map um))) (delete r hs) ns)
      as (i' & hs' & Hrun & Hi' & Hfr).
    + apply NoDup_app in Hnd as (Hn1 & Hn2 & Hn3). apply NoDup_cons in Hn3 as [_ Hn3].
      apply NoDup_app. split_and!; [done| |done]. set_solver.
    + by apply index_agrees_delete.
    + intros q Hq. rewrite val_delete_ne; [by apply Hv; right|].
      intros ->. apply NoDup_app in Hnd as (_ & _ & Hn3). apply NoDup_cons in Hn3 as [Hn3 _]. done.
    + exists i', hs'. cbn [mbind M_bind] in Hrun |- *. rewrite set_index_twice in Hrun.
      split; [done|]. split; [done|]. intros q Hq. rewrite Hfr by set_solver.
      apply lookup_delete_ne. set_solver.
Qed.

(** Run the first step of a computation when it returns. *)
Ltac mstep := erewrite bind_ok by reflexivity; simpl.

(** Splitting the victims [rm] off the list [xs]. *)
Lemma nodup_victims (s : ptr) xs P ys rm :
  NoDup (s :: xs ++ P) -> ys ++ rm ≡ₚ xs ->
  NoDup (s :: ys ++ P) /\ NoDup ((ys ++ P) ++ rm) /\ (forall q, q ∈ rm -> q ∉ s :: ys ++ P).
Proof.
  intros Hnd Hp.
  assert (s :: xs ++ P ≡ₚ (s :: ys ++ P) ++ rm) as E by (rewrite <- Hp; solve_Permutation).
  rewrite E in Hnd. apply NoDup_app in Hnd as (Hn1 & Hdis & Hn2).
  split_and!; [done| |intros q Hq Hin; by apply (Hdis q)].
  apply NoDup_cons in Hn1 as [_ Hn1]. apply NoDup_app. split_and!; [done| |done].
  intros q Hq Hin. apply (Hdis q); [by right|done].
Qed.

Lemma lift_some {A} (a : A) st : lift (K:=K) (V:=V) (Some a) st = (st, inr a).
Proof. done. Qed.

(** After a successful eviction loop: the victims leave the index and are
    freed; the rest of the state satisfies the invariant. *)
Lemma evict_finish um h xs P m' h' rm ys :
  facade_inv um h xs P -> ys ++ rm ≡ₚ xs -> manager_inv m' h' ys -> h' ≈ₚ h ->
  m' = set_weight (_manager um) (_weight m') ->
  exists i' hs',
    for_each (fun it => _ ← map_erase_key (__val h' it).1; mret ()) rm (set_manager um m', h') =
      ((set_index (set_manager um m') i', hs'), inr ()) /\
    facade_inv (set_index (set_manager um m') i') hs' ys P /\
    (forall q, q ∈ ys ++ P -> __val hs' q = __val h q).
Proof.
  intros (Hinv & Hi & Hnd & HP) Hp Hinv' Hh Hm.
  destruct (nodup_victims _ _ _ _ _ Hnd Hp) as (Hnd' & Hnd2 & Hout).
  assert (forall q, __val h' q = __val h q) as Hv by (intros q; by rewrite Hh).
  assert (dom h' = dom h) as Hdom by (by rewrite Hh).
  destruct (erase_keys_run h' rm (set_manager um m') h' (ys ++ P)) as (i' & hs' & Hrun' & Hi' & Hfr);
    [done| |done|].
  { apply (index_agrees_vals _ h); [intros; apply Hv|].
    apply (index_agrees_perm _ _ (xs ++ P)); [rewrite <- Hp; solve_Permutation|done]. }
  assert (_first m' = _first (_manager um)) as Hfirst by (by rewrite Hm).
  assert (forall q, q ∈ _first (_manager um) :: ys ++ P -> hs' !! q = h' !! q) as Hkeep
    by (intros q Hq; apply Hfr; intros Hin; by apply (Hout q Hin)).
  exists i', hs'. split; [done|]. split; [unfold facade_inv; split_and!|];
    cbn [_manager set_index set_manager _map].
  - apply (manager_inv_agree _ h'); [|done]. intros q Hq. apply Hkeep. rewrite <- Hfirst. set_solver.
  - done.
  - by rewrite Hfirst.
  - apply Forall_forall. intros q Hq. apply elem_of_dom. rewrite Hkeep by set_solver.
    apply elem_of_dom. rewrite Hdom. by eapply Forall_forall in HP.
  - intros q Hq. unfold __val. rewrite Hkeep by set_solver. apply Hv.
Qed.

(** What [freeSpace] guarantees: it never throws; it fails with the state
    unchanged, or evicts victims from the list and the index, keeping the
    invariant with the pending nodes [P], and frees at least [w]; the list
    left satisfies [Q]. *)
Definition evicted (Q : list ptr -> Prop) um h xs P (w : Z) (r : fstate * (exn + bool)) : Prop :=
  r = ((um, h), inr false) \/
  exists um' h' ys, r = ((um', h'), inr true) /\ facade_inv um' h' ys P /\
    (exists rm, ys ++ rm ≡ₚ xs) /\ Q ys /\
    _manager um' = set_weight (_manager um) (_weight (_manager um')) /\
    _weight (_manager um') + w <= _weight (_manager um) /\
    (forall q, q ∈ ys ++ P -> __val h' q = __val h q).

Lemma freeSpace_run um h xs P (w : Z) :
  PolicyLaws (_policy (_manager um)) -> facade_inv um h xs P ->
  evicted (fun _ => True) um h xs P w (freeSpace w (um, h)).
Proof.
  intros Hpol Hf0. pose proof Hf0 as (Hinv & _).
  destruct (free_space_correct (_manager um) h xs Hpol Hinv w) as (m' & h' & rm & ok & Hrun & Hf & Ht).
  unfold freeSpace. mstep. rewrite Hrun. mstep. mstep. destruct ok.
  - right. destruct (Ht eq_refl) as (ys & Hp & Hinv' & Hh & Hm & Hw).
    destruct (evict_finish um h xs P m' h' rm ys) as (i' & hs' & Hrun' & Hf' & Hv); [done..|].
    rewrite (bind_ok _ _ _ _ _ Hrun'). eexists _, _, ys. split; [done|].
    split_and!; [done|by exists rm|done|done|simpl; lia|done].
  - left. injection (Hf eq_refl) as -> ->. by rewrite set_manager_same.
Qed.

(** [freeSpace(weight, except)] likewise, and [except] stays. *)
Lemma freeSpace_except_run um h xs P (w : Z) except :
  PolicyLaws (_policy (_manager um)) -> facade_inv um h xs P -> except ∈ xs ->
  evicted (fun ys => except ∈ ys) um h xs P w (freeSpace_except w except (um, h)).
Proof.
  intros Hpol Hf0 Hx. pose proof Hf0 as (Hinv & _).
  destruct (free_space_except_correct (_manager um) h xs Hpol Hinv w except Hx)
    as (m' & h' & rm & ok & Hrun & Hf & Ht).
  unfold freeSpace_except. mstep. rewrite Hrun. mstep. mstep. destruct ok.
  - right. destruct (Ht eq_refl) as (ys & Hp & Hxs & Hinv' & Hh & Hm & Hw).
    destruct (evict_finish um h xs P m' h' rm ys) as (i' & hs' & Hrun' & Hf' & Hv); [done..|].
    rewrite (bind_ok _ _ _ _ _ Hrun'). eexists _, _, ys. split; [done|].
    split_and!; [done|by exists rm|done|done|simpl; lia|done].
  - left. injection (Hf eq_refl) as -> ->. by rewrite set_manager_same.
Qed.

(** What [provideSpace] guarantees: no exception; failure leaves the
    state unchanged; success leaves room for [w] in the capacity. *)
Definition provided (Q : list ptr -> Prop) um h xs P (w : Z) (r : fstate * (exn + bool)) : Prop :=
  r = ((um, h), inr false) \/
  exists um' h' ys, r = ((um', h'), inr true) /\ facade_inv um' h' ys P /\
    (exists rm, ys ++ rm ≡ₚ xs) /\ Q ys /\
    _manager um' = set_weight (_manager um) (_weight (_manager um')) /\
    _weight (_manager um') + w <= _capacity (_manager um) /\
    (forall q, q ∈ ys ++ P -> __val h' q = __val h q).

Lemma evicted_provided Q um h xs P (w : Z) r :
  _weight (_manager um) <= _capacity (_manager um) ->
  evicted Q um h xs P (w - (_capacity (_manager um) - _weight (_manager um))) r ->
  provided Q um h xs P w r.
Proof.
  intros Hwc [->|(um' & h' & ys & -> & Hf & Hrm & HQ & Hm & Hw & Hv)]; [by left|right].
  exists um', h', ys. split_and!; try done. lia.
Qed.

(** The arithmetic of [provideSpace]: with [W <= C < 2^64] and [w] a
    [size_t], [C - W] and [w - (C - W)] do not wrap. *)
Lemma provide_arith (W C w : Z) :
  0 <= W <= C -> C < size_modulus -> 0 <= w -> w <= C -> C -ₛ W < w ->
  C -ₛ W = C - W /\ w -ₛ (C -ₛ W) = w - (C - W).
Proof.
  intros. assert (C -ₛ W = C - W) as E by (apply size_sub_exact; lia).
  split; [done|]. rewrite E in *. apply size_sub_exact; lia.
Qed.

Lemma provideSpace_run um h xs P (w : Z) :
  PolicyLaws (_policy (_manager um)) -> facade_inv um h xs P -> 0 <= w ->
  provided (fun _ => True) um h xs P w (provideSpace w (um, h)).
Proof.
  intros Hpol Hf0 Hw0. pose proof Hf0 as ((_ & Hw & [Hwc Hc] & _) & _).
  pose proof (total_weight_nonneg (_manager um) h xs).
  unfold provideSpace. mstep. case_decide; [by left|]. case_decide as Hroom.
  - right. exists um, h, xs. rewrite size_sub_exact in Hroom by lia.
    split_and!; try done; [by exists []; rewrite app_nil_r|by rewrite set_weight_same|lia].
  - destruct (provide_arith (_weight (_manager um)) (_capacity (_manager um)) w) as [E1 E2]; [lia..|].
    rewrite E1 in *. rewrite E2. apply evicted_provided; [done|]. by apply freeSpace_run.
Qed.

Lemma provideSpace_except_run um h xs P (w : Z) except :
  PolicyLaws (_policy (_manager um)) -> facade_inv um h xs P -> except ∈ xs -> 0 <= w ->
  provided (fun ys => except ∈ ys) um h xs P w (provideSpace_except w except (um, h)).
Proof.
  intros Hpol Hf0 Hx Hw0. pose proof Hf0 as ((_ & Hw & [Hwc Hc] & _) & _).
  pose proof (total_weight_nonneg (_manager um) h xs).
  unfold provideSpace_except. mstep. case_decide; [by left|]. case_decide as Hroom.
  - right. exists um, h, xs. rewrite size_sub_exact in Hroom by lia.
    split_and!; try done; [by exists []; rewrite app_nil_r|by rewrite set_weight_same|lia].
  - destruct (provide_arith (_weight (_manager um)) (_capacity (_manager um)) w) as [E1 E2]; [lia..|].
    rewrite E1 in *. rewrite E2. apply evicted_provided; [done|]. by apply freeSpace_except_run.
Qed.

(** ** Adding an entry *)

Lemma map_insert_run_old um h (value : K * V) p :
  _map um !! value.1 = Some p -> map_insert value (um, h) = ((um, h), inr (p, false)).
Proof. intros E. unfold map_insert. mstep. by rewrite E. Qed.

Lemma map_insert_run_new um h (value : K * V) :
  _map um !! value.1 = None ->
  map_insert value (um, h) =
    ((set_index um (<[value.1 := fresh (dom h)]> (_map um)),
      <[fresh (dom h) := (value, default_cache_node)]> h), inr (fresh (dom h), true)).
Proof. intros E. unfold map_insert. mstep. by rewrite E. Qed.

(** The node [_map.insert] allocates is pending: in the index, not in the
    list. *)
(** [_map.insert] of an absent key allocates a fresh node, which joins
    the nodes indexed but not linked yet. *)
Lemma facade_inv_new_pending um h xs P (value : K * V) :
  facade_inv um h xs P -> _map um !! value.1 = None ->
  facade_inv (set_index um (<[value.1 := fresh (dom h)]> (_map um)))
    (<[fresh (dom h) := (value, default_cache_node)]> h) xs (P ++ [fresh (dom h)]).
Proof.
  intros (Hinv & Hi & Hnd & HP) Hk. set (p := fresh (dom h)).
  assert (p ∉ dom h) as Hp by apply is_fresh.
  assert (forall q, q ∈ _first (_manager um) :: xs ++ P -> q <> p) as Hne.
  { intros q Hq ->. apply Hp. apply elem_of_cons in Hq as [->|[Hq|Hq]%elem_of_app].
    - pose proof Hinv as (Hd & _). eapply dlist_dom; [exact Hd|by left].
    - pose proof Hinv as (Hd & _). eapply dlist_dom; [exact Hd|by right].
    - by eapply Forall_forall in HP. }
  assert (forall q, q <> p -> __val (<[p := (value, default_cache_node)]> h) q = __val h q) as Hv
    by (intros; by apply val_insert_ne).
  unfold facade_inv. cbn [_manager set_index _map]. rewrite app_assoc. split_and!.
  - apply (manager_inv_agree _ h); [|done]. intros q Hq. apply lookup_insert_ne.
    apply not_eq_sym, Hne. apply elem_of_cons in Hq as [->|Hq]; [by left|right; set_solver].
  - intros k q. rewrite lookup_insert_Some. split.
    + intros [[<- <-]|[Hkk Hq]].
      * split; [set_solver|]. unfold __val. by rewrite lookup_insert_eq.
      * apply Hi in Hq as [Hq Hqk]. rewrite Hv by (apply Hne; by right). set_solver.
    + intros [[Hq|Hq%list_elem_of_singleton]%elem_of_app Hqk].
      * right. rewrite Hv in Hqk by (apply Hne; by right). split.
        -- intros <-. rewrite <- Hqk, (index_agrees_lookup _ _ _ _ Hi Hq) in Hk. done.
        -- by apply Hi.
      * subst q. left. unfold __val in Hqk. rewrite lookup_insert_eq in Hqk. by subst k.
  - rewrite app_comm_cons. apply NoDup_app. split_and!; [done| |apply NoDup_singleton].
    intros q Hq ->%list_elem_of_singleton. by apply (Hne p).
  - apply Forall_app. split; [|apply Forall_singleton; rewrite dom_insert_L; set_solver].
    eapply Forall_impl; [exact HP|]. intros q Hq. rewrite dom_insert_L. set_solver.
Qed.

Lemma facade_inv_new um h xs (value : K * V) :
  umap_inv um h xs -> _map um !! value.1 = None ->
  facade_inv (set_index um (<[value.1 := fresh (dom h)]> (_map um)))
    (<[fresh (dom h) := (value, default_cache_node)]> h) xs [fresh (dom h)].
Proof. apply facade_inv_new_pending. Qed.

Lemma with_manager_run f um h :
  with_manager f (um, h) = ((set_manager um (f (_manager um) h).1, (f (_manager um) h).2), inr ()).
Proof. unfold with_manager. mstep. by destruct (f (_manager um) h). Qed.

(** Linking a pending node [p] into the list once there is room for it. *)
Lemma link_pending_first um h ys p P :
  PolicyLaws (_policy (_manager um)) -> facade_inv um h ys (p :: P) ->
  _weight (_manager um) + calculate_weight (_manager um) (__val h p) <= _capacity (_manager um) ->
  exists A B, ys = A ++ B /\
    facade_inv (set_manager um (insert (_manager um) h p).1.1) (insert (_manager um) h p).1.2 (A ++ p :: B) P.
Proof.
  intros Hpol (Hinv & Hi & Hnd & HP) Hfit. apply Forall_cons in HP as [HPp HP].
  assert (p ∉ _first (_manager um) :: ys) as Hpy.
  { rewrite app_comm_cons in Hnd. apply NoDup_app in Hnd as (_ & Hdis & _).
    intros Hin. by apply (Hdis p Hin); left. }
  destruct (insert_inv (_manager um) h ys p Hpol Hinv HPp Hpy Hfit) as (A & B & -> & _ & Hinv').
  exists A, B. split; [done|]. unfold facade_inv. cbn [_manager _map set_manager]. split_and!; [done| | |].
  - apply (index_agrees_vals _ h); [intros; apply insert_vals|].
    apply (index_agrees_perm _ _ ((A ++ B) ++ p :: P)); [solve_Permutation|done].
  - rewrite insert_manager. cbn [_first set_weight].
    assert (_first (_manager um) :: (A ++ p :: B) ++ P ≡ₚ _first (_manager um) :: (A ++ B) ++ p :: P) as ->
      by solve_Permutation.
    done.
  - eapply Forall_impl; [exact HP|]. intros q Hq. by rewrite insert_dom.
Qed.

Lemma link_pending um h ys p :
  PolicyLaws (_policy (_manager um)) -> facade_inv um h ys [p] ->
  _weight (_manager um) + calculate_weight (_manager um) (__val h p) <= _capacity (_manager um) ->
  exists A B, ys = A ++ B /\
    umap_inv (set_manager um (insert (_manager um) h p).1.1) (insert (_manager um) h p).1.2 (A ++ p :: B).
Proof. apply link_pending_first. Qed.

Lemma map_erase_it_run um h p :
  map_erase_it p (um, h) = ((set_index um (delete (__val h p).1 (_map um)), delete p h), inr ()).
Proof. done. Qed.

Lemma calculate_weight_set_weight (m : @cache_manager (K * V)) w (x : K * V) :
  calculate_weight (set_weight m w) x = calculate_weight m x.
Proof. done. Qed.

(** [indexInserted(it)] for the pending node [p]: either the node leaves
    the index and the heap again and [no_space_error] is thrown, or room
    was made and the node is linked. *)
Lemma indexInserted_run um h xs p :
  PolicyLaws (_policy (_manager um)) -> facade_inv um h xs [p] ->
  indexInserted p (um, h) =
    ((set_index um (delete (__val h p).1 (_map um)), delete p h), inl no_space_error) \/
  exists um' h' A B, indexInserted p (um, h) = ((um', h'), inr ()) /\
    umap_inv um' h' (A ++ p :: B) /\ (exists rm, (A ++ B) ++ rm ≡ₚ xs) /\ __val h' p = __val h p /\
    _manager um' = set_weight (_manager um) (_weight (_manager um')) /\
    (forall q, q ∈ A ++ B -> __val h' q = __val h q).
Proof.
  intros Hpol Hf. unfold indexInserted. mstep.
  pose proof (calculate_weight_range (_manager um) (__val h p)) as Hr.
  destruct (provideSpace_run um h xs [p] (calculate_weight (_manager um) (__val h p)) Hpol Hf)
    as [E|(um2 & h2 & ys & E & Hf2 & Hrm & _ & Hm2 & Hw2 & Hv2)]; [lia| |].
  - left. rewrite (bind_ok _ _ _ _ _ E). simpl. done.
  - right. rewrite (bind_ok _ _ _ _ _ E). simpl.
    assert (__val h2 p = __val h p) as Hvp by (apply Hv2; set_solver).
    destruct (link_pending um2 h2 ys p) as (A & B & -> & Hu).
    + by rewrite Hm2.
    + done.
    + rewrite Hvp, Hm2, calculate_weight_set_weight. rewrite Hm2 in Hw2. simpl in Hw2 |- *. lia.
    + unfold safeManagerInsert. rewrite with_manager_run. eexists _, _, A, B. split; [done|].
      split_and!; [done|done| | |].
      * by rewrite insert_vals.
      * cbn [_manager set_manager]. rewrite insert_manager, Hm2. done.
      * intros q Hq. rewrite insert_vals. apply Hv2. set_solver.
Qed.

(** [insert(value)] when the key is absent: the entry is added, evicting
    what the policy chooses, or nothing changes and [no_space_error] is
    thrown. *)
Lemma insert_value_new um h xs (value : K * V) :
  PolicyLaws (_policy (_manager um)) -> umap_inv um h xs -> _map um !! value.1 = None ->
  insert_value value (um, h) = ((um, h), inl no_space_error) \/
  exists um' h' A B p, insert_value value (um, h) = ((um', h'), inr (p, true)) /\
    umap_inv um' h' (A ++ p :: B) /\ (exists rm, (A ++ B) ++ rm ≡ₚ xs) /\
    __val h' p = value /\ _map um' !! value.1 = Some p /\ (forall q, q ∈ A ++ B -> __val h' q = __val h q).
Proof.
  intros Hpol Hu Hk. unfold insert_value.
  rewrite (bind_ok _ _ _ _ _ (map_insert_run_new um h value Hk)). cbv beta iota.
  pose proof (facade_inv_new um h xs value Hu Hk) as Hf.
  assert (fresh (dom h) ∉ dom h) as Hp by apply is_fresh.
  assert (__val (<[fresh (dom h) := (value, default_cache_node)]> h) (fresh (dom h)) = value) as Hv
    by (unfold __val; by rewrite lookup_insert_eq).
  destruct (indexInserted_run (set_index um (<[value.1 := fresh (dom h)]> (_map um)))
    (<[fresh (dom h) := (value, default_cache_node)]> h) xs (fresh (dom h)) Hpol Hf)
    as [E|(um' & h' & A & B & E & Hu' & Hrm & Hv' & _ & Hvals)].
  - left. rewrite (bind_err _ _ _ _ _ E). cbn [set_index _map _manager]. rewrite Hv.
    rewrite !delete_insert_eq, (delete_id (_map um)), (delete_id h) by (done || by apply not_elem_of_dom).
    by rewrite set_index_twice, set_index_same.
  - right. rewrite (bind_ok _ _ _ _ _ E). eexists _, _, A, B, _. split; [done|].
    split_and!; [done|done|by rewrite Hv'| |].
    + destruct Hu' as (_ & Hi & _). apply Hi. split; [set_solver|]. by rewrite Hv', Hv.
    + intros q Hq. rewrite Hvals by done. apply val_insert_ne. intros <-. apply Hp.
      destruct Hu as ((Hd & _) & _). destruct Hrm as [rm Hrm]. apply (dlist_dom _ _ _ _ Hd).
      apply elem_of_cons. right. rewrite <- Hrm. set_solver.
Qed.

(** ** Removing an entry *)

Lemma erase_node_vals (m : @cache_manager (K * V)) h p q :
  __val (erase_node m h p).2 q = __val h q.
Proof. unfold erase_node. simpl. by rewrite val_link. Qed.

(** Unlinking and freeing the node [p] of the list: the state of the
    index without its key. *)
Lemma unlink_free um h A p B :
  umap_inv um h (A ++ p :: B) ->
  umap_inv (set_index (set_manager um (erase_node (_manager um) h p).1)
              (delete (__val (erase_node (_manager um) h p).2 p).1 (_map um)))
           (delete p (erase_node (_manager um) h p).2) (A ++ B).
Proof.
  intros (Hinv & Hi & Hnd & _). rewrite app_nil_r in Hi, Hnd.
  destruct (erase_node_unlinks _ _ A p B Hinv) as [Hinv' _].
  assert (NoDup (A ++ p :: B)) as Hnd' by (by apply NoDup_cons in Hnd as [_ ?]).
  assert (p ∉ _first (_manager um) :: A ++ B) as Hp.
  { intros [->|Hin]%elem_of_cons.
    - apply NoDup_cons in Hnd as [Hs _]. set_solver.
    - by apply (nodup_mid A B p). }
  unfold umap_inv, facade_inv. cbn [_manager _map set_index set_manager]. rewrite !app_nil_r.
  split_and!.
  - apply (manager_inv_agree _ (erase_node (_manager um) h p).2); [|done].
    intros q Hq. apply lookup_delete_ne. intros ->. by apply Hp.
  - apply index_agrees_delete; [done|].
    apply (index_agrees_vals _ h); [intros; apply erase_node_vals|done].
  - assert (_first (erase_node (_manager um) h p).1 = _first (_manager um)) as -> by done.
    assert (_first (_manager um) :: A ++ p :: B ≡ₚ p :: _first (_manager um) :: A ++ B) as E
      by solve_Permutation.
    rewrite E in Hnd. by apply NoDup_cons in Hnd as [_ ?].
  - done.
Qed.

Lemma erase_key_run um h xs k :
  umap_inv um h xs ->
  (_map um !! k = None -> erase_key k (um, h) = ((um, h), inr 0%nat)) /\
  (forall p, _map um !! k = Some p ->
     exists um' h' A B, xs = A ++ p :: B /\ erase_key k (um, h) = ((um', h'), inr 1%nat) /\
       umap_inv um' h' (A ++ B) /\ _map um' !! k = None /\ h' !! p = None).
Proof.
  intros Hu. split.
  - intros Hk. unfold erase_key. rewrite (bind_ok _ _ _ _ _ (map_find_run um h k)). by rewrite Hk.
  - intros p Hk. pose proof Hu as (_ & Hi & _). pose proof Hk as [Hp Hpk]%Hi.
    rewrite app_nil_r in Hp. apply list_elem_of_split in Hp as (A & B & ->).
    unfold erase_key. rewrite (bind_ok _ _ _ _ _ (map_find_run um h k)). rewrite Hk.
    rewrite (bind_ok _ _ _ _ _ (with_manager_run _ um h)). cbv beta.
    rewrite (bind_ok _ _ _ _ _ (map_erase_it_run _ _ p)). cbv beta.
    eexists _, _, A, B. split; [done|]. split; [done|]. split; [cbn [_map set_manager]; by apply unlink_free|].
    cbn [_map set_index]. rewrite erase_node_vals, Hpk. split; [apply lookup_delete_eq|].
    apply lookup_delete_eq.
Qed.

(** C19: [erase(key)]: an absent key changes nothing; a present one leaves the
    list and the index, its node is freed, and the invariant holds. *)
Lemma erase_key_spec um h xs k :
  umap_inv um h xs ->
  (_map um !! k = None -> erase_key k (um, h) = ((um, h), inr 0%nat)) /\
  (forall p, _map um !! k = Some p ->
     exists um' h' A B, xs = A ++ p :: B /\ erase_key k (um, h) = ((um', h'), inr 1%nat) /\
       umap_inv um' h' (A ++ B) /\ _map um' !! k = None /\ h' !! p = None).
Proof. apply erase_key_run. Qed.

(** ** Lookup *)

(** The policy's [access] on an entry: the list is rearranged, the index
    and the values are untouched. *)
Lemma manager_access_run um h xs p :
  PolicyLaws (_policy (_manager um)) -> umap_inv um h xs -> p ∈ xs ->
  exists ys, ys ≡ₚ xs /\ manager_access p (um, h) = ((um, access (_manager um) h p), inr ()) /\
    umap_inv um (access (_manager um) h p) ys.
Proof.
  intros Hpol (Hinv & Hi & Hnd & _) Hp. pose proof Hinv as (Hd & _).
  destruct (access_perm h (_first (_manager um)) xs p Hd Hp) as (ys & Hys & Hd').
  assert (access (_manager um) h p ≈ₚ h) as Hh by apply access_payload.
  exists ys. split; [done|]. split.
  - unfold manager_access. rewrite with_manager_run. simpl. by rewrite set_manager_same.
  - unfold umap_inv, facade_inv. rewrite !app_nil_r in *. split_and!.
    + eapply manager_inv_perm_payload; [exact Hinv|done|done|exact Hd'].
    + apply (index_agrees_vals _ h); [intros q _; apply (val_proper _ _ Hh q q eq_refl)|].
      by apply (index_agrees_perm _ _ xs).
    + by rewrite Hys.
    + done.
Qed.

Lemma at_run um h xs k :
  PolicyLaws (_policy (_manager um)) -> umap_inv um h xs ->
  (_map um !! k = None -> at_ k (um, h) = ((um, h), inl out_of_range)) /\
  (forall p, _map um !! k = Some p ->
     exists ys, ys ≡ₚ xs /\ at_ k (um, h) = ((um, access (_manager um) h p), inr (__val h p).2) /\
       umap_inv um (access (_manager um) h p) ys).
Proof.
  intros Hpol Hu. split.
  - intros Hk. unfold at_. rewrite (bind_ok _ _ _ _ _ (map_find_run um h k)). by rewrite Hk.
  - intros p Hk. pose proof Hu as (_ & Hi & _). pose proof Hk as [Hp _]%Hi. rewrite app_nil_r in Hp.
    destruct (manager_access_run um h xs p Hpol Hu Hp) as (ys & Hys & Hrun & Hu').
    exists ys. split; [done|]. split; [|done].
    unfold at_. rewrite (bind_ok _ _ _ _ _ (map_find_run um h k)), Hk. cbv beta iota.
    rewrite (bind_ok _ _ _ _ _ Hrun). cbv beta. unfold mapped_at. mstep.
    f_equal. f_equal. assert (access (_manager um) h p ≈ₚ h) as Hh by apply access_payload.
    by rewrite (val_proper _ _ Hh p p eq_refl).
Qed.

(** C20: [at(key)]: an absent key throws [std::out_of_range] and leaves the
    state as it was; a present one gives its mapped value after the
    policy's [access]. *)
Lemma at_spec um h xs k :
  PolicyLaws (_policy (_manager um)) -> umap_inv um h xs ->
  (_map um !! k = None -> at_ k (um, h) = ((um, h), inl out_of_range)) /\
  (forall p, _map um !! k = Some p ->
     exists ys, ys ≡ₚ xs /\ at_ k (um, h) = ((um, access (_manager um) h p), inr (__val h p).2) /\
       umap_inv um (access (_manager um) h p) ys).
Proof. apply at_run. Qed.

(** ** Insertion, complete *)

Lemma insert_value_run um h xs (value : K * V) :
  PolicyLaws (_policy (_manager um)) -> umap_inv um h xs ->
  (forall p, _map um !! value.1 = Some p -> insert_value value (um, h) = ((um, h), inr (p, false))) /\
  (_map um !! value.1 = None ->
   insert_value value (um, h) = ((um, h), inl no_space_error) \/
   exists um' h' A B p, insert_value value (um, h) = ((um', h'), inr (p, true)) /\
     umap_inv um' h' (A ++ p :: B) /\ (exists rm, (A ++ B) ++ rm ≡ₚ xs) /\
     __val h' p = value /\ _map um' !! value.1 = Some p).
Proof.
  intros Hpol Hu. split.
  2:{ intros Hk. destruct (insert_value_new um h xs value Hpol Hu Hk)
        as [E|(um' & h' & A & B & p & E & Hu' & Hrm & Hv & Hm & _)]; [by left|right].
      by exists um', h', A, B, p. }
  intros p Hk. unfold insert_value. by rewrite (bind_ok _ _ _ _ _ (map_insert_run_old um h value p Hk)).
Qed.

(** C2: [insert(value)]: a present key leaves the state alone and returns its
    node with [false]; an absent one is inserted with room made for it,
    or [no_space_error] is thrown with the state unchanged. *)
Theorem insert_value_spec um h xs (value : K * V) :
  PolicyLaws (_policy (_manager um)) -> umap_inv um h xs ->
  (forall p, _map um !! value.1 = Some p -> insert_value value (um, h) = ((um, h), inr (p, false))) /\
  (_map um !! value.1 = None ->
   insert_value value (um, h) = ((um, h), inl no_space_error) \/
   exists um' h' A B p, insert_value value (um, h) = ((um', h'), inr (p, true)) /\
     umap_inv um' h' (A ++ p :: B) /\ (exists rm, (A ++ B) ++ rm ≡ₚ xs) /\
     __val h' p = value /\ _map um' !! value.1 = Some p).
Proof. apply insert_value_run. Qed.

(** ** Clearing *)

Lemma lookup_foldr_delete (h : heap (K * V)) l q :
  foldr delete h l !! q = if decide (q ∈ l) then None else h !! q.
Proof.
  induction l as [|r l IH]; cbn [foldr]; [by rewrite decide_False by set_solver|].
  destruct (decide (q = r)) as [->|Hne].
  - rewrite lookup_delete_eq, decide_True by set_solver. done.
  - rewrite lookup_delete_ne, IH by done. destruct (decide (q ∈ l)), (decide (q ∈ r :: l)); set_solver.
Qed.

Lemma clear_map_run um h xs :
  umap_inv um h xs ->
  exists um' h', clear (um, h) = ((um', h'), inr ()) /\ umap_inv um' h' [] /\
    _map um' = ∅ /\ _weight (_manager um') = 0 /\ (forall q, q ∈ xs -> h' !! q = None).
Proof.
  intros (Hinv & Hi & Hnd & _). rewrite app_nil_r in Hi, Hnd.
  set (m' := (cache_manager.clear (_manager um) h)).
  set (l := (map_to_list (_map um)).*2).
  assert (forall q, q ∈ l <-> q ∈ xs) as Hl.
  { intros q. unfold l. rewrite list_elem_of_fmap. split.
    - intros ([k q'] & -> & Hkq%elem_of_map_to_list). by apply Hi in Hkq as [? _].
    - intros Hq. exists ((__val h q).1, q). split; [done|]. apply elem_of_map_to_list. by apply Hi. }
  exists (set_index (set_manager um m'.1) ∅), (foldr delete m'.2 l). split.
  { unfold clear. rewrite (bind_ok _ _ _ _ _ (with_manager_run _ um h)). unfold map_clear. by mstep. }
  assert (_first (_manager um) ∉ xs) as Hs by (by apply NoDup_cons in Hnd as [? _]).
  split_and!; cbn [_map _manager set_index set_manager].
  - split_and!; cbn [_map _manager set_index set_manager app].
    + apply (manager_inv_agree _ m'.2); [|apply clear_spec with xs; exact Hinv].
      intros p ->%list_elem_of_singleton. rewrite lookup_foldr_delete. case_decide as Hq; [|done].
      apply Hl in Hq. unfold m', cache_manager.clear in Hq. simpl in Hq. done.
    + intros k q. rewrite lookup_empty. set_solver.
    + unfold m', cache_manager.clear. simpl. apply NoDup_singleton.
    + constructor.
  - done.
  - done.
  - intros q Hq. rewrite lookup_foldr_delete. case_decide as Hql; [done|]. exfalso. by apply Hql, Hl.
Qed.

(** [clear()]: the list is empty, the index is empty, every node that was
    in the container is freed and the weight is zero. *)
Theorem clear_map_spec um h xs :
  umap_inv um h xs ->
  exists um' h', clear (um, h) = ((um', h'), inr ()) /\ umap_inv um' h' [] /\
    _map um' = ∅ /\ _weight (_manager um') = 0 /\ (forall q, q ∈ xs -> h' !! q = None).
Proof. apply clear_map_run. Qed.

(** ** Making room on request *)

Lemma free_space_op_run um h xs (w : Z) :
  PolicyLaws (_policy (_manager um)) -> umap_inv um h xs ->
  free_space w (um, h) = ((um, h), inl no_space_error) \/
  exists um' h' ys, free_space w (um, h) = ((um', h'), inr ()) /\ umap_inv um' h' ys /\
    (exists rm, ys ++ rm ≡ₚ xs) /\
    _manager um' = set_weight (_manager um) (_weight (_manager um')) /\
    _weight (_manager um') + w <= _weight (_manager um).
Proof.
  intros Hpol Hu. unfold free_space.
  destruct (freeSpace_run um h xs [] w Hpol Hu) as [E|(um' & h' & ys & E & Hf & Hrm & _ & Hm & Hw & _)].
  - left. by rewrite (bind_ok _ _ _ _ _ E).
  - right. exists um', h', ys. by rewrite (bind_ok _ _ _ _ _ E).
Qed.

(** [free_space(space)]: either [no_space_error] with nothing changed, or
    the weight has dropped by at least [space], the survivors keep their
    order-independent contents and the manager its configuration. *)
Theorem free_space_op_spec um h xs (w : Z) :
  PolicyLaws (_policy (_manager um)) -> umap_inv um h xs ->
  free_space w (um, h) = ((um, h), inl no_space_error) \/
  exists um' h' ys, free_space w (um, h) = ((um', h'), inr ()) /\ umap_inv um' h' ys /\
    (exists rm, ys ++ rm ≡ₚ xs) /\
    _manager um' = set_weight (_manager um) (_weight (_manager um')) /\
    _weight (_manager um') + w <= _weight (_manager um).
Proof. apply free_space_op_run. Qed.

(** ** Extracting and reinserting a node *)

Lemma map_extract_it_run um h p :
  map_extract_it p (um, h) = ((set_index um (delete (__val h p).1 (_map um)), h), inr p).
Proof. done. Qed.

(** The invariant depends only on the lookups of the sentinel and the
    nodes of the list. *)
Lemma umap_inv_agree um h h' ys :
  (forall q, q ∈ _first (_manager um) :: ys -> h' !! q = h !! q) -> umap_inv um h ys -> umap_inv um h' ys.
Proof.
  intros Hag (Hinv & Hi & Hnd & HP). split_and!; [by eapply manager_inv_agree| |done|done].
  apply (index_agrees_vals _ h); [|done]. intros q Hq. unfold __val. rewrite Hag; [done|].
  rewrite app_nil_r in Hq. by right.
Qed.

(** A node outside the list and the index, its key absent, joins the
    index as the pending node. *)
Lemma facade_inv_pending um h ys p :
  umap_inv um h ys -> p ∈ dom h -> p ∉ (_first (_manager um) :: ys) -> _map um !! (__val h p).1 = None ->
  facade_inv (set_index um (<[(__val h p).1 := p]> (_map um))) h ys [p].
Proof.
  intros (Hinv & Hi & Hnd & _) Hdp Hp Hk. rewrite app_nil_r in Hi, Hnd.
  unfold facade_inv. cbn [_manager set_index _map]. split_and!; [done| | |by apply Forall_singleton].
  - intros k q. rewrite lookup_insert_Some. split.
    + intros [[<- <-]|[Hkk Hq]]; [set_solver|]. apply Hi in Hq as [Hq Hqk]. set_solver.
    + intros [[Hq|Hq%list_elem_of_singleton]%elem_of_app Hqk].
      * right. split; [|by apply Hi]. intros <-. rewrite <- Hqk, (index_agrees_lookup _ _ _ _ Hi Hq) in Hk. done.
      * subst q. by left.
  - rewrite app_comm_cons. apply NoDup_app. split_and!; [done| |apply NoDup_singleton].
    intros q Hq ->%list_elem_of_singleton. by apply Hp.
Qed.

(** [extract(key)] of a present key: the node leaves the list and the
    index and stays allocated with its value. *)
Lemma extract_key_run um h xs k p :
  umap_inv um h xs -> _map um !! k = Some p ->
  exists um' h' A B, xs = A ++ p :: B /\ extract_key k (um, h) = ((um', h'), inr (Some p)) /\
    umap_inv um' h' (A ++ B) /\ _map um' !! k = None /\ (forall q, __val h' q = __val h q) /\
    p ∈ dom h' /\ (p ∉ _first (_manager um') :: A ++ B) /\
    _manager um' = set_weight (_manager um) (_weight (_manager um')).
Proof.
  intros Hu Hk. pose proof Hu as (Hinv & Hi & Hnd & _). pose proof Hk as [Hp Hpk]%Hi.
  rewrite app_nil_r in Hp, Hnd. apply list_elem_of_split in Hp as (A & B & ->).
  assert (p ∉ (_first (_manager um) :: A ++ B)) as Hpn.
  { intros [->|Hin]%elem_of_cons.
    - apply NoDup_cons in Hnd as [Hs _]. set_solver.
    - apply NoDup_cons in Hnd as [_ Hnd]. by apply (nodup_mid A B p). }
  unfold extract_key. rewrite (bind_ok _ _ _ _ _ (map_find_run um h k)), Hk.
  rewrite (bind_ok _ _ _ _ _ (with_manager_run _ um h)). cbv beta.
  rewrite (bind_ok _ _ _ _ _ (map_extract_it_run _ _ p)). cbv beta.
  eexists _, _, A, B. split; [done|]. split; [done|]. split_and!.
  - apply (umap_inv_agree _ (delete p (erase_node (_manager um) h p).2)).
    + intros q Hq. cbn [_manager set_index set_manager] in Hq. rewrite lookup_delete_ne; [done|].
      intros ->. by apply Hpn.
    + cbn [_map set_manager]. by apply unlink_free.
  - cbn [_map set_index]. rewrite erase_node_vals, Hpk. apply lookup_delete_eq.
  - intros q. apply erase_node_vals.
  - unfold erase_node. simpl. rewrite dom_link. pose proof Hinv as (Hd & _).
    apply (dlist_dom _ _ _ _ Hd). set_solver.
  - done.
  - done.
Qed.

(** [indexInserted] for a pending node that fits without eviction: the
    node is linked and nothing else changes. *)
Lemma indexInserted_room um h ys p :
  PolicyLaws (_policy (_manager um)) -> facade_inv um h ys [p] ->
  _weight (_manager um) + calculate_weight (_manager um) (__val h p) <= _capacity (_manager um) ->
  exists um' h' A B, ys = A ++ B /\ indexInserted p (um, h) = ((um', h'), inr ()) /\
    umap_inv um' h' (A ++ p :: B) /\ (forall q, __val h' q = __val h q) /\
    _manager um' = set_weight (_manager um) (_weight (_manager um')).
Proof.
  intros Hpol Hf Hfit. pose proof Hf as ((_ & Hw & [Hwc Hc] & _) & _).
  pose proof (total_weight_nonneg (_manager um) h ys).
  pose proof (calculate_weight_range (_manager um) (__val h p)).
  destruct (link_pending um h ys p Hpol Hf Hfit) as (A & B & -> & Hu).
  assert (provideSpace (calculate_weight (_manager um) (__val h p)) (um, h) = ((um, h), inr true)) as E.
  { unfold provideSpace. mstep. rewrite decide_False by lia.
    by rewrite decide_True by (rewrite size_sub_exact by lia; lia). }
  unfold indexInserted. mstep. rewrite (bind_ok _ _ _ _ _ E). cbn [negb].
  unfold safeManagerInsert. rewrite with_manager_run. eexists _, _, A, B.
  split_and!; try done; intros q; apply insert_vals.
Qed.

Lemma map_insert_node_run um h p :
  _map um !! (__val h p).1 = None ->
  map_insert_node p (um, h) = ((set_index um (<[(__val h p).1 := p]> (_map um)), h), inr (p, true)).
Proof. intros E. unfold map_insert_node. mstep. by rewrite E. Qed.

Lemma extract_insert_run um h xs k p :
  PolicyLaws (_policy (_manager um)) -> umap_inv um h xs -> _map um !! k = Some p ->
  exists um1 h1 um2 h2 ys,
    extract_key k (um, h) = ((um1, h1), inr (Some p)) /\
    insert_node p (um1, h1) = ((um2, h2), inr (p, true)) /\
    umap_inv um2 h2 ys /\ ys ≡ₚ xs /\ _map um2 !! k = Some p /\
    (forall q, __val h2 q = __val h q) /\ _manager um2 = _manager um.
Proof.
  intros Hpol Hu Hk. pose proof Hu as ((_ & Hw & [Hwc _] & _) & Hi & _). pose proof Hk as [_ Hpk]%Hi.
  destruct (extract_key_run um h xs k p Hu Hk) as (um1 & h1 & A & B & -> & E1 & Hu1 & Hk1 & Hv1 & Hd1 & Hpn & Hm1).
  assert ((__val h1 p).1 = k) as Hk1' by (by rewrite Hv1).
  pose proof (facade_inv_pending um1 h1 (A ++ B) p Hu1 Hd1 Hpn ltac:(by rewrite Hk1')) as Hf.
  pose proof Hu1 as ((_ & Hw1 & _) & _).
  assert (_weight (_manager um1) = total_weight (_manager um) h (A ++ B)) as Hw1'.
  { rewrite Hw1, Hm1, total_weight_set. apply total_weight_ext. intros; apply Hv1. }
  assert (total_weight (_manager um) h (A ++ B) + calculate_weight (_manager um) (__val h p) =
    _weight (_manager um)) as Hsum by (rewrite Hw, !total_weight_app, total_weight_cons; lia).
  destruct (indexInserted_room (set_index um1 (<[(__val h1 p).1 := p]> (_map um1))) h1 (A ++ B) p
    ltac:(cbn [_manager set_index]; rewrite Hm1; exact Hpol) Hf)
    as (um2 & h2 & A' & B' & HAB & E2 & Hu2 & Hv2 & Hm2).
  { cbn [_manager set_index]. rewrite Hw1', Hm1, calculate_weight_set, Hv1. cbn [_capacity set_weight]. lia. }
  assert (A' ++ p :: B' ≡ₚ A ++ p :: B) as Hperm by (rewrite <- !Permutation_middle; by rewrite HAB).
  exists um1, h1, um2, h2, (A' ++ p :: B'). split_and!; try done.
  - unfold insert_node. rewrite (bind_ok _ _ _ _ _ (map_insert_node_run _ _ _ ltac:(by rewrite Hk1'))).
    cbv beta iota. by rewrite (bind_ok _ _ _ _ _ E2).
  - destruct Hu2 as (_ & Hi2 & _). apply Hi2. split; [set_solver|]. by rewrite Hv2, Hk1'.
  - intros q. by rewrite Hv2, Hv1.
  - assert (_weight (_manager um2) = _weight (_manager um)) as Hw2.
    { pose proof Hu2 as ((_ & -> & _) & _). rewrite Hm2. cbn [_manager set_index].
      rewrite Hm1, !total_weight_set, (total_weight_perm _ _ _ _ Hperm), Hw.
      apply total_weight_ext. intros. by rewrite Hv2, Hv1. }
    rewrite Hm2. cbn [_manager set_index]. rewrite Hm1, set_weight_set, Hw2. apply set_weight_same.
Qed.

(** C13: [extract(key)] followed by [insert(std::move(node))] of the same
    node always succeeds without evicting anything: the container holds
    the same entries with the same values, under the same manager state,
    and the key maps to the node again. *)
Theorem extract_insert_roundtrip um h xs k p :
  PolicyLaws (_policy (_manager um)) -> umap_inv um h xs -> _map um !! k = Some p ->
  exists um1 h1 um2 h2 ys,
    extract_key k (um, h) = ((um1, h1), inr (Some p)) /\
    insert_node p (um1, h1) = ((um2, h2), inr (p, true)) /\
    umap_inv um2 h2 ys /\ ys ≡ₚ xs /\ _map um2 !! k = Some p /\
    (forall q, __val h2 q = __val h q) /\ _manager um2 = _manager um.
Proof. apply extract_insert_run. Qed.

(** ** Deciding the invariant *)

(** The index agrees with the nodes [ns] when each of its entries is a
    node of [ns] under its own key and each node of [ns] is found under
    its key: a finite check. *)
Lemma index_agrees_alt i (h : heap (K * V)) ns :
  index_agrees i h ns <->
  Forall (fun kq => kq.2 ∈ ns /\ (__val h kq.2).1 = kq.1) (map_to_list i) /\
  Forall (fun q => i !! (__val h q).1 = Some q) ns.
Proof.
  rewrite !Forall_forall. split.
  - intros Hi. split.
    + intros [k q] Hkq%elem_of_map_to_list. by apply Hi.
    + intros q Hq. by apply Hi.
  - intros [Hall Hns] k q. split.
    + intros Hkq%elem_of_map_to_list. by apply (Hall (k, q)).
    + intros [Hq <-]. by apply Hns.
Qed.

#[global] Instance index_agrees_dec i (h : heap (K * V)) ns : Decision (index_agrees i h ns).
Proof.
  refine (cast_if (decide (Forall (fun kq => kq.2 ∈ ns /\ (__val h kq.2).1 = kq.1) (map_to_list i) /\
                           Forall (fun q => i !! (__val h q).1 = Some q) ns)));
    rewrite index_agrees_alt; tauto.
Defined.

#[global] Instance facade_inv_dec um (h : heap (K * V)) xs P : Decision (facade_inv um h xs P).
Proof. unfold facade_inv. apply _. Defined.

#[global] Instance umap_inv_dec um (h : heap (K * V)) xs : Decision (umap_inv um h xs).
Proof. unfold umap_inv. apply _. Defined.

(** ** [assign]: the node is out of the index while its value changes

    Between [_map.extract] and [_map.insert] the state of [assign] is the
    state of the container with the key [k] of the node [p] hidden from
    the index and the new value [v] written into [p]: [hide k p v].  The
    eviction loop does not touch [p], so running it on the hidden state is
    running it on the container and hiding afterwards. *)

Definition hide k p (v : K * V) (st : @fstate K V _ _) : @fstate K V _ _ :=
  (set_index st.1 (delete k (_map st.1)), set_val st.2 p v).

Definition hide_result {A} k p (v : K * V) (r : @fstate K V _ _ * (exn + A)) : @fstate K V _ _ * (exn + A) :=
  (hide k p v r.1, r.2).

Lemma map_erase_key_none um h k :
  _map um !! k = None -> map_erase_key k (um, h) = ((um, h), inr 0%nat).
Proof. intros E. unfold map_erase_key, mbind, M_bind, get. cbn. by rewrite E. Qed.

(** Erasing keys other than [k], whose nodes are not [p], from the index. *)
Lemma for_each_erase_hide (hv hv' : heap (K * V)) k p (v : K * V) : forall rs um (hs : heap (K * V)),
  _map um !! k = Some p -> (forall k', _map um !! k' = Some p -> k' = k) ->
  (forall r, r ∈ rs -> (__val hv' r).1 = (__val hv r).1 /\ (__val hv r).1 <> k) ->
  for_each (fun it => _ ← map_erase_key (__val hv' it).1; mret ()) rs (hide k p v (um, hs)) =
    hide_result k p v (for_each (fun it => _ ← map_erase_key (__val hv it).1; mret ()) rs (um, hs)).
Proof.
  induction rs as [|r rs IH]; intros um hs Hk Hinj Hr; [done|].
  cbn [for_each]. destruct (Hr r (list_elem_of_here r rs)) as [-> Hrk].
  set (k' := (__val hv r).1) in *.
  destruct (_map um !! k') as [q|] eqn:Eq.
  - assert (q <> p) as Hqp by (intros ->; by apply Hrk, Hinj).
    rewrite (bind_ok _ _ _ _ _ (bind_ok _ _ _ _ _ (map_erase_key_run um hs k' q Eq))).
    unfold hide at 1. cbn [fst snd].
    rewrite (bind_ok _ _ _ _ _ (bind_ok _ _ _ _ _
      (map_erase_key_run (set_index um (delete k (_map um))) (set_val hs p v) k' q ltac:(cbn [_map set_index]; by rewrite lookup_delete_ne)))).
    cbn [mret M_ret _map set_index]. rewrite set_index_twice, (delete_delete (_map um) k' k), delete_set_val_ne by done.
    change (set_index um (delete k (delete k' (_map um))), set_val (delete q hs) p v) with (hide k p v (set_index um (delete k' (_map um)), delete q hs)).
    apply (IH (set_index um (delete k' (_map um))) (delete q hs)); cbn [_map set_index].
    + by rewrite lookup_delete_ne.
    + intros k'' [_ ?]%lookup_delete_Some. by apply Hinj.
    + intros; apply Hr; by right.
  - rewrite (bind_ok _ _ _ _ _ (bind_ok _ _ _ _ _ (map_erase_key_none um hs k' Eq))).
    unfold hide at 1. cbn [fst snd].
    rewrite (bind_ok _ _ _ _ _ (bind_ok _ _ _ _ _
      (map_erase_key_none (set_index um (delete k (_map um))) (set_val hs p v) k' ltac:(cbn [_map set_index]; by rewrite lookup_delete_ne)))).
    apply IH; [done|done|intros; apply Hr; by right].
Qed.

(** The eviction loop that spares [p] commutes with hiding [p]: the
    victims are other nodes, their keys are not [k], and the payloads of
    the heap are kept. *)
Lemma freeSpace_except_hide um h xs (w : Z) p (v : K * V) :
  PolicyLaws (_policy (_manager um)) -> umap_inv um h xs -> p ∈ xs ->
  freeSpace_except w p (hide (__val h p).1 p v (um, h)) =
    hide_result (__val h p).1 p v (freeSpace_except w p (um, h)).
Proof.
  intros Hpol Hu Hp. pose proof Hu as (Hinv & Hi & Hnd & _). rewrite app_nil_r in Hi.
  destruct (free_space_except_correct (_manager um) h xs Hpol Hinv w p Hp)
    as (m' & h1 & rm & ok & E & Hf & Ht).
  pose proof (free_space_except_set_val (_manager um) h xs Hpol Hinv w p v Hp) as Hsv.
  rewrite E in Hsv. unfold freeSpace_except, hide at 1. rewrite !get_bind. cbn iota beta. cbn [fst snd]. rewrite manager_set_index.
  rewrite Hsv, E. cbn [fmap option_fmap option_map]. rewrite !lift_some_bind, !put_bind.
  destruct ok; [|done].
  destruct (Ht eq_refl) as (ys & Hperm & Hpy & _ & Hh & _).
  destruct (nodup_victims _ xs [] ys rm Hnd Hperm) as (_ & _ & Hout).
  change (set_manager (set_index um (delete (__val h p).1 (_map um))) m', set_val h1 p v)
    with (hide (__val h p).1 p v (set_manager um m', h1)).
  cbv [mbind M_bind]. rewrite (for_each_erase_hide h1 (set_val h1 p v)); cbn [_map set_manager].
  - unfold hide_result. by destruct (for_each _ rm (set_manager um m', h1)) as [[] []].
  - by apply Hi.
  - intros k' Hk'. by apply Hi in Hk' as [_ <-].
  - intros r Hr. assert (r <> p) as Hrp by (intros ->; apply (Hout p Hr); set_solver).
    rewrite val_set_val_ne by done. split; [done|].
    assert (r ∈ xs) as Hrx by (rewrite <- Hperm; set_solver).
    assert (__val h1 r = __val h r) as -> by (by rewrite Hh).
    intros Hk. by apply Hrp, (index_agrees_key _ _ _ _ _ Hi); [set_solver..|].
Qed.

Lemma provideSpace_except_hide um h xs (w : Z) p (v : K * V) :
  PolicyLaws (_policy (_manager um)) -> umap_inv um h xs -> p ∈ xs ->
  provideSpace_except w p (hide (__val h p).1 p v (um, h)) =
    hide_result (__val h p).1 p v (provideSpace_except w p (um, h)).
Proof.
  intros Hpol Hu Hp. unfold provideSpace_except, hide at 1. mstep. mstep.
  repeat case_decide; try done. by apply (freeSpace_except_hide _ _ xs).
Qed.

Lemma index_agrees_keys i h h' ns :
  (forall q, q ∈ ns -> (__val h' q).1 = (__val h q).1) -> index_agrees i h ns -> index_agrees i h' ns.
Proof.
  intros Hv Hi k q. rewrite (Hi k q). split; intros [Hq Hk]; split; try done.
  - by rewrite Hv.
  - by rewrite <- Hv.
Qed.

(** [_map.insert(std::move(node))] on the hidden state: the key of the
    new value is the key [p] had, so the index gets [p] back. *)
Lemma hide_insert_node um h p (v : K * V) :
  _map um !! v.1 = Some p -> p ∈ dom h ->
  map_insert_node p (hide v.1 p v (um, h)) = ((um, set_val h p v), inr (p, true)).
Proof.
  intros Hk Hp. unfold hide. cbn [fst snd]. rewrite map_insert_node_run.
  - rewrite val_set_val_eq by done. cbn [_map set_index].
    by rewrite set_index_twice, insert_delete_id, set_index_same.
  - rewrite val_set_val_eq by done. cbn [_map set_index]. apply lookup_delete_eq.
Qed.

(** The tail of [assign] once there is room: the node goes back into the
    index, the weight is updated and the policy is told of the access. *)
Lemma assign_commit um h ys p (v : K * V) (ow nw : Z) :
  PolicyLaws (_policy (_manager um)) -> umap_inv um h ys -> p ∈ ys -> v.1 = (__val h p).1 ->
  ow = calculate_weight (_manager um) (__val h p) -> nw = calculate_weight (_manager um) v ->
  _weight (_manager um) - ow + nw <= _capacity (_manager um) ->
  exists um' h' ys',
    (map_insert_node p ≫= fun '(ins, _) =>
       with_manager (fun m h0 => update_weight m h0 p ow nw);; manager_access p;; mret ins)
      (hide (__val h p).1 p v (um, h)) = ((um', h'), inr p) /\
    umap_inv um' h' ys' /\ ys' ≡ₚ ys /\ __val h' p = v /\ (forall q, q <> p -> __val h' q = __val h q).
Proof.
  intros Hpol Hu Hp Hk -> -> Hfit. pose proof Hu as (Hinv & Hi & Hnd & _).
  pose proof Hinv as (Hd & _). assert (p ∈ dom h) as Hdom by (eapply dlist_dom; [exact Hd|by right]).
  rewrite app_nil_r in Hi. rewrite <- Hk.
  rewrite (bind_ok _ _ _ _ _ (hide_insert_node um h p v ltac:(rewrite Hk; by apply Hi) Hdom)).
  cbn iota beta. rewrite (bind_ok _ _ _ _ _ (with_manager_run _ _ _)). cbn [fst snd].
  set (mh := update_weight _ _ _ _ _).
  destruct (list_elem_of_split _ _ Hp) as (A & B & ->).
  assert (forall q, __val mh.2 q = __val (set_val h p v) q) as Hval by (intros; apply val_set_node_weight).
  assert (umap_inv (set_manager um mh.1) mh.2 (A ++ p :: B)) as Hu1.
  { split_and!; [by apply update_weight_inv| |done|done].
    apply (index_agrees_keys _ h); [|by rewrite app_nil_r].
    intros q _. rewrite Hval. destruct (decide (q = p)) as [->|].
    - by rewrite val_set_val_eq.
    - by rewrite val_set_val_ne by congruence. }
  destruct (manager_access_run (set_manager um mh.1) mh.2 (A ++ p :: B) p) as (ys' & Hys & Hrun & Hu2);
    [done|done|done|].
  rewrite (bind_ok _ _ _ _ _ Hrun). eexists _, _, ys'. split; [reflexivity|]. split_and!; [done|done| |].
  - assert (access (_manager (set_manager um mh.1)) mh.2 p ≈ₚ mh.2) as Hh by apply access_payload.
    rewrite Hh, Hval. by apply val_set_val_eq.
  - intros q Hq. assert (access (_manager (set_manager um mh.1)) mh.2 p ≈ₚ mh.2) as Hh by apply access_payload.
    rewrite Hh, Hval. by apply val_set_val_ne.
Qed.

Lemma assign_run um h xs p obj :
  PolicyLaws (_policy (_manager um)) -> umap_inv um h xs -> p ∈ xs ->
  (assign p obj (um, h) = ((um, h), inl no_space_error) /\
   calculate_weight (_manager um) (__val h p) < calculate_weight (_manager um) ((__val h p).1, obj)) \/
  exists um' h' ys, assign p obj (um, h) = ((um', h'), inr p) /\ umap_inv um' h' ys /\
    (exists rm, ys ++ rm ≡ₚ xs) /\ p ∈ ys /\ __val h' p = ((__val h p).1, obj) /\
    (forall q, q ∈ ys -> q <> p -> __val h' q = __val h q).
Proof.
  intros Hpol Hu Hp. pose proof Hu as (Hinv & Hi & _ & _). pose proof Hinv as (Hd & _ & [Hwc _] & _).
  assert (p ∈ dom h) as Hdom by (eapply dlist_dom; [exact Hd|by right]).
  rewrite app_nil_r in Hi. assert (_map um !! (__val h p).1 = Some p) as Hk by (by apply Hi).
  unfold assign. rewrite !get_bind. cbn iota beta.
  rewrite (bind_ok _ _ _ _ _ (map_extract_it_run _ _ _)), !get_bind, put_bind, get_bind. cbn iota beta.
  rewrite manager_set_index, val_set_val_eq by done. unfold calculate_weight_it.
  set (v := ((__val h p).1, obj)).
  change (set_index um (delete (__val h p).1 (_map um)), set_val h p v) with (hide (__val h p).1 p v (um, h)).
  set (ow := calculate_weight (_manager um) (__val h p)). set (nw := calculate_weight (_manager um) v).
  pose proof (calculate_weight_range (_manager um) (__val h p)).
  pose proof (calculate_weight_range (_manager um) v). fold ow nw in H2, H3.
  case_decide as Hgt.
  - assert (0 <= nw -ₛ ow) by (apply size_sub_range).
    destruct (provideSpace_except_run um h xs [] (nw -ₛ ow) p Hpol Hu Hp ltac:(done))
      as [E | (um' & h' & ys & E & Hf & Hrm & Hpy & Hm & Hw & Hv)].
    + left. split; [|lia]. apply bind_err.
      rewrite (bind_ok _ _ _ _ _ (eq_trans (provideSpace_except_hide _ _ xs _ _ _ Hpol Hu Hp) (f_equal _ E))).
      unfold hide at 1. cbn iota beta. rewrite get_bind. cbn iota beta. rewrite put_bind.
      rewrite val_set_val_eq by done. unfold v. cbn [fst]. rewrite set_val_twice, <- surjective_pairing.
      change (set_index um (delete (__val h p).1 (_map um)), set_val h p (__val h p))
        with (hide (__val h p).1 p (__val h p) (um, h)).
      rewrite (bind_ok _ _ _ _ _ (hide_insert_node um h p (__val h p) Hk Hdom)), set_val_id. done.
    + right. rewrite app_nil_r in Hv. assert (__val h' p = __val h p) as Hvp by (by apply Hv).
      destruct Hrm as [rm Hrm].
      assert (PolicyLaws (_policy (_manager um'))) as Hpol' by (by rewrite Hm).
      assert (_capacity (_manager um') = _capacity (_manager um)) as Hc by (by rewrite Hm).
      destruct (assign_commit um' h' ys p v ow nw Hpol' Hf Hpy)
        as (um2 & h2 & ys2 & Erun & Hu2 & Hys2 & Hv2 & Hq2);
        [by rewrite Hvp|by rewrite Hm, calculate_weight_set_weight, Hvp|by rewrite Hm, calculate_weight_set_weight|..].
      { rewrite Hc. rewrite size_sub_exact in Hw by lia. lia. }
      erewrite (bind_ok _ _ _ _ ()); [|rewrite (bind_ok _ _ _ _ _ (eq_trans
        (provideSpace_except_hide _ _ xs _ _ _ Hpol Hu Hp) (f_equal _ E))); reflexivity].
      cbn [fst]. rewrite <- Hvp, Erun. exists um2, h2, ys2. split_and!; [done|done| |by rewrite Hys2|done|].
      * exists rm. by rewrite Hys2.
      * intros q Hq Hqp. rewrite Hq2 by done. apply Hv. by rewrite <- Hys2.
  - right. destruct (assign_commit um h xs p v ow nw Hpol Hu Hp)
      as (um2 & h2 & ys2 & Erun & Hu2 & Hys2 & Hv2 & Hq2); [done|done|done|lia|].
    erewrite (bind_ok _ _ _ _ ()); [|reflexivity]. rewrite Erun.
    exists um2, h2, ys2. split_and!; [done|done| |by rewrite Hys2|done|by auto].
    exists []. by rewrite app_nil_r.
Qed.

(** C15: [assign(it, obj)] is atomic: it either throws [no_space_error],
    which happens only when the new value weighs more than the old one,
    and leaves the container exactly as it was, value of [it] included;
    or it succeeds, the node [it] keeps its key and holds [obj], the
    other entries keep their values, only other entries are evicted, and
    the invariant holds. *)
Theorem assign_spec um h xs p obj :
  PolicyLaws (_policy (_manager um)) -> umap_inv um h xs -> p ∈ xs ->
  (assign p obj (um, h) = ((um, h), inl no_space_error) /\
   calculate_weight (_manager um) (__val h p) < calculate_weight (_manager um) ((__val h p).1, obj)) \/
  exists um' h' ys, assign p obj (um, h) = ((um', h'), inr p) /\ umap_inv um' h' ys /\
    (exists rm, ys ++ rm ≡ₚ xs) /\ p ∈ ys /\ __val h' p = ((__val h p).1, obj) /\
    (forall q, q ∈ ys -> q <> p -> __val h' q = __val h q).
Proof. apply assign_run. Qed.

End FacadeSpec.

(** Run a [get] at the head of a computation, whatever the type its
    continuation's pattern gives the state. *)
Ltac get_step :=
  match goal with |- context [ mbind ?f get ?st ] => change (mbind f get st) with (f st st) end;
  cbn beta iota zeta delta [fst snd].

(** ** A concrete container *)

(** An empty container of capacity [cap] with weigher [w] and policy [p]:
    the sentinel at address 1, no entries. *)
Definition empty_map (cap : Z) (w : Z * Z -> Z) (p : @policy (Z * Z)) : @fstate Z Z _ _ :=
  (mk_unordered_map ∅ (mk_cache_manager cap 1 0 w p),
   {[ 1%N := (inhabitant, mk_cache_node 1 1 0) ]}).

Definition unit_weight (v : Z * Z) : Z := 1.

(** Three entries 1, 2, 3 inserted into an LRU container of capacity 3. *)
Definition map3 : @fstate Z Z _ _ :=
  ((insert_value (1, 10);; insert_value (2, 20);; insert_value (3, 30)) (empty_map 3 unit_weight lru)).1.

Lemma map3_nodes : contents map3.2 (_first (_manager map3.1)) = Some [2; 3; 4]%N.
Proof. vm_compute. reflexivity. Qed.

Lemma map3_inv : umap_inv map3.1 map3.2 [2; 3; 4]%N.
Proof. apply (bool_decide_unpack _). vm_compute. reflexivity. Qed.

(** Witnesses of the facade's theorems on [map3]. *)
Lemma insert_value_spec_witness :
  (forall p, _map map3.1 !! (4%Z, 40%Z).1 = Some p -> insert_value (4%Z, 40%Z) (map3.1, map3.2) = ((map3.1, map3.2), inr (p, false))) /\
  (_map map3.1 !! (4%Z, 40%Z).1 = None ->
   insert_value (4%Z, 40%Z) (map3.1, map3.2) = ((map3.1, map3.2), inl no_space_error) \/
   exists um' h' A B p, insert_value (4%Z, 40%Z) (map3.1, map3.2) = ((um', h'), inr (p, true)) /\
     umap_inv um' h' (A ++ p :: B) /\ (exists rm, (A ++ B) ++ rm ≡ₚ [2; 3; 4]%N) /\
     __val h' p = (4%Z, 40%Z) /\ _map um' !! (4%Z, 40%Z).1 = Some p).
Proof. apply insert_value_spec; [apply _|exact map3_inv]. Defined.

Lemma at_spec_witness :
  (_map map3.1 !! 2%Z = None -> at_ 2%Z (map3.1, map3.2) = ((map3.1, map3.2), inl out_of_range)) /\
  (forall p, _map map3.1 !! 2%Z = Some p ->
     exists ys, ys ≡ₚ [2; 3; 4]%N /\ at_ 2%Z (map3.1, map3.2) = ((map3.1, access (_manager map3.1) map3.2 p), inr (__val map3.2 p).2) /\
       umap_inv map3.1 (access (_manager map3.1) map3.2 p) ys).
Proof. apply at_spec; [apply _|exact map3_inv]. Defined.

Lemma clear_map_spec_witness :
  exists um' h', clear (map3.1, map3.2) = ((um', h'), inr ()) /\ umap_inv um' h' [] /\
    _map um' = ∅ /\ _weight (_manager um') = 0 /\ (forall q, q ∈ [2; 3; 4]%N -> h' !! q = None).
Proof. apply clear_map_spec. exact map3_inv. Defined.

Lemma free_space_op_spec_witness :
  free_space 2%Z (map3.1, map3.2) = ((map3.1, map3.2), inl no_space_error) \/
  exists um' h' ys, free_space 2%Z (map3.1, map3.2) = ((um', h'), inr ()) /\ umap_inv um' h' ys /\
    (exists rm, ys ++ rm ≡ₚ [2; 3; 4]%N) /\
    _manager um' = set_weight (_manager map3.1) (_weight (_manager um')) /\
    _weight (_manager um') + 2%Z <= _weight (_manager map3.1).
Proof. apply free_space_op_spec; [apply _|exact map3_inv]. Defined.

Lemma erase_key_spec_witness :
  (_map map3.1 !! 2%Z = None -> erase_key 2%Z (map3.1, map3.2) = ((map3.1, map3.2), inr 0%nat)) /\
  (forall p, _map map3.1 !! 2%Z = Some p ->
     exists um' h' A B, [2; 3; 4]%N = A ++ p :: B /\ erase_key 2%Z (map3.1, map3.2) = ((um', h'), inr 1%nat) /\
       umap_inv um' h' (A ++ B) /\ _map um' !! 2%Z = None /\ h' !! p = None).
Proof. apply erase_key_spec. exact map3_inv. Defined.

Lemma extract_insert_roundtrip_witness :
  exists um1 h1 um2 h2 ys,
    extract_key 2%Z (map3.1, map3.2) = ((um1, h1), inr (Some 3%N)) /\
    insert_node 3%N (um1, h1) = ((um2, h2), inr (3%N, true)) /\
    umap_inv um2 h2 ys /\ ys ≡ₚ [2; 3; 4]%N /\ _map um2 !! 2%Z = Some 3%N /\
    (forall q, __val h2 q = __val map3.2 q) /\ _manager um2 = _manager map3.1.
Proof. apply extract_insert_roundtrip; [apply _|exact map3_inv|vm_compute; reflexivity]. Defined.

Lemma assign_spec_witness :
  (assign 3%N 7%Z (map3.1, map3.2) = ((map3.1, map3.2), inl no_space_error) /\
   calculate_weight (_manager map3.1) (__val map3.2 3%N) <
     calculate_weight (_manager map3.1) ((__val map3.2 3%N).1, 7%Z)) \/
  exists um' h' ys, assign 3%N 7%Z (map3.1, map3.2) = ((um', h'), inr 3%N) /\ umap_inv um' h' ys /\
    (exists rm, ys ++ rm ≡ₚ [2; 3; 4]%N) /\ 3%N ∈ ys /\ __val h' 3%N = ((__val map3.2 3%N).1, 7%Z) /\
    (forall q, q ∈ ys -> q <> 3%N -> __val h' q = __val map3.2 q).
Proof. apply assign_spec; [apply _|exact map3_inv|apply (bool_decide_unpack _); vm_compute; reflexivity]. Defined.

End limited.
