(* ===== verification/IndexIterators.v ===== *)
(** * IndexIterators: the index's iterators and the extracted node handle

    [wrapped_iterator] ([src/limited/base.h], lines 33-170) wraps the
    iterator of the index [_map]: [operator*] returns [_iterator->first],
    the value stored in the node, [operator++] advances the wrapped
    iterator, [operator==] compares the wrapped iterators.  [begin()] and
    [end()] ([src/limited/unordered_map.h], lines 541-579) wrap
    [_map.begin()] and [_map.end()].  An iterator is modelled as the part
    of the index's iteration sequence ([map_to_list], standing for the hash
    table's unspecified order) from its position to [end()]; dereferencing
    or advancing [end()] is undefined and gives [None].

    [read_range] is the loop [for (; first != last; ++first) ... *first]
    of [insert(first, last)] (lines 951-953), which the copy constructor
    and the copy assignment run over [other.begin()] .. [other.end()].
    Theorem: the loop over [begin()] .. [end()] stops after [size()]
    rounds and reads exactly [index_values], the list the range insert of
    [LimitedMap] takes; every value read is stored at the node the index
    maps its key to.

    [key_value_node_wrapper] (lines 238-306) wraps the node handle of
    [_map.extract]: [empty()], [key()] and [mapped()].  Theorem: the
    handle [extract(key)] returns is empty exactly when the key is absent,
    and otherwise holds the key and its mapped value. *)

From S2P Require Import Prelude Heap IteratorOps Policy CacheManager FreeSpace LimitedMap.

Module index_iterators.
Import cache_manager limited.

Section Iterators.
Context {K V : Type} `{Countable K} `{Inhabited K} `{Inhabited V}.
Implicit Types (um : @unordered_map K V _ _) (h : heap (K * V)) (p q : ptr) (k : K) (xs : list ptr).

(** [wrapped_iterator]: the entries [(key, node)] of the index from the
    iterator's position to [end()]. *)
Definition iterator : Type := list (K * ptr).

(** [begin()]: [_map.begin()]. *)
Definition index_begin um : iterator := map_to_list (_map um).

(** [end()]: [_map.end()]. *)
Definition index_end : iterator := [].

(** [operator*]: [_iterator->first], the value stored in the node. *)
Definition deref h (it : iterator) : option (K * V) :=
  match it with
  | (_, p) :: _ => Some (__val h p)
  | [] => None
  end.

(** Prefix [operator++]: [++_iterator]. *)
Definition incr (it : iterator) : option iterator :=
  match it with
  | _ :: it => Some it
  | [] => None
  end.

(** Postfix [operator++(int)]: the iterator before the increment, and
    the iterator itself after it. *)
Definition post_incr (it : iterator) : option (iterator * iterator) :=
  it' ← incr it; Some (it, it').

(** [operator==]: [_iterator == other._iterator]. *)
Definition it_eqb (a b : iterator) : bool := bool_decide (a = b).

(** The reading loop of [insert(first, last)]:
    [for (; first != last; ++first) _map.insert({*first, {}})], the
    values it reads in order; [None] when the fuel runs out or the loop
    dereferences [end()]. *)
Fixpoint read_range (fuel : nat) h (first last : iterator) : option (list (K * V)) :=
  match fuel with
  | O => None
  | S fuel =>
      if it_eqb first last then Some []
      else v ← deref h first; first ← incr first; vs ← read_range fuel h first last; Some (v :: vs)
  end.

(** [key_value_node_wrapper]: the extracted node, [None] for the empty
    handle. *)
Definition node_type : Type := option ptr.

(** [empty()]: [_node.empty()]. *)
Definition nh_empty (n : node_type) : bool := bool_decide (n = None).

(** [key()]: [_node.key().first]; undefined on the empty handle. *)
Definition nh_key h (n : node_type) : option K := (fun p => (__val h p).1) <$> n.

(** [mapped()]: [_node.key().second]; undefined on the empty handle. *)
Definition nh_mapped h (n : node_type) : option V := (fun p => (__val h p).2) <$> n.

(** The loop reads a segment followed by the rest of the sequence up to
    the rest's start: the values of the segment's nodes. *)
Lemma read_range_app h A B fuel :
  (length A < fuel)%nat -> read_range fuel h (A ++ B) B = Some ((fun kp => __val h kp.2) <$> A).
Proof.
  revert fuel. induction A as [|[k p] A IH]; intros [|fuel] Hf; cbn [length] in Hf; try lia.
  - cbn. unfold it_eqb. by rewrite bool_decide_true.
  - cbn [read_range app]. unfold it_eqb. rewrite bool_decide_false.
    + cbn. rewrite IH by lia. done.
    + intros E. apply (f_equal length) in E. cbn in E. rewrite length_app in E. lia.
Qed.

(** Under the invariant, the index maps the key of each value it holds
    to the node storing it. *)
Lemma index_values_stored um h xs v :
  umap_inv um h xs -> v ∈ index_values (um, h) -> exists p, _map um !! v.1 = Some p /\ __val h p = v.
Proof.
  intros (_ & Hi & _) (kp & -> & Hkp)%list_elem_of_fmap. destruct kp as [k p].
  apply elem_of_map_to_list in Hkp. exists p. cbn. split; [|done].
  pose proof Hkp as [_ <-]%Hi. done.
Qed.

(** [extract(key)] of an absent key: the empty handle, nothing changed. *)
Lemma extract_key_absent um h k :
  _map um !! k = None -> extract_key k (um, h) = ((um, h), inr None).
Proof. intros E. unfold extract_key. rewrite (bind_ok _ _ _ _ _ (map_find_run um h k)), E. done. Qed.

Lemma extract_handle_run um h xs k :
  umap_inv um h xs ->
  exists um' h' n, extract_key k (um, h) = ((um', h'), inr n) /\
    nh_empty n = bool_decide (_map um !! k = None) /\
    nh_key h' n = (fun _ => k) <$> _map um !! k /\
    nh_mapped h' n = (fun p => (__val h p).2) <$> _map um !! k.
Proof.
  intros Hu. destruct (_map um !! k) as [p|] eqn:E.
  - destruct (extract_key_run um h xs k p Hu E) as (um' & h' & A & B & _ & Hrun & _ & _ & Hval & _).
    pose proof Hu as (_ & Hi & _). pose proof E as [_ Hpk]%Hi.
    exists um', h', (Some p). split_and!; [done| |by cbn; rewrite Hval, Hpk|by cbn; rewrite Hval].
    unfold nh_empty. by rewrite !bool_decide_false.
  - exists um, h, None. rewrite extract_key_absent by done. split_and!; [done| |done|done].
    unfold nh_empty. by rewrite !bool_decide_true.
Qed.

End Iterators.

Section Claims.
Context {K V : Type} `{Countable K} `{Inhabited K} `{Inhabited V}.
Implicit Types (um : @unordered_map K V _ _) (h : heap (K * V)) (k : K) (xs : list ptr).

(** Iterating the index from [begin()] to [end()] with [++] and [*]
    stops after [size()] rounds and reads exactly [index_values], the
    entries the range insert, the copy constructor and the copy
    assignment consume; under the invariant each value read is stored at
    the node the index maps its key to. *)
Theorem index_iteration um h xs :
  umap_inv um h xs ->
  read_range (S (size (_map um))) h (index_begin um) index_end = Some (index_values (um, h)) /\
  (forall v, v ∈ index_values (um, h) -> exists p, _map um !! v.1 = Some p /\ __val h p = v).
Proof.
  intros Hu. split; [|intros v; by apply index_values_stored with xs].
  unfold index_begin, index_end. rewrite <- (app_nil_r (map_to_list _)), read_range_app.
  - done.
  - rewrite length_map_to_list. lia.
Qed.

(** The node handle [extract(key)] returns is empty exactly when the key
    is absent; otherwise its [key()] is the key and its [mapped()] the
    value the key was mapped to. *)
Theorem extract_handle um h xs k :
  umap_inv um h xs ->
  exists um' h' n, extract_key k (um, h) = ((um', h'), inr n) /\
    nh_empty n = bool_decide (_map um !! k = None) /\
    nh_key h' n = (fun _ => k) <$> _map um !! k /\
    nh_mapped h' n = (fun p => (__val h p).2) <$> _map um !! k.
Proof. apply extract_handle_run. Qed.

End Claims.

Lemma index_iteration_witness :
  read_range (S (size (_map map3.1))) map3.2 (index_begin map3.1) index_end = Some (index_values (map3.1, map3.2)) /\
  (forall v, v ∈ index_values (map3.1, map3.2) -> exists p, _map map3.1 !! v.1 = Some p /\ __val map3.2 p = v).
Proof. apply (index_iteration _ _ [2; 3; 4]%N). exact map3_inv. Defined.

Lemma extract_handle_witness :
  exists um' h' n, extract_key 3 (map3.1, map3.2) = ((um', h'), inr n) /\
    nh_empty n = bool_decide (_map map3.1 !! 3 = None) /\
    nh_key h' n = (fun _ => 3) <$> _map map3.1 !! 3 /\
    nh_mapped h' n = (fun p => (__val map3.2 p).2) <$> _map map3.1 !! 3.
Proof. apply (extract_handle _ _ [2; 3; 4]%N). exact map3_inv. Defined.

End index_iterators.
