(* ===== verification/RangeInsert.v ===== *)
(** * RangeInsert: [insert(first, last)] of [src/limited/unordered_map.h]

    The range insert (lines 943-1012, modelled by [limited.insert_range])
    works in three phases: it puts every new key into the index and sums
    the weights of the new nodes, stopping as soon as the sum exceeds the
    capacity ([insert_range_index]); it makes room for the whole sum at
    once ([provideSpace]); and it links the new nodes into the manager's
    list one after the other.  When no room can be made it erases the new
    keys from the index again and throws [no_space_error].

    This file proves that, when no addition of the [size_t] sum can wrap,
    the range insert is atomic and adds exactly the entries that
    [std::unordered_map::insert(first, last)] adds: the first entry of
    each key of the range that is not in the container ([range_new]).
    The bound is needed: [Scenarios] runs a range whose weights wrap. *)

From S2P Require Import Prelude Heap IteratorOps Policy CacheManager FreeSpace LimitedMap.

Module range_insert.
Import policy cache_manager free_space limited.

Section RangeSpec.
Context {K V : Type} `{Countable K} `{Inhabited K} `{Inhabited V}.
Implicit Types (um : @unordered_map K V _ _) (h : heap (K * V)).

(** The entries [insert(first, last)] of a [std::unordered_map] adds to a
    map with the keys [seen]: for each key of the range not in the map,
    its first entry. *)
Fixpoint range_new (seen : gset K) (l : list (K * V)) : list (K * V) :=
  match l with
  | [] => []
  | v :: l => if decide (v.1 ∈ seen) then range_new seen l else v :: range_new ({[v.1]} ∪ seen) l
  end.

(** Undoing the index insertions of the nodes [P]: their keys leave the
    index and the nodes leave the heap. *)
Definition undo_keys (h : heap (K * V)) (i : gmap K ptr) (P : list ptr) : gmap K ptr :=
  foldl (fun i q => delete (__val h q).1 i) i P.

Definition undo_nodes (h : heap (K * V)) (P : list ptr) : heap (K * V) :=
  foldl (fun h q => delete q h) h P.

Lemma undo_keys_ext h h' i P :
  (forall q, q ∈ P -> __val h' q = __val h q) -> undo_keys h' i P = undo_keys h i P.
Proof. intros Hv. apply foldl_ext_in. intros q j Hq. by rewrite Hv. Qed.

(** [_map.erase(i->first)] for every node added: the undo. *)
Lemma erase_inserted_run : forall P um h,
  NoDup P -> (forall q, q ∈ P -> _map um !! (__val h q).1 = Some q) ->
  erase_inserted P (um, h) = ((set_index um (undo_keys h (_map um) P), undo_nodes h P), inr ()).
Proof.
  induction P as [|a P IH]; intros um h Hnd Hk.
  - cbn. by rewrite set_index_same.
  - apply NoDup_cons in Hnd as [Ha Hnd]. unfold erase_inserted. cbn [for_each].
    erewrite (bind_ok _ _ _ _ ()).
    2:{ cbv [mbind M_bind get]. cbn iota beta.
        rewrite (map_erase_key_run um h (__val h a).1 a (Hk a ltac:(by left))). done. }
    fold (erase_inserted (K:=K) (V:=V) P). rewrite IH; cbn [_map set_index].
    + rewrite set_index_twice, (undo_keys_ext h (delete a h)); [done|].
      intros q Hq. apply val_delete_ne. intros ->. done.
    + done.
    + intros q Hq. assert (a <> q) as Haq by (intros ->; done).
      rewrite val_delete_ne by done. rewrite lookup_delete_ne; [by apply Hk; right|].
      intros E. apply Haq. pose proof (Hk a ltac:(by left)) as Ea. rewrite E, (Hk q ltac:(by right)) in Ea.
      by injection Ea.
Qed.

Lemma undo_nodes_insert h p n P :
  p ∉ P -> undo_nodes (<[p := n]> h) P = <[p := n]> (undo_nodes h P).
Proof. intros Hp. apply (foldl_delete_insert (fun x => x)). by rewrite map_id. Qed.

Lemma undo_nodes_lookup_None h p P : h !! p = None -> undo_nodes h P !! p = None.
Proof. apply (foldl_delete_lookup_None (fun x => x)). Qed.

(** ** The index phase *)

Section IndexLoop.
Context (um0 : @unordered_map K V _ _) (h0 : heap (K * V)) (xs : list ptr).

(** The state of the index phase: the nodes [P] are indexed and pending,
    the manager is untouched, and undoing [P] gives back the container. *)
Definition range_state um h P : Prop :=
  facade_inv um h xs P /\ _manager um = _manager um0 /\
  undo_keys h (_map um) P = _map um0 /\ undo_nodes h P = h0.

Lemma range_state_new um h P (v : K * V) :
  range_state um h P -> _map um !! v.1 = None ->
  range_state (set_index um (<[v.1 := fresh (dom h)]> (_map um)))
    (<[fresh (dom h) := (v, default_cache_node)]> h) (P ++ [fresh (dom h)]).
Proof.
  intros (Hf & Hm & Hk & Hn) Hv. set (p := fresh (dom h)).
  pose proof Hf as (_ & Hi & _ & HP).
  assert (p ∉ dom h) as Hp by apply is_fresh.
  assert (p ∉ P) as HpP by (intros Hin; apply Hp; by eapply Forall_forall in HP).
  assert (forall q, q ∈ P -> __val (<[p := (v, default_cache_node)]> h) q = __val h q) as Hval
    by (intros q Hq; apply val_insert_ne; intros ->; done).
  split_and!.
  - by apply facade_inv_new_pending.
  - done.
  - unfold undo_keys. rewrite foldl_app. cbn [foldl _map set_index].
    unfold __val at 1. rewrite lookup_insert_eq. cbn [fst from_option].
    fold (undo_keys (<[p := (v, default_cache_node)]> h) (<[v.1 := p]> (_map um)) P).
    rewrite (undo_keys_ext h) by done. unfold undo_keys.
    rewrite foldl_delete_insert, delete_insert_id; [done| |].
    + apply foldl_delete_lookup_None. done.
    + intros (q & Eq & Hq)%list_elem_of_fmap. rewrite Eq in Hv.
      rewrite (index_agrees_lookup _ _ _ q Hi) in Hv; [done|set_solver].
  - unfold undo_nodes. rewrite foldl_app. cbn [foldl]. fold (undo_nodes (<[p := (v, default_cache_node)]> h) P).
    rewrite undo_nodes_insert by done. rewrite delete_insert_id; [done|].
    apply undo_nodes_lookup_None. by apply not_elem_of_dom.
Qed.

(** The index phase of [insert(first, last)]: it always returns, with the
    new nodes pending after [P] and their exact weight (no addition wraps
    under the bound on the weights); when that weight fits, the new nodes
    hold exactly the entries [range_new] gives. *)
Lemma insert_range_index_run : forall l um h P,
  range_state um h P -> total_weight (_manager um0) h P <= _capacity (_manager um0) ->
  (forall v, v ∈ l -> _capacity (_manager um0) + calculate_weight (_manager um0) v < size_modulus) ->
  exists um' h' P2,
    insert_range_index l P (total_weight (_manager um0) h P) (um, h) =
      ((um', h'), inr (P ++ P2, total_weight (_manager um0) h' (P ++ P2))) /\
    range_state um' h' (P ++ P2) /\ (forall q, q ∈ xs ++ P -> __val h' q = __val h q) /\
    exists rest, map (__val h') P2 ++ rest = range_new (dom (_map um)) l /\
      (total_weight (_manager um0) h' (P ++ P2) <= _capacity (_manager um0) -> rest = []).
Proof.
  induction l as [|v l IH]; intros um h P Hs Hw Hl.
  - exists um, h, []. rewrite !app_nil_r. split_and!; [done..|]. by exists [].
  - cbn [insert_range_index]. destruct (_map um !! v.1) as [q|] eqn:Ek.
    + rewrite (bind_ok _ _ _ _ _ (map_insert_run_old _ _ _ _ Ek)). cbn iota.
      destruct (IH um h P Hs Hw) as (um' & h' & P2 & Hrun & Hs' & Hv & HP2); [intros; apply Hl; by right|].
      exists um', h', P2. split_and!; [done..|]. cbn [range_new].
      by rewrite decide_True by (by apply elem_of_dom_2 in Ek).
    + rewrite (bind_ok _ _ _ _ _ (map_insert_run_new _ _ _ Ek)). cbn iota beta.
      get_step. cbn [_manager set_index].
      set (p := fresh (dom h)). set (h1 := <[p := (v, default_cache_node)]> h).
      pose proof (range_state_new um h P v Hs Ek) as Hs1. fold p h1 in Hs1.
      pose proof Hs as ((_ & _ & _ & HP) & Hm & _).
      assert (p ∉ dom h) as Hp by apply is_fresh.
      assert (forall q, q <> p -> __val h1 q = __val h q) as Hval by (intros; by apply val_insert_ne).
      assert (__val h1 p = v) as Hvp by (unfold h1, __val; by rewrite lookup_insert_eq).
      assert (forall q, q ∈ xs ++ P -> q <> p) as Hne.
      { intros q Hq ->. apply Hp. apply elem_of_app in Hq as [Hq|Hq].
        - pose proof Hs as ((Hinv & _) & _). destruct Hinv as (Hd & _). eapply dlist_dom; [exact Hd|by right].
        - by eapply Forall_forall in HP. }
      assert (total_weight (_manager um0) h1 (P ++ [p]) =
                total_weight (_manager um0) h P + calculate_weight (_manager um0) v) as Hsum.
      { rewrite total_weight_app, (total_weight_ext _ h h1) by (intros; apply Hval, Hne; set_solver).
        cbn [total_weight foldr]. rewrite Hvp. lia. }
      pose proof (total_weight_nonneg (_manager um0) h P).
      pose proof (calculate_weight_range (_manager um0) v).
      pose proof (Hl v ltac:(by left)).
      rewrite Hm, Hvp, size_add_exact by lia. rewrite <- Hsum.
      case_decide as Hover.
      * exists (set_index um (<[v.1 := p]> (_map um))), h1, [p]. split_and!; [done|done| |].
        -- intros q Hq. by apply Hval, Hne.
        -- exists (range_new ({[v.1]} ∪ dom (_map um)) l). split; [|lia].
           cbn [map app range_new]. rewrite Hvp. by rewrite decide_False by (by apply not_elem_of_dom).
      * destruct (IH _ _ (P ++ [p]) Hs1) as (um' & h' & P2 & Hrun & Hs' & Hv & HP2);
          [lia|intros; apply Hl; by right|].
        exists um', h', (p :: P2). rewrite <- app_assoc in Hrun, Hs', HP2. cbn [app] in *.
        split_and!; [done|done| |].
        -- intros q Hq. rewrite Hv by set_solver. by apply Hval, Hne.
        -- destruct HP2 as (rest & Hrest & Hnil). exists rest. split; [|done].
           cbn [map app range_new]. rewrite decide_False by (by apply not_elem_of_dom).
           rewrite Hv, Hvp by set_solver. f_equal. rewrite Hrest. cbn [_map set_index].
           by rewrite dom_insert_L.
Qed.

End IndexLoop.

(** ** The link phase *)

(** [_manager.insert(it)] for every pending node, in order, once the
    room for all of them is made. *)
Lemma link_all : forall P (um : @unordered_map K V _ _) h ys,
  PolicyLaws (_policy (_manager um)) -> facade_inv um h ys P ->
  _weight (_manager um) + total_weight (_manager um) h P <= _capacity (_manager um) ->
  exists um' h' ys',
    for_each (fun i => with_manager (fun m h => (insert m h i).1)) P (um, h) = ((um', h'), inr ()) /\
    umap_inv um' h' ys' /\ ys' ≡ₚ ys ++ P /\ (forall q, __val h' q = __val h q) /\
    _map um' = _map um /\ _manager um' = set_weight (_manager um) (_weight (_manager um')).
Proof.
  induction P as [|p P IH]; intros um h ys Hpol Hf Hw.
  - exists um, h, ys. rewrite app_nil_r, set_weight_same. split_and!; done.
  - cbn [for_each]. rewrite (bind_ok _ _ _ _ _ (with_manager_run _ _ _)). cbn [fst snd].
    cbn [total_weight foldr] in Hw. fold (total_weight (_manager um) h P) in Hw.
    pose proof (total_weight_nonneg (_manager um) h P).
    pose proof (calculate_weight_range (_manager um) (__val h p)). pose proof Hf as ((_ & Hwt & [Hwc Hc] & _) & _).
    pose proof (total_weight_nonneg (_manager um) h ys).
    destruct (link_pending_first um h ys p P Hpol Hf) as (A & B & -> & Hf1); [lia|].
    set (um1 := set_manager um (insert (_manager um) h p).1.1) in *.
    set (h1 := (insert (_manager um) h p).1.2) in *.
    assert (_manager um1 = set_weight (_manager um) (_weight (_manager um) + calculate_weight (_manager um) (__val h p)))
      as Hm1 by (unfold um1; cbn; by rewrite size_add_exact by lia).
    assert (total_weight (_manager um1) h1 P = total_weight (_manager um) h P) as Hp1.
    { rewrite Hm1, total_weight_set. apply total_weight_ext. intros; apply insert_vals. }
    destruct (IH um1 h1 (A ++ p :: B)) as (um' & h' & ys' & Hrun & Hu & Hys & Hv & Hmap & Hm');
      [by rewrite Hm1|done|rewrite Hp1, Hm1; cbn; lia|].
    exists um', h', ys'. split_and!; [done|done| | | |].
    + rewrite Hys. solve_Permutation.
    + intros q. rewrite Hv. apply insert_vals.
    + done.
    + rewrite Hm', Hm1. apply set_weight_set.
Qed.

Lemma set_index_manager_eq (um um' : @unordered_map K V _ _) :
  _manager um' = _manager um -> set_index um' (_map um) = um.
Proof. destruct um, um'. cbn. by intros ->. Qed.

Lemma insert_range_run um h xs l :
  PolicyLaws (_policy (_manager um)) -> umap_inv um h xs ->
  (forall v, v ∈ l -> _capacity (_manager um) + calculate_weight (_manager um) v < size_modulus) ->
  insert_range l (um, h) = ((um, h), inl no_space_error) \/
  exists um' h' ys' ys rm P, insert_range l (um, h) = ((um', h'), inr ()) /\
    umap_inv um' h' ys' /\ ys' ≡ₚ ys ++ P /\ ys ++ rm ≡ₚ xs /\
    map (__val h') P = range_new (dom (_map um)) l /\ (forall q, q ∈ ys -> __val h' q = __val h q).
Proof.
  intros Hpol Hu Hl. pose proof Hu as ((_ & _ & [Hwc Hc] & _) & _).
  pose proof (total_weight_nonneg (_manager um) h xs). pose proof Hu as ((_ & Hwt & _) & _).
  destruct (insert_range_index_run um h xs l um h []) as (um1 & h1 & P & Hrun & (Hf1 & Hm1 & Hk1 & Hn1) & Hv1 & HP);
    [by split_and!|cbn; lia|done|].
  change (total_weight (_manager um) h []) with 0 in Hrun. cbn [app] in Hrun, Hf1, Hk1, Hn1, HP.
  unfold insert_range. rewrite (bind_ok _ _ _ _ _ Hrun). cbn iota beta.
  set (w := total_weight (_manager um) h1 P) in *.
  pose proof (total_weight_nonneg (_manager um) h1 P).
  destruct (provideSpace_run um1 h1 xs P w) as [E|(um2 & h2 & ys & E & Hf2 & [rm Hrm] & _ & Hm2 & Hw2 & Hv2)];
    [by rewrite Hm1|done|lia| |].
  - left. rewrite (bind_ok _ _ _ _ _ E). cbn [negb]. pose proof Hf1 as (_ & Hi1 & Hnd1 & _).
    assert (NoDup P) as HndP.
    { rewrite app_comm_cons in Hnd1. by apply NoDup_app in Hnd1 as (_ & _ & Hnd1). }
    assert (forall q, q ∈ P -> _map um1 !! (__val h1 q).1 = Some q) as HkP
      by (intros q Hq; apply Hi1; set_solver).
    rewrite (bind_ok _ _ _ _ _ (erase_inserted_run P um1 h1 HndP HkP)).
    by rewrite Hk1, Hn1, set_index_manager_eq.
  - right. rewrite (bind_ok _ _ _ _ _ E). cbn [negb].
    pose proof Hf2 as ((_ & Hwt2 & _) & _). pose proof (total_weight_nonneg (_manager um2) h2 ys).
    assert (forall q, q ∈ P -> __val h2 q = __val h1 q) as Hv2P by (intros; apply Hv2; set_solver).
    destruct (link_all P um2 h2 ys) as (um' & h' & ys' & Hrun' & Hu' & Hys' & Hv' & _ & _).
    + by rewrite Hm2, Hm1.
    + done.
    + rewrite Hm2, total_weight_set, Hm1, (total_weight_ext _ h1 h2) by done.
      rewrite Hm2, Hm1 in *. cbn in *. fold w. lia.
    + exists um', h', ys', ys, rm, P. split_and!; [done|done|done|done| |].
      * destruct HP as (rest & Hrest & Hnil). rewrite Hnil, app_nil_r in Hrest by (rewrite Hm1 in Hw2; lia).
        rewrite <- Hrest. apply map_ext_in. intros q Hq%list_elem_of_In.
        by rewrite Hv', Hv2P.
      * intros q Hq. rewrite Hv', Hv2 by set_solver. apply Hv1. rewrite app_nil_r, <- Hrm. set_solver.
Qed.

(** C16: [insert(first, last)] is atomic and adds what
    [std::unordered_map::insert(first, last)] adds.  When no weight of the
    range can make the [size_t] sum wrap, it either throws
    [no_space_error] and leaves the container exactly as it was (index and
    heap included), or links new nodes [P] holding exactly the entries
    [range_new] selects (the first entry of each key not in the
    container), evicts only old entries, keeps the values of the others,
    and keeps the invariant. *)
Theorem insert_range_spec um h xs l :
  PolicyLaws (_policy (_manager um)) -> umap_inv um h xs ->
  (forall v, v ∈ l -> _capacity (_manager um) + calculate_weight (_manager um) v < size_modulus) ->
  insert_range l (um, h) = ((um, h), inl no_space_error) \/
  exists um' h' ys' ys rm P, insert_range l (um, h) = ((um', h'), inr ()) /\
    umap_inv um' h' ys' /\ ys' ≡ₚ ys ++ P /\ ys ++ rm ≡ₚ xs /\
    map (__val h') P = range_new (dom (_map um)) l /\ (forall q, q ∈ ys -> __val h' q = __val h q).
Proof. apply insert_range_run. Qed.

(** ** When the new entries fit *)

(** The exact sum of the weights of a list of values. *)
Definition entries_weight (m : @cache_manager (K * V)) (vs : list (K * V)) : Z :=
  foldr (fun v w => calculate_weight m v + w) 0 vs.

Lemma total_entries_weight m h P : total_weight m h P = entries_weight m (map (__val h) P).
Proof. induction P as [|q P IH]; [done|]. cbn. unfold total_weight, entries_weight in *. by rewrite IH. Qed.

Lemma entries_weight_app m vs ws : entries_weight m (vs ++ ws) = entries_weight m vs + entries_weight m ws.
Proof. unfold entries_weight. induction vs as [|v vs IH]; cbn; [done|]. rewrite IH. lia. Qed.

Lemma entries_weight_nonneg m vs : 0 <= entries_weight m vs.
Proof.
  induction vs as [|v vs IH]; [done|]. cbn. unfold entries_weight in IH.
  pose proof (calculate_weight_range m v). lia.
Qed.

(** [provideSpace(weight)] when the free room suffices: no eviction. *)
Lemma provideSpace_room um (h : heap (K * V)) (w : Z) :
  0 <= _weight (_manager um) <= _capacity (_manager um) -> _capacity (_manager um) < size_modulus -> 0 <= w ->
  _weight (_manager um) + w <= _capacity (_manager um) -> provideSpace w (um, h) = ((um, h), inr true).
Proof.
  intros Hw Hc Hw0 Hfit. unfold provideSpace. get_step.
  rewrite decide_False by lia. rewrite size_sub_exact by lia. by rewrite decide_True by lia.
Qed.

(** The range insert into a container with room for all its new entries
    evicts nothing and cannot throw. *)
Lemma insert_range_room um h xs l :
  PolicyLaws (_policy (_manager um)) -> umap_inv um h xs ->
  (forall v, v ∈ l -> _capacity (_manager um) + calculate_weight (_manager um) v < size_modulus) ->
  _weight (_manager um) + entries_weight (_manager um) (range_new (dom (_map um)) l) <= _capacity (_manager um) ->
  exists um' h' ys' P, insert_range l (um, h) = ((um', h'), inr ()) /\ umap_inv um' h' ys' /\
    ys' ≡ₚ xs ++ P /\ map (__val h') P = range_new (dom (_map um)) l /\
    (forall q, q ∈ xs -> __val h' q = __val h q).
Proof.
  intros Hpol Hu Hl Hfit. pose proof Hu as ((_ & Hwt & [Hwc Hc] & _) & _).
  pose proof (total_weight_nonneg (_manager um) h xs).
  destruct (insert_range_index_run um h xs l um h []) as (um1 & h1 & P & Hrun & (Hf1 & Hm1 & _ & _) & Hv1 & rest & Hrest & Hnil);
    [by split_and!|cbn; lia|done|].
  change (total_weight (_manager um) h []) with 0 in Hrun. cbn [app] in Hrun, Hf1, Hnil.
  set (w := total_weight (_manager um) h1 P) in *.
  assert (_weight (_manager um) + w <= _capacity (_manager um)) as Hw.
  { pose proof (entries_weight_nonneg (_manager um) rest). unfold w. rewrite total_entries_weight.
    rewrite <- Hrest, entries_weight_app in Hfit. lia. }
  rewrite Hnil, app_nil_r in Hrest by lia.
  pose proof (total_weight_nonneg (_manager um) h1 P).
  unfold insert_range. rewrite (bind_ok _ _ _ _ _ Hrun). cbn iota beta.
  assert (provideSpace w (um1, h1) = ((um1, h1), inr true)) as E
    by (apply provideSpace_room; rewrite ?Hm1; lia).
  rewrite (bind_ok _ _ _ _ _ E). cbn [negb].
  destruct (link_all P um1 h1 xs) as (um' & h' & ys' & Hrun' & Hu' & Hys' & Hv' & _ & _);
    [by rewrite Hm1|done|rewrite Hm1; lia|].
  exists um', h', ys', P. split_and!; [done..| |].
  - rewrite <- Hrest. apply map_ext_in. intros q _. apply Hv'.
  - intros q Hq. rewrite Hv'. apply Hv1. by rewrite app_nil_r.
Qed.

(** ** Construction and copy *)

(** [range_new] keeps entries of the range only. *)
Lemma range_new_sub seen l v : v ∈ range_new seen l -> v ∈ l.
Proof.
  revert seen. induction l as [|w l IH]; intros seen; cbn; [done|].
  case_decide; [intros ?%IH; by right|]. intros [->|?%IH]%elem_of_cons; [by left|by right].
Qed.

Lemma range_new_distinct seen l :
  NoDup l.*1 -> (forall v, v ∈ l -> v.1 ∉ seen) -> range_new seen l = l.
Proof.
  revert seen. induction l as [|v l IH]; intros seen Hnd Hs; [done|].
  cbn [fmap list_fmap] in Hnd. apply NoDup_cons in Hnd as [Hv Hnd].
  cbn [range_new]. rewrite decide_False by (apply Hs; by left). f_equal. apply IH; [done|].
  intros w Hw. rewrite not_elem_of_union, not_elem_of_singleton. split.
  - intros E. apply Hv. rewrite <- E. by apply list_elem_of_fmap_2.
  - apply Hs. by right.
Qed.

Lemma total_weight_elem m (h : heap (K * V)) xs q :
  q ∈ xs -> calculate_weight m (__val h q) <= total_weight m h xs.
Proof.
  intros (A & B & ->)%list_elem_of_split. rewrite total_weight_app, total_weight_cons.
  pose proof (total_weight_nonneg m h A). pose proof (total_weight_nonneg m h B). lia.
Qed.

(** The nodes of a well-formed index, in its iteration order, are the
    nodes of the list. *)
Lemma index_nodes_perm i (h : heap (K * V)) xs :
  index_agrees i h xs -> NoDup xs -> (map_to_list i).*2 ≡ₚ xs.
Proof.
  intros Hi Hnd. apply NoDup_Permutation; [|done|].
  - apply NoDup_fmap_2_strong; [|apply NoDup_map_to_list].
    intros [k q] [k' q'] Hkq%elem_of_map_to_list Hkq'%elem_of_map_to_list. cbn. intros <-.
    apply Hi in Hkq as [_ <-]. apply Hi in Hkq' as [_ <-]. done.
  - intros q. rewrite list_elem_of_fmap. split.
    + intros ([k q'] & -> & Hkq%elem_of_map_to_list). by apply Hi in Hkq as [? _].
    + intros Hq. exists ((__val h q).1, q). split; [done|]. apply elem_of_map_to_list. by apply Hi.
Qed.

Lemma index_values_elem um h v :
  v ∈ index_values (um, h) <-> exists k q, _map um !! k = Some q /\ v = __val h q.
Proof.
  unfold index_values. rewrite list_elem_of_fmap. split.
  - intros ([k q] & -> & Hkq%elem_of_map_to_list). by exists k, q.
  - intros (k & q & Hkq & ->). exists (k, q). split; [done|]. by apply elem_of_map_to_list.
Qed.

(** The entries of a well-formed container have distinct keys and weigh
    what the manager counts. *)
Lemma index_values_facts um h xs :
  umap_inv um h xs ->
  NoDup (index_values (um, h)).*1 /\
  entries_weight (_manager um) (index_values (um, h)) = _weight (_manager um).
Proof.
  intros ((_ & Hwt & _) & Hi & Hnd & _). rewrite app_nil_r in Hi, Hnd. apply NoDup_cons in Hnd as [_ Hnd].
  split.
  - unfold index_values. rewrite <- list_fmap_compose.
    rewrite (list_fmap_ext _ fst (map_to_list (_map um))); [apply NoDup_fst_map_to_list|].
    intros _ [k q] Hkq%list_elem_of_lookup_2%elem_of_map_to_list. cbn. by apply Hi in Hkq as [_ ->].
  - unfold index_values. rewrite Hwt, <- (total_weight_perm _ _ _ _ (index_nodes_perm _ _ _ Hi Hnd)).
    rewrite total_entries_weight. f_equal. by rewrite <- list_fmap_compose.
Qed.

Lemma construct_map_inv s capacity weigher pol (h : heap (K * V)) :
  0 <= capacity < size_modulus ->
  umap_inv (construct_map s capacity weigher pol h).1 (construct_map s capacity weigher pol h).2 [].
Proof.
  intros Hc. pose proof (construct_inv s capacity weigher pol h Hc) as Hm.
  unfold construct_map. destruct (construct s capacity weigher pol h) as [m h'] eqn:E.
  cbn beta iota zeta delta [fst snd] in Hm |- *.
  split_and!; [done| |apply NoDup_singleton|constructor].
  intros k q. cbn [_map]. rewrite lookup_empty. split; [done|]. intros [Hq _]. set_solver.
Qed.

(** Filling an empty container with [other]'s configuration from
    [other.begin()] .. [other.end()]: the copy constructor and the copy
    assignment. *)
Lemma fill_run um h xs um0 h0 s :
  PolicyLaws (_policy (_manager um)) -> umap_inv um h xs -> 2 * _capacity (_manager um) < size_modulus ->
  umap_inv um0 h0 [] -> _map um0 = ∅ ->
  _manager um0 = mk_cache_manager (_capacity (_manager um)) s 0 (_weigher (_manager um)) (_policy (_manager um)) ->
  exists um' h' ys, insert_range (index_values (um, h)) (um0, h0) = ((um', h'), inr ()) /\ umap_inv um' h' ys /\
    (forall k, __val h' <$> _map um' !! k = __val h <$> _map um !! k).
Proof.
  intros Hpol Hu Hcap Hu0 Hi0 Hm0. pose proof Hu as ((_ & Hwt & [Hwc Hc] & _) & Hi & Hnd & _). rewrite app_nil_r in Hi.
  destruct (index_values_facts um h xs Hu) as [Hkeys Hwl].
  pose proof (total_weight_nonneg (_manager um) h xs).
  set (m := _manager um) in *. set (l := index_values (um, h)) in *.
  assert (forall v, calculate_weight (_manager um0) v = calculate_weight m v) as Hcw by (intros; by rewrite Hm0).
  assert (forall v, v ∈ l -> calculate_weight m v <= _capacity m) as Hvl.
  { intros v (k & q & Hkq & ->)%index_values_elem. apply Hi in Hkq as [Hq _].
    pose proof (total_weight_elem m h xs q Hq). lia. }
  assert (range_new (dom (_map um0)) l = l) as Hrn.
  { rewrite Hi0, dom_empty_L. apply range_new_distinct; [done|set_solver]. }
  destruct (insert_range_room um0 h0 [] l) as (um' & h' & ys' & P & Hrun & Hu' & Hys' & HP & _).
  - by rewrite Hm0.
  - done.
  - intros v Hv. rewrite Hcw, Hm0. cbn [_capacity]. pose proof (Hvl v Hv). lia.
  - rewrite Hrn, Hm0. cbn [_weight _capacity]. change (entries_weight _ l) with (entries_weight m l). lia.
  - rewrite Hrn in HP. exists um', h', ys'. split_and!; [done|done|].
    pose proof Hu' as (_ & Hi' & _). rewrite app_nil_r in Hi'.
    assert (forall q, q ∈ ys' <-> q ∈ P) as HyP by (intros q; by rewrite Hys').
    intros k. destruct (_map um !! k) as [q|] eqn:Ek.
    + assert (__val h q ∈ map (__val h') P) as (q' & Hq'v & Hq')%list_elem_of_fmap
        by (rewrite HP; apply index_values_elem; eauto).
      assert (_map um' !! k = Some q') as ->; [|cbn; by rewrite Hq'v].
      apply Hi'. rewrite HyP, <- Hq'v. split; [done|]. by apply Hi in Ek as [_ ->].
    + destruct (_map um' !! k) as [q'|] eqn:Ek'; [|done]. exfalso.
      apply Hi' in Ek' as [Hq' Hk']. apply HyP in Hq'.
      assert (__val h' q' ∈ l) as (k2 & q2 & Hk2 & Hv2)%index_values_elem
        by (rewrite <- HP; by apply list_elem_of_fmap_2).
      pose proof Hk2 as Hk2'. apply Hi in Hk2' as [_ Hkey]. rewrite <- Hv2, Hk' in Hkey. congruence.
Qed.

Lemma copy_construct_run um h xs s :
  PolicyLaws (_policy (_manager um)) -> umap_inv um h xs -> 2 * _capacity (_manager um) < size_modulus ->
  exists um' h' ys, copy_construct (um, h) s = ((um', h'), inr ()) /\ umap_inv um' h' ys /\
    (forall k, __val h' <$> _map um' !! k = __val h <$> _map um !! k).
Proof.
  intros Hpol Hu Hcap. pose proof Hu as ((_ & Hwt & [Hwc Hc] & _) & _). pose proof (total_weight_nonneg (_manager um) h xs).
  set (m := _manager um) in *. unfold copy_construct, construct_range. cbn beta iota zeta delta [fst snd]. fold m.
  pose proof (construct_map_inv s (_capacity m) (_weigher m) (_policy m) h ltac:(lia)) as Hu0.
  destruct (construct_map s (_capacity m) (_weigher m) (_policy m) h) as [um0 h0] eqn:E0. cbn [fst snd] in Hu0.
  assert (_manager um0 = mk_cache_manager (_capacity m) s 0 (_weigher m) (_policy m) /\ _map um0 = ∅) as [Hm0 Hi0]
    by (unfold construct_map, construct in E0; by injection E0 as <- _).
  exact (fill_run um h xs um0 h0 s Hpol Hu Hcap Hu0 Hi0 Hm0).
Qed.

(** C17: the copy constructor of a well-formed container whose capacity
    is at most half of [SIZE_MAX] never throws, gives a well-formed
    container, and maps every key to a node holding the same entry as in
    the original: the copy has the same entries. *)
Theorem copy_construct_spec um h xs s :
  PolicyLaws (_policy (_manager um)) -> umap_inv um h xs -> 2 * _capacity (_manager um) < size_modulus ->
  exists um' h' ys, copy_construct (um, h) s = ((um', h'), inr ()) /\ umap_inv um' h' ys /\
    (forall k, __val h' <$> _map um' !! k = __val h <$> _map um !! k).
Proof. apply copy_construct_run. Qed.

End RangeSpec.
(** Witness of [insert_range_spec] on the three-entry LRU container
    [map3]: the range repeats key 4 and holds the present key 2. *)
Definition range_l : list (Z * Z) := [(4, 40); (2, 0); (4, 41); (5, 50)]%Z.

Lemma insert_range_spec_witness :
  insert_range range_l (map3.1, map3.2) = ((map3.1, map3.2), inl no_space_error) \/
  exists um' h' ys' ys rm P, insert_range range_l (map3.1, map3.2) = ((um', h'), inr ()) /\
    umap_inv um' h' ys' /\ ys' ≡ₚ ys ++ P /\ ys ++ rm ≡ₚ [2; 3; 4]%N /\
    map (__val h') P = range_new (dom (_map map3.1)) range_l /\
    (forall q, q ∈ ys -> __val h' q = __val map3.2 q).
Proof.
  apply insert_range_spec; [apply _|exact map3_inv|].
  apply Forall_forall. apply (bool_decide_unpack _). vm_compute. reflexivity.
Defined.

Lemma copy_construct_spec_witness :
  exists um' h' ys, copy_construct (map3.1, map3.2) 100%N = ((um', h'), inr ()) /\ umap_inv um' h' ys /\
    (forall k, __val h' <$> _map um' !! k = __val map3.2 <$> _map map3.1 !! k).
Proof. apply (copy_construct_spec _ _ [2; 3; 4]%N); [apply _|exact map3_inv|vm_compute; reflexivity]. Defined.

End range_insert.
