(* ===== verification/RangeErase.v ===== *)
(** * RangeErase: the two [erase(first, last)] overloads of
    [src/limited/unordered_map.h]

    [erase(const_replacement_iterator first, last)] (lines 1264-1296,
    [limited.erase_repl_range]) extracts the node of every entry of the
    range from the index, unlinks the range from the manager's list with
    [_manager.erase(first, last)], and frees the extracted nodes when the
    deque of node handles is destroyed.  [erase(const_iterator first,
    last)] (lines 1252-1262, [limited.erase_index_range]) unlinks every
    node of an index range from the list, then erases the range from the
    index.  Both are proved to keep the invariant, to remove exactly the
    range (its keys leave the index, its nodes are freed) and to keep the
    other entries; the first returns [last]. *)

From S2P Require Import Prelude Heap IteratorOps Policy CacheManager FreeSpace LimitedMap RangeInsert.

Module range_erase.
Import policy cache_manager free_space limited range_insert.

Section RangeErase.
Context {K V : Type} `{Countable K} `{Inhabited K} `{Inhabited V}.
Implicit Types (um : @unordered_map K V _ _) (h : heap (K * V)).

(** The walk from the first node of a segment to the node after it
    visits the segment: the loop [for (it = first; it != last; ++it)]. *)
Lemma walk_segment h e X : forall (n : nat),
  chain h (X ++ [e]) -> e ∉ X -> (length X < n)%nat -> walk n h (hd_or e X) e = Some X.
Proof.
  induction X as [|x X IH]; intros [|n] Hch He Hn; cbn [length] in Hn; try lia.
  - cbn. by rewrite decide_True.
  - rewrite hd_or_cons. cbn [walk]. rewrite decide_False by set_solver.
    rewrite (chain_next _ _ _ _ Hch), IH; [done|by eapply chain_tail|set_solver|lia].
Qed.

Lemma map_extract_key_run um h k p :
  _map um !! k = Some p ->
  map_extract_key k (um, h) = ((set_index um (delete k (_map um)), h), inr (Some p)).
Proof. intros E. unfold map_extract_key. get_step. by rewrite E. Qed.

(** The extraction loop: the keys of the range leave the index, the heap
    is untouched, and every extraction yields its node. *)
Lemma extract_all_run : forall its um h ns,
  NoDup (ns ++ its) -> index_agrees (_map um) h (ns ++ its) ->
  exists i', extract_all its (um, h) = ((set_index um i', h), inr (Some <$> its)) /\ index_agrees i' h ns.
Proof.
  induction its as [|r its IH]; intros um h ns Hnd Hi.
  - exists (_map um). rewrite set_index_same, app_nil_r in *. by split.
  - cbn [extract_all]. get_step.
    assert (_map um !! (__val h r).1 = Some r) as Er by (apply (index_agrees_lookup _ _ _ _ Hi); set_solver).
    rewrite (bind_ok _ _ _ _ _ (map_extract_key_run um h _ r Er)).
    destruct (IH (set_index um (delete (__val h r).1 (_map um))) h ns) as (i' & Hrun & Hi').
    { apply NoDup_app in Hnd as (Hn1 & Hdis & [_ Hn2]%NoDup_cons). apply NoDup_app. split_and!; [done| |done].
      intros x Hx Hx'. apply (Hdis x Hx). by right. }
    { cbn [_map set_index]. by apply index_agrees_remove. }
    rewrite (bind_ok _ _ _ _ _ Hrun). rewrite set_index_twice. exists i'. by split.
Qed.

Lemma free_handles_run um h X :
  free_handles (Some <$> X) (um, h) = ((um, undo_nodes h X), inr ()).
Proof.
  revert h. induction X as [|p X IH]; intros h; [done|].
  cbn [fmap list_fmap free_handles for_each]. unfold free_handles in IH.
  erewrite (bind_ok _ _ _ _ ()); [|get_step; done]. apply IH.
Qed.

Lemma undo_nodes_lookup_notin h X q : q ∉ X -> undo_nodes h X !! q = h !! q.
Proof. intros Hq. apply (foldl_delete_lookup_notin (fun x => x)). by rewrite map_id. Qed.

Lemma undo_nodes_lookup_in h X q : q ∈ X -> undo_nodes h X !! q = None.
Proof. intros Hq. apply (foldl_delete_lookup_in (fun x => x)). by rewrite map_id. Qed.

(** The nodes of a segment of the list are none of the others. *)
Lemma segment_disjoint (s : ptr) A X C :
  NoDup (s :: A ++ X ++ C) -> NoDup (s :: A ++ C) /\ (forall q, q ∈ X -> q ∉ s :: A ++ C).
Proof.
  intros Hnd. assert (s :: A ++ X ++ C ≡ₚ X ++ s :: A ++ C) as E by solve_Permutation.
  rewrite E in Hnd. apply NoDup_app in Hnd as (_ & Hdis & Hnd). split; [done|]. intros q Hq. by apply Hdis.
Qed.

Lemma erase_repl_range_run um h A X C :
  umap_inv um h (A ++ X ++ C) ->
  let s := _first (_manager um) in
  exists um' h', erase_repl_range (hd_or (hd_or s C) X) (hd_or s C) (um, h) = ((um', h'), inr (hd_or s C)) /\
    umap_inv um' h' (A ++ C) /\
    (forall q, q ∈ X -> h' !! q = None /\ _map um' !! (__val h q).1 = None) /\
    (forall q, q ∈ A ++ C -> __val h' q = __val h q) /\
    _weight (_manager um') = _weight (_manager um) - total_weight (_manager um) h X.
Proof.
  intros Hu s. pose proof Hu as (Hinv & Hi & Hnd & _). rewrite app_nil_r in Hi, Hnd. pose proof Hinv as (Hd & _).
  pose proof (dlist_length _ _ _ Hd) as Hlen. rewrite !length_app in Hlen.
  pose proof (dlist_segment _ _ _ _ _ Hd) as (Hch & He & HndX).
  destruct (segment_disjoint s A X C Hnd) as (Hnd' & Hout).
  assert (A ++ X ++ C ≡ₚ (A ++ C) ++ X) as Hperm by solve_Permutation.
  destruct (extract_all_run X um h (A ++ C)) as (i' & Hrun & Hi').
  { rewrite <- Hperm. by apply NoDup_cons in Hnd as [_ ?]. }
  { by rewrite <- Hperm. }
  destruct (erase_range_unlinks (_manager um) h A X C Hinv) as [Er Hinv']. cbv zeta in Er, Hinv'.
  fold s in Er, Hinv'.
  set (h1 := __link h _ _) in *. set (m1 := set_weight _ _) in *.
  unfold erase_repl_range. get_step. rewrite walk_segment by (done || lia). rewrite lift_some_bind.
  rewrite (bind_ok _ _ _ _ _ Hrun). get_step. rewrite manager_set_index, Er, lift_some_bind.
  cbn iota beta. rewrite put_bind, (bind_ok _ _ _ _ _ (free_handles_run _ _ _)).
  assert (forall q, q ∈ A ++ C -> __val (undo_nodes h1 X) q = __val h q) as Hv.
  { intros q Hq. unfold __val at 1. rewrite undo_nodes_lookup_notin by (intros HqX; apply (Hout q HqX); by right).
    apply val_link. }
  eexists _, _. split; [reflexivity|]. split_and!.
  - unfold umap_inv, facade_inv. cbn [_manager _map set_manager set_index]. rewrite !app_nil_r.
    split_and!; [| |done|constructor].
    + apply (manager_inv_agree _ h1); [|done]. intros q Hq. apply undo_nodes_lookup_notin.
      intros HqX. by apply (Hout q HqX).
    + by apply (index_agrees_vals _ h).
  - intros q Hq. split; [by apply undo_nodes_lookup_in|]. cbn [_map set_manager set_index].
    destruct (i' !! (__val h q).1) as [q'|] eqn:Eq; [exfalso|done].
    apply Hi' in Eq as [Hq' Hk]. apply (Hout q Hq). right.
    rewrite (index_agrees_key _ _ _ q q' Hi); [done|set_solver|set_solver|done].
  - done.
  - done.
Qed.

(** C21: [erase(first, last)] over replacement iterators, on the segment
    [X] of the list: it returns [last]; the keys of [X] leave the index,
    its nodes are freed, its weight leaves the total; the other entries
    keep their values and the invariant holds for the list without [X]. *)
Theorem erase_repl_range_spec um h A X C :
  umap_inv um h (A ++ X ++ C) ->
  let s := _first (_manager um) in
  exists um' h', erase_repl_range (hd_or (hd_or s C) X) (hd_or s C) (um, h) = ((um', h'), inr (hd_or s C)) /\
    umap_inv um' h' (A ++ C) /\
    (forall q, q ∈ X -> h' !! q = None /\ _map um' !! (__val h q).1 = None) /\
    (forall q, q ∈ A ++ C -> __val h' q = __val h q) /\
    _weight (_manager um') = _weight (_manager um) - total_weight (_manager um) h X.
Proof. apply erase_repl_range_run. Qed.

(** ** [erase(const_iterator first, const_iterator last)] *)

Lemma facade_inv_pending_perm um h ys P P' :
  P ≡ₚ P' -> facade_inv um h ys P -> facade_inv um h ys P'.
Proof. intros Hp (Hinv & Hi & Hnd & HP). split_and!; [done|by rewrite <- Hp|by rewrite <- Hp|by rewrite <- Hp]. Qed.

(** [_manager.erase(node)] on a linked node of the facade: the node
    stays indexed and becomes pending. *)
Lemma unlink_pending um h A p B P :
  facade_inv um h (A ++ p :: B) P ->
  facade_inv (set_manager um (erase_node (_manager um) h p).1) (erase_node (_manager um) h p).2 (A ++ B) (p :: P).
Proof.
  intros (Hinv & Hi & Hnd & HP). destruct (erase_node_unlinks _ _ A p B Hinv) as [Hinv' _].
  pose proof Hinv as (Hd & _).
  assert ((A ++ p :: B) ++ P ≡ₚ (A ++ B) ++ p :: P) as E by solve_Permutation.
  unfold facade_inv. cbn [_manager _map set_manager]. split_and!.
  - done.
  - rewrite <- E. apply (index_agrees_vals _ h); [intros; apply erase_node_vals|done].
  - assert (_first (erase_node (_manager um) h p).1 = _first (_manager um)) as -> by done. by rewrite <- E.
  - unfold erase_node. cbn [snd]. constructor.
    + rewrite dom_link. eapply dlist_dom; [exact Hd|]. right. set_solver.
    + eapply Forall_impl; [exact HP|]. intros q Hq. by rewrite dom_link.
Qed.

(** The unlinking loop of the index-range erase. *)
Lemma unlink_all : forall its um h ys P,
  facade_inv um h ys P -> NoDup its -> (forall q, q ∈ its -> q ∈ ys) ->
  exists um' h' ys', for_each (fun it => with_manager (fun m h => erase_node m h it)) its (um, h) = ((um', h'), inr ()) /\
    facade_inv um' h' ys' (its ++ P) /\ ys' ++ its ≡ₚ ys /\ _map um' = _map um /\
    (forall q, __val h' q = __val h q) /\ (forall q, q ∉ dom h -> h' !! q = None).
Proof.
  induction its as [|p its IH]; intros um h ys P Hf Hnd Hin.
  - exists um, h, ys. rewrite app_nil_r. split_and!; try done. intros q Hq. by apply not_elem_of_dom.
  - apply NoDup_cons in Hnd as [Hp Hnd]. cbn [for_each].
    rewrite (bind_ok _ _ _ _ _ (with_manager_run _ _ _)).
    destruct (list_elem_of_split ys p) as (A & B & ->); [apply Hin; by left|].
    pose proof (unlink_pending um h A p B P Hf) as Hf1.
    destruct (IH _ _ (A ++ B) (p :: P) Hf1 Hnd) as (um' & h' & ys' & Hrun & Hf' & Hys' & Hm' & Hv' & Hdom').
    { intros q Hq. assert (q ∈ A ++ p :: B) as Hq' by (apply Hin; by right).
      assert (q <> p) by (intros ->; done). set_solver. }
    exists um', h', ys'. split_and!.
    + exact Hrun.
    + eapply facade_inv_pending_perm; [|exact Hf']. solve_Permutation.
    + assert (A ++ p :: B ≡ₚ p :: A ++ B) as -> by solve_Permutation. rewrite <- Hys'. solve_Permutation.
    + done.
    + intros q. rewrite Hv'. apply erase_node_vals.
    + intros q Hq. apply Hdom'. unfold erase_node. cbn [snd]. by rewrite dom_link.
Qed.

(** [_map.erase(it)] of a pending node frees it. *)
Lemma free_pending um h ys p P :
  facade_inv um h ys (p :: P) ->
  facade_inv (set_index um (delete (__val h p).1 (_map um))) (delete p h) ys P.
Proof.
  intros (Hinv & Hi & Hnd & HP). apply Forall_cons in HP as [_ HP].
  assert (p ∉ _first (_manager um) :: ys) as Hp.
  { intros Hin. rewrite app_comm_cons in Hnd. apply NoDup_app in Hnd as (_ & Hdis & _). by apply (Hdis p Hin); left. }
  unfold facade_inv. cbn [_manager _map set_index]. split_and!.
  - apply (manager_inv_agree _ h); [|done]. intros q Hq. apply lookup_delete_ne. intros ->. by apply Hp.
  - apply index_agrees_delete; [|done]. by apply NoDup_cons in Hnd as [_ ?].
  - rewrite app_comm_cons in Hnd |- *. apply NoDup_app in Hnd as (Hn1 & Hdis & [_ Hn2]%NoDup_cons).
    apply NoDup_app. split_and!; [done| |done]. intros x Hx Hx'. apply (Hdis x Hx). by right.
  - apply Forall_forall. intros q HqP. pose proof (proj1 (Forall_forall _ _) HP q HqP) as Hq.
    rewrite dom_delete_L. apply elem_of_difference. split; [done|]. apply not_elem_of_singleton. intros ->.
    apply NoDup_cons in Hnd as [_ Hnd]. apply NoDup_app in Hnd as (_ & _ & [Hpp _]%NoDup_cons). done.
Qed.

(** [_map.erase(first, last)] on the unlinked nodes. *)
Lemma free_all : forall its um h ys,
  facade_inv um h ys its ->
  exists um' h', for_each map_erase_it its (um, h) = ((um', h'), inr ()) /\ umap_inv um' h' ys /\
    (forall q, q ∈ its -> h' !! q = None) /\ (forall q, q ∉ its -> h' !! q = h !! q).
Proof.
  induction its as [|p its IH]; intros um h ys Hf.
  - exists um, h. split_and!; [done|done|set_solver|done].
  - cbn [for_each]. rewrite (bind_ok _ _ _ _ _ (map_erase_it_run _ _ _)).
    pose proof Hf as (_ & _ & Hnd & _). rewrite app_comm_cons in Hnd. apply NoDup_app in Hnd as (_ & _ & [Hp _]%NoDup_cons).
    destruct (IH _ _ ys (free_pending um h ys p its Hf)) as (um' & h' & Hrun & Hu' & Hfree & Hkeep).
    exists um', h'. split_and!; [done|done| |].
    + intros q [->|Hq]%elem_of_cons; [|by apply Hfree]. rewrite Hkeep by done. apply lookup_delete_eq.
    + intros q Hq. rewrite Hkeep by set_solver. apply lookup_delete_ne. set_solver.
Qed.

Lemma erase_index_range_run um h xs its :
  umap_inv um h xs -> NoDup its -> (forall q, q ∈ its -> q ∈ xs) ->
  exists um' h' ys, erase_index_range its (um, h) = ((um', h'), inr ()) /\ umap_inv um' h' ys /\
    ys ++ its ≡ₚ xs /\ (forall q, q ∈ its -> h' !! q = None /\ _map um' !! (__val h q).1 = None) /\
    (forall q, q ∈ ys -> __val h' q = __val h q).
Proof.
  intros Hu Hnd Hin. pose proof Hu as (_ & Hi & Hndx & _). rewrite app_nil_r in Hi, Hndx.
  destruct (unlink_all its um h xs [] Hu Hnd Hin) as (um1 & h1 & ys & Hrun1 & Hf1 & Hys & Hm1 & Hv1 & _).
  rewrite app_nil_r in Hf1.
  destruct (free_all its um1 h1 ys Hf1) as (um' & h' & Hrun2 & Hu' & Hfree & Hkeep).
  unfold erase_index_range. rewrite (bind_ok _ _ _ _ _ Hrun1), Hrun2.
  assert (forall q, q ∈ ys -> q ∉ its) as Hdis.
  { intros q Hq Hq'. apply NoDup_cons in Hndx as [_ Hndx]. rewrite <- Hys in Hndx.
    apply NoDup_app in Hndx as (_ & Hd & _). by apply (Hd q). }
  assert (forall q, q ∈ ys -> __val h' q = __val h q) as Hv.
  { intros q Hq. unfold __val at 1. rewrite Hkeep by (by apply Hdis). apply Hv1. }
  exists um', h', ys. split_and!; [done|done|done| |done].
  intros q Hq. split; [by apply Hfree|].
  destruct (_map um' !! (__val h q).1) as [q'|] eqn:Eq; [exfalso|done].
  pose proof Hu' as (_ & Hi' & _). rewrite app_nil_r in Hi'. apply Hi' in Eq as [Hq' Hk].
  rewrite Hv in Hk by done. apply (Hdis q' Hq'). replace q' with q; [done|].
  apply (index_agrees_key _ _ _ q q' Hi); [by apply Hin|rewrite <- Hys; set_solver|done].
Qed.

(** C22: [erase(first, last)] over index iterators, on any duplicate-free
    set [its] of entries (an index range is one): the nodes of [its] leave
    the list, the index and the heap; the other entries keep their values
    and the invariant holds. *)
Theorem erase_index_range_spec um h xs its :
  umap_inv um h xs -> NoDup its -> (forall q, q ∈ its -> q ∈ xs) ->
  exists um' h' ys, erase_index_range its (um, h) = ((um', h'), inr ()) /\ umap_inv um' h' ys /\
    ys ++ its ≡ₚ xs /\ (forall q, q ∈ its -> h' !! q = None /\ _map um' !! (__val h q).1 = None) /\
    (forall q, q ∈ ys -> __val h' q = __val h q).
Proof. apply erase_index_range_run. Qed.

End RangeErase.
(** Witnesses on the three-entry container [map3] (nodes 2, 3, 4). *)
Lemma erase_repl_range_spec_witness :
  exists um' h', erase_repl_range (hd_or (hd_or (_first (_manager map3.1)) [4%N]) [2; 3]%N)
                   (hd_or (_first (_manager map3.1)) [4%N]) (map3.1, map3.2) =
                 ((um', h'), inr (hd_or (_first (_manager map3.1)) [4%N])) /\
    umap_inv um' h' ([] ++ [4%N]) /\
    (forall q, q ∈ [2; 3]%N -> h' !! q = None /\ _map um' !! (__val map3.2 q).1 = None) /\
    (forall q, q ∈ [] ++ [4%N] -> __val h' q = __val map3.2 q) /\
    _weight (_manager um') = _weight (_manager map3.1) - total_weight (_manager map3.1) map3.2 [2; 3]%N.
Proof. apply (erase_repl_range_spec map3.1 map3.2 [] [2; 3]%N [4%N]). exact map3_inv. Defined.

Lemma erase_index_range_spec_witness :
  exists um' h' ys, erase_index_range [3; 2]%N (map3.1, map3.2) = ((um', h'), inr ()) /\ umap_inv um' h' ys /\
    ys ++ [3; 2]%N ≡ₚ [2; 3; 4]%N /\
    (forall q, q ∈ [3; 2]%N -> h' !! q = None /\ _map um' !! (__val map3.2 q).1 = None) /\
    (forall q, q ∈ ys -> __val h' q = __val map3.2 q).
Proof.
  apply erase_index_range_spec; [exact map3_inv|apply (bool_decide_unpack _); vm_compute; reflexivity|].
  apply Forall_forall. apply (bool_decide_unpack _). vm_compute. reflexivity.
Defined.

End range_erase.
