(* ===== verification/FacadeOps.v ===== *)
(** * FacadeOps: the rest of the facade's public operations

    The lookups with and without the policy's [access] ([find],
    [count], [contains], [at] and their [quiet_] forms), [operator[]],
    [emplace], [try_emplace], [insert_or_assign], [erase] of an index or
    a replacement iterator, [provide_space], and the assignment from an
    initializer list ([operator=(initializer_list)]), each specified on a
    well-formed container from the run lemmas of [LimitedMap] and
    [RangeInsert]. *)

From S2P Require Import Prelude Heap IteratorOps Policy CacheManager FreeSpace LimitedMap RangeInsert.

Module facade_ops.
Import policy cache_manager limited range_insert.

Section FacadeOps.
Context {K V : Type} `{Countable K} `{Inhabited K} `{Inhabited V}.
Implicit Types (st : @fstate K V _ _) (um : @unordered_map K V _ _) (h : heap (K * V)).

(** [operator=(const unordered_map& other)]: [_manager] is move-assigned
    a temporary manager built with [other]'s capacity, weigher and
    policy (its sentinel at [t], whose storage ends with the statement);
    the index is cleared; then [insert(other.begin(), other.end())]
    reads [other]'s entries.  [other = None] is the assignment of the
    container to itself: [other] is [*this], read where the source reads
    it. *)
Definition copy_assign (other : option (@fstate K V _ _)) (t : ptr) : @M K V _ _ unit :=
  '(um, h) ← get;
  let mo := _manager (default (um, h) other).1 in
  let '(tmp, h) := cache_manager.construct t (_capacity mo) (_weigher mo) (_policy mo) h in
  let '(m, _, h) := cache_manager.move_assign (_manager um) tmp h in
  put (set_manager um m, delete t h);;
  map_clear;;
  st ← get;
  insert_range (index_values (default st other)).

Lemma bind_assoc {A B C} (c : @M K V _ _ A) (f : A -> @M K V _ _ B) (g : B -> @M K V _ _ C) st :
  ((c ≫= f) ≫= g) st = (c ≫= (fun a => f a ≫= g)) st.
Proof. unfold mbind, M_bind. by destruct (c st) as [st' [e|a]]. Qed.

Lemma ret_bind {A B} (a : A) (f : A -> @M K V _ _ B) st : (mret a ≫= f) st = f a st.
Proof. done. Qed.

(** [emplace] and [try_emplace] run the body of [insert(value)]. *)
Lemma emplace_insert_value (v : K * V) : emplace v = insert_value v.
Proof. done. Qed.

Lemma indexed_node um h xs k p : umap_inv um h xs -> _map um !! k = Some p -> p ∈ xs.
Proof. intros (_ & Hi & _) [Hp _]%Hi. by rewrite app_nil_r in Hp. Qed.

Lemma indexed_key um h xs k p : umap_inv um h xs -> _map um !! k = Some p -> (__val h p).1 = k.
Proof. intros (_ & Hi & _) [_ Hk]%Hi. done. Qed.

Lemma mapped_at_run p st : mapped_at p st = (st, inr (__val st.2 p).2).
Proof. by destruct st. Qed.

(** The mapped value read after [access] is the one read before. *)
Lemma access_val um h p q : PolicyLaws (_policy (_manager um)) -> __val (access (_manager um) h p) q = __val h q.
Proof.
  intros Hpol. assert (access (_manager um) h p ≈ₚ h) as Hh by apply access_payload.
  by rewrite (val_proper _ _ Hh q q eq_refl).
Qed.

Lemma lookup_equiv st k :
  PolicyLaws (_policy (_manager st.1)) ->
  (quiet_find k st).1 = st /\ (quiet_count k st).1 = st /\ (quiet_contains k st).1 = st /\
  (quiet_at k st).1 = st /\
  find k st = ((access_key k st).1, (quiet_find k st).2) /\
  count k st = ((access_key k st).1, (quiet_count k st).2) /\
  contains k st = ((access_key k st).1, (quiet_contains k st).2) /\
  at_ k st = ((access_key k st).1, (quiet_at k st).2) /\
  replacement_find k st =
    ((access_key k st).1, inr (default (end_ (_manager st.1)) (_map st.1 !! k))).
Proof.
  intros Hpol. destruct st as [um h].
  unfold quiet_find, quiet_count, quiet_contains, quiet_at, find, count, contains, at_, replacement_find,
    access_key.
  rewrite !(bind_ok _ _ _ _ _ (map_find_run um h k)), !map_find_run. cbn [fst snd] in Hpol |- *.
  destruct (_map um !! k) as [p|]; cbv beta iota; [|split_and!; reflexivity].
  unfold manager_access. rewrite !(bind_ok _ _ _ _ _ (with_manager_run _ um h)), !with_manager_run. cbn.
  split_and!; try reflexivity. rewrite !mapped_at_run. cbn [fst snd]. by rewrite access_val.
Qed.

(** The lookups that run the policy's [access] ([find], [count],
    [contains], [at], [replacement_find]) return what their [quiet_]
    forms return, and change the container exactly as [access(key)]
    does; the [quiet_] forms change nothing. *)
Theorem lookup_quiet_equiv st k :
  PolicyLaws (_policy (_manager st.1)) ->
  (quiet_find k st).1 = st /\ (quiet_count k st).1 = st /\ (quiet_contains k st).1 = st /\
  (quiet_at k st).1 = st /\
  find k st = ((access_key k st).1, (quiet_find k st).2) /\
  count k st = ((access_key k st).1, (quiet_count k st).2) /\
  contains k st = ((access_key k st).1, (quiet_contains k st).2) /\
  at_ k st = ((access_key k st).1, (quiet_at k st).2) /\
  replacement_find k st =
    ((access_key k st).1, inr (default (end_ (_manager st.1)) (_map st.1 !! k))).
Proof. apply lookup_equiv. Qed.

Lemma index_agrees_here um h ys p k :
  umap_inv um h ys -> p ∈ ys -> (__val h p).1 = k -> _map um !! k = Some p.
Proof. intros (_ & Hi & _) Hp Hk. apply Hi. rewrite app_nil_r. done. Qed.

Lemma subscript_run um h xs (v : K * V) :
  PolicyLaws (_policy (_manager um)) -> umap_inv um h xs ->
  (forall p, _map um !! v.1 = Some p ->
     exists ys, subscript_value v (um, h) = ((um, access (_manager um) h p), inr (__val h p).2) /\
       umap_inv um (access (_manager um) h p) ys) /\
  (_map um !! v.1 = None ->
     subscript_value v (um, h) = ((um, h), inl no_space_error) \/
     exists um' h' ys p, subscript_value v (um, h) = ((um', h'), inr v.2) /\ umap_inv um' h' ys /\
       _map um' !! v.1 = Some p /\ __val h' p = v).
Proof.
  intros Hpol Hu. unfold subscript_value. rewrite (bind_ok _ _ _ _ _ (map_find_run um h v.1)). split.
  - intros p Hk. rewrite Hk. cbv beta iota.
    destruct (manager_access_run um h xs p Hpol Hu (indexed_node _ _ _ _ _ Hu Hk)) as (ys & _ & E & Hu').
    exists ys. rewrite bind_assoc, (bind_ok _ _ _ _ _ E). cbv beta. rewrite ret_bind, mapped_at_run. cbn [fst snd].
    by rewrite access_val.
  - intros Hk. rewrite Hk. cbv beta iota. rewrite bind_assoc.
    destruct (insert_value_run um h xs v Hpol Hu) as [_ Ha].
    destruct (Ha Hk) as [E|(um' & h' & A & B & p & E & Hu' & _ & Hv & Hm)].
    + left. by rewrite (bind_err _ _ _ _ _ E).
    + right. exists um', h', (A ++ p :: B), p. rewrite (bind_ok _ _ _ _ _ E). cbv beta.
      rewrite ret_bind, mapped_at_run. cbn [fst snd]. by rewrite Hv.
Qed.

(** C24: [operator[](value)]: on a present key it runs the policy's
    [access] and returns the stored mapped value; on a missing key it
    inserts [value] and returns its mapped value, or throws
    [no_space_error] with the container unchanged; the invariant holds. *)
Theorem subscript_spec um h xs (v : K * V) :
  PolicyLaws (_policy (_manager um)) -> umap_inv um h xs ->
  (forall p, _map um !! v.1 = Some p ->
     exists ys, subscript_value v (um, h) = ((um, access (_manager um) h p), inr (__val h p).2) /\
       umap_inv um (access (_manager um) h p) ys) /\
  (_map um !! v.1 = None ->
     subscript_value v (um, h) = ((um, h), inl no_space_error) \/
     exists um' h' ys p, subscript_value v (um, h) = ((um', h'), inr v.2) /\ umap_inv um' h' ys /\
       _map um' !! v.1 = Some p /\ __val h' p = v).
Proof. apply subscript_run. Qed.

Lemma insert_or_assign_run um h xs k obj :
  PolicyLaws (_policy (_manager um)) -> umap_inv um h xs ->
  insert_or_assign k obj (um, h) = ((um, h), inl no_space_error) \/
  exists um' h' ys p, insert_or_assign k obj (um, h) = ((um', h'), inr (p, bool_decide (_map um !! k = None))) /\
    umap_inv um' h' ys /\ _map um' !! k = Some p /\ __val h' p = (k, obj).
Proof.
  intros Hpol Hu. unfold insert_or_assign. rewrite (bind_ok _ _ _ _ _ (map_find_run um h k)).
  destruct (_map um !! k) as [p|] eqn:Hk; cbv beta iota.
  - destruct (assign_run um h xs p obj Hpol Hu (indexed_node _ _ _ _ _ Hu Hk))
      as [[E _]|(um' & h' & ys & E & Hu' & _ & Hp & Hv & _)].
    + left. by rewrite (bind_err _ _ _ _ _ E).
    + right. exists um', h', ys, p. rewrite (bind_ok _ _ _ _ _ E).
      rewrite (indexed_key _ _ _ _ _ Hu Hk) in Hv.
      split_and!; [case_bool_decide; [congruence|reflexivity]|done|eapply index_agrees_here; [exact Hu'|exact Hp|by rewrite Hv]|done].
  - rewrite emplace_insert_value. destruct (insert_value_run um h xs (k, obj) Hpol Hu) as [_ Ha].
    destruct (Ha Hk) as [E|(um' & h' & A & B & p & E & Hu' & _ & Hv & Hm)]; [by left|].
    right. exists um', h', (A ++ p :: B), p. rewrite E. case_bool_decide; [done|congruence].
Qed.

(** C23: [insert_or_assign(k, obj)]: either [no_space_error] with the
    container unchanged, or [k] maps to a node holding [(k, obj)], the
    invariant holds, and the flag returned says whether [k] was absent. *)
Theorem insert_or_assign_spec um h xs k obj :
  PolicyLaws (_policy (_manager um)) -> umap_inv um h xs ->
  insert_or_assign k obj (um, h) = ((um, h), inl no_space_error) \/
  exists um' h' ys p, insert_or_assign k obj (um, h) = ((um', h'), inr (p, bool_decide (_map um !! k = None))) /\
    umap_inv um' h' ys /\ _map um' !! k = Some p /\ __val h' p = (k, obj).
Proof. apply insert_or_assign_run. Qed.

Lemma erase_position_run um h A p B :
  umap_inv um h (A ++ p :: B) ->
  exists um' h', erase_it p (um, h) = ((um', h'), inr ()) /\
    erase_repl p (um, h) = ((um', h'), inr (hd_or (_first (_manager um)) B)) /\
    umap_inv um' h' (A ++ B) /\ _map um' !! (__val h p).1 = None /\ h' !! p = None.
Proof.
  intros Hu. pose proof Hu as ((Hd & _) & _).
  assert (_map um !! (__val h p).1 = Some p) as Hk by (eapply index_agrees_here; [exact Hu|set_solver|done]).
  pose proof (unlink_free um h A p B Hu) as Hu'. rewrite erase_node_vals in Hu'.
  eexists _, _. split_and!; [| |exact Hu'|apply lookup_delete_eq|apply lookup_delete_eq].
  - unfold erase_it. rewrite (bind_ok _ _ _ _ _ (with_manager_run _ um h)), map_erase_it_run.
    by rewrite map_set_manager, erase_node_vals.
  - unfold erase_repl, erase. get_step. destruct (erase_node (_manager um) h p) as [m' h'].
    cbv beta iota zeta. rewrite put_bind.
    assert (_map (set_manager um m') !! (__val h p).1 = Some p) as Hk' by by rewrite map_set_manager.
    rewrite (bind_ok _ _ _ _ _ (map_erase_key_run _ h' _ p Hk')).
    rewrite map_set_manager.
    by rewrite (dlist_next _ _ _ _ _ Hd).
Qed.

(** C25: [erase(const_iterator)] and [erase(const_replacement_iterator)]
    at the node of an entry remove exactly that entry: both reach the
    same state, in which the entry's key has left the index, its node is
    freed and the invariant holds for the list without it; the
    replacement-iterator form returns the node's successor in the list. *)
Theorem erase_position_spec um h A p B :
  umap_inv um h (A ++ p :: B) ->
  exists um' h', erase_it p (um, h) = ((um', h'), inr ()) /\
    erase_repl p (um, h) = ((um', h'), inr (hd_or (_first (_manager um)) B)) /\
    umap_inv um' h' (A ++ B) /\ _map um' !! (__val h p).1 = None /\ h' !! p = None.
Proof. apply erase_position_run. Qed.

Lemma provide_space_run um h xs (w : Z) :
  PolicyLaws (_policy (_manager um)) -> umap_inv um h xs -> 0 <= w ->
  provide_space w (um, h) = ((um, h), inl no_space_error) \/
  exists um' h' ys, provide_space w (um, h) = ((um', h'), inr ()) /\ umap_inv um' h' ys /\
    (exists rm, ys ++ rm ≡ₚ xs) /\ _weight (_manager um') + w <= _capacity (_manager um) /\
    (forall q, q ∈ ys -> __val h' q = __val h q).
Proof.
  intros Hpol Hu Hw. unfold provide_space.
  destruct (provideSpace_run um h xs [] w Hpol Hu Hw) as [E|(um' & h' & ys & E & Hu' & Hrm & _ & _ & Hfit & Hv)].
  - left. by rewrite (bind_ok _ _ _ _ _ E).
  - right. exists um', h', ys. rewrite (bind_ok _ _ _ _ _ E). rewrite app_nil_r in Hv. by split_and!.
Qed.

(** [provide_space(space)]: either [no_space_error] with the
    container unchanged, or room for [space] within the capacity, made by
    evicting entries only, the survivors keeping their values. *)
Theorem provide_space_spec um h xs (w : Z) :
  PolicyLaws (_policy (_manager um)) -> umap_inv um h xs -> 0 <= w ->
  provide_space w (um, h) = ((um, h), inl no_space_error) \/
  exists um' h' ys, provide_space w (um, h) = ((um', h'), inr ()) /\ umap_inv um' h' ys /\
    (exists rm, ys ++ rm ≡ₚ xs) /\ _weight (_manager um') + w <= _capacity (_manager um) /\
    (forall q, q ∈ ys -> __val h' q = __val h q).
Proof. apply provide_space_run. Qed.

(** The [size_t] sum of [operator=(initializer_list)] is the exact sum
    when that does not reach [SIZE_MAX + 1]. *)
Lemma foldl_size_sum (m : @cache_manager (K * V)) l : forall acc,
  0 <= acc -> acc + entries_weight m l < size_modulus ->
  foldl (fun w i => w +ₛ calculate_weight m i) acc l = acc + entries_weight m l.
Proof.
  induction l as [|v l IH]; intros acc Ha Hl; cbn in *; [lia|].
  pose proof (calculate_weight_range m v). pose proof (entries_weight_nonneg m l).
  unfold entries_weight in *. rewrite size_add_exact by lia. rewrite IH by lia. lia.
Qed.

Lemma range_new_weight (m : @cache_manager (K * V)) l : forall seen,
  entries_weight m (range_new seen l) <= entries_weight m l.
Proof.
  induction l as [|v l IH]; intros seen; cbn; [done|].
  pose proof (calculate_weight_range m v). specialize (IH seen) as IH1.
  case_decide; cbn; unfold entries_weight in *; [lia|]. specialize (IH ({[v.1]} ∪ seen)). lia.
Qed.

Lemma clear_seq {A} (c : @M K V _ _ A) st :
  (with_manager cache_manager.clear;; map_clear;; c) st = (clear ≫= fun _ => c) st.
Proof. unfold clear. by rewrite bind_assoc. Qed.

Lemma clear_manager um h : _manager (clear (um, h)).1.1 = set_weight (_manager um) 0.
Proof. done. Qed.

Lemma assign_list_run um h xs l :
  PolicyLaws (_policy (_manager um)) -> umap_inv um h xs ->
  (forall v, v ∈ l -> _capacity (_manager um) + calculate_weight (_manager um) v < size_modulus) ->
  entries_weight (_manager um) l < size_modulus ->
  (_capacity (_manager um) < entries_weight (_manager um) l /\
   assign_list l (um, h) = ((um, h), inl no_space_error)) \/
  (entries_weight (_manager um) l <= _capacity (_manager um) /\
   exists um' h' ys, assign_list l (um, h) = ((um', h'), inr ()) /\ umap_inv um' h' ys /\
     map (__val h') ys ≡ₚ range_new ∅ l).
Proof.
  intros Hpol Hu Hl Hsum. unfold assign_list. get_step.
  rewrite foldl_size_sum by (done || lia). rewrite Z.add_0_l.
  case_decide as Hgt; [left; split; [lia|done]|right; split; [lia|]].
  rewrite clear_seq. pose proof (clear_manager um h) as Hm0.
  destruct (clear_map_run um h xs Hu) as (um0 & h0 & E & Hu0 & Hi0 & Hw0 & _).
  rewrite E in Hm0. cbn [fst] in Hm0. rewrite (bind_ok _ _ _ _ _ E).
  destruct (insert_range_room um0 h0 [] l) as (um' & h' & ys' & P & E' & Hu' & Hys & Hvals & _).
  - by rewrite Hm0.
  - done.
  - intros v Hv. rewrite Hm0. by apply Hl.
  - rewrite Hm0, Hi0, dom_empty_L.
    change (0 + entries_weight (_manager um) (range_new ∅ l) <= _capacity (_manager um)).
    pose proof (range_new_weight (_manager um) l ∅). lia.
  - exists um', h', ys'. split_and!; [done|done|]. rewrite Hys. cbn.
    by rewrite Hvals, Hi0, dom_empty_L.
Qed.

(** C26: [operator=(initializer_list)], when the exact sum of the
    weights of the list fits in [size_t]: if the sum exceeds the
    capacity it throws [no_space_error] and leaves the container as it
    was; otherwise it succeeds, and the container holds exactly the first
    entry of each key of the list, in a well-formed state. *)
Theorem assign_list_spec um h xs l :
  PolicyLaws (_policy (_manager um)) -> umap_inv um h xs ->
  (forall v, v ∈ l -> _capacity (_manager um) + calculate_weight (_manager um) v < size_modulus) ->
  entries_weight (_manager um) l < size_modulus ->
  (_capacity (_manager um) < entries_weight (_manager um) l /\
   assign_list l (um, h) = ((um, h), inl no_space_error)) \/
  (entries_weight (_manager um) l <= _capacity (_manager um) /\
   exists um' h' ys, assign_list l (um, h) = ((um', h'), inr ()) /\ umap_inv um' h' ys /\
     map (__val h') ys ≡ₚ range_new ∅ l).
Proof. apply assign_list_run. Qed.

Lemma assign_list_wrap_run um h xs l :
  PolicyLaws (_policy (_manager um)) -> umap_inv um h xs ->
  (forall v, v ∈ l -> _capacity (_manager um) + calculate_weight (_manager um) v < size_modulus) ->
  foldl (fun w i => w +ₛ calculate_weight (_manager um) i) 0 l <= _capacity (_manager um) <
    entries_weight (_manager um) l ->
  exists um' h' r, assign_list l (um, h) = ((um', h'), r) /\
    (forall k, k ∉ l.*1 -> _map um' !! k = None) /\ (r = inl no_space_error -> _map um' = ∅).
Proof.
  intros Hpol Hu Hl [Hwrap Hgt]. unfold assign_list. get_step.
  rewrite decide_False by lia. rewrite clear_seq. pose proof (clear_manager um h) as Hm0.
  destruct (clear_map_run um h xs Hu) as (um0 & h0 & E & Hu0 & Hi0 & _).
  rewrite E in Hm0. cbn [fst] in Hm0. rewrite (bind_ok _ _ _ _ _ E).
  destruct (insert_range_run um0 h0 [] l) as [E'|(um' & h' & ys' & ys & rm & P & E' & Hu' & Hys' & Hrm & HP & _)].
  - by rewrite Hm0.
  - done.
  - intros v Hv. rewrite Hm0. by apply Hl.
  - exists um0, h0, (inl no_space_error). rewrite E'. split_and!; [done| |done].
    intros k _. by rewrite Hi0, lookup_empty.
  - exists um', h', (inr ()). rewrite E'. split_and!; [done| |done].
    intros k Hk. destruct (_map um' !! k) as [p|] eqn:Ep; [exfalso|done].
    apply Permutation_nil_r, app_eq_nil in Hrm as [-> _].
    pose proof Hu' as (_ & Hi & _). apply Hi in Ep as [Hp <-]. rewrite app_nil_r, Hys' in Hp.
    apply Hk, list_elem_of_fmap_2, (range_new_sub (dom (_map um0))). rewrite <- HP.
    by apply list_elem_of_fmap_2.
Qed.

(** C33: [operator=(initializer_list)] sums the weights of the list in
    [size_t] without checking each step: when the sum wraps to at most the
    capacity while the exact sum exceeds it, the check made before the
    container is cleared passes, so the assignment is not atomic.  Every
    old entry whose key is not in the list is gone, and if the range
    insert that follows throws [no_space_error], the container is left
    empty. *)
Theorem assign_list_wrap um h xs l :
  PolicyLaws (_policy (_manager um)) -> umap_inv um h xs ->
  (forall v, v ∈ l -> _capacity (_manager um) + calculate_weight (_manager um) v < size_modulus) ->
  foldl (fun w i => w +ₛ calculate_weight (_manager um) i) 0 l <= _capacity (_manager um) <
    entries_weight (_manager um) l ->
  exists um' h' r, assign_list l (um, h) = ((um', h'), r) /\
    (forall k, k ∉ l.*1 -> _map um' !! k = None) /\ (r = inl no_space_error -> _map um' = ∅).
Proof. apply assign_list_wrap_run. Qed.

Lemma map_clear_run um h :
  map_clear (um, h) = ((set_index um ∅, foldr delete h (map_to_list (_map um)).*2), inr ()).
Proof. done. Qed.

(** A sentinel linked to itself: the empty list of a manager. *)
Lemma empty_manager_inv cap s w pol h (d : K * V) :
  h !! s = Some (d, mk_cache_node s s 0) -> 0 <= cap < size_modulus ->
  manager_inv (mk_cache_manager cap s 0 w pol) h [].
Proof.
  intros Hs Hc. repeat split; cbn [_weight _capacity _first]; try lia.
  - apply NoDup_singleton.
  - apply Forall_singleton. apply elem_of_dom. eauto.
  - unfold __next. by rewrite Hs.
  - unfold __prev. by rewrite Hs.
  - constructor.
Qed.

(** The first half of the copy assignment: the new manager moved into
    [_manager] and [_map.clear()] leave an empty well-formed container at
    the old sentinel, from which the entries of [other] are then read. *)
Lemma copy_assign_clear um h xs (other : option (@fstate K V _ _)) t :
  umap_inv um h xs -> t ∉ dom h ->
  0 <= _capacity (_manager (default (um, h) other).1) < size_modulus ->
  exists S, copy_assign other t (um, h) = insert_range (index_values (default S other)) S /\
    umap_inv S.1 S.2 [] /\ _map S.1 = ∅ /\
    _manager S.1 = mk_cache_manager (_capacity (_manager (default (um, h) other).1)) (_first (_manager um)) 0
      (_weigher (_manager (default (um, h) other).1)) (_policy (_manager (default (um, h) other).1)).
Proof.
  set (mo := _manager (default (um, h) other).1). intros Hu Ht Hc.
  pose proof Hu as ((Hd & _) & Hi & Hnd & _). rewrite app_nil_r in Hi, Hnd.
  assert (_first (_manager um) ∈ dom h) as [d Hs]%elem_of_dom by (apply (dlist_dom _ _ _ _ Hd); set_solver).
  destruct (move_assign_fresh (_manager um) h t (_capacity mo) (_weigher mo) (_policy mo) d Hs Ht) as [Em Eh].
  unfold copy_assign. get_step. fold mo.
  destruct (construct t _ _ _ h) as [tmp h1] eqn:Ec. cbn [fst snd] in Em, Eh.
  destruct (move_assign (_manager um) tmp h1) as [[m o'] h2] eqn:Ema. cbn [fst snd] in Em, Eh. subst m.
  cbv beta iota. rewrite put_bind, (bind_ok _ _ _ _ _ (map_clear_run _ _)). cbv beta. get_step.
  eexists. split; [reflexivity|]. rewrite Eh.
  set (s := _first (_manager um)) in *.
  assert (forall q, q ∈ (map_to_list (_map um)).*2 -> q ∈ xs) as Hl.
  { intros q ([k q'] & -> & Hkq%elem_of_map_to_list)%list_elem_of_fmap. by apply Hi in Hkq as [? _]. }
  assert (s ∉ (map_to_list (_map um)).*2) as Hsl.
  { intros Hin%Hl. apply NoDup_cons in Hnd as [Hn _]. by apply Hn. }
  split_and!; cbn [_map _manager set_index set_manager app fst snd]; [|done|done].
  split_and!; cbn [_map _manager set_index set_manager app].
  - apply (empty_manager_inv _ _ _ _ _ d.1). rewrite lookup_foldr_delete, decide_False by done.
    apply lookup_insert_eq. done.
  - intros k q. rewrite lookup_empty. set_solver.
  - apply NoDup_singleton.
  - constructor.
Qed.

Lemma copy_assign_run um h xs umo ho xso t :
  PolicyLaws (_policy (_manager umo)) -> umap_inv um h xs -> umap_inv umo ho xso ->
  2 * _capacity (_manager umo) < size_modulus -> t ∉ dom h ->
  exists um' h' ys, copy_assign (Some (umo, ho)) t (um, h) = ((um', h'), inr ()) /\ umap_inv um' h' ys /\
    (forall k, __val h' <$> _map um' !! k = __val ho <$> _map umo !! k).
Proof.
  intros Hpol Hu Huo Hcap Ht.
  pose proof Huo as ((_ & Hwto & [Hwco Hco] & _) & _). pose proof (total_weight_nonneg (_manager umo) ho xso).
  destruct (copy_assign_clear um h xs (Some (umo, ho)) t Hu Ht) as ([um0 h0] & -> & Hu0 & Hi0 & Hm0);
    [cbn; lia|].
  by apply (fill_run umo ho xso um0 h0 (_first (_manager um))).
Qed.

(** [m = m]: the entries are read after the clear. *)
Lemma copy_assign_self_run um h xs t :
  PolicyLaws (_policy (_manager um)) -> umap_inv um h xs ->
  2 * _capacity (_manager um) < size_modulus -> t ∉ dom h ->
  exists um' h' ys, copy_assign None t (um, h) = ((um', h'), inr ()) /\ umap_inv um' h' ys /\ _map um' = ∅.
Proof.
  intros Hpol Hu Hcap Ht.
  pose proof Hu as ((_ & Hwt & [Hwc Hc] & _) & _). pose proof (total_weight_nonneg (_manager um) h xs).
  destruct (copy_assign_clear um h xs None t Hu Ht) as ([um0 h0] & -> & Hu0 & Hi0 & Hm0); [cbn; lia|].
  cbn [default fst] in Hm0 |- *.
  destruct (fill_run um0 h0 [] um0 h0 (_first (_manager um))) as (um' & h' & ys & E & Hu' & Hv);
    [by rewrite Hm0|done|by rewrite Hm0; cbn; lia|done|done|by rewrite Hm0|].
  exists um', h', ys. split_and!; [done|done|]. apply map_eq. intros k. specialize (Hv k).
  cbn [fst] in Hi0. rewrite Hi0, lookup_empty in Hv. rewrite lookup_empty. by destruct (_map um' !! k).
Qed.

(** C18: the copy assignment [*this = other] from another well-formed
    container (capacity at most [SIZE_MAX / 2]) never throws; the
    container is well formed and maps every key to a node holding the
    same entry as [other]. *)
Theorem copy_assign_spec um h xs umo ho xso t :
  PolicyLaws (_policy (_manager umo)) -> umap_inv um h xs -> umap_inv umo ho xso ->
  2 * _capacity (_manager umo) < size_modulus -> t ∉ dom h ->
  exists um' h' ys, copy_assign (Some (umo, ho)) t (um, h) = ((um', h'), inr ()) /\ umap_inv um' h' ys /\
    (forall k, __val h' <$> _map um' !! k = __val ho <$> _map umo !! k).
Proof. apply copy_assign_run. Qed.

(** C35: the copy assignment has no self-assignment check: [m = m]
    resets the manager and clears the index before it reads [m]'s
    entries, so on any well-formed container it returns normally and
    leaves the container well formed but empty, whatever it held. *)
Theorem copy_assign_self um h xs t :
  PolicyLaws (_policy (_manager um)) -> umap_inv um h xs ->
  2 * _capacity (_manager um) < size_modulus -> t ∉ dom h ->
  exists um' h' ys, copy_assign None t (um, h) = ((um', h'), inr ()) /\ umap_inv um' h' ys /\ _map um' = ∅.
Proof. apply copy_assign_self_run. Qed.

End FacadeOps.
(** ** Witnesses on [map3] *)

Lemma lookup_quiet_equiv_witness :
  find 2%Z map3 = ((access_key 2%Z map3).1, (quiet_find 2%Z map3).2) /\
  at_ 2%Z map3 = ((access_key 2%Z map3).1, (quiet_at 2%Z map3).2).
Proof.
  destruct (lookup_quiet_equiv map3 2%Z ltac:(apply _)) as (_ & _ & _ & _ & Hf & _ & _ & Ha & _).
  exact (conj Hf Ha).
Defined.

Lemma subscript_spec_witness :
  subscript_value (4%Z, 40%Z) (map3.1, map3.2) = ((map3.1, map3.2), inl no_space_error) \/
  exists um' h' ys p, subscript_value (4%Z, 40%Z) (map3.1, map3.2) = ((um', h'), inr 40%Z) /\
    umap_inv um' h' ys /\ _map um' !! 4%Z = Some p /\ __val h' p = (4%Z, 40%Z).
Proof.
  apply (proj2 (subscript_spec map3.1 map3.2 [2; 3; 4]%N (4%Z, 40%Z) ltac:(apply _) map3_inv)).
  vm_compute. reflexivity.
Defined.

Lemma insert_or_assign_spec_witness :
  insert_or_assign 2%Z 7%Z (map3.1, map3.2) = ((map3.1, map3.2), inl no_space_error) \/
  exists um' h' ys p, insert_or_assign 2%Z 7%Z (map3.1, map3.2) =
      ((um', h'), inr (p, bool_decide (_map map3.1 !! 2%Z = None))) /\
    umap_inv um' h' ys /\ _map um' !! 2%Z = Some p /\ __val h' p = (2%Z, 7%Z).
Proof. apply (insert_or_assign_spec _ _ [2; 3; 4]%N); [apply _|exact map3_inv]. Defined.

Lemma erase_position_spec_witness :
  exists um' h', erase_it 3%N (map3.1, map3.2) = ((um', h'), inr ()) /\
    erase_repl 3%N (map3.1, map3.2) = ((um', h'), inr (hd_or (_first (_manager map3.1)) [4%N])) /\
    umap_inv um' h' [2; 4]%N /\ _map um' !! (__val map3.2 3%N).1 = None /\ h' !! 3%N = None.
Proof. apply (erase_position_spec _ _ [2%N] 3%N [4%N]). exact map3_inv. Defined.

Lemma provide_space_spec_witness :
  provide_space 2 (map3.1, map3.2) = ((map3.1, map3.2), inl no_space_error) \/
  exists um' h' ys, provide_space 2 (map3.1, map3.2) = ((um', h'), inr ()) /\ umap_inv um' h' ys /\
    (exists rm, ys ++ rm ≡ₚ [2; 3; 4]%N) /\ _weight (_manager um') + 2 <= _capacity (_manager map3.1) /\
    (forall q, q ∈ ys -> __val h' q = __val map3.2 q).
Proof. apply (provide_space_spec _ _ [2; 3; 4]%N); [apply _|exact map3_inv|lia]. Defined.

Lemma assign_list_spec_witness :
  (_capacity (_manager map3.1) < entries_weight (_manager map3.1) range_l /\
   assign_list range_l (map3.1, map3.2) = ((map3.1, map3.2), inl no_space_error)) \/
  (entries_weight (_manager map3.1) range_l <= _capacity (_manager map3.1) /\
   exists um' h' ys, assign_list range_l (map3.1, map3.2) = ((um', h'), inr ()) /\ umap_inv um' h' ys /\
     map (__val h') ys ≡ₚ range_new ∅ range_l).
Proof.
  apply (assign_list_spec _ _ [2; 3; 4]%N); [apply _|exact map3_inv| |vm_compute; reflexivity].
  apply Forall_forall. apply (bool_decide_unpack _). vm_compute. reflexivity.
Defined.

Lemma copy_assign_spec_witness :
  exists um' h' ys, copy_assign (Some (map3.1, map3.2)) 100%N ((empty_map 5 unit_weight fifo).1, (empty_map 5 unit_weight fifo).2) =
      ((um', h'), inr ()) /\ umap_inv um' h' ys /\
    (forall k, __val h' <$> _map um' !! k = __val map3.2 <$> _map map3.1 !! k).
Proof.
  apply (copy_assign_spec _ _ [] _ _ [2; 3; 4]%N); [apply _| |exact map3_inv|vm_compute; reflexivity|].
  - apply (bool_decide_unpack _). vm_compute. reflexivity.
  - apply (bool_decide_unpack _). vm_compute. reflexivity.
Defined.

Lemma copy_assign_self_witness :
  exists um' h' ys, copy_assign None 100%N (map3.1, map3.2) = ((um', h'), inr ()) /\ umap_inv um' h' ys /\
    _map um' = ∅.
Proof.
  apply (copy_assign_self _ _ [2; 3; 4]%N); [apply _|exact map3_inv|vm_compute; reflexivity|].
  apply (bool_decide_unpack _). vm_compute. reflexivity.
Defined.

End facade_ops.
