(* ===== verification/Machine.v ===== *)
(** * Machine: the container as a state machine

    The public operations of [limited::unordered_map] as one command type
    [op], run by [run_op] on a facade state; [step] is the transition
    relation of a client that issues one command at a time, and
    [reachable] closes the constructors (the empty container, the copy of
    a reachable container) under it.  The theorems show, by rule
    induction on [reachable], that every reachable state satisfies the
    container's invariant [umap_inv], and that no command issued from a
    reachable state runs out of fuel: every loop of the model returns a
    value or one of the exceptions of the C++ code. *)

From S2P Require Import Prelude Heap IteratorOps Policy CacheManager FreeSpace LimitedMap RangeInsert RangeErase FacadeOps.

Module machine.
Import policy cache_manager limited range_insert range_erase facade_ops.

Section Machine.
Context {K V : Type} `{Countable K} `{Inhabited K} `{Inhabited V}.
Implicit Types (st : @fstate K V _ _) (um : @unordered_map K V _ _) (h : heap (K * V)).

(** The public member functions that change the container, with their
    arguments; a range of replacement iterators is given by its two
    addresses, a range of index iterators by the nodes it visits. *)
Inductive op :=
  | Insert (v : K * V)
  | Emplace (v : K * V)
  | TryEmplace (k : K) (obj : V)
  | InsertOrAssign (k : K) (obj : V)
  | Subscript (k : K)
  | Erase (k : K)
  | Find (k : K)
  | At (k : K)
  | Count (k : K)
  | Contains (k : K)
  | ReplacementFind (k : K)
  | Access (k : K)
  | Assign (k : K) (obj : V)
  | Reinsert (k : K)
  | FreeSpace (w : Z)
  | ProvideSpace (w : Z)
  | EraseIt (p : ptr)
  | EraseRepl (p : ptr)
  | InsertRange (l : list (K * V))
  | EraseReplRange (first last : ptr)
  | EraseIndexRange (its : list ptr)
  | AssignList (l : list (K * V))
  | Clear.

(** A call whose result the client drops. *)
Definition discard {A} (c : @M K V _ _ A) : @M K V _ _ unit := _ ← c; mret ().

(** One command: [assign(find(k), obj)]; [insert(extract(k))], where
    inserting the empty node handle of an absent key does nothing. *)
Definition run_op (o : op) : @M K V _ _ unit :=
  match o with
  | Insert v => discard (insert_value v)
  | Emplace v => discard (emplace v)
  | TryEmplace k obj => discard (try_emplace k obj)
  | InsertOrAssign k obj => discard (insert_or_assign k obj)
  | Subscript k => discard (subscript k)
  | Erase k => discard (erase_key k)
  | Find k => discard (find k)
  | At k => discard (at_ k)
  | Count k => discard (count k)
  | Contains k => discard (contains k)
  | ReplacementFind k => discard (replacement_find k)
  | Access k => access_key k
  | Assign k obj =>
      o ← map_find k; match o with Some p => discard (assign p obj) | None => throw out_of_range end
  | Reinsert k =>
      o ← extract_key k; match o with Some p => discard (insert_node p) | None => mret () end
  | FreeSpace w => free_space w
  | ProvideSpace w => provide_space w
  | EraseIt p => erase_it p
  | EraseRepl p => discard (erase_repl p)
  | InsertRange l => insert_range l
  | EraseReplRange first last => discard (erase_repl_range first last)
  | EraseIndexRange its => erase_index_range its
  | AssignList l => assign_list l
  | Clear => clear
  end.

(** The caller's obligations: a range insert whose weights leave room
    for the [size_t] sum, and an
    initializer list whose exact sum of weights is a [size_t] (see
    [range_weight_checks]); a range [[first, last)] of the
    replacement list; iterators that are dereferenceable, and distinct
    in a range; a [size_t] argument of [provide_space]. *)
Definition pre (o : op) st : Prop :=
  match o with
  | InsertRange l =>
      forall v, v ∈ l -> _capacity (_manager st.1) + calculate_weight (_manager st.1) v < size_modulus
  | EraseReplRange first last =>
      exists A X C, contents st.2 (_first (_manager st.1)) = Some (A ++ X ++ C) /\
        first = hd_or (hd_or (_first (_manager st.1)) C) X /\ last = hd_or (_first (_manager st.1)) C
  | EraseIndexRange its => NoDup its /\ forall q, q ∈ its -> exists k, _map st.1 !! k = Some q
  | ProvideSpace w => is_size w
  | EraseIt p | EraseRepl p => exists k, _map st.1 !! k = Some p
  | AssignList l =>
      (forall v, v ∈ l -> _capacity (_manager st.1) + calculate_weight (_manager st.1) v < size_modulus) /\
      entries_weight (_manager st.1) l < size_modulus
  | _ => True
  end.

Definition lawful st : Prop := PolicyLaws (_policy (_manager st.1)).

Definition wf st : Prop := exists xs, umap_inv st.1 st.2 xs.

(** The client's transition: one command whose obligations hold. *)
Definition step st st' : Prop := exists o, lawful st /\ pre o st /\ st' = (run_op o st).1.

(** The states a program reaches: a constructed container and the copy
    of a reachable one, then any sequence of commands. *)
Inductive reachable : @fstate K V _ _ -> Prop :=
  | reachable_new s capacity weigher pol h :
      0 <= capacity < size_modulus -> reachable (construct_map s capacity weigher pol h)
  | reachable_copy st s :
      reachable st -> lawful st -> 2 * _capacity (_manager st.1) < size_modulus ->
      reachable (copy_construct st s).1
  | reachable_step st st' : reachable st -> step st st' -> reachable st'.

(** A result is good when the state is well formed and the exception,
    if any, is one the C++ code throws. *)
Definition good {A} (r : @fstate K V _ _ * (exn + A)) : Prop := wf r.1 /\ r.2 <> inl loop_exhausted.

Lemma good_state {A} um h xs (r : exn + A) :
  umap_inv um h xs -> r <> inl loop_exhausted -> good ((um, h), r).
Proof. intros Hu Hr. split; [by exists xs|done]. Qed.

Ltac good_by H := rewrite H; eapply good_state; [eassumption|done].

Lemma discard_good {A} (c : @M K V _ _ A) st : good (c st) -> good (discard c st).
Proof. unfold discard, mbind, M_bind, good. destruct (c st) as [st' [e|a]]; naive_solver. Qed.

Lemma insert_value_good um h xs v :
  PolicyLaws (_policy (_manager um)) -> umap_inv um h xs -> good (insert_value v (um, h)).
Proof.
  intros Hpol Hu. destruct (insert_value_run um h xs v Hpol Hu) as [Hp Ha].
  destruct (_map um !! v.1) as [p|] eqn:Hk; [good_by (Hp p eq_refl)|].
  destruct (Ha eq_refl) as [E|(um' & h' & A & B & p & E & Hu' & _)]; good_by E.
Qed.

Lemma access_key_good um h xs k :
  PolicyLaws (_policy (_manager um)) -> umap_inv um h xs -> good (access_key k (um, h)).
Proof.
  intros Hpol Hu. unfold access_key. rewrite (bind_ok _ _ _ _ _ (map_find_run um h k)).
  destruct (_map um !! k) as [p|] eqn:Hk; [|by eapply good_state].
  destruct (manager_access_run um h xs p Hpol Hu (indexed_node _ _ _ _ _ Hu Hk)) as (ys & _ & E & Hu').
  good_by E.
Qed.

(** A lookup that changes the state as [access(key)] does and returns
    what a [quiet_] lookup returns. *)
Lemma lookup_good {A} um h xs k (r : exn + A) :
  PolicyLaws (_policy (_manager um)) -> umap_inv um h xs -> r <> inl loop_exhausted ->
  good ((access_key k (um, h)).1, r).
Proof. intros Hpol Hu Hr. split; [by destruct (access_key_good um h xs k Hpol Hu)|done]. Qed.

Ltac quiet_result um h k :=
  rewrite ?(bind_ok _ _ _ _ _ (map_find_run um h k)); destruct (_map um !! k); cbn; done.

Lemma run_op_good o um h xs :
  PolicyLaws (_policy (_manager um)) -> umap_inv um h xs -> pre o (um, h) -> good (run_op o (um, h)).
Proof.
  intros Hpol Hu Hpre. destruct o; cbn [run_op pre fst snd] in *;
    try match goal with |- good (discard _ _) => apply discard_good end.
  - (* insert *) by apply insert_value_good with xs.
  - (* emplace *) by apply insert_value_good with xs.
  - (* try_emplace *) by apply insert_value_good with xs.
  - (* insert_or_assign *)
    destruct (insert_or_assign_run um h xs k obj Hpol Hu) as [E|(um' & h' & ys & p & E & Hu' & _)]; good_by E.
  - (* operator[] *) unfold subscript.
    destruct (subscript_run um h xs (k, inhabitant) Hpol Hu) as [Hp Ha'].
    destruct (_map um !! k) as [p|] eqn:Hk.
    + destruct (Hp p Hk) as (ys & E & Hu'). good_by E.
    + destruct (Ha' Hk) as [E|(um' & h' & ys & p & E & Hu' & _)]; good_by E.
  - (* erase(key) *)
    destruct (erase_key_run um h xs k Hu) as [Hn Hs].
    destruct (_map um !! k) as [p|] eqn:Hk; [|good_by (Hn eq_refl)].
    destruct (Hs p eq_refl) as (um' & h' & A & B & _ & E & Hu' & _). good_by E.
  - destruct (lookup_equiv (um, h) k Hpol) as (_ & _ & _ & _ & Hf & Hc & Hco & Ha & Hr).
    rewrite Hf. apply (lookup_good _ _ xs); [done..|]. unfold quiet_find. by rewrite map_find_run.
  - destruct (lookup_equiv (um, h) k Hpol) as (_ & _ & _ & _ & Hf & Hc & Hco & Ha & Hr).
    rewrite Ha. apply (lookup_good _ _ xs); [done..|]. unfold quiet_at. quiet_result um h k.
  - destruct (lookup_equiv (um, h) k Hpol) as (_ & _ & _ & _ & Hf & Hc & Hco & Ha & Hr).
    rewrite Hc. apply (lookup_good _ _ xs); [done..|]. unfold quiet_count. quiet_result um h k.
  - destruct (lookup_equiv (um, h) k Hpol) as (_ & _ & _ & _ & Hf & Hc & Hco & Ha & Hr).
    rewrite Hco. apply (lookup_good _ _ xs); [done..|]. unfold quiet_contains. quiet_result um h k.
  - destruct (lookup_equiv (um, h) k Hpol) as (_ & _ & _ & _ & Hf & Hc & Hco & Ha & Hr).
    rewrite Hr. by apply (lookup_good _ _ xs).
  - by apply access_key_good with xs.
  - (* assign(find(k), obj) *)
    rewrite (bind_ok _ _ _ _ _ (map_find_run um h k)).
    destruct (_map um !! k) as [p|] eqn:Hk; [|by eapply good_state]. apply discard_good.
    destruct (assign_run um h xs p obj Hpol Hu (indexed_node _ _ _ _ _ Hu Hk))
      as [[E _]|(um' & h' & ys & E & Hu' & _)]; good_by E.
  - (* insert(extract(k)) *)
    destruct (_map um !! k) as [p|] eqn:Hk.
    + destruct (extract_insert_run um h xs k p Hpol Hu Hk) as (um1 & h1 & um2 & h2 & ys & E1 & E2 & Hu2 & _).
      rewrite (bind_ok _ _ _ _ _ E1). apply discard_good. good_by E2.
    + assert (extract_key k (um, h) = ((um, h), inr None)) as E.
      { unfold extract_key. by rewrite (bind_ok _ _ _ _ _ (map_find_run um h k)), Hk. }
      rewrite (bind_ok _ _ _ _ _ E). by eapply good_state.
  - destruct (free_space_op_run um h xs w Hpol Hu) as [E|(um' & h' & ys & E & Hu' & _)]; good_by E.
  - destruct (provide_space_run um h xs w Hpol Hu (proj1 Hpre)) as [E|(um' & h' & ys & E & Hu' & _)];
      good_by E.
  - destruct Hpre as [k Hk]. pose proof (indexed_node _ _ _ _ _ Hu Hk) as (A & B & ->)%list_elem_of_split.
    destruct (erase_position_run um h A p B Hu) as (um' & h' & E & _ & Hu' & _). good_by E.
  - destruct Hpre as [k Hk]. pose proof (indexed_node _ _ _ _ _ Hu Hk) as (A & B & ->)%list_elem_of_split.
    destruct (erase_position_run um h A p B Hu) as (um' & h' & _ & E & Hu' & _). good_by E.
  - destruct (insert_range_run um h xs l Hpol Hu Hpre) as [E|(um' & h' & ys' & ys & rm & P & E & Hu' & _)];
      good_by E.
  - destruct Hpre as (A & X & C & Hc & -> & ->).
    pose proof Hu as ((Hd & _) & _). rewrite (dlist_contents _ _ _ Hd) in Hc. injection Hc as ->.
    destruct (erase_repl_range_run um h A X C Hu) as (um' & h' & E & Hu' & _). good_by E.
  - destruct Hpre as [Hnd Hits].
    assert (forall q, q ∈ its -> q ∈ xs) as Hin.
    { intros q (k & Hk)%Hits. exact (indexed_node _ _ _ _ _ Hu Hk). }
    destruct (erase_index_range_run um h xs its Hu Hnd Hin) as (um' & h' & ys & E & Hu' & _). good_by E.
  - destruct Hpre as [Hl Hsum].
    destruct (assign_list_run um h xs l Hpol Hu Hl Hsum) as [[_ E]|(_ & um' & h' & ys & E & Hu' & _)];
      good_by E.
  - destruct (clear_map_run um h xs Hu) as (um' & h' & E & Hu' & _). good_by E.
Qed.

Lemma reachable_umap_inv st : reachable st -> exists xs, umap_inv st.1 st.2 xs.
Proof.
  induction 1 as [s cap w pol h Hc|[um h] s _ [xs Hu] Hpol Hcap|st st' _ [xs Hu] (o & Hpol & Hpre & ->)].
  - exists []. by apply construct_map_inv.
  - destruct (copy_construct_run um h xs s Hpol Hu Hcap) as (um' & h' & ys & E & Hu' & _).
    rewrite E. by exists ys.
  - destruct st as [um h]. by destruct (run_op_good o um h xs Hpol Hu Hpre) as [Hwf _].
Qed.

(** C3: every state a program reaches, from the constructors through
    any sequence of public operations whose obligations hold, satisfies
    the container's invariant: the replacement list is a well-formed
    doubly linked list at the sentinel, the manager's weight is the sum
    of the entries' weights and at most the capacity, and the index maps
    each key to the one node of the list that holds it. *)
Theorem reachable_wf st : reachable st -> exists xs, umap_inv st.1 st.2 xs.
Proof. apply reachable_umap_inv. Qed.

(** C4: no public operation issued from a reachable state runs out of
    fuel: each returns a value or throws one of the exceptions of the C++
    code ([no_space_error], [std::out_of_range]), never the model's
    [loop_exhausted]; the eviction and erase loops of the model therefore
    always run to their end. *)
Theorem reachable_ops_complete st o :
  reachable st -> lawful st -> pre o st -> (run_op o st).2 <> inl loop_exhausted.
Proof.
  intros [xs Hu]%reachable_umap_inv Hpol Hpre. destruct st as [um h].
  by destruct (run_op_good o um h xs Hpol Hu Hpre).
Qed.

End Machine.

(** ** Witnesses on [map3]: three insert commands from a constructed
    container. *)

Lemma reachable_insert_lru (st : @fstate Z Z _ _) v :
  reachable st -> _policy (_manager st.1) = lru -> reachable (run_op (Insert v) st).1.
Proof.
  intros R Hp. apply (reachable_step st); [done|]. exists (Insert v).
  split_and!; [unfold lawful; rewrite Hp; apply _|done|done].
Qed.

Lemma reachable_map3 : reachable map3.
Proof.
  replace map3 with (run_op (Insert (3, 30)) (run_op (Insert (2, 20)) (run_op (Insert (1, 10))
    (construct_map 1%N 3 unit_weight lru ∅)).1).1).1 by (vm_compute; reflexivity).
  repeat (apply reachable_insert_lru; [|vm_compute; reflexivity]).
  apply reachable_new. split; [lia|vm_compute; reflexivity].
Qed.

Lemma reachable_wf_witness : reachable map3 /\ exists xs, umap_inv map3.1 map3.2 xs.
Proof. split; [exact reachable_map3|apply reachable_wf; exact reachable_map3]. Defined.

Lemma reachable_ops_complete_witness :
  lawful map3 /\ pre (EraseReplRange 2 4) map3 /\ (run_op (EraseReplRange 2 4) map3).2 <> inl loop_exhausted.
Proof.
  assert (lawful map3) as Hl by (unfold lawful; change (PolicyLaws (@lru (Z * Z))); apply _).
  assert (pre (EraseReplRange 2 4) map3) as Hp
    by (exists [], [2; 3]%N, [4]%N; split_and!; vm_compute; reflexivity).
  split_and!; [exact Hl|exact Hp|apply reachable_ops_complete; [exact reachable_map3|exact Hl|exact Hp]].
Defined.

End machine.
