(* ===== verification/Refinement.v ===== *)
(** * Refinement: the container is a finite map that may evict

    The abstraction [abs] reads the map a container represents: each key
    of the index with the mapped value of its node.  [intended o st] is
    the map an unbounded [std::unordered_map] would hold after the
    command [o] of [Machine]; [written o st] the entries the command
    must leave in place.  The theorem: every command issued from a
    reachable state either throws and leaves the state as it was, or
    leaves a map that holds the written entries and is contained in the
    intended one; the entries missing from the intended map are the
    evicted ones.  For the commands that do not make room ([erase],
    lookups, [clear], the range erases, the list assignment) written
    and intended coincide, so the new map is exactly the intended one. *)

From S2P Require Import Prelude Heap IteratorOps Policy CacheManager FreeSpace LimitedMap RangeInsert RangeErase FacadeOps Machine.

Module refinement.
Import policy cache_manager limited range_insert range_erase facade_ops machine.

Section Refinement.
Context {K V : Type} `{Countable K} `{Inhabited K} `{Inhabited V}.
Implicit Types (st : @fstate K V _ _) (um : @unordered_map K V _ _) (h : heap (K * V)) (a : gmap K V).

(** The map the container represents. *)
Definition abs st : gmap K V := (fun p => (__val st.2 p).2) <$> _map st.1.

Definition keys_of st (ps : list ptr) : list K := (fun q => (__val st.2 q).1) <$> ps.

Definition remove_keys (ks : list K) a : gmap K V := foldr delete a ks.

(** The nodes of [[first, last)], following [__next]. *)
Definition segment st (first last : ptr) : list ptr := default [] (walk (S (size st.2)) st.2 first last).

(** What an unbounded [std::unordered_map] holds after the command. *)
Definition intended (o : op) st : gmap K V :=
  let a := abs st in
  match o with
  | Insert v | Emplace v => match a !! v.1 with Some _ => a | None => <[v.1 := v.2]> a end
  | TryEmplace k obj => match a !! k with Some _ => a | None => <[k := obj]> a end
  | InsertOrAssign k obj => <[k := obj]> a
  | Subscript k => match a !! k with Some _ => a | None => <[k := inhabitant]> a end
  | Erase k => delete k a
  | Assign k obj => match a !! k with Some _ => <[k := obj]> a | None => a end
  | EraseIt p | EraseRepl p => delete (__val st.2 p).1 a
  | InsertRange l => list_to_map (range_new (dom a) l) ∪ a
  | EraseReplRange first last => remove_keys (keys_of st (segment st first last)) a
  | EraseIndexRange its => remove_keys (keys_of st its) a
  | AssignList l => list_to_map (range_new ∅ l)
  | Clear => ∅
  | _ => a
  end.

(** The entries the command leaves in place: what it writes, and for the
    commands that make no room, everything. *)
Definition written (o : op) st : gmap K V :=
  let a := abs st in
  match o with
  | Insert v | Emplace v => match a !! v.1 with Some _ => a | None => {[v.1 := v.2]} end
  | TryEmplace k obj => match a !! k with Some _ => a | None => {[k := obj]} end
  | InsertOrAssign k obj => {[k := obj]}
  | Subscript k => match a !! k with Some _ => a | None => {[k := inhabitant]} end
  | Assign k obj => match a !! k with Some _ => {[k := obj]} | None => a end
  | FreeSpace _ | ProvideSpace _ => ∅
  | InsertRange l => list_to_map (range_new (dom a) l)
  | _ => intended o st
  end.

(** A run refines a pair of maps [w ⊆ i]: an exception leaves the state
    as it was; a result leaves a map between [w] and [i]. *)
Definition refines_to {A} (w i : gmap K V) st (r : @fstate K V _ _ * (exn + A)) : Prop :=
  match r.2 with
  | inl _ => r.1 = st
  | inr _ => w ⊆ abs r.1 /\ abs r.1 ⊆ i
  end.

(** A run refines the command: it leaves the written entries and nothing
    the intended map does not hold, or throws and changes nothing. *)
Definition refines {A} (o : op) st (r : @fstate K V _ _ * (exn + A)) : Prop :=
  refines_to (written o st) (intended o st) st r.

(** ** The abstraction of a well-formed state *)

Lemma abs_lookup um h k : abs (um, h) !! k = (fun p => (__val h p).2) <$> _map um !! k.
Proof. unfold abs. by rewrite lookup_fmap. Qed.

Lemma abs_dom um h : dom (abs (um, h)) = dom (_map um).
Proof. unfold abs. by rewrite dom_fmap_L. Qed.

Lemma abs_node um h xs q : umap_inv um h xs -> q ∈ xs -> abs (um, h) !! (__val h q).1 = Some (__val h q).2.
Proof. intros Hu Hq. rewrite abs_lookup. by rewrite (index_agrees_here um h xs q _ Hu Hq eq_refl). Qed.

Lemma abs_lookup_inv um h xs k v :
  umap_inv um h xs -> abs (um, h) !! k = Some v -> exists q, q ∈ xs /\ __val h q = (k, v).
Proof.
  intros (_ & Hi & _). rewrite abs_lookup. intros (q & Hq & ->)%fmap_Some.
  apply Hi in Hq as [Hq Hk]. rewrite app_nil_r in Hq. exists q. split; [done|].
  destruct (__val h q); by simplify_eq/=.
Qed.

(** Two nodes of the list hold different keys. *)
Lemma node_keys_ne um h xs p q : umap_inv um h xs -> p ∈ xs -> q ∈ xs -> p <> q -> (__val h p).1 <> (__val h q).1.
Proof.
  intros Hu Hp Hq Hne Hk. apply Hne.
  pose proof (index_agrees_here um h xs p _ Hu Hp eq_refl) as E1.
  rewrite (index_agrees_here um h xs q _ Hu Hq (eq_sym Hk)) in E1. by injection E1.
Qed.

Lemma absent_key um h xs k q : umap_inv um h xs -> _map um !! k = None -> q ∈ xs -> (__val h q).1 <> k.
Proof. intros Hu Hk Hq <-. by rewrite (index_agrees_here um h xs q _ Hu Hq eq_refl) in Hk. Qed.

(** Every node of the new list holds an entry of [c]: the new map is
    contained in [c]. *)
Lemma abs_sub um h ys c :
  umap_inv um h ys -> (forall q, q ∈ ys -> c !! (__val h q).1 = Some (__val h q).2) -> abs (um, h) ⊆ c.
Proof.
  intros Hu Hc. apply map_subseteq_spec. intros k v (q & Hq & Hv)%(abs_lookup_inv _ _ ys); [|done].
  specialize (Hc q Hq). by rewrite Hv in Hc.
Qed.

(** Every entry of [c] is held by a node of the new list. *)
Lemma abs_sup um h ys c :
  umap_inv um h ys -> (forall k v, c !! k = Some v -> exists q, q ∈ ys /\ __val h q = (k, v)) -> c ⊆ abs (um, h).
Proof.
  intros Hu Hc. apply map_subseteq_spec. intros k v (q & Hq & Hv)%Hc.
  pose proof (abs_node um h ys q Hu Hq) as E. by rewrite Hv in E.
Qed.

(** An old node that keeps its value keeps its entry. *)
Lemma old_entry um h xs h' q c :
  umap_inv um h xs -> q ∈ xs -> __val h' q = __val h q -> c !! (__val h q).1 = None ->
  (c ∪ abs (um, h)) !! (__val h' q).1 = Some (__val h' q).2.
Proof. intros Hu Hq -> Hc. rewrite lookup_union_r by done. by apply abs_node with xs. Qed.

(** ** The shapes of the results *)

Lemma survivor (xs ys rm : list ptr) q : ys ++ rm ≡ₚ xs -> q ∈ ys -> q ∈ xs.
Proof. intros <- Hq. set_solver. Qed.

(** A new entry [v] at node [p], the other nodes old ones with their
    values. *)
Lemma insert_new_refines um h xs (v : K * V) um' h' A B p :
  umap_inv um h xs -> _map um !! v.1 = None -> umap_inv um' h' (A ++ p :: B) ->
  (exists rm, (A ++ B) ++ rm ≡ₚ xs) -> __val h' p = v -> (forall q, q ∈ A ++ B -> __val h' q = __val h q) ->
  {[v.1 := v.2]} ⊆ abs (um', h') /\ abs (um', h') ⊆ <[v.1 := v.2]> (abs (um, h)).
Proof.
  intros Hu Hk Hu' [rm Hrm] Hp Hv. split.
  - apply (abs_sup _ _ (A ++ p :: B)); [done|]. intros k x [<- <-]%lookup_singleton_Some.
    exists p. split; [set_solver|]. by rewrite Hp; destruct v.
  - apply (abs_sub _ _ (A ++ p :: B)); [done|]. intros q Hq.
    destruct (decide (q = p)) as [->|Hne]; [rewrite Hp; apply lookup_insert_eq|].
    assert (q ∈ A ++ B) as HqAB by set_solver.
    pose proof (survivor _ _ _ q Hrm HqAB) as Hx.
    rewrite insert_union_singleton_l. apply old_entry with xs; [done|done|by apply Hv|].
    apply lookup_singleton_None. exact (not_eq_sym (absent_key um h xs _ q Hu Hk Hx)).
Qed.

(** [assign]: node [p] of key [k] holds [obj], the others keep their
    values, some may be evicted. *)
Lemma assign_refines um h xs k p obj um' h' ys :
  umap_inv um h xs -> _map um !! k = Some p -> umap_inv um' h' ys -> (exists rm, ys ++ rm ≡ₚ xs) -> p ∈ ys ->
  __val h' p = ((__val h p).1, obj) -> (forall q, q ∈ ys -> q <> p -> __val h' q = __val h q) ->
  {[k := obj]} ⊆ abs (um', h') /\ abs (um', h') ⊆ <[k := obj]> (abs (um, h)).
Proof.
  intros Hu Hk Hu' [rm Hrm] Hp Hpv Hv.
  pose proof (indexed_key _ _ _ _ _ Hu Hk) as Hkey. pose proof (indexed_node _ _ _ _ _ Hu Hk) as Hpx.
  split.
  - apply (abs_sup _ _ ys); [done|]. intros k' x [<- <-]%lookup_singleton_Some.
    exists p. by rewrite Hpv, Hkey.
  - apply (abs_sub _ _ ys); [done|]. intros q Hq.
    destruct (decide (q = p)) as [->|Hne]; [rewrite Hpv, Hkey; apply lookup_insert_eq|].
    pose proof (survivor _ _ _ q Hrm Hq) as Hx.
    rewrite insert_union_singleton_l. apply old_entry with xs; [done|done|by apply Hv|].
    apply lookup_singleton_None. rewrite <- Hkey. exact (node_keys_ne um h xs p q Hu Hpx Hx (not_eq_sym Hne)).
Qed.

(** Evictions only. *)
Lemma evict_refines um h xs um' h' ys :
  umap_inv um h xs -> umap_inv um' h' ys -> (exists rm, ys ++ rm ≡ₚ xs) ->
  (forall q, q ∈ ys -> __val h' q = __val h q) -> abs (um', h') ⊆ abs (um, h).
Proof.
  intros Hu Hu' [rm Hrm] Hv. apply (abs_sub _ _ ys); [done|]. intros q Hq.
  rewrite (Hv q Hq). exact (abs_node um h xs q Hu (survivor _ _ _ q Hrm Hq)).
Qed.

Lemma remove_keys_lookup ks a k : remove_keys ks a !! k = if decide (k ∈ ks) then None else a !! k.
Proof.
  unfold remove_keys. induction ks as [|k' ks IH]; cbn; [by rewrite decide_False by set_solver|].
  destruct (decide (k = k')) as [->|Hne].
  - by rewrite lookup_delete_eq, decide_True by set_solver.
  - rewrite lookup_delete_ne by done. rewrite IH. do 2 case_decide; try done; set_solver.
Qed.

(** The nodes [D] leave, the others keep their values: the new map is
    the old one without the keys of [D]. *)
Lemma remove_abs um h xs um' h' ys D :
  umap_inv um h xs -> umap_inv um' h' ys -> ys ++ D ≡ₚ xs -> (forall q, q ∈ ys -> __val h' q = __val h q) ->
  abs (um', h') = remove_keys (keys_of (um, h) D) (abs (um, h)).
Proof.
  intros Hu Hu' Hp Hv. pose proof Hu as (_ & _ & Hnd & _). rewrite app_nil_r in Hnd.
  apply NoDup_cons in Hnd as [_ Hnd]. rewrite <- Hp in Hnd. apply NoDup_app in Hnd as (_ & Hdis & _).
  apply (anti_symm (⊆)).
  - apply (abs_sub _ _ ys); [done|]. intros q Hq. rewrite remove_keys_lookup, (Hv q Hq).
    rewrite decide_False; [apply abs_node with xs; [done|rewrite <- Hp; set_solver]|].
    intros (d & Heq & HdD)%list_elem_of_fmap.
    assert (q <> d) as Hne by (intros ->; by apply (Hdis d)).
    exact (node_keys_ne um h xs q d Hu ltac:(rewrite <- Hp; set_solver) ltac:(rewrite <- Hp; set_solver) Hne Heq).
  - apply (abs_sup _ _ ys); [done|]. intros k v. rewrite remove_keys_lookup. case_decide as Hk; [done|].
    intros (q & Hq & Hqv)%(abs_lookup_inv _ _ xs); [|done].
    assert (q ∈ ys) as Hqy.
    { rewrite <- Hp in Hq. apply elem_of_app in Hq as [?|HqD]; [done|]. exfalso. apply Hk.
      apply list_elem_of_fmap. exists q. cbn [snd]. by rewrite Hqv. }
    exists q. by rewrite (Hv q Hqy).
Qed.

(** The new list holds exactly the entries [L]. *)
Lemma abs_list um h ys (L : list (K * V)) :
  umap_inv um h ys -> __val h <$> ys ≡ₚ L -> NoDup L.*1 -> abs (um, h) = list_to_map L.
Proof.
  intros Hu HL Hnd. apply (anti_symm (⊆)).
  - apply (abs_sub _ _ ys); [done|]. intros q Hq. apply elem_of_list_to_map_1; [done|].
    rewrite <- HL. apply list_elem_of_fmap. exists q. split; [by destruct (__val h q)|done].
  - apply (abs_sup _ _ ys); [done|]. intros k v Hkv%elem_of_list_to_map_2.
    rewrite <- HL in Hkv. apply list_elem_of_fmap in Hkv as (q & Hq & Hin). by exists q.
Qed.

Lemma range_new_keys (l : list (K * V)) : forall (seen : gset K),
  NoDup (range_new seen l).*1 /\ (forall v, v ∈ range_new seen l -> v.1 ∉ seen).
Proof.
  induction l as [|v l IH]; intros seen; cbn; [split; [constructor|set_solver]|].
  case_decide as Hv; [apply IH|]. destruct (IH ({[v.1]} ∪ seen)) as [Hnd Hout]. split.
  - cbn. constructor; [|done]. intros (w & Hw & Hin)%list_elem_of_fmap. specialize (Hout w Hin). set_solver.
  - intros w [->|Hw]%elem_of_cons; [done|]. specialize (Hout w Hw). set_solver.
Qed.

(** The range insert: the new entries [range_new], the old nodes with
    their values, some evicted. *)
Lemma insert_range_refines um h xs l um' h' ys' ys rm P :
  umap_inv um h xs -> umap_inv um' h' ys' -> ys' ≡ₚ ys ++ P -> ys ++ rm ≡ₚ xs ->
  map (__val h') P = range_new (dom (_map um)) l -> (forall q, q ∈ ys -> __val h' q = __val h q) ->
  list_to_map (range_new (dom (abs (um, h))) l) ⊆ abs (um', h') /\
  abs (um', h') ⊆ list_to_map (range_new (dom (abs (um, h))) l) ∪ abs (um, h).
Proof.
  intros Hu Hu' Hys Hrm HP Hv. rewrite abs_dom. destruct (range_new_keys l (dom (_map um))) as [Hnd Hout].
  split.
  - apply (abs_sup _ _ ys'); [done|]. intros k v Hkv%elem_of_list_to_map_2. rewrite <- HP in Hkv.
    apply list_elem_of_fmap in Hkv as (q & Hq & HqP). exists q. split; [rewrite Hys; set_solver|done].
  - apply (abs_sub _ _ ys'); [done|]. intros q Hq. rewrite Hys in Hq. apply elem_of_app in Hq as [Hq|Hq].
    + pose proof (survivor _ _ _ q Hrm Hq) as Hx. apply old_entry with xs; [done|done|by apply Hv|].
      apply not_elem_of_list_to_map_1. intros (w & Hw & Hin)%list_elem_of_fmap.
      apply (Hout w Hin). rewrite <- Hw. apply elem_of_dom. exists q. by apply (index_agrees_here um h xs).
    + apply lookup_union_Some_l, elem_of_list_to_map_1; [done|]. rewrite <- HP.
      apply list_elem_of_fmap. exists q. split; [by destruct (__val h' q)|done].
Qed.

(** [access] changes no entry. *)
Lemma abs_access um h p : PolicyLaws (_policy (_manager um)) -> abs (um, access (_manager um) h p) = abs (um, h).
Proof. intros Hpol. unfold abs. cbn [fst snd]. apply map_fmap_ext. intros. by rewrite access_val. Qed.

(** ** Each command *)

Lemma discard_refines {A} (c : @M K V _ _ A) w i st : refines_to w i st (c st) -> refines_to w i st (discard c st).
Proof. unfold discard, mbind, M_bind, refines_to. by destruct (c st) as [st' [e|x]]. Qed.

Lemma refines_same {A} a st (x : A) : abs st = a -> refines_to a a st (st, inr x).
Proof. intros <-. by split. Qed.

Lemma refines_eq {A} a st st' (x : A) : abs st' = a -> refines_to a a st (st', inr x).
Proof. intros <-. by split. Qed.

Lemma insert_value_refines um h xs (v : K * V) :
  PolicyLaws (_policy (_manager um)) -> umap_inv um h xs ->
  refines_to (match abs (um, h) !! v.1 with Some _ => abs (um, h) | None => {[v.1 := v.2]} end)
    (match abs (um, h) !! v.1 with Some _ => abs (um, h) | None => <[v.1 := v.2]> (abs (um, h)) end)
    (um, h) (insert_value v (um, h)).
Proof.
  intros Hpol Hu. rewrite abs_lookup. destruct (_map um !! v.1) as [p|] eqn:Hk; cbn [fmap option_fmap option_map].
  - rewrite (proj1 (insert_value_run um h xs v Hpol Hu) p Hk). by apply refines_same.
  - destruct (insert_value_new um h xs v Hpol Hu Hk)
      as [E|(um' & h' & A & B & p & E & Hu' & Hrm & Hv & _ & Hvals)]; rewrite E; [done|].
    exact (insert_new_refines um h xs v um' h' A B p Hu Hk Hu' Hrm Hv Hvals).
Qed.

Lemma subscript_refines um h xs k :
  PolicyLaws (_policy (_manager um)) -> umap_inv um h xs ->
  refines_to (match abs (um, h) !! k with Some _ => abs (um, h) | None => {[k := inhabitant]} end)
    (match abs (um, h) !! k with Some _ => abs (um, h) | None => <[k := inhabitant]> (abs (um, h)) end)
    (um, h) (subscript k (um, h)).
Proof.
  intros Hpol Hu. pose proof (insert_value_refines um h xs (k, inhabitant) Hpol Hu) as Hr.
  unfold subscript, subscript_value. rewrite (bind_ok _ _ _ _ _ (map_find_run um h (k, inhabitant).1)).
  cbn [fst snd] in *. rewrite abs_lookup in Hr |- *.
  destruct (_map um !! k) as [p|] eqn:Hk; cbn [fmap option_fmap option_map] in Hr |- *.
  - destruct (manager_access_run um h xs p Hpol Hu (indexed_node _ _ _ _ _ Hu Hk)) as (ys & _ & E & _).
    rewrite bind_assoc, (bind_ok _ _ _ _ _ E). cbv beta. rewrite ret_bind, mapped_at_run.
    apply refines_eq. unfold abs. cbn [fst snd]. apply map_fmap_ext. intros. by rewrite access_val.
  - rewrite bind_assoc. destruct (insert_value (k, inhabitant) (um, h)) as [st' [e|[q b]]] eqn:E.
    + by rewrite (bind_err _ _ _ _ _ E).
    + rewrite (bind_ok _ _ _ _ _ E). cbv beta. rewrite ret_bind, mapped_at_run. exact Hr.
Qed.

Lemma assign_at_refines um h xs k p obj :
  PolicyLaws (_policy (_manager um)) -> umap_inv um h xs -> _map um !! k = Some p ->
  refines_to {[k := obj]} (<[k := obj]> (abs (um, h))) (um, h) (assign p obj (um, h)).
Proof.
  intros Hpol Hu Hk.
  destruct (assign_run um h xs p obj Hpol Hu (indexed_node _ _ _ _ _ Hu Hk))
    as [[E _]|(um' & h' & ys & E & Hu' & Hrm & Hp & Hv & Hvals)]; rewrite E; [done|].
  exact (assign_refines um h xs k p obj um' h' ys Hu Hk Hu' Hrm Hp Hv Hvals).
Qed.

Lemma insert_or_assign_refines um h xs k obj :
  PolicyLaws (_policy (_manager um)) -> umap_inv um h xs ->
  refines_to {[k := obj]} (<[k := obj]> (abs (um, h))) (um, h) (insert_or_assign k obj (um, h)).
Proof.
  intros Hpol Hu. pose proof (insert_value_refines um h xs (k, obj) Hpol Hu) as Hr.
  unfold insert_or_assign. rewrite (bind_ok _ _ _ _ _ (map_find_run um h k)).
  destruct (_map um !! k) as [p|] eqn:Hk; cbv beta iota.
  - pose proof (assign_at_refines um h xs k p obj Hpol Hu Hk) as Ha. unfold refines_to in Ha |- *.
    destruct (assign p obj (um, h)) as [st' [e|q]] eqn:E.
    + by rewrite (bind_err _ _ _ _ _ E).
    + by rewrite (bind_ok _ _ _ _ _ E).
  - rewrite emplace_insert_value. cbn [fst snd] in Hr. rewrite abs_lookup, Hk in Hr. exact Hr.
Qed.

(** The heap after unlinking and freeing node [p] keeps the other nodes'
    values. *)
Lemma unlinked_val um h p q : q <> p -> __val (delete p (erase_node (_manager um) h p).2) q = __val h q.
Proof. intros Hne. rewrite val_delete_ne by done. apply erase_node_vals. Qed.

Lemma erase_key_heap um h k p :
  _map um !! k = Some p -> (erase_key k (um, h)).1.2 = delete p (erase_node (_manager um) h p).2.
Proof.
  intros Hk. unfold erase_key. rewrite (bind_ok _ _ _ _ _ (map_find_run um h k)), Hk.
  rewrite (bind_ok _ _ _ _ _ (with_manager_run _ um h)). cbv beta.
  by rewrite (bind_ok _ _ _ _ _ (map_erase_it_run _ _ p)).
Qed.

Lemma erase_it_heap um h p : (erase_it p (um, h)).1.2 = delete p (erase_node (_manager um) h p).2.
Proof. unfold erase_it. by rewrite (bind_ok _ _ _ _ _ (with_manager_run _ um h)), map_erase_it_run. Qed.

(** Removing the one node [p] of key [k]. *)
Lemma remove_one um h A p B um' h' :
  umap_inv um h (A ++ p :: B) -> umap_inv um' h' (A ++ B) ->
  h' = delete p (erase_node (_manager um) h p).2 ->
  abs (um', h') = delete (__val h p).1 (abs (um, h)).
Proof.
  intros Hu Hu' ->. pose proof Hu as (_ & _ & Hnd & _). rewrite app_nil_r in Hnd.
  apply NoDup_cons in Hnd as [_ Hnd].
  apply (remove_abs um h (A ++ p :: B) um' _ (A ++ B) [p]); [done|done|solve_Permutation|].
  intros q Hq. apply unlinked_val. intros ->. by apply (nodup_mid A B p).
Qed.

Lemma erase_key_refines um h xs k :
  umap_inv um h xs -> refines_to (delete k (abs (um, h))) (delete k (abs (um, h))) (um, h) (erase_key k (um, h)).
Proof.
  intros Hu. destruct (erase_key_run um h xs k Hu) as [Hn Hs].
  destruct (_map um !! k) as [p|] eqn:Hk.
  - destruct (Hs p eq_refl) as (um' & h' & A & B & -> & E & Hu' & _).
    pose proof (erase_key_heap um h k p Hk) as Eh. rewrite E in Eh. cbn in Eh. rewrite E.
    apply refines_eq. rewrite (remove_one um h A p B um' h' Hu Hu' Eh). by rewrite (indexed_key _ _ _ _ _ Hu Hk).
  - rewrite (Hn eq_refl). apply refines_same. rewrite delete_id; [done|]. by rewrite abs_lookup, Hk.
Qed.

Lemma erase_position_refines um h xs p :
  umap_inv um h xs -> (exists k, _map um !! k = Some p) ->
  refines_to (delete (__val h p).1 (abs (um, h))) (delete (__val h p).1 (abs (um, h))) (um, h) (erase_it p (um, h)) /\
  refines_to (delete (__val h p).1 (abs (um, h))) (delete (__val h p).1 (abs (um, h))) (um, h) (erase_repl p (um, h)).
Proof.
  intros Hu [k Hk]. pose proof (indexed_node _ _ _ _ _ Hu Hk) as (A & B & ->)%list_elem_of_split.
  destruct (erase_position_run um h A p B Hu) as (um' & h' & E1 & E2 & Hu' & _).
  pose proof (erase_it_heap um h p) as Eh. rewrite E1 in Eh. cbn in Eh.
  rewrite E1, E2. split; apply refines_eq; exact (remove_one um h A p B um' h' Hu Hu' Eh).
Qed.

(** The nodes of a segment [[first, last)] of the list. *)
Lemma segment_of um h A X C :
  umap_inv um h (A ++ X ++ C) ->
  segment (um, h) (hd_or (hd_or (_first (_manager um)) C) X) (hd_or (_first (_manager um)) C) = X.
Proof.
  intros ((Hd & _) & _). pose proof (dlist_length _ _ _ Hd) as Hlen. rewrite !length_app in Hlen.
  pose proof (dlist_segment _ _ _ _ _ Hd) as (Hch & He & _).
  unfold segment. cbn [snd]. rewrite walk_segment by (done || lia). done.
Qed.

Lemma erase_repl_range_refines um h A X C :
  umap_inv um h (A ++ X ++ C) ->
  let s := _first (_manager um) in
  let a := remove_keys (keys_of (um, h) (segment (um, h) (hd_or (hd_or s C) X) (hd_or s C))) (abs (um, h)) in
  refines_to a a (um, h) (erase_repl_range (hd_or (hd_or s C) X) (hd_or s C) (um, h)).
Proof.
  intros Hu s a. subst a s. rewrite (segment_of um h A X C Hu).
  destruct (erase_repl_range_run um h A X C Hu) as (um' & h' & E & Hu' & _ & Hv & _). rewrite E.
  apply refines_eq. apply (remove_abs um h (A ++ X ++ C) um' h' (A ++ C) X); [done|done|solve_Permutation|done].
Qed.

Lemma erase_index_range_refines um h xs its :
  umap_inv um h xs -> NoDup its -> (forall q, q ∈ its -> q ∈ xs) ->
  refines_to (remove_keys (keys_of (um, h) its) (abs (um, h))) (remove_keys (keys_of (um, h) its) (abs (um, h)))
    (um, h) (erase_index_range its (um, h)).
Proof.
  intros Hu Hnd Hin. destruct (erase_index_range_run um h xs its Hu Hnd Hin) as (um' & h' & ys & E & Hu' & Hp & _ & Hv).
  rewrite E. apply refines_eq. exact (remove_abs um h xs um' h' ys its Hu Hu' Hp Hv).
Qed.

(** [access(key)] changes no entry; every lookup is [access(key)] and a
    result. *)
Lemma access_key_abs um h k : PolicyLaws (_policy (_manager um)) -> abs (access_key k (um, h)).1 = abs (um, h).
Proof.
  intros Hpol. unfold access_key. rewrite (bind_ok _ _ _ _ _ (map_find_run um h k)).
  destruct (_map um !! k) as [p|]; [|done]. unfold manager_access. rewrite with_manager_run. cbn [fst snd].
  unfold abs. cbn [fst snd]. rewrite map_set_manager. apply map_fmap_ext. intros. by rewrite access_val.
Qed.

Lemma access_key_ok um h k : (access_key k (um, h)).2 = inr ().
Proof.
  unfold access_key. rewrite (bind_ok _ _ _ _ _ (map_find_run um h k)).
  destruct (_map um !! k); [|done]. unfold manager_access. by rewrite with_manager_run.
Qed.

Lemma lookup_refines {A} um h k (x : A) :
  PolicyLaws (_policy (_manager um)) ->
  refines_to (abs (um, h)) (abs (um, h)) (um, h) ((access_key k (um, h)).1, inr x).
Proof. intros Hpol. apply refines_eq. by apply access_key_abs. Qed.

Lemma lookups_refine um h xs k (a := abs (um, h)) :
  PolicyLaws (_policy (_manager um)) -> umap_inv um h xs ->
  refines_to a a (um, h) (find k (um, h)) /\ refines_to a a (um, h) (count k (um, h)) /\
  refines_to a a (um, h) (contains k (um, h)) /\ refines_to a a (um, h) (replacement_find k (um, h)) /\
  refines_to a a (um, h) (at_ k (um, h)) /\ refines_to a a (um, h) (access_key k (um, h)).
Proof.
  intros Hpol Hu. subst a.
  destruct (lookup_equiv (um, h) k Hpol) as (_ & _ & _ & _ & Hf & Hc & Hco & _ & Hr).
  rewrite Hf, Hc, Hco, Hr. unfold quiet_find, quiet_count, quiet_contains.
  rewrite !(bind_ok _ _ _ _ _ (map_find_run um h k)), map_find_run.
  split_and!; [by apply lookup_refines..| |].
  - destruct (at_run um h xs k Hpol Hu) as [Hn Hs]. destruct (_map um !! k) as [p|] eqn:Hk; [|by rewrite Hn].
    destruct (Hs p eq_refl) as (ys & _ & E & _). rewrite E. apply refines_eq. by apply abs_access.
  - pose proof (access_key_ok um h k) as Ho. pose proof (access_key_abs um h k Hpol) as Ha.
    destruct (access_key k (um, h)) as [st' r]. cbn in Ho, Ha. subst r. by apply refines_eq.
Qed.

Lemma reinsert_refines um h xs k (a := abs (um, h)) :
  PolicyLaws (_policy (_manager um)) -> umap_inv um h xs ->
  refines_to a a (um, h)
    ((o ← extract_key k; match o with Some p => discard (insert_node p) | None => mret () end) (um, h)).
Proof.
  intros Hpol Hu. subst a. destruct (_map um !! k) as [p|] eqn:Hk.
  - destruct (extract_insert_run um h xs k p Hpol Hu Hk) as (um1 & h1 & um2 & h2 & ys & E1 & E2 & Hu2 & Hys & _ & Hv & _).
    rewrite (bind_ok _ _ _ _ _ E1). cbv beta iota. unfold discard. rewrite (bind_ok _ _ _ _ _ E2). apply refines_eq.
    apply (remove_abs um h xs um2 h2 ys []); [done|done|by rewrite app_nil_r|intros; apply Hv].
  - assert (extract_key k (um, h) = ((um, h), inr None)) as E.
    { unfold extract_key. by rewrite (bind_ok _ _ _ _ _ (map_find_run um h k)), Hk. }
    rewrite (bind_ok _ _ _ _ _ E). by apply refines_same.
Qed.

Lemma free_space_refines um h xs (w : Z) :
  PolicyLaws (_policy (_manager um)) -> umap_inv um h xs ->
  refines_to ∅ (abs (um, h)) (um, h) (free_space w (um, h)).
Proof.
  intros Hpol Hu. unfold free_space.
  destruct (freeSpace_run um h xs [] w Hpol Hu) as [E|(um' & h' & ys & E & Hu' & Hrm & _ & _ & _ & Hv)];
    rewrite (bind_ok _ _ _ _ _ E); [done|].
  split; [apply map_empty_subseteq|]. apply (evict_refines um h xs um' h' ys); [done|done|done|].
  intros q Hq. apply Hv. by rewrite app_nil_r.
Qed.

Lemma provide_space_refines um h xs (w : Z) :
  PolicyLaws (_policy (_manager um)) -> umap_inv um h xs -> 0 <= w ->
  refines_to ∅ (abs (um, h)) (um, h) (provide_space w (um, h)).
Proof.
  intros Hpol Hu Hw. destruct (provide_space_run um h xs w Hpol Hu Hw) as [E|(um' & h' & ys & E & Hu' & Hrm & _ & Hv)];
    rewrite E; [done|].
  split; [apply map_empty_subseteq|]. exact (evict_refines um h xs um' h' ys Hu Hu' Hrm Hv).
Qed.

Lemma insert_range_refines_run um h xs l :
  PolicyLaws (_policy (_manager um)) -> umap_inv um h xs ->
  (forall v, v ∈ l -> _capacity (_manager um) + calculate_weight (_manager um) v < size_modulus) ->
  refines_to (list_to_map (range_new (dom (abs (um, h))) l))
    (list_to_map (range_new (dom (abs (um, h))) l) ∪ abs (um, h)) (um, h) (insert_range l (um, h)).
Proof.
  intros Hpol Hu Hl.
  destruct (insert_range_run um h xs l Hpol Hu Hl) as [E|(um' & h' & ys' & ys & rm & P & E & Hu' & Hys & Hrm & HP & Hv)];
    rewrite E; [done|].
  exact (insert_range_refines um h xs l um' h' ys' ys rm P Hu Hu' Hys Hrm HP Hv).
Qed.

Lemma assign_list_refines um h xs l (a := list_to_map (range_new ∅ l) : gmap K V) :
  PolicyLaws (_policy (_manager um)) -> umap_inv um h xs ->
  (forall v, v ∈ l -> _capacity (_manager um) + calculate_weight (_manager um) v < size_modulus) ->
  entries_weight (_manager um) l < size_modulus ->
  refines_to a a (um, h) (assign_list l (um, h)).
Proof.
  intros Hpol Hu Hl Hsum. subst a.
  destruct (assign_list_run um h xs l Hpol Hu Hl Hsum) as [[_ E]|(_ & um' & h' & ys & E & Hu' & Hm)];
    rewrite E; [done|].
  apply refines_eq. apply (abs_list um' h' ys); [done|exact Hm|apply range_new_keys].
Qed.

Lemma clear_refines um h xs : umap_inv um h xs -> refines_to ∅ ∅ (um, h) (clear (um, h)).
Proof.
  intros Hu. destruct (clear_map_run um h xs Hu) as (um' & h' & E & _ & Hi & _). rewrite E.
  apply refines_eq. unfold abs. cbn [fst]. rewrite Hi. apply fmap_empty.
Qed.

Lemma refines_err {A} w i st (e : exn) : refines_to (A:=A) w i st (st, inl e).
Proof. done. Qed.

Lemma run_op_refines o um h xs :
  PolicyLaws (_policy (_manager um)) -> umap_inv um h xs -> pre o (um, h) -> refines o (um, h) (run_op o (um, h)).
Proof.
  intros Hpol Hu Hpre.
  destruct o; cbn [run_op pre fst snd] in Hpre |- *; unfold refines;
    cbv beta iota zeta delta [written intended];
    try match goal with |- refines_to _ _ _ (discard _ _) => apply discard_refines end.
  - exact (insert_value_refines um h xs v Hpol Hu).
  - exact (insert_value_refines um h xs v Hpol Hu).
  - exact (insert_value_refines um h xs (k, obj) Hpol Hu).
  - exact (insert_or_assign_refines um h xs k obj Hpol Hu).
  - exact (subscript_refines um h xs k Hpol Hu).
  - exact (erase_key_refines um h xs k Hu).
  - apply (lookups_refine um h xs k Hpol Hu).
  - apply (lookups_refine um h xs k Hpol Hu).
  - apply (lookups_refine um h xs k Hpol Hu).
  - apply (lookups_refine um h xs k Hpol Hu).
  - apply (lookups_refine um h xs k Hpol Hu).
  - apply (lookups_refine um h xs k Hpol Hu).
  - rewrite (bind_ok _ _ _ _ _ (map_find_run um h k)), abs_lookup.
    destruct (_map um !! k) as [p|] eqn:Hk; cbn [fmap option_fmap option_map]; [|apply refines_err].
    apply discard_refines. exact (assign_at_refines um h xs k p obj Hpol Hu Hk).
  - exact (reinsert_refines um h xs k Hpol Hu).
  - exact (free_space_refines um h xs w Hpol Hu).
  - exact (provide_space_refines um h xs w Hpol Hu (proj1 Hpre)).
  - exact (proj1 (erase_position_refines um h xs p Hu Hpre)).
  - exact (proj2 (erase_position_refines um h xs p Hu Hpre)).
  - exact (insert_range_refines_run um h xs l Hpol Hu Hpre).
  - destruct Hpre as (A & X & C & Hc & -> & ->).
    pose proof Hu as ((Hd & _) & _). rewrite (dlist_contents _ _ _ Hd) in Hc. injection Hc as ->.
    exact (erase_repl_range_refines um h A X C Hu).
  - destruct Hpre as [Hnd Hits]. apply (erase_index_range_refines um h xs its Hu Hnd).
    intros q (k & Hk)%Hits. exact (indexed_node _ _ _ _ _ Hu Hk).
  - exact (assign_list_refines um h xs l Hpol Hu (proj1 Hpre) (proj2 Hpre)).
  - exact (clear_refines um h xs Hu).
Qed.

(** C5: Every command issued from a reachable state, whose obligations
    hold, refines the finite map the container represents: either it
    throws and the state is unchanged, or the new map holds the entries
    the command writes and nothing an unbounded [std::unordered_map]
    would not hold after the same command; for the commands that make no
    room the new map is exactly that of [std::unordered_map]. *)
Theorem reachable_refines st o :
  reachable st -> lawful st -> pre o st -> refines o st (run_op o st).
Proof.
  intros [xs Hu]%reachable_umap_inv Hpol Hpre. destruct st as [um h].
  exact (run_op_refines o um h xs Hpol Hu Hpre).
Qed.

End Refinement.

(** ** Witness on [map3]: [insert_or_assign(4, 40)] into the full LRU
    container evicts key 1. *)

Lemma reachable_refines_witness :
  lawful map3 /\ refines (InsertOrAssign 4%Z 40%Z) map3 (run_op (InsertOrAssign 4%Z 40%Z) map3).
Proof.
  assert (lawful map3) as Hl by (unfold lawful; change (PolicyLaws (@lru (Z * Z))); apply _).
  split; [exact Hl|]. apply reachable_refines; [exact reachable_map3|exact Hl|exact I].
Defined.
End refinement.
