(* ===== verification/Scenarios.v ===== *)
(** * Scenarios: the end-to-end scenarios of the specification, run on the model

    Each scenario starts from an empty [limited::unordered_map<int, int>]
    ([limited.empty_map]: sentinel at address 1, no entries) and runs a sequence of public
    operations of [LimitedMap]; the theorems state the replacement order
    of the keys, the index and the weight at the end, computed by
    [vm_compute].  They exercise the composition of the facade, the
    manager's eviction loop and the policies on concrete inputs.  The
    last two examples run behaviours the specification does not promise:
    the [size_t] sums of weights of the range insert and of the list
    assignment, which wrap, and the replacement order of a copy. *)

From stdpp Require Import sorting.
From S2P Require Import Prelude Heap IteratorOps Policy CacheManager FreeSpace LimitedMap RangeInsert RangeErase FacadeOps.

Module scenarios.
Import policy cache_manager limited facade_ops.
Local Open Scope Z_scope.

(** The keys in replacement order, read by walking the list. *)
Definition keys_in_order (st : @fstate Z Z _ _) : option (list Z) :=
  (fun xs => map (fun p => (__val st.2 p).1) xs) <$> contents st.2 (_first (_manager st.1)).

(** The keys of the index, sorted. *)
Definition index_keys (st : @fstate Z Z _ _) : list Z := merge_sort Z.le (map fst (map_to_list (_map st.1))).

Definition value_weight (v : Z * Z) : Z := v.2.

(** [locked_policy<fifo>] whose locker locks every entry. *)
Definition all_locked_fifo : @policy (Z * Z) :=
  match locked_policy fifo (fun _ => true) with Some p => p | None => fifo end.

(** [priority_policy<fifo>] with the mapped value as the priority. *)
Definition priority_fifo : @policy (Z * Z) :=
  match priority_policy fifo snd with Some p => p | None => fifo end.

(** Scenario 1: capacity 3, LRU; insert 1, 2, 3, [find(1)], insert 4. *)
Definition scenario1 : @M Z Z _ _ (ptr * bool) :=
  insert_value (1, 10);; insert_value (2, 20);; insert_value (3, 30);; find 1;; insert_value (4, 40).

(** Scenario 2: capacity 3, FIFO; insert 1, 2, then the range [3; 4]. *)
Definition scenario2 : @M Z Z _ _ unit :=
  insert_value (1, 0);; insert_value (2, 0);; insert_range [(3, 0); (4, 0)].

(** Scenario 3: capacity 2, locked FIFO with every entry locked. *)
Definition scenario3_setup : @M Z Z _ _ (ptr * bool) := insert_value (1, 0);; insert_value (2, 0).

(** Scenario 4: capacity 5, priority over FIFO, priorities 5 5 1 5 5. *)
Definition scenario4_setup : @M Z Z _ _ (ptr * bool) :=
  insert_value (0, 5);; insert_value (1, 5);; insert_value (2, 1);; insert_value (3, 5);; insert_value (4, 5).

Definition manager_next : @M Z Z _ _ (option Z) :=
  '(um, h) ← get; mret ((fun p => (__val h p).1) <$> cache_manager.next (_manager um) h).

(** Scenario 5: capacity 10, weight = mapped value; insert (1,4), (2,4),
    then [assign] 7 to key 1. *)
Definition scenario5 : @M Z Z _ _ ptr :=
  insert_value (1, 4);; insert_value (2, 4);;
  o ← map_find 1; match o with Some p => assign p 7 | None => throw out_of_range end.

(** Scenario 6: capacity 3, LRU, entries 1 2 3; [extract(2)], then
    [insert] of the node. *)
Definition scenario6_setup : @M Z Z _ _ (ptr * bool) :=
  insert_value (1, 0);; insert_value (2, 0);; insert_value (3, 0).

Definition reinsert_key (k : Z) : @M Z Z _ _ (ptr * bool) :=
  o ← extract_key k; match o with Some p => insert_node p | None => throw out_of_range end.

(** The observable state: keys in replacement order, keys of the index
    and the weight. *)
Definition observe (st : @fstate Z Z _ _) : option (list Z) * list Z * Z :=
  (keys_in_order st, index_keys st, _weight (_manager st.1)).

(** the six end-to-end scenarios of the specification.
    Scenario 1 (LRU): the non-quiet [find(1)] moves key 1 to the tail, so
    inserting key 4 into the full container evicts key 2: the order is 3,
    1, 4 and the entries are 1, 3, 4.  Scenarios 2 and 3: a range insert
    into a FIFO container evicts the oldest entry to make room for both
    new keys; when every entry is locked, an insertion into a full
    container throws [no_space_error] and leaves the container as it was.
    Scenarios 4, 5 and 6: the priority policy selects the entry of least
    priority (key 2) and evicting it keeps the FIFO order of the others;
    [assign] that grows key 1's weight from 4 to 7 evicts key 2 and never
    key 1 itself; extracting key 2 and inserting its node again puts it
    at the LRU tail. *)
Example spec_scenarios :
  observe (scenario1 (empty_map 3 unit_weight lru)).1 = (Some [3; 1; 4], [1; 3; 4], 3) /\
  observe (scenario2 (empty_map 3 unit_weight fifo)).1 = (Some [2; 3; 4], [2; 3; 4], 3) /\
  (let st := (scenario3_setup (empty_map 2 unit_weight all_locked_fifo)).1 in
   insert_value (3, 0) st = (st, inl no_space_error) /\ observe st = (Some [1; 2], [1; 2], 2)) /\
  (let st := (scenario4_setup (empty_map 5 unit_weight priority_fifo)).1 in
   (manager_next st).2 = inr (Some 2) /\
   observe (free_space 1 st).1 = (Some [0; 1; 3; 4], [0; 1; 3; 4], 4)) /\
  observe (scenario5 (empty_map 10 value_weight lru)).1 = (Some [1], [1], 7) /\
  observe (reinsert_key 2 (scenario6_setup (empty_map 3 unit_weight lru)).1).1 = (Some [1; 3; 2], [1; 2; 3], 3).
Proof. vm_compute. split_and!; reflexivity. Qed.

(** A range whose [size_t] sum of weights wraps: capacity [SIZE_MAX],
    weight = mapped value, entries of weight 10 and [SIZE_MAX - 4]. *)
Definition wrap_range : list (Z * Z) := [(1, 10); (2, size_modulus - 5)].

(** An initializer list whose [size_t] sum of weights wraps to 0:
    weights 10, 10 and [SIZE_MAX - 19], assigned to a container of
    capacity 10 holding keys 1 and 2 of weight 4. *)
Definition wrap_list : list (Z * Z) := [(3, 10); (4, 10); (5, size_modulus - 20)].

Definition two_entries : @fstate Z Z _ _ :=
  ((insert_value (1, 4);; insert_value (2, 4)) (empty_map 10 value_weight lru)).1.

(** the weight checks of the range insert and of
    [operator=(initializer_list)] add weights in [size_t].  The range
    insert: 10 + (SIZE_MAX - 4) wraps to 5, which passes the check
    against the capacity and [provideSpace], so both entries are accepted
    although their weights add up to more than the capacity; the
    manager's weight is 5 and the container's invariant is broken
    ([insert_range_spec] excludes this by its bound on the weights).  The
    list assignment: 10 + 10 + (SIZE_MAX - 19) wraps to 0, which passes
    the check made before the container is cleared; the range insert
    that follows then throws [no_space_error], so the assignment throws
    after erasing the old entries, which the source asserts cannot
    happen ([assign_list_spec] excludes this by its bound on the exact
    sum).  And the check counts every element of the list, duplicates
    included: two entries of the same key, each of weight 1, are refused
    by a container of capacity 1, which the range insert of the same
    list fills. *)
Example range_weight_checks :
  (let st := (insert_range wrap_range (empty_map (size_modulus - 1) value_weight lru)).1 in
   observe st = (Some [1; 2], [1; 2], 5) /\
   _capacity (_manager st.1) < value_weight (1, 10) + value_weight (2, size_modulus - 5) /\
   ~ umap_inv st.1 st.2 [2; 3]%N) /\
  (observe two_entries = (Some [1; 2], [1; 2], 8) /\
   (assign_list wrap_list two_entries).2 = inl no_space_error /\
   observe (assign_list wrap_list two_entries).1 = (Some [], [], 0)) /\
  (let st := empty_map 1 unit_weight lru in
   assign_list [(1, 0); (1, 5)] st = (st, inl no_space_error) /\
   observe (insert_range [(1, 0); (1, 5)] st).1 = (Some [1], [1], 1)).
Proof.
  split; [|split]; [intros st; split_and!| |]; [vm_compute; reflexivity|vm_compute; reflexivity| | |].
  - intros Hinv. apply (bool_decide_pack _) in Hinv. vm_compute in Hinv. exact Hinv.
  - vm_compute. split_and!; reflexivity.
  - vm_compute. split_and!; reflexivity.
Qed.

(** Two new entries weighing [2^63] each: their [size_t] sum wraps to
    [0], while each fits the bound of the range insert. *)
Definition half_list : list (Z * Z) := [(3, 2 ^ 63); (4, 2 ^ 63)].

Lemma two_entries_policy : _policy (_manager two_entries.1) = lru.
Proof. vm_compute. reflexivity. Qed.

Lemma assign_list_wrap_witness :
  exists um' h' r, assign_list half_list (two_entries.1, two_entries.2) = ((um', h'), r) /\
    (forall k, k ∉ half_list.*1 -> _map um' !! k = None) /\ (r = inl no_space_error -> _map um' = ∅).
Proof.
  apply (assign_list_wrap _ _ [2; 3]%N); [rewrite two_entries_policy; apply _| | |split; vm_compute; [congruence|reflexivity]].
  - apply (bool_decide_unpack _). vm_compute. reflexivity.
  - intros v Hv. repeat (apply elem_of_cons in Hv as [->|Hv]; [vm_compute; reflexivity|]).
    by apply elem_of_nil in Hv.
Defined.

(** the copies.  The copy constructor rebuilds the replacement
    list in the index's iteration order, not in the original's
    replacement order: after [find(1)] the LRU container [map3] has the
    order 2, 3, 1, its copy the same entries in the order 3, 2, 1, so
    inserting key 4 into the full original evicts key 2, and into the
    full copy key 3.  And the copy assignment has no self-assignment
    check: [m = m] clears the index before it reads [m]'s entries, so it
    returns normally and leaves [map3] empty. *)
Example copy_behaviours :
  let orig := (find 1 map3).1 in
  let copy := (copy_construct orig 100%N).1 in
  observe orig = (Some [2; 3; 1], [1; 2; 3], 3) /\
  observe copy = (Some [3; 2; 1], [1; 2; 3], 3) /\
  index_keys (insert_value (4, 40) orig).1 = [1; 3; 4] /\
  index_keys (insert_value (4, 40) copy).1 = [1; 2; 4] /\
  observe map3 = (Some [1; 2; 3], [1; 2; 3], 3) /\
  (copy_assign None 100%N map3).2 = inr () /\
  observe (copy_assign None 100%N map3).1 = (Some [], [], 0).
Proof. vm_compute. split_and!; reflexivity. Qed.

End scenarios.
